(** * Minimum spanning tree kernel (mst.c): data structures and algorithms

    A shallow embedding of the MST kernel of [src/mst.c] and the proofs of
    its specified properties.

    Conventions of the embedding.
    - A C [int] is a [Z].  Integer division and remainder are C's truncating
      ones ([Z.quot], [Z.rem]).  Under the well-formedness conditions stated
      with each theorem every value stays inside the 32-bit range.
    - A C array is a [list]; reading or writing outside the allocated block
      has no defined behaviour and yields [None].  A cell of a block obtained
      from [malloc]/[realloc] that was never written is [None] in a list of
      cells ([cell A = option A]) and reading it yields [None] as well.
    - Loops whose trip count is fixed on entry are structural recursions on
      that count; the other loops and the recursive functions take a [fuel]
      argument, and [None] is returned when it runs out.
    - The edge list, a flat block of [3·E] ints read and written three at a
      time ([copyEdge]), is a list of [Edge] records: slot [k] stands for
      the ints [3k], [3k+1], [3k+2]. *)

From stdpp Require Import base option list sorting strings gmap pretty.
From Stdlib Require Import ZArith Lia.

Local Open Scope Z_scope.

(** ** Constants *)

Definition EDGE_MEMBERS : Z := 3.
Definition UNSET_ELEMENT : Z := -1.
Definition INT_MAX : Z := 2147483647.

(** ** Arrays indexed by a C int *)

Definition rd {A} (l : list A) (i : Z) : option A :=
  if decide (0 ≤ i) then l !! Z.to_nat i else None.

Definition wr {A} (l : list A) (i : Z) (x : A) : option (list A) :=
  if decide (0 ≤ i < Z.of_nat (length l)) then Some (<[Z.to_nat i := x]> l)
  else None.

(** A block whose cells may be uninitialised. *)
Definition cell (A : Type) : Type := option A.

Definition rdc {A} (l : list (cell A)) (i : Z) : option A :=
  c ← rd l i; c.

Definition wrc {A} (l : list (cell A)) (i : Z) (x : A) : option (list (cell A)) :=
  wr l i (Some x).

Section array_lemmas.
Context {A : Type}.
Implicit Types (l : list A) (i j : Z) (x : A).

Lemma rd_Some_range l i x : rd l i = Some x → 0 ≤ i < Z.of_nat (length l).
Proof.
  unfold rd. case_decide; [|done]. intros H1%lookup_lt_Some. lia.
Qed.

Lemma rd_in_range l i : 0 ≤ i < Z.of_nat (length l) → is_Some (rd l i).
Proof.
  intros ?. unfold rd. rewrite decide_True by lia.
  apply lookup_lt_is_Some. lia.
Qed.

Lemma rd_None_range l i : rd l i = None → ¬ (0 ≤ i < Z.of_nat (length l)).
Proof.
  intros H1 H2. apply rd_in_range in H2 as [? ?]. congruence.
Qed.

Lemma wr_Some l i x l' :
  wr l i x = Some l' →
  0 ≤ i < Z.of_nat (length l) ∧ l' = <[Z.to_nat i := x]> l.
Proof. unfold wr. case_decide; [|done]. by intros [= <-]. Qed.

Lemma wr_in_range l i x :
  0 ≤ i < Z.of_nat (length l) → wr l i x = Some (<[Z.to_nat i := x]> l).
Proof. intros ?. unfold wr. by rewrite decide_True. Qed.

Lemma wr_length l i x l' : wr l i x = Some l' → length l' = length l.
Proof. intros [_ ->]%wr_Some. apply length_insert. Qed.

Lemma rd_wr_eq l i x l' : wr l i x = Some l' → rd l' i = Some x.
Proof.
  intros [? ->]%wr_Some. unfold rd. rewrite decide_True by lia.
  apply list_lookup_insert_eq. lia.
Qed.

Lemma rd_wr_ne l i j x l' : wr l i x = Some l' → j ≠ i → rd l' j = rd l j.
Proof.
  intros [? ->]%wr_Some ?. unfold rd. case_decide; [|done].
  apply list_lookup_insert_ne. lia.
Qed.

Lemma rd_wr l i j x l' :
  wr l i x = Some l' → rd l' j = if decide (j = i) then Some x else rd l j.
Proof.
  intros Hw. case_decide; [subst; eauto using rd_wr_eq|eauto using rd_wr_ne].
Qed.

Lemma rd_ext l1 l2 :
  length l1 = length l2 → (∀ i, rd l1 i = rd l2 i) → l1 = l2.
Proof.
  intros Hl H. apply list_eq. intros n.
  specialize (H (Z.of_nat n)). unfold rd in H.
  rewrite !decide_True, !Nat2Z.id in H by lia. done.
Qed.
End array_lemmas.

Section cell_lemmas.
Context {A : Type}.
Implicit Types (l : list (cell A)) (i j : Z) (x : A).

Lemma rdc_Some_range l i x : rdc l i = Some x → 0 ≤ i < Z.of_nat (length l).
Proof.
  unfold rdc. destruct (rd l i) as [c|] eqn:Hr; [|done].
  intros _. by eapply rd_Some_range.
Qed.

Lemma wrc_is_Some l i x :
  0 ≤ i < Z.of_nat (length l) → ∃ l', wrc l i x = Some l'.
Proof. intros ?. eexists. by apply wr_in_range. Qed.

Lemma wrc_length l i x l' : wrc l i x = Some l' → length l' = length l.
Proof. apply wr_length. Qed.

Lemma rdc_wrc l i j x l' :
  wrc l i x = Some l' →
  rdc l' j = if decide (j = i) then Some x else rdc l j.
Proof.
  intros Hw. unfold rdc. rewrite (rd_wr _ _ _ _ _ Hw). by case_decide.
Qed.

(** A block that is initialised throughout. *)
Lemma rdc_fmap_Some (xs : list A) i : rdc (Some <$> xs) i = rd xs i.
Proof.
  unfold rdc, rd. case_decide; [|done]. rewrite list_lookup_fmap.
  by destruct (xs !! Z.to_nat i).
Qed.
End cell_lemmas.

(** ** Disjoint-set forest ([struct Set]) *)

Module DisjointSet.

(** [struct Set]; the name [Set] is reserved, hence [SetForest]. *)
Record SetForest := mkSet {
  elements : Z;
  canonicalElements : list Z;
  rank : list Z
}.

Definition with_canonicalElements (set : SetForest) (ce : list Z) : SetForest :=
  {| elements := elements set; canonicalElements := ce; rank := rank set |}.

Definition with_rank (set : SetForest) (rk : list Z) : SetForest :=
  {| elements := elements set; canonicalElements := canonicalElements set;
     rank := rk |}.

(** [newSet]: every parent slot is the root marker (the [memset] with
    [UNSET_ELEMENT = -1] fills every int with [-1]) and every rank is 0. *)
Definition newSet (n : Z) : SetForest :=
  {| elements := n;
     canonicalElements := replicate (Z.to_nat n) UNSET_ELEMENT;
     rank := replicate (Z.to_nat n) 0 |}.

(** [findSet]: the canonical element of [vertex], with path compression. *)
Fixpoint findSet (fuel : nat) (set : SetForest) (vertex : Z)
  : option (SetForest * Z) :=
  match fuel with
  | O => None
  | S fuel =>
      c ← rd (canonicalElements set) vertex;
      if decide (c = UNSET_ELEMENT) then Some (set, vertex)
      else
        '(set1, r) ← findSet fuel set c;
        ce ← wr (canonicalElements set1) vertex r;
        r' ← rd ce vertex;
        Some (with_canonicalElements set1 ce, r')
  end.

(** [unionSet]: union by rank of the sets of [parent1] and [parent2]. *)
Definition unionSet (fuel : nat) (set : SetForest) (parent1 parent2 : Z)
  : option SetForest :=
  '(set1, root1) ← findSet fuel set parent1;
  '(set2, root2) ← findSet fuel set1 parent2;
  if decide (root1 = root2) then Some set2
  else
    r1 ← rd (rank set2) root1;
    r2 ← rd (rank set2) root2;
    if decide (r1 < r2) then
      ce ← wr (canonicalElements set2) root1 root2;
      Some (with_canonicalElements set2 ce)
    else if decide (r1 > r2) then
      ce ← wr (canonicalElements set2) root2 root1;
      Some (with_canonicalElements set2 ce)
    else
      ce ← wr (canonicalElements set2) root1 root2;
      rk ← wr (rank set2) root2 (r1 + 1);
      Some (with_rank (with_canonicalElements set2 ce) rk).

(** *** The forest read off the parent slots *)

(** [reach cs x r n]: following the parent slots from [x] arrives at the
    root [r] after [n] steps. *)
Inductive reach (cs : list Z) : Z → Z → nat → Prop :=
| reach_root x :
    rd cs x = Some UNSET_ELEMENT → reach cs x x 0
| reach_step x p r n :
    rd cs x = Some p → p ≠ UNSET_ELEMENT → reach cs p r n →
    reach cs x r (S n).

(** [on_path cs x y]: [y] lies on the parent path that starts at [x]. *)
Inductive on_path (cs : list Z) : Z → Z → Prop :=
| on_path_here x : on_path cs x x
| on_path_next x p y :
    rd cs x = Some p → p ≠ UNSET_ELEMENT → on_path cs p y →
    on_path cs x y.

Definition root_of (cs : list Z) (x r : Z) : Prop := ∃ n, reach cs x r n.

Definition is_root (cs : list Z) (r : Z) : Prop :=
  rd cs r = Some UNSET_ELEMENT.

(** A disjoint-set forest state: both arrays have one slot per element and
    every element reaches a root. *)
Record forest (set : SetForest) : Prop := {
  forest_elements : 0 ≤ elements set;
  forest_len_ce : Z.of_nat (length (canonicalElements set)) = elements set;
  forest_len_rank : Z.of_nat (length (rank set)) = elements set;
  forest_reach : ∀ x, 0 ≤ x < elements set →
                      ∃ r, root_of (canonicalElements set) x r
}.


(** *** Basic facts about parent paths *)

Lemma reach_det cs x r1 n1 r2 n2 :
  reach cs x r1 n1 → reach cs x r2 n2 → r1 = r2 ∧ n1 = n2.
Proof.
  intros H1. revert r2 n2.
  induction H1 as [x Hx|x p r n Hx Hp H1 IH]; intros r2 n2 H2;
    inversion H2; subst; try congruence; [done|].
  assert (p0 = p) as -> by congruence.
  destruct (IH _ _ ltac:(eassumption)) as [-> ->]. done.
Qed.

Lemma root_of_det cs x r1 r2 : root_of cs x r1 → root_of cs x r2 → r1 = r2.
Proof. intros [? H1] [? H2]. by destruct (reach_det _ _ _ _ _ _ H1 H2). Qed.

Lemma reach_is_root cs x r n : reach cs x r n → is_root cs r.
Proof. induction 1; auto. Qed.

Lemma reach_range cs x r n : reach cs x r n → 0 ≤ x < Z.of_nat (length cs).
Proof. destruct 1; eauto using rd_Some_range. Qed.

Lemma reach_root_range cs x r n :
  reach cs x r n → 0 ≤ r < Z.of_nat (length cs).
Proof. intros H%reach_is_root. eauto using rd_Some_range. Qed.

Lemma is_root_reach cs r : is_root cs r → reach cs r r 0.
Proof. by constructor. Qed.

Lemma on_path_reach cs x y r n :
  reach cs x r n → on_path cs x y → ∃ m, reach cs y r m ∧ (m ≤ n)%nat.
Proof.
  intros Hr Hp. revert r n Hr.
  induction Hp as [x|x p y Hx Hne Hp IH]; intros r n Hr; [eauto|].
  inversion Hr; subst; [congruence|].
  assert (p0 = p) as -> by congruence.
  destruct (IH _ _ ltac:(eassumption)) as (m & ? & ?). exists m. split; [done|lia].
Qed.

Lemma on_path_root cs x r n : reach cs x r n → on_path cs x r.
Proof. induction 1; eauto using on_path. Qed.

Lemma on_path_is_root cs x y r n :
  reach cs x r n → on_path cs x y → is_root cs y → y = r.
Proof.
  intros Hr Hp Hy. destruct (on_path_reach _ _ _ _ _ Hr Hp) as (m & Hm & _).
  by destruct (reach_det _ _ _ _ _ _ Hm (is_root_reach _ _ Hy)).
Qed.

Lemma on_path_dec cs x r n y :
  reach cs x r n → on_path cs x y ∨ ¬ on_path cs x y.
Proof.
  induction 1 as [x Hx|x p r n Hx Hne Hr IH].
  - destruct (decide (y = x)) as [->|]; [left; constructor|right].
    inversion 1; subst; congruence.
  - destruct (decide (y = x)) as [->|]; [left; constructor|].
    destruct IH as [IH|IH]; [left; econstructor; eauto|right].
    inversion 1; subst; [done|]. apply IH. congruence.
Qed.

(** *** [findSet] *)

(** What [findSet] does to the parent slots: the result of compressing the
    path of [x] onto the root [r]. *)
Definition compressed (cs cs' : list Z) (x r : Z) : Prop :=
  length cs' = length cs ∧
  (∀ y, on_path cs x y → y ≠ r → rd cs' y = Some r) ∧
  (∀ y, ¬ on_path cs x y → rd cs' y = rd cs y) ∧
  rd cs' r = Some UNSET_ELEMENT.

Lemma findSet_reach n : ∀ fuel set x r,
  reach (canonicalElements set) x r n → (n < fuel)%nat →
  ∃ set', findSet fuel set x = Some (set', r) ∧
          rank set' = rank set ∧ elements set' = elements set ∧
          compressed (canonicalElements set) (canonicalElements set') x r.
Proof.
  induction n as [|n IH]; intros fuel set x r Hr Hf;
    (destruct fuel as [|fuel]; [lia|]);
    inversion Hr as [? H0|? p ? ? H0 Hne Hr']; subst; simpl.
  - rewrite H0. cbn [mbind option_bind]. rewrite decide_True by done.
    exists set. repeat split; auto.
    intros y Hy Hne. inversion Hy; subst; congruence.
  - rewrite H0. cbn [mbind option_bind]. rewrite decide_False by done.
    destruct (IH fuel set p r) as (set1 & -> & Hrk & Hel & Hlen & Hon & Hoff & Hroot);
      [done|lia|]. cbn [mbind option_bind].
    assert (is_root (canonicalElements set) r) as Hisr by eauto using reach_is_root.
    assert (x ≠ r) as Hxr by (intros ->; unfold is_root in Hisr; congruence).
    pose proof (rd_Some_range _ _ _ H0) as Hrange.
    rewrite wr_in_range by (rewrite Hlen; lia). cbn [mbind option_bind].
    set (ce := <[Z.to_nat x:=r]> (canonicalElements set1)).
    assert (wr (canonicalElements set1) x r = Some ce) as Hwr
      by (apply wr_in_range; rewrite Hlen; lia).
    rewrite (rd_wr_eq _ _ _ _ Hwr). cbn [mbind option_bind].
    eexists. split; [done|]. simpl. repeat split; auto.
    + unfold ce. by rewrite length_insert.
    + intros y Hy Hyr. rewrite (rd_wr _ _ y _ _ Hwr). case_decide; [done|].
      inversion Hy; subst; [done|].
      assert (p0 = p) as -> by congruence. auto.
    + intros y Hy. rewrite (rd_wr _ _ y _ _ Hwr).
      rewrite decide_False by (intros ->; apply Hy; constructor).
      apply Hoff. intros Hp. apply Hy. econstructor; eauto.
    + by rewrite (rd_wr _ _ r _ _ Hwr), decide_False.
Qed.

(** Compressing a path moves no element to another root and lengthens no
    path. *)
Lemma compressed_reach cs cs' x r n y ry m :
  reach cs x r n → compressed cs cs' x r → reach cs y ry m →
  ∃ m', reach cs' y ry m' ∧ (m' ≤ m)%nat.
Proof.
  intros Hx (Hlen & Hon & Hoff & Hroot) Hy.
  induction Hy as [y Hy|y p ry m Hy Hne Hp IH].
  - exists 0%nat. split; [|lia]. constructor.
    destruct (decide (y = r)) as [->|Hyr]; [done|].
    rewrite Hoff; [done|]. intros Hpath. apply Hyr.
    eapply on_path_is_root; eauto.
  - destruct IH as (m' & Hm' & Hle).
    destruct (on_path_dec _ _ _ _ y Hx) as [Hpath|Hpath].
    + destruct (on_path_reach _ _ _ _ _ Hx Hpath) as (k & Hk & _).
      assert (ry = r) as ->.
      { eapply reach_det; [|exact Hk]. econstructor; eauto. }
      assert (y ≠ r) as Hyr.
      { intros ->. apply reach_is_root in Hx. unfold is_root in Hx. congruence. }
      exists 1%nat. split; [|lia].
      econstructor; [by apply Hon| |by constructor].
      apply reach_root_range in Hx. unfold UNSET_ELEMENT. lia.
    + exists (S m'). split; [|lia]. econstructor; eauto. by rewrite Hoff.
Qed.

Lemma findSet_fuel_mono fuel : ∀ fuel' set x res,
  findSet fuel set x = Some res → (fuel ≤ fuel')%nat →
  findSet fuel' set x = Some res.
Proof.
  induction fuel as [|fuel IH]; intros fuel' set x res H Hle; [done|].
  destruct fuel' as [|fuel']; [lia|]. simpl in *.
  destruct (rd (canonicalElements set) x) as [c|]; [|done].
  cbn [mbind option_bind] in *. case_decide; [done|].
  destruct (findSet fuel set c) as [[set1 r]|] eqn:Hrec; [|done].
  rewrite (IH fuel' _ _ _ Hrec) by lia. done.
Qed.

(** A parent path visits no element twice, so it is shorter than the
    array. *)
Lemma reach_nodes cs x r n :
  reach cs x r n →
  ∃ l : list nat, length l = S n ∧ NoDup l ∧
    ∀ k, k ∈ l → (k < length cs)%nat ∧ on_path cs x (Z.of_nat k).
Proof.
  induction 1 as [x Hx|x p r n Hx Hne Hr (l & Hlen & Hnd & Hl)].
  - exists [Z.to_nat x]. apply rd_Some_range in Hx.
    split; [done|]. split; [apply NoDup_singleton|].
    intros k ->%list_elem_of_singleton. split; [lia|].
    rewrite Z2Nat.id by lia. constructor.
  - exists (Z.to_nat x :: l). pose proof (rd_Some_range _ _ _ Hx).
    split; [simpl; lia|]. split.
    + constructor; [|done]. intros [_ Hon]%Hl. rewrite Z2Nat.id in Hon by lia.
      destruct (on_path_reach _ _ _ _ _ Hr Hon) as (m & Hm & ?).
      destruct (reach_det _ _ _ _ _ _ Hm (reach_step _ _ _ _ _ Hx Hne Hr)). lia.
    + intros k [->|[? ?]%Hl]%elem_of_cons.
      * split; [lia|]. rewrite Z2Nat.id by lia. constructor.
      * split; [done|]. econstructor; eauto.
Qed.

Lemma reach_bound cs x r n : reach cs x r n → (n < length cs)%nat.
Proof.
  intros (l & Hlen & Hnd & Hl)%reach_nodes.
  assert (l ⊆+ seq 0 (length cs)) as Hsub%submseteq_length.
  { apply NoDup_submseteq; [done|]. intros k [? _]%Hl.
    apply elem_of_seq. lia. }
  rewrite length_seq in Hsub. lia.
Qed.

Lemma compressed_forest set set' x r n :
  forest set → reach (canonicalElements set) x r n →
  rank set' = rank set → elements set' = elements set →
  compressed (canonicalElements set) (canonicalElements set') x r →
  forest set'.
Proof.
  intros [? ? ? Hreach] Hx Hrk Hel Hc. split.
  - by rewrite Hel.
  - rewrite Hel. destruct Hc as [-> _]. done.
  - by rewrite Hrk, Hel.
  - rewrite Hel. intros y [ry [m Hy]]%Hreach.
    destruct (compressed_reach _ _ _ _ _ _ _ _ Hx Hc Hy) as (m' & ? & _).
    exists ry, m'. done.
Qed.

Lemma findSet_forest set x :
  forest set → 0 ≤ x < elements set →
  ∃ r n set',
    reach (canonicalElements set) x r n ∧
    (∀ fuel, (length (canonicalElements set) ≤ fuel)%nat →
             findSet fuel set x = Some (set', r)) ∧
    rank set' = rank set ∧ elements set' = elements set ∧
    compressed (canonicalElements set) (canonicalElements set') x r ∧
    forest set'.
Proof.
  intros Hf Hx. destruct (forest_reach _ Hf x Hx) as (r & n & Hr).
  destruct (findSet_reach n (S n) set x r Hr) as (set' & Hfind & Hrk & Hel & Hc);
    [lia|].
  exists r, n, set'. split; [done|]. split.
  { intros fuel Hfuel. eapply findSet_fuel_mono; [done|].
    apply reach_bound in Hr. lia. }
  eauto 10 using compressed_forest.
Qed.

(** C5. On a disjoint-set forest, [findSet x] returns the canonical root [r]
    of [x]; afterwards the parent slot of every element on the path from [x]
    (the root apart, which stays the root) holds [r], the slots off the
    path are as before, and the rank array and the element count are
    untouched. The call returns for every fuel that is at least the number
    of elements. *)
Theorem findSet_path_compression set x :
  forest set → 0 ≤ x < elements set →
  ∃ r set',
    root_of (canonicalElements set) x r ∧
    (∀ fuel, (length (canonicalElements set) ≤ fuel)%nat →
             findSet fuel set x = Some (set', r)) ∧
    (∀ y, on_path (canonicalElements set) x y → y ≠ r →
          rd (canonicalElements set') y = Some r) ∧
    is_root (canonicalElements set') r ∧
    (∀ y, ¬ on_path (canonicalElements set) x y →
          rd (canonicalElements set') y = rd (canonicalElements set) y) ∧
    rank set' = rank set ∧ elements set' = elements set ∧ forest set'.
Proof.
  intros Hf Hx.
  destruct (findSet_forest set x Hf Hx)
    as (r & n & set' & Hr & Hfind & Hrk & Hel & (_ & Hon & Hoff & Hroot) & Hf').
  exists r, set'. split; [by exists n|]. by repeat (split; [done|]).
Qed.

(** C5, at a concrete forest: the chain 0 → 1 → 2 with 3 on its own. *)
Lemma findSet_path_compression_witness :
  ∃ r set',
    root_of [1; 2; -1; -1] 0 r ∧
    (∀ fuel, (4 ≤ fuel)%nat →
       findSet fuel (mkSet 4 [1; 2; -1; -1] [0; 1; 2; 0]) 0 = Some (set', r)) ∧
    (∀ y, on_path [1; 2; -1; -1] 0 y → y ≠ r →
          rd (canonicalElements set') y = Some r) ∧
    is_root (canonicalElements set') r ∧
    (∀ y, ¬ on_path [1; 2; -1; -1] 0 y →
          rd (canonicalElements set') y = rd [1; 2; -1; -1] y) ∧
    rank set' = [0; 1; 2; 0] ∧ elements set' = 4 ∧ forest set'.
Proof.
  apply (findSet_path_compression (mkSet 4 [1; 2; -1; -1] [0; 1; 2; 0]) 0);
    [|simpl; lia].
  split; simpl; [lia|done|done|].
  intros x Hx.
  assert (x = 0 ∨ x = 1 ∨ x = 2 ∨ x = 3) as [-> | [-> | [-> | ->]]] by lia.
  - exists 2, 2%nat. eapply reach_step; [reflexivity|done|].
    eapply reach_step; [reflexivity|done|]. by apply reach_root.
  - exists 2, 1%nat. eapply reach_step; [reflexivity|done|]. by apply reach_root.
  - exists 2, 0%nat. by apply reach_root.
  - exists 3, 0%nat. by apply reach_root.
Defined.


(** *** [unionSet] *)

Lemma compressed_root_of cs cs' x r n y ry :
  reach cs x r n → compressed cs cs' x r → root_of cs y ry → root_of cs' y ry.
Proof.
  intros Hx Hc [m Hy].
  destruct (compressed_reach _ _ _ _ _ _ _ _ Hx Hc Hy) as (m' & ? & _).
  by exists m'.
Qed.

Lemma compressed_is_root cs cs' x r n y :
  reach cs x r n → compressed cs cs' x r → is_root cs y ↔ is_root cs' y.
Proof.
  intros Hx (Hlen & Hon & Hoff & Hroot). unfold is_root.
  destruct (decide (y = r)) as [->|Hyr].
  { split; [done|]. intros _. by eapply reach_is_root. }
  destruct (on_path_dec _ _ _ _ y Hx) as [Hp|Hp].
  - rewrite (Hon y Hp Hyr). split.
    + intros Hy. destruct Hyr. eapply on_path_is_root; eauto.
    + intros [= Hr]. apply reach_root_range in Hx. unfold UNSET_ELEMENT in Hr. lia.
  - by rewrite (Hoff y Hp).
Qed.

(** Hanging the root [ra] under another root [rb] moves exactly the elements
    of [ra] to [rb]. *)
Lemma link_reach cs cs' ra rb y ry m :
  is_root cs ra → is_root cs rb → ra ≠ rb → wr cs ra rb = Some cs' →
  reach cs y ry m →
  ∃ m', reach cs' y (if decide (ry = ra) then rb else ry) m'.
Proof.
  intros Hra Hrb Hne Hwr Hy.
  assert (reach cs' rb rb 0) as Hrb'.
  { constructor. by rewrite (rd_wr _ _ rb _ _ Hwr), decide_False. }
  assert (rb ≠ UNSET_ELEMENT) as Hrbu.
  { apply rd_Some_range in Hrb. unfold UNSET_ELEMENT. lia. }
  induction Hy as [y Hy|y p ry m Hy Hp Hr (m' & IH)].
  - case_decide as Hd.
    + subst y. exists 1%nat. eapply reach_step; [|exact Hrbu|exact Hrb'].
      by rewrite (rd_wr _ _ ra _ _ Hwr), decide_True.
    + exists 0%nat. constructor. by rewrite (rd_wr _ _ y _ _ Hwr), decide_False.
  - exists (S m'). eapply reach_step; [|exact Hp|exact IH].
    rewrite (rd_wr _ _ y _ _ Hwr), decide_False; [done|].
    intros ->. unfold is_root in Hra. congruence.
Qed.

Lemma link_forest set ce ra rb :
  forest set →
  is_root (canonicalElements set) ra → is_root (canonicalElements set) rb →
  ra ≠ rb → wr (canonicalElements set) ra rb = Some ce →
  forest (with_canonicalElements set ce).
Proof.
  intros [? ? ? Hreach] Hra Hrb Hne Hwr. split; simpl; try done.
  - by rewrite (wr_length _ _ _ _ Hwr).
  - intros y [ry [m Hy]]%Hreach.
    destruct (link_reach _ _ _ _ _ _ _ Hra Hrb Hne Hwr Hy) as [m' ?].
    eexists. by exists m'.
Qed.

Lemma with_rank_forest set rk :
  forest set → length rk = length (rank set) → forest (with_rank set rk).
Proof. intros [? ? ? ?] Hl. split; simpl; try done. by rewrite Hl. Qed.

(** The two [findSet] calls that open [unionSet]. *)
Lemma unionSet_finds set a b :
  forest set → 0 ≤ a < elements set → 0 ≤ b < elements set →
  ∃ ra rb set1 set2,
    root_of (canonicalElements set) a ra ∧
    root_of (canonicalElements set) b rb ∧
    (∀ fuel, (length (canonicalElements set) ≤ fuel)%nat →
       findSet fuel set a = Some (set1, ra) ∧
       findSet fuel set1 b = Some (set2, rb)) ∧
    rank set2 = rank set ∧ elements set2 = elements set ∧ forest set2 ∧
    length (canonicalElements set2) = length (canonicalElements set) ∧
    (∀ y ry, root_of (canonicalElements set) y ry →
             root_of (canonicalElements set2) y ry) ∧
    (∀ y, is_root (canonicalElements set) y ↔
          is_root (canonicalElements set2) y).
Proof.
  intros Hf Ha Hb.
  destruct (findSet_forest set a Hf Ha)
    as (ra & na & set1 & Hra & Hfa & Hrk1 & Hel1 & Hc1 & Hf1).
  destruct (findSet_forest set1 b Hf1 ltac:(by rewrite Hel1))
    as (rb & nb & set2 & Hrb & Hfb & Hrk2 & Hel2 & Hc2 & Hf2).
  assert (root_of (canonicalElements set) b rb) as Hrb0.
  { destruct (forest_reach _ Hf b Hb) as [rb' Hb'].
    pose proof (compressed_root_of _ _ _ _ _ _ _ Hra Hc1 Hb') as Hb1.
    by rewrite (root_of_det _ _ _ _ (ex_intro _ nb Hrb) Hb1). }
  exists ra, rb, set1, set2. split; [by exists na|]. split; [done|].
  pose proof Hc1 as [Hlen1 _]. pose proof Hc2 as [Hlen2 _].
  split_and!.
  - intros fuel Hfuel. split; [by apply Hfa|]. apply Hfb. by rewrite Hlen1.
  - congruence.
  - congruence.
  - done.
  - congruence.
  - intros y ry Hy. apply (compressed_root_of _ _ _ _ _ _ _ Hrb Hc2).
    apply (compressed_root_of _ _ _ _ _ _ _ Hra Hc1 Hy).
  - intros y. rewrite (compressed_is_root _ _ _ _ _ y Hra Hc1).
    apply (compressed_is_root _ _ _ _ _ y Hrb Hc2).
Qed.

(** The state [unionSet] leaves, given the state [set2] after its two
    [findSet] calls, the two roots and their ranks. *)
Definition linked (set2 : SetForest) (ra rb ka kb : Z) : SetForest :=
  if decide (ra = rb) then set2
  else if decide (ka < kb) then
    with_canonicalElements set2 (<[Z.to_nat ra := rb]> (canonicalElements set2))
  else if decide (ka > kb) then
    with_canonicalElements set2 (<[Z.to_nat rb := ra]> (canonicalElements set2))
  else
    with_rank
      (with_canonicalElements set2
         (<[Z.to_nat ra := rb]> (canonicalElements set2)))
      (<[Z.to_nat rb := ka + 1]> (rank set2)).

Lemma unionSet_linked set a b :
  forest set → 0 ≤ a < elements set → 0 ≤ b < elements set →
  ∃ ra rb ka kb set2,
    root_of (canonicalElements set) a ra ∧
    root_of (canonicalElements set) b rb ∧
    rd (rank set) ra = Some ka ∧ rd (rank set) rb = Some kb ∧
    (∀ fuel, (length (canonicalElements set) ≤ fuel)%nat →
       unionSet fuel set a b = Some (linked set2 ra rb ka kb)) ∧
    rank set2 = rank set ∧ elements set2 = elements set ∧ forest set2 ∧
    length (canonicalElements set2) = length (canonicalElements set) ∧
    (∀ y ry, root_of (canonicalElements set) y ry →
             root_of (canonicalElements set2) y ry) ∧
    (∀ y, is_root (canonicalElements set) y ↔
          is_root (canonicalElements set2) y).
Proof.
  intros Hf Ha Hb.
  destruct (unionSet_finds set a b Hf Ha Hb)
    as (ra & rb & set1 & set2 & Hra & Hrb & Hfind & Hrk & Hel & Hf2 & Hlen & Hroots & Hisr).
  assert (0 ≤ ra < elements set) as Hra_range.
  { destruct Hra as [n Hn%reach_root_range]. by rewrite <-(forest_len_ce _ Hf). }
  assert (0 ≤ rb < elements set) as Hrb_range.
  { destruct Hrb as [n Hn%reach_root_range]. by rewrite <-(forest_len_ce _ Hf). }
  destruct (rd_in_range (rank set) ra) as [ka Hka];
    [by rewrite (forest_len_rank _ Hf)|].
  destruct (rd_in_range (rank set) rb) as [kb Hkb];
    [by rewrite (forest_len_rank _ Hf)|].
  exists ra, rb, ka, kb, set2. split_and!; try done.
  intros fuel Hfuel. destruct (Hfind fuel Hfuel) as [Hfa Hfb].
  unfold unionSet, linked. rewrite Hfa. cbn [mbind option_bind].
  rewrite Hfb. cbn [mbind option_bind].
  case_decide; [done|]. rewrite Hrk, Hka, Hkb. cbn [mbind option_bind].
  pose proof (forest_len_ce _ Hf). pose proof (forest_len_rank _ Hf).
  repeat case_decide; rewrite ?wr_in_range by lia; cbn [mbind option_bind];
    rewrite ?wr_in_range by (simpl; lia); done.
Qed.

(** C4. On a disjoint-set forest, [unionSet a b] first looks up the two
    canonical roots [ra], [rb] with [findSet a] and [findSet b]; the lookups
    compress the paths they walk and leave the state [set2], with the ranks
    and the canonical root of every element as they were.  When [a] and [b]
    already share their root the call is a no-op: it returns [set2], no
    root is linked and no rank changes.  Otherwise the root of strictly
    lower rank is linked under the root of higher rank and no rank changes;
    with equal ranks [rb] becomes the parent of [ra] and the rank of [rb]
    grows by exactly one. *)
Theorem unionSet_by_rank set a b :
  forest set → 0 ≤ a < elements set → 0 ≤ b < elements set →
  ∃ ra rb ka kb set2 set',
    root_of (canonicalElements set) a ra ∧
    root_of (canonicalElements set) b rb ∧
    rd (rank set) ra = Some ka ∧ rd (rank set) rb = Some kb ∧
    (∀ fuel, (length (canonicalElements set) ≤ fuel)%nat →
       unionSet fuel set a b = Some set') ∧
    rank set2 = rank set ∧ elements set2 = elements set ∧ forest set2 ∧
    (∀ y ry, root_of (canonicalElements set) y ry →
             root_of (canonicalElements set2) y ry) ∧
    (ra = rb → set' = set2) ∧
    (ra ≠ rb → ka < kb →
       set' = with_canonicalElements set2
                (<[Z.to_nat ra := rb]> (canonicalElements set2))) ∧
    (ra ≠ rb → kb < ka →
       set' = with_canonicalElements set2
                (<[Z.to_nat rb := ra]> (canonicalElements set2))) ∧
    (ra ≠ rb → ka = kb →
       set' = with_rank
                (with_canonicalElements set2
                   (<[Z.to_nat ra := rb]> (canonicalElements set2)))
                (<[Z.to_nat rb := kb + 1]> (rank set))).
Proof.
  intros Hf Ha Hb.
  destruct (unionSet_linked set a b Hf Ha Hb)
    as (ra & rb & ka & kb & set2 & Hra & Hrb & Hka & Hkb & Hun & Hrk & Hel
        & Hf2 & Hlen & Hroots & Hisr).
  exists ra, rb, ka, kb, set2, (linked set2 ra rb ka kb).
  split_and!; try done; unfold linked; intros; repeat case_decide;
    try done; try lia.
  subst. by rewrite Hrk.
Qed.

(** C4, at a concrete forest: two singleton roots of equal rank. *)
Lemma unionSet_by_rank_witness :
  ∃ ra rb ka kb set2 set',
    root_of [-1; -1] 0 ra ∧ root_of [-1; -1] 1 rb ∧
    rd [0; 0] ra = Some ka ∧ rd [0; 0] rb = Some kb ∧
    (∀ fuel, (2 ≤ fuel)%nat →
       unionSet fuel (mkSet 2 [-1; -1] [0; 0]) 0 1 = Some set') ∧
    rank set2 = [0; 0] ∧ elements set2 = 2 ∧ forest set2 ∧
    (∀ y ry, root_of [-1; -1] y ry → root_of (canonicalElements set2) y ry) ∧
    (ra = rb → set' = set2) ∧
    (ra ≠ rb → ka < kb →
       set' = with_canonicalElements set2
                (<[Z.to_nat ra := rb]> (canonicalElements set2))) ∧
    (ra ≠ rb → kb < ka →
       set' = with_canonicalElements set2
                (<[Z.to_nat rb := ra]> (canonicalElements set2))) ∧
    (ra ≠ rb → ka = kb →
       set' = with_rank
                (with_canonicalElements set2
                   (<[Z.to_nat ra := rb]> (canonicalElements set2)))
                (<[Z.to_nat rb := kb + 1]> [0; 0])).
Proof.
  apply (unionSet_by_rank (mkSet 2 [-1; -1] [0; 0]) 0 1); [|simpl; lia..].
  split; simpl; [lia|done|done|].
  intros x Hx. assert (x = 0 ∨ x = 1) as [-> | ->] by lia.
  - exists 0, 0%nat. by apply reach_root.
  - exists 1, 0%nat. by apply reach_root.
Defined.

(** *** Counting the roots *)

(** The canonical elements of a forest, in index order. *)
Definition roots (cs : list Z) : list Z :=
  filter (λ i, rd cs i = Some UNSET_ELEMENT) (seqZ 0 (Z.of_nat (length cs))).

Definition nroots (cs : list Z) : Z := Z.of_nat (length (roots cs)).

(** Two elements are in the same set when they reach the same root. *)
Definition same (cs : list Z) (x y : Z) : Prop :=
  ∃ r, root_of cs x r ∧ root_of cs y r.

Lemma elem_of_roots cs i : i ∈ roots cs ↔ is_root cs i.
Proof.
  unfold roots, is_root. rewrite list_elem_of_filter, elem_of_seqZ.
  split; [tauto|]. intros H. split; [done|]. apply rd_Some_range in H. lia.
Qed.

Lemma NoDup_roots cs : NoDup (roots cs).
Proof. apply NoDup_filter, NoDup_seqZ. Qed.

Lemma nroots_equiv cs cs' :
  (∀ i, is_root cs i ↔ is_root cs' i) → nroots cs = nroots cs'.
Proof.
  intros H. unfold nroots. f_equal. apply Permutation_length.
  apply NoDup_Permutation; [apply NoDup_roots..|].
  intros i. by rewrite !elem_of_roots.
Qed.

Lemma nroots_link cs cs' ra rb :
  is_root cs ra → rb ≠ UNSET_ELEMENT → wr cs ra rb = Some cs' →
  nroots cs = nroots cs' + 1.
Proof.
  intros Hra Hrb Hwr. unfold nroots.
  assert (roots cs ≡ₚ ra :: roots cs') as ->; [|simpl; lia].
  apply NoDup_Permutation; [apply NoDup_roots| |].
  - constructor; [|apply NoDup_roots]. rewrite elem_of_roots. unfold is_root.
    rewrite (rd_wr_eq _ _ _ _ Hwr). congruence.
  - intros i. rewrite elem_of_cons, !elem_of_roots. unfold is_root.
    rewrite (rd_wr _ _ i _ _ Hwr). case_decide; [subst|]; naive_solver.
Qed.

Lemma nroots_ge_2 cs a b :
  is_root cs a → is_root cs b → a ≠ b → 2 ≤ nroots cs.
Proof.
  intros Ha Hb Hne. unfold nroots.
  assert ([a; b] ⊆+ roots cs) as Hsub%submseteq_length; [|simpl in Hsub; lia].
  apply NoDup_submseteq.
  - repeat constructor; set_solver.
  - intros i [->|[->|[]%elem_of_nil]%elem_of_cons]%elem_of_cons;
      by apply elem_of_roots.
Qed.

Lemma nroots_ge_1 cs a : is_root cs a → 1 ≤ nroots cs.
Proof.
  intros Ha%elem_of_roots. unfold nroots.
  destruct (roots cs); [by apply elem_of_nil in Ha|simpl; lia].
Qed.

Lemma nroots_one cs a :
  is_root cs a → (∀ b, is_root cs b → b = a) → nroots cs = 1.
Proof.
  intros Ha Huniq. unfold nroots.
  assert (roots cs ≡ₚ [a]) as ->; [|done].
  apply NoDup_Permutation; [apply NoDup_roots|apply NoDup_singleton|].
  intros i. rewrite elem_of_roots, list_elem_of_singleton. naive_solver.
Qed.

Lemma nroots_nonneg cs : 0 ≤ nroots cs.
Proof. unfold nroots. lia. Qed.

Lemma nroots_le_length cs : nroots cs ≤ Z.of_nat (length cs).
Proof.
  unfold nroots, roots.
  pose proof (length_filter (λ i, rd cs i = Some UNSET_ELEMENT)
                (seqZ 0 (Z.of_nat (length cs)))) as H.
  rewrite length_seqZ in H. lia.
Qed.

(** *** The fresh forest *)

Lemma rd_replicate {A} (x : A) n i :
  0 ≤ i < Z.of_nat n → rd (replicate n x) i = Some x.
Proof.
  intros ?. unfold rd. rewrite decide_True by lia.
  apply lookup_replicate_2. lia.
Qed.

Lemma newSet_forest n : 0 ≤ n → forest (newSet n).
Proof.
  intros ?. split; simpl; rewrite ?length_replicate; try lia.
  intros x Hx. exists x, 0%nat. constructor. apply rd_replicate. lia.
Qed.

Lemma newSet_nroots n : 0 ≤ n → nroots (canonicalElements (newSet n)) = n.
Proof.
  intros ?. unfold nroots. simpl.
  assert (roots (replicate (Z.to_nat n) UNSET_ELEMENT) ≡ₚ seqZ 0 n) as ->.
  { apply NoDup_Permutation; [apply NoDup_roots|apply NoDup_seqZ|].
    intros i. rewrite elem_of_roots, elem_of_seqZ. unfold is_root. split.
    - intros Hi%rd_Some_range. rewrite length_replicate in Hi. lia.
    - intros ?. apply rd_replicate. lia. }
  rewrite length_seqZ. lia.
Qed.

(** *** Sets and [same] *)

Lemma same_sym cs x y : same cs x y → same cs y x.
Proof. intros (r & ? & ?). by exists r. Qed.

Lemma same_trans cs x y z : same cs x y → same cs y z → same cs x z.
Proof.
  intros (r & Hx & Hy) (r' & Hy' & Hz).
  rewrite <-(root_of_det _ _ _ _ Hy Hy') in Hz. by exists r.
Qed.

Lemma same_refl set x :
  forest set → 0 ≤ x < elements set → same (canonicalElements set) x x.
Proof. intros Hf Hx. destruct (forest_reach _ Hf x Hx) as [r ?]. by exists r. Qed.

Lemma same_range cs x y :
  same cs x y →
  0 ≤ x < Z.of_nat (length cs) ∧ 0 ≤ y < Z.of_nat (length cs).
Proof. intros (r & [? ?%reach_range] & [? ?%reach_range]). done. Qed.

Lemma root_of_root cs r : is_root cs r → root_of cs r r.
Proof. intros ?. exists 0%nat. by constructor. Qed.

Lemma root_of_is_root cs x r : root_of cs x r → is_root cs r.
Proof. intros [n ?]. by eapply reach_is_root. Qed.

(** *** [findSet] and [unionSet] on the sets *)

Lemma findSet_ok set x :
  forest set → 0 ≤ x < elements set →
  ∃ r set',
    (∀ fuel, (length (canonicalElements set) ≤ fuel)%nat →
             findSet fuel set x = Some (set', r)) ∧
    root_of (canonicalElements set) x r ∧
    forest set' ∧ elements set' = elements set ∧
    (∀ y ry, root_of (canonicalElements set) y ry ↔
             root_of (canonicalElements set') y ry) ∧
    (∀ y, is_root (canonicalElements set) y ↔
          is_root (canonicalElements set') y) ∧
    nroots (canonicalElements set') = nroots (canonicalElements set).
Proof.
  intros Hf Hx.
  destruct (findSet_forest set x Hf Hx)
    as (r & n & set' & Hr & Hfind & Hrk & Hel & Hc & Hf').
  exists r, set'. split_and!; try done.
  - by exists n.
  - intros y ry. split; [by eapply compressed_root_of|].
    intros Hy'. assert (0 ≤ y < elements set) as Hy.
    { destruct Hy' as [k Hk%reach_range]. destruct Hc as [Hlen _].
      rewrite Hlen, (forest_len_ce _ Hf) in Hk. done. }
    destruct (forest_reach _ Hf y Hy) as [ry0 Hy0].
    pose proof (compressed_root_of _ _ _ _ _ _ _ Hr Hc Hy0) as Hy0'.
    by rewrite (root_of_det _ _ _ _ Hy' Hy0').
  - intros y. by eapply compressed_is_root.
  - symmetry. apply nroots_equiv. intros y. by eapply compressed_is_root.
Qed.

Lemma linked_shape set2 ra rb ka kb :
  ra ≠ rb →
  ∃ lose win,
    (lose = ra ∧ win = rb ∨ lose = rb ∧ win = ra) ∧
    canonicalElements (linked set2 ra rb ka kb)
      = <[Z.to_nat lose := win]> (canonicalElements set2) ∧
    elements (linked set2 ra rb ka kb) = elements set2 ∧
    length (rank (linked set2 ra rb ka kb)) = length (rank set2).
Proof.
  intros Hne. unfold linked. rewrite decide_False by done.
  repeat case_decide.
  - exists ra, rb. naive_solver.
  - exists rb, ra. naive_solver.
  - exists ra, rb. simpl. rewrite length_insert. naive_solver.
Qed.

Lemma unionSet_ok set a b :
  forest set → 0 ≤ a < elements set → 0 ≤ b < elements set →
  ∃ set',
    (∀ fuel, (length (canonicalElements set) ≤ fuel)%nat →
             unionSet fuel set a b = Some set') ∧
    forest set' ∧ elements set' = elements set ∧
    (∀ x y, same (canonicalElements set) x y →
            same (canonicalElements set') x y) ∧
    same (canonicalElements set') a b ∧
    (same (canonicalElements set) a b →
     nroots (canonicalElements set') = nroots (canonicalElements set)) ∧
    (¬ same (canonicalElements set) a b →
     nroots (canonicalElements set') = nroots (canonicalElements set) - 1) ∧
    (∀ y, is_root (canonicalElements set') y →
          is_root (canonicalElements set) y).
Proof.
  intros Hf Ha Hb.
  destruct (unionSet_linked set a b Hf Ha Hb)
    as (ra & rb & ka & kb & set2 & Hra & Hrb & Hka & Hkb & Hun & Hrk & Hel
        & Hf2 & Hlen & Hroots & Hisr).
  exists (linked set2 ra rb ka kb). split; [done|].
  assert (nroots (canonicalElements set2) = nroots (canonicalElements set))
    as Hn2 by (symmetry; by apply nroots_equiv).
  destruct (decide (ra = rb)) as [->|Hne].
  { unfold linked. rewrite decide_True by done. split_and!; try done.
    - intros x y (r & Hx & Hy). exists r. split; by apply Hroots.
    - exists rb. split; by apply Hroots.
    - intros Hns. destruct Hns. by exists rb.
    - intros y. by rewrite Hisr. }
  destruct (linked_shape set2 ra rb ka kb Hne)
    as (lose & win & Hlw & Hce & Helts & Hlrk).
  assert (is_root (canonicalElements set2) ra) as Hra2
    by (apply Hisr; by eapply root_of_is_root).
  assert (is_root (canonicalElements set2) rb) as Hrb2
    by (apply Hisr; by eapply root_of_is_root).
  assert (is_root (canonicalElements set2) lose ∧
          is_root (canonicalElements set2) win ∧ lose ≠ win)
    as (Hlose & Hwin & Hlw_ne) by (destruct Hlw as [[-> ->]|[-> ->]]; done).
  assert (wr (canonicalElements set2) lose win
          = Some (canonicalElements (linked set2 ra rb ka kb))) as Hwr.
  { rewrite Hce. apply wr_in_range. by eapply rd_Some_range. }
  assert (win ≠ UNSET_ELEMENT) as Hwin_u.
  { apply rd_Some_range in Hwin. unfold UNSET_ELEMENT. lia. }
  assert (∀ x r, root_of (canonicalElements set) x r →
            root_of (canonicalElements (linked set2 ra rb ka kb)) x
              (if decide (r = lose) then win else r)) as Hmap.
  { intros x r [m Hx]%Hroots.
    destruct (link_reach _ _ _ _ _ _ _ Hlose Hwin Hlw_ne Hwr Hx) as [m' ?].
    by exists m'. }
  split_and!.
  - destruct Hf2 as [? ? ? ?]. split.
    + by rewrite Helts.
    + rewrite Helts, Hce, length_insert. done.
    + rewrite Helts, Hlrk. done.
    + rewrite Helts. intros y Hy. rewrite Hel in Hy.
      destruct (forest_reach _ Hf y Hy) as [r Hr].
      eexists. by apply Hmap.
  - by rewrite Helts.
  - intros x y (r & Hx & Hy). eexists. split; by apply Hmap.
  - apply Hmap in Hra, Hrb. exists win. split.
    + destruct Hlw as [[-> ->]|[-> ->]];
        [by rewrite decide_True in Hra|by rewrite decide_False in Hra].
    + destruct Hlw as [[-> ->]|[-> ->]];
        [by rewrite decide_False in Hrb|by rewrite decide_True in Hrb].
  - intros (r & Ha' & Hb'). destruct Hne.
    by rewrite (root_of_det _ _ _ _ Hra Ha'), (root_of_det _ _ _ _ Hrb Hb').
  - intros _. rewrite <-Hn2, (nroots_link _ _ _ _ Hlose Hwin_u Hwr). lia.
  - intros y Hy. apply Hisr. unfold is_root in *.
    rewrite (rd_wr _ _ y _ _ Hwr) in Hy. case_decide; [congruence|done].
Qed.

(** *** The partition kept by [newSet], [findSet] and [unionSet] *)

(** A run of [unionSet] calls, one per pair, as the edge loops of Kruskal
    and Boruvka make them. *)
Fixpoint unions (fuel : nat) (set : SetForest) (ps : list (Z * Z))
  : option SetForest :=
  match ps with
  | [] => Some set
  | (a, b) :: ps => set ← unionSet fuel set a b; unions fuel set ps
  end.

(** [connected_by n ps x y]: the elements [x] and [y] of [0..n-1] are
    linked by a chain of pairs of [ps]. *)
Inductive connected_by (n : Z) (ps : list (Z * Z)) : Z → Z → Prop :=
| connected_refl x : 0 ≤ x < n → connected_by n ps x x
| connected_pair a b : (a, b) ∈ ps → connected_by n ps a b
| connected_sym x y : connected_by n ps x y → connected_by n ps y x
| connected_trans x y z :
    connected_by n ps x y → connected_by n ps y z → connected_by n ps x z.

Lemma connected_by_mono n ps ps' x y :
  ps ⊆ ps' → connected_by n ps x y → connected_by n ps' x y.
Proof.
  intros Hsub. induction 1.
  - by apply connected_refl.
  - apply connected_pair. by apply Hsub.
  - by apply connected_sym.
  - by eapply connected_trans.
Qed.

(** The roots after [unionSet]: the root of one argument (the loser) is
    renamed to the root of the other, every other root stays. *)
Lemma unionSet_roots set a b :
  forest set → 0 ≤ a < elements set → 0 ≤ b < elements set →
  ∃ set' ra rb lose win,
    (∀ fuel, (length (canonicalElements set) ≤ fuel)%nat →
             unionSet fuel set a b = Some set') ∧
    root_of (canonicalElements set) a ra ∧
    root_of (canonicalElements set) b rb ∧
    (lose = ra ∧ win = rb ∨ lose = rb ∧ win = ra) ∧
    (∀ x r, root_of (canonicalElements set) x r →
            root_of (canonicalElements set') x
              (if decide (r = lose) then win else r)).
Proof.
  intros Hf Ha Hb.
  destruct (unionSet_linked set a b Hf Ha Hb)
    as (ra & rb & ka & kb & set2 & Hra & Hrb & Hka & Hkb & Hun & Hrk & Hel
        & Hf2 & Hlen & Hroots & Hisr).
  exists (linked set2 ra rb ka kb), ra, rb.
  destruct (decide (ra = rb)) as [->|Hne].
  { exists rb, rb. split_and!; try done; [by left|].
    intros x r Hx. unfold linked. rewrite decide_True by done.
    case_decide; [subst r|]; by apply Hroots. }
  destruct (linked_shape set2 ra rb ka kb Hne)
    as (lose & win & Hlw & Hce & Helts & Hlrk).
  exists lose, win. split_and!; try done.
  assert (is_root (canonicalElements set2) ra) as Hra2
    by (apply Hisr; by eapply root_of_is_root).
  assert (is_root (canonicalElements set2) rb) as Hrb2
    by (apply Hisr; by eapply root_of_is_root).
  assert (is_root (canonicalElements set2) lose ∧
          is_root (canonicalElements set2) win ∧ lose ≠ win)
    as (Hlose & Hwin & Hlw_ne) by (destruct Hlw as [[-> ->]|[-> ->]]; done).
  assert (wr (canonicalElements set2) lose win
          = Some (canonicalElements (linked set2 ra rb ka kb))) as Hwr.
  { rewrite Hce. apply wr_in_range. by eapply rd_Some_range. }
  intros x r [m Hx]%Hroots.
  destruct (link_reach _ _ _ _ _ _ _ Hlose Hwin Hlw_ne Hwr Hx) as [m' ?].
  by exists m'.
Qed.

(** [unionSet] merges the sets of its two arguments and no others. *)
Lemma unionSet_partition set a b :
  forest set → 0 ≤ a < elements set → 0 ≤ b < elements set →
  ∃ set',
    (∀ fuel, (length (canonicalElements set) ≤ fuel)%nat →
             unionSet fuel set a b = Some set') ∧
    forest set' ∧ elements set' = elements set ∧
    (∀ x y, same (canonicalElements set') x y ↔
            same (canonicalElements set) x y ∨
            same (canonicalElements set) x a ∧
            same (canonicalElements set) y b ∨
            same (canonicalElements set) x b ∧
            same (canonicalElements set) y a) ∧
    (same (canonicalElements set) a b →
     nroots (canonicalElements set') = nroots (canonicalElements set)) ∧
    (¬ same (canonicalElements set) a b →
     nroots (canonicalElements set') = nroots (canonicalElements set) - 1).
Proof.
  intros Hf Ha Hb.
  destruct (unionSet_ok set a b Hf Ha Hb)
    as (set' & Hun & Hf' & Hel & Hkeep & Hab & Hn0 & Hn1 & _).
  destruct (unionSet_roots set a b Hf Ha Hb)
    as (set'' & ra & rb & lose & win & Hun' & Hra & Hrb & Hlw & Hmap).
  assert (set'' = set') as ->.
  { specialize (Hun _ (le_n _)). specialize (Hun' _ (le_n _)). congruence. }
  exists set'. split_and!; try done.
  intros x y. split.
  - intros (r' & Hx' & Hy').
    assert (0 ≤ x < elements set ∧ 0 ≤ y < elements set) as [Hx Hy].
    { destruct Hx' as [? Hx'%reach_range], Hy' as [? Hy'%reach_range].
      rewrite (forest_len_ce _ Hf'), Hel in Hx', Hy'. done. }
    destruct (forest_reach _ Hf x Hx) as [rx Hrx].
    destruct (forest_reach _ Hf y Hy) as [ry Hry].
    pose proof (root_of_det _ _ _ _ (Hmap _ _ Hrx) Hx') as Hfx.
    pose proof (root_of_det _ _ _ _ (Hmap _ _ Hry) Hy') as Hfy.
    destruct (decide (rx = ry)) as [->|Hne]; [left; by exists ry|].
    right.
    destruct (decide (rx = lose)) as [->|Hxl],
             (decide (ry = lose)) as [->|Hyl]; try congruence.
    + assert (ry = win) as -> by congruence.
      destruct Hlw as [[-> ->]|[-> ->]];
        [left|right]; split; eexists; eauto.
    + assert (rx = win) as -> by congruence.
      destruct Hlw as [[-> ->]|[-> ->]];
        [right|left]; split; eexists; eauto.
  - intros [Hxy|[[Hxa Hyb]|[Hxb Hya]]].
    + by apply Hkeep.
    + eapply same_trans; [by apply Hkeep|].
      eapply same_trans; [done|]. apply same_sym. by apply Hkeep.
    + eapply same_trans; [by apply Hkeep|].
      eapply same_trans; [by apply same_sym|]. apply same_sym. by apply Hkeep.
Qed.

Lemma unions_spec n fuel : ∀ ps done set,
  forest set → elements set = n → (Z.to_nat n ≤ fuel)%nat →
  Forall (λ p, 0 ≤ p.1 < n ∧ 0 ≤ p.2 < n) ps →
  (∀ x y, same (canonicalElements set) x y ↔ connected_by n done x y) →
  ∃ set',
    unions fuel set ps = Some set' ∧ forest set' ∧ elements set' = n ∧
    (∀ x y, same (canonicalElements set') x y ↔
            connected_by n (done ++ ps) x y).
Proof.
  induction ps as [|[a b] ps IH]; intros done set Hf Hel Hfuel Hps Hsame.
  { exists set. rewrite app_nil_r. by split_and!. }
  apply Forall_cons in Hps as [[Ha Hb] Hps]. simpl in Ha, Hb.
  destruct (unionSet_partition set a b Hf) as
    (set1 & Hun & Hf1 & Hel1 & Hpart & Hn0 & Hn1); [lia..|].
  assert (length (canonicalElements set) ≤ fuel)%nat as Hlen.
  { pose proof (forest_len_ce _ Hf). lia. }
  destruct (IH (done ++ [(a, b)]) set1) as (set' & Hrun & Hf' & Hel' & Hs');
    [done|lia|done|done| |].
  { intros x y. rewrite Hpart, !Hsame. split.
    - intros [Hxy|[[Hxa Hyb]|[Hxb Hya]]].
      + eapply connected_by_mono; [|done]. set_solver.
      + eapply connected_trans; [eapply connected_by_mono; [|exact Hxa]; set_solver|].
        eapply connected_trans; [apply (connected_pair _ _ a b); set_solver|].
        apply connected_sym. eapply connected_by_mono; [|exact Hyb]. set_solver.
      + eapply connected_trans; [eapply connected_by_mono; [|exact Hxb]; set_solver|].
        eapply connected_trans;
          [apply connected_sym, (connected_pair _ _ a b); set_solver|].
        apply connected_sym. eapply connected_by_mono; [|exact Hya]. set_solver.
    - intros Hc. rewrite <-!Hsame, <-Hpart.
      induction Hc as [x Hx|a' b' Hin|x y _ IHc|x y z _ IH1 _ IH2].
      + apply same_refl; [done|lia].
      + apply elem_of_app in Hin as [Hin|Hin%list_elem_of_singleton].
        * apply Hpart. left. apply Hsame. by apply connected_pair.
        * injection Hin as -> ->. apply Hpart. right. left.
          split; apply same_refl; (done || lia).
      + by apply same_sym.
      + by eapply same_trans. }
  exists set'. cbn [unions]. rewrite (Hun _ Hlen). cbn [mbind option_bind].
  split_and!; try done.
  intros x y. rewrite Hs', <-app_assoc. done.
Qed.

(** In the fresh forest two elements share a set only when they are
    equal. *)
Lemma newSet_same n x y :
  0 ≤ n → same (canonicalElements (newSet n)) x y → x = y ∧ 0 ≤ x < n.
Proof.
  intros Hn.
  assert (∀ x r, root_of (canonicalElements (newSet n)) x r →
                 r = x ∧ 0 ≤ x < n) as Hroot.
  { intros x0 r [k Hr]. pose proof (reach_range _ _ _ _ Hr) as Hx.
    simpl in Hx. rewrite length_replicate in Hx. split; [|lia].
    inversion Hr as [? Hrd|? p ? ? Hrd Hp _]; [done|]. subst.
    simpl in Hrd. rewrite rd_replicate in Hrd by lia. congruence. }
  intros (r & [-> ?]%Hroot & [-> ?]%Hroot). done.
Qed.

(** X9. [newSet(n)] is the partition into singletons: it is a forest with
    [n] roots, two elements are in the same set only when they are equal,
    and [findSet] on it returns its argument and leaves the state as it
    is. *)
Theorem newSet_singletons n :
  0 ≤ n →
  forest (newSet n) ∧
  nroots (canonicalElements (newSet n)) = n ∧
  (∀ x y, same (canonicalElements (newSet n)) x y ↔ x = y ∧ 0 ≤ x < n) ∧
  (∀ fuel x, 0 ≤ x < n →
             findSet (S fuel) (newSet n) x = Some (newSet n, x)).
Proof.
  intros Hn. split_and!.
  - by apply newSet_forest.
  - by apply newSet_nroots.
  - intros x y. split.
    + by apply newSet_same.
    + intros [-> Hy]. apply same_refl; [by apply newSet_forest|done].
  - intros fuel x Hx. cbn [findSet]. simpl.
    rewrite rd_replicate by lia. cbn [mbind option_bind].
    by rewrite decide_True.
Qed.

(** X9 for four elements. *)
Lemma newSet_singletons_witness :
  forest (newSet 4) ∧
  nroots (canonicalElements (newSet 4)) = 4 ∧
  (∀ x y, same (canonicalElements (newSet 4)) x y ↔ x = y ∧ 0 ≤ x < 4) ∧
  (∀ fuel x, 0 ≤ x < 4 →
             findSet (S fuel) (newSet 4) x = Some (newSet 4, x)).
Proof. apply (newSet_singletons 4). lia. Defined.

(** X10. [unionSet] on a forest merges the sets of its two arguments and no
    others: afterwards two elements are in the same set exactly when they
    were before, or one was with the first argument and the other with the
    second. The number of sets drops by one when the arguments were in
    different sets and stays otherwise. *)
Theorem unionSet_merges_two_sets set a b :
  forest set → 0 ≤ a < elements set → 0 ≤ b < elements set →
  ∃ set',
    (∀ fuel, (length (canonicalElements set) ≤ fuel)%nat →
             unionSet fuel set a b = Some set') ∧
    forest set' ∧ elements set' = elements set ∧
    (∀ x y, same (canonicalElements set') x y ↔
            same (canonicalElements set) x y ∨
            same (canonicalElements set) x a ∧
            same (canonicalElements set) y b ∨
            same (canonicalElements set) x b ∧
            same (canonicalElements set) y a) ∧
    (same (canonicalElements set) a b →
     nroots (canonicalElements set') = nroots (canonicalElements set)) ∧
    (¬ same (canonicalElements set) a b →
     nroots (canonicalElements set') = nroots (canonicalElements set) - 1).
Proof. apply unionSet_partition. Qed.

(** X10 on the fresh forest of four elements. *)
Lemma unionSet_merges_two_sets_witness :
  ∃ set',
    (∀ fuel, (length (canonicalElements (newSet 4)) ≤ fuel)%nat →
             unionSet fuel (newSet 4) 0 1 = Some set') ∧
    forest set' ∧ elements set' = elements (newSet 4) ∧
    (∀ x y, same (canonicalElements set') x y ↔
            same (canonicalElements (newSet 4)) x y ∨
            same (canonicalElements (newSet 4)) x 0 ∧
            same (canonicalElements (newSet 4)) y 1 ∨
            same (canonicalElements (newSet 4)) x 1 ∧
            same (canonicalElements (newSet 4)) y 0) ∧
    (same (canonicalElements (newSet 4)) 0 1 →
     nroots (canonicalElements set') = nroots (canonicalElements (newSet 4))) ∧
    (¬ same (canonicalElements (newSet 4)) 0 1 →
     nroots (canonicalElements set')
     = nroots (canonicalElements (newSet 4)) - 1).
Proof.
  apply (unionSet_merges_two_sets (newSet 4) 0 1);
    [apply newSet_forest; lia|simpl; lia|simpl; lia].
Defined.

(** X11. Any run of [unionSet] calls on the fresh forest of [n] elements,
    with arguments in range, returns a forest in which [findSet] gives two
    elements the same canonical element exactly when they are linked by a
    chain of the united pairs. *)
Theorem unions_connectivity n fuel ps :
  0 ≤ n → (Z.to_nat n ≤ fuel)%nat →
  Forall (λ p, 0 ≤ p.1 < n ∧ 0 ≤ p.2 < n) ps →
  ∃ set',
    unions fuel (newSet n) ps = Some set' ∧ forest set' ∧
    ∀ x y, 0 ≤ x < n → 0 ≤ y < n →
      ∃ sx rx sy ry,
        findSet fuel set' x = Some (sx, rx) ∧
        findSet fuel sx y = Some (sy, ry) ∧
        (rx = ry ↔ connected_by n ps x y).
Proof.
  intros Hn Hfuel Hps.
  destruct (unions_spec n fuel ps [] (newSet n))
    as (set' & Hrun & Hf' & Hel' & Hsame); [by apply newSet_forest|done..| |].
  { intros x y. split.
    - intros Hxy. pose proof (same_range _ _ _ Hxy) as [Hx _].
      simpl in Hx. rewrite length_replicate in Hx.
      destruct Hxy as (r & [k Hr] & [k' Hr']).
      assert (∀ z k, reach (canonicalElements (newSet n)) z r k → r = z) as Hz.
      { intros z j Hj. pose proof (reach_range _ _ _ _ Hj) as Hzr.
        simpl in Hzr. rewrite length_replicate in Hzr.
        inversion Hj as [? Hrd|? p ? ? Hrd Hp _]; [done|]. subst.
        simpl in Hrd. rewrite rd_replicate in Hrd by lia. congruence. }
      rewrite <-(Hz _ _ Hr), <-(Hz _ _ Hr'). apply connected_refl.
      rewrite (Hz _ _ Hr). lia.
    - intros Hc. induction Hc as [x Hx|a b Hin|x y _ IHc|x y z _ IH1 _ IH2].
      + apply same_refl; [by apply newSet_forest|done].
      + by apply elem_of_nil in Hin.
      + by apply same_sym.
      + by eapply same_trans. }
  exists set'. split_and!; try done.
  intros x y Hx Hy.
  destruct (findSet_ok set' x Hf') as
    (rx & sx & Hfx & Hrx & Hfsx & Helx & Hroots & _); [lia|].
  destruct (findSet_ok sx y Hfsx) as
    (ry & sy & Hfy & Hry & _); [lia|].
  exists sx, rx, sy, ry.
  pose proof (forest_len_ce _ Hf'). pose proof (forest_len_ce _ Hfsx).
  split_and!; [apply Hfx; lia|apply Hfy; lia|].
  rewrite <-(Hsame x y). simpl. apply Hroots in Hry. split.
  - intros ->. by exists ry.
  - intros (r & Hr1 & Hr2).
    by rewrite (root_of_det _ _ _ _ Hrx Hr1), (root_of_det _ _ _ _ Hry Hr2).
Qed.

(** X11 on five elements and the pairs (0,1), (2,3), (1,3). *)
Lemma unions_connectivity_witness :
  ∃ set',
    unions 5 (newSet 5) [(0, 1); (2, 3); (1, 3)] = Some set' ∧ forest set' ∧
    ∀ x y, 0 ≤ x < 5 → 0 ≤ y < 5 →
      ∃ sx rx sy ry,
        findSet 5 set' x = Some (sx, rx) ∧
        findSet 5 sx y = Some (sy, ry) ∧
        (rx = ry ↔ connected_by 5 [(0, 1); (2, 3); (1, 3)] x y).
Proof.
  apply (unions_connectivity 5 5 [(0, 1); (2, 3); (1, 3)]); [lia|simpl; lia|].
  repeat constructor; simpl; lia.
Defined.
(** *** Two forests kept in step

    The ranks of a cohort hold one forest each and apply the same unions to
    them, while their [findSet] calls compress different paths: the parent
    slots differ, the canonical roots and the rank arrays do not. *)
Definition in_step (set set' : SetForest) : Prop :=
  forest set ∧ forest set' ∧ elements set' = elements set ∧
  rank set' = rank set ∧
  ∀ y r, root_of (canonicalElements set) y r ↔
         root_of (canonicalElements set') y r.

Lemma roots_incl_iff set set' :
  forest set → forest set' → elements set' = elements set →
  (∀ y r, root_of (canonicalElements set) y r →
          root_of (canonicalElements set') y r) →
  ∀ y r, root_of (canonicalElements set) y r ↔
         root_of (canonicalElements set') y r.
Proof.
  intros Hf Hf' Hel Hincl y r. split; [by apply Hincl|].
  intros Hy'. assert (0 ≤ y < elements set) as Hy.
  { destruct Hy' as [k Hk%reach_range].
    rewrite (forest_len_ce _ Hf'), Hel in Hk. done. }
  destruct (forest_reach _ Hf y Hy) as [r0 Hr0].
  by rewrite (root_of_det _ _ _ _ Hy' (Hincl _ _ Hr0)).
Qed.

Lemma in_step_refl set : forest set → in_step set set.
Proof. intros Hf. by split_and!. Qed.

Lemma in_step_sym set set' : in_step set set' → in_step set' set.
Proof.
  intros (Hf & Hf' & Hel & Hrk & Hroots). by split_and!.
Qed.

Lemma in_step_trans set1 set2 set3 :
  in_step set1 set2 → in_step set2 set3 → in_step set1 set3.
Proof.
  intros (Hf1 & Hf2 & Hel & Hrk & Hroots) (_ & Hf3 & Hel' & Hrk' & Hroots').
  split_and!; try done; try congruence.
  intros y r. by rewrite Hroots, Hroots'.
Qed.

(** [findSet] leaves the rank array and the element count alone. *)
Lemma findSet_rank fuel : ∀ set x set' r,
  findSet fuel set x = Some (set', r) →
  rank set' = rank set ∧ elements set' = elements set.
Proof.
  induction fuel as [|fuel IH]; intros set x set' r Hfind; [done|].
  cbn [findSet] in Hfind.
  destruct (rd (canonicalElements set) x) as [c|]; [|done].
  cbn [mbind option_bind] in Hfind. case_decide; [by simplify_eq|].
  destruct (findSet fuel set c) as [[set1 r1]|] eqn:Hrec; [|done].
  cbn [mbind option_bind] in Hfind.
  destruct (wr (canonicalElements set1) x r1) as [ce|]; [|done].
  cbn [mbind option_bind] in Hfind.
  destruct (rd ce x) as [r'|]; [|done].
  cbn [mbind option_bind] in Hfind. simplify_eq. simpl. by eapply IH.
Qed.

(** A lookup keeps a forest in step with what it was. *)
Lemma findSet_in_step_self set x :
  forest set → 0 ≤ x < elements set →
  ∃ r set1,
    (∀ fuel, (length (canonicalElements set) ≤ fuel)%nat →
             findSet fuel set x = Some (set1, r)) ∧
    root_of (canonicalElements set) x r ∧ in_step set set1.
Proof.
  intros Hf Hx.
  destruct (findSet_ok set x Hf Hx)
    as (r & set1 & Hfind & Hr & Hf1 & Hel1 & Hroots1 & _).
  destruct (findSet_rank _ _ _ _ _ (Hfind _ (le_n _))) as [Hrk _].
  exists r, set1. by split_and!.
Qed.

(** The same lookup on two forests in step returns the same root and
    leaves them in step. *)
Lemma findSet_in_step set set' x :
  in_step set set' → 0 ≤ x < elements set →
  ∃ r set1 set1',
    (∀ fuel, (length (canonicalElements set) ≤ fuel)%nat →
             findSet fuel set x = Some (set1, r)) ∧
    (∀ fuel, (length (canonicalElements set') ≤ fuel)%nat →
             findSet fuel set' x = Some (set1', r)) ∧
    root_of (canonicalElements set) x r ∧
    in_step set set1 ∧ in_step set1 set1'.
Proof.
  intros Hstep Hx. pose proof Hstep as (Hf & Hf' & Hel & Hrk & Hroots).
  destruct (findSet_in_step_self set x Hf Hx) as (r & set1 & Hfind & Hr & H1).
  destruct (findSet_in_step_self set' x Hf' ltac:(by rewrite Hel))
    as (r' & set1' & Hfind' & Hr' & H1').
  assert (r' = r) as ->.
  { apply Hroots in Hr. by eapply root_of_det. }
  exists r, set1, set1'. split_and!; try done.
  apply (in_step_trans _ set); [by apply in_step_sym|].
  by apply (in_step_trans _ set').
Qed.

(** The root of [r] after [unionSet] has linked the roots [ra] and [rb] of
    ranks [ka] and [kb]. *)
Definition relink (ra rb ka kb r : Z) : Z :=
  if decide (ra = rb) then r
  else if decide (ka < kb) then (if decide (r = ra) then rb else r)
  else if decide (ka > kb) then (if decide (r = rb) then ra else r)
  else (if decide (r = ra) then rb else r).

Lemma linked_roots set2 ra rb ka kb :
  is_root (canonicalElements set2) ra → is_root (canonicalElements set2) rb →
  ∀ x r, root_of (canonicalElements set2) x r →
         root_of (canonicalElements (linked set2 ra rb ka kb)) x
           (relink ra rb ka kb r).
Proof.
  intros Hra Hrb x r [m Hx]. unfold linked, relink.
  destruct (decide (ra = rb)) as [->|Hne]; [by exists m|].
  assert (wr (canonicalElements set2) ra rb
          = Some (<[Z.to_nat ra := rb]> (canonicalElements set2))) as Hwa.
  { apply wr_in_range. by eapply rd_Some_range. }
  assert (wr (canonicalElements set2) rb ra
          = Some (<[Z.to_nat rb := ra]> (canonicalElements set2))) as Hwb.
  { apply wr_in_range. by eapply rd_Some_range. }
  repeat case_decide; simpl.
  - destruct (link_reach _ _ _ _ _ _ _ Hra Hrb Hne Hwa Hx) as [m' Hm'].
    exists m'. by rewrite decide_True in Hm'.
  - destruct (link_reach _ _ _ _ _ _ _ Hra Hrb Hne Hwa Hx) as [m' Hm'].
    exists m'. by rewrite decide_False in Hm'.
  - destruct (link_reach _ _ _ _ _ _ _ Hrb Hra ltac:(done) Hwb Hx) as [m' Hm'].
    exists m'. by rewrite decide_True in Hm'.
  - destruct (link_reach _ _ _ _ _ _ _ Hrb Hra ltac:(done) Hwb Hx) as [m' Hm'].
    exists m'. by rewrite decide_False in Hm'.
  - destruct (link_reach _ _ _ _ _ _ _ Hra Hrb Hne Hwa Hx) as [m' Hm'].
    exists m'. by rewrite decide_True in Hm'.
  - destruct (link_reach _ _ _ _ _ _ _ Hra Hrb Hne Hwa Hx) as [m' Hm'].
    exists m'. by rewrite decide_False in Hm'.
Qed.

(** The same union on two forests in step leaves them in step. *)
Lemma unionSet_in_step set set' a b :
  in_step set set' → 0 ≤ a < elements set → 0 ≤ b < elements set →
  ∃ set1 set1',
    (∀ fuel, (length (canonicalElements set) ≤ fuel)%nat →
             unionSet fuel set a b = Some set1) ∧
    (∀ fuel, (length (canonicalElements set') ≤ fuel)%nat →
             unionSet fuel set' a b = Some set1') ∧
    in_step set1 set1'.
Proof.
  intros (Hf & Hf' & Hel & Hrk & Hroots) Ha Hb.
  destruct (unionSet_linked set a b Hf Ha Hb)
    as (ra & rb & ka & kb & set2 & Hra & Hrb & Hka & Hkb & Hun & Hrk2 & Hel2
        & Hf2 & Hlen2 & Hroots2 & Hisr2).
  destruct (unionSet_linked set' a b Hf') as
    (ra' & rb' & ka' & kb' & set2' & Hra' & Hrb' & Hka' & Hkb' & Hun' & Hrk2'
     & Hel2' & Hf2' & Hlen2' & Hroots2' & Hisr2'); [by rewrite Hel..|].
  assert (ra' = ra) as -> by (apply Hroots in Hra; by eapply root_of_det).
  assert (rb' = rb) as -> by (apply Hroots in Hrb; by eapply root_of_det).
  assert (ka' = ka) as -> by congruence.
  assert (kb' = kb) as -> by congruence.
  exists (linked set2 ra rb ka kb), (linked set2' ra rb ka kb).
  split; [done|]. split; [done|].
  destruct (unionSet_ok set a b Hf Ha Hb) as (u & Hu & Hfu & Helu & _).
  destruct (unionSet_ok set' a b Hf') as (u' & Hu' & Hfu' & Helu' & _);
    [by rewrite Hel..|].
  assert (u = linked set2 ra rb ka kb) as ->.
  { specialize (Hu _ (le_n _)). specialize (Hun _ (le_n _)). congruence. }
  assert (u' = linked set2' ra rb ka kb) as ->.
  { specialize (Hu' _ (le_n _)). specialize (Hun' _ (le_n _)). congruence. }
  assert (is_root (canonicalElements set2) ra ∧
          is_root (canonicalElements set2) rb) as [Hira Hirb].
  { split; apply Hisr2; by eapply root_of_is_root. }
  assert (is_root (canonicalElements set2') ra ∧
          is_root (canonicalElements set2') rb) as [Hira' Hirb'].
  { split; apply Hisr2'; by eapply root_of_is_root. }
  pose proof (roots_incl_iff set set2 Hf Hf2 Hel2 Hroots2) as Hiff2.
  split_and!; try done; try congruence.
  - unfold linked. repeat case_decide; simpl; congruence.
  - apply roots_incl_iff; [done|done|congruence|].
    intros y r Hy.
    assert (0 ≤ y < elements set2) as Hyr.
    { destruct Hy as [k Hk%reach_range].
      rewrite (forest_len_ce _ Hfu), Helu, <-Hel2 in Hk. done. }
    destruct (forest_reach _ Hf2 y Hyr) as [r0 Hr0].
    pose proof (linked_roots set2 ra rb ka kb Hira Hirb y r0 Hr0) as Hy0.
    rewrite (root_of_det _ _ _ _ Hy Hy0).
    apply linked_roots; [done..|].
    by apply Hroots2', Hroots, Hiff2.
Qed.

End DisjointSet.

(** ** Edges and counted loops *)

(** One edge: the three ints at offsets 0, 1 and 2 of a slot of the edge
    list. *)
Record Edge := mkEdge { edge_from : Z; edge_to : Z; edge_weight : Z }.

#[global] Instance Edge_eq_dec : EqDecision Edge.
Proof. solve_decision. Defined.

(** [for (i = lo; n iterations; i++) body], for a body that leaves [i] and
    the bound alone. *)
Fixpoint for_loop {S : Type} (n : nat) (i : Z) (body : Z → S → option S)
  (s : S) : option S :=
  match n with
  | O => Some s
  | S n => s' ← body i s; for_loop n (i + 1) body s'
  end.

Lemma for_loop_ext {St : Type} (body body' : Z → St → option St) (n : nat) :
  (∀ j s, body j s = body' j s) →
  ∀ i s, for_loop n i body s = for_loop n i body' s.
Proof.
  intros Hext. induction n as [|n IH]; intros i s; [done|].
  cbn [for_loop]. rewrite Hext. destruct (body' i s); [|done].
  cbn [mbind option_bind]. apply IH.
Qed.

(** A counted loop whose body keeps an invariant [P i s] (the state [s]
    before the iteration with index [i]) returns, with the invariant at the
    final index. *)
Lemma for_loop_inv {St : Type} (P : Z → St → Prop) (body : Z → St → option St)
  (n : nat) : ∀ (i : Z) (s : St),
  P i s →
  (∀ j s, i ≤ j < i + Z.of_nat n → P j s →
          ∃ s', body j s = Some s' ∧ P (j + 1) s') →
  ∃ s', for_loop n i body s = Some s' ∧ P (i + Z.of_nat n) s'.
Proof.
  induction n as [|n IH]; intros i s HP Hstep.
  { exists s. split; [done|]. by replace (i + Z.of_nat 0) with i by lia. }
  cbn [for_loop]. destruct (Hstep i s) as (s1 & -> & HP1); [lia|done|].
  cbn [mbind option_bind].
  destruct (IH (i + 1) s1 HP1) as (s' & -> & HP').
  { intros j s2 Hj. apply Hstep. lia. }
  exists s'. split; [done|].
  by replace (i + Z.of_nat (S n)) with (i + 1 + Z.of_nat n) by lia.
Qed.

(** ** Merge sort over the edge list *)

Module MergeSort.

(** [merge]: merge the sorted runs [start..pivot] and [pivot+1..end] of the
    edge list in place.  [working] is the scratch block: the first run is
    copied forward ([memcpy]), the second one reversed, and the merge loop,
    whose body is [merge_take], takes from whichever end of the scratch is
    smaller. *)
Definition merge_take (working : list (cell Edge)) (k : Z)
  (st : Z * Z * list Edge) : option (Z * Z * list Edge) :=
  let '(left_, right_, edgeList) := st in
  er ← rdc working right_;
  el ← rdc working left_;
  if decide (edge_weight er < edge_weight el) then
    edgeList ← wr edgeList k er; Some (left_, right_ - 1, edgeList)
  else
    edgeList ← wr edgeList k el; Some (left_ + 1, right_, edgeList).

Definition merge (edgeList : list Edge) (start end_ pivot : Z)
  : option (list Edge) :=
  let length := end_ - start + 1 in
  let working : list (cell Edge) := replicate (Z.to_nat length) None in
  working ←
    (if decide (0 ≤ pivot - start + 1) then
       for_loop (Z.to_nat (pivot - start + 1)) 0
         (λ i w, e ← rd edgeList (start + i); wrc w i e) working
     else None);
  let workingEnd := end_ + pivot - start + 1 in
  working ←
    for_loop (Z.to_nat (end_ - (pivot + 1) + 1)) (pivot + 1)
      (λ i w, e ← rd edgeList i; wrc w (workingEnd - i) e) working;
  '(_, _, edgeList) ←
    for_loop (Z.to_nat (end_ - start + 1)) start (merge_take working)
      (0, end_ - start, edgeList);
  Some edgeList.

(** [mergeSort]: sort [start..end] (both inclusive) by weight. *)
Fixpoint mergeSort (fuel : nat) (edgeList : list Edge) (start end_ : Z)
  : option (list Edge) :=
  match fuel with
  | O => None
  | S fuel =>
      if decide (start ≠ end_) then
        let pivot := (start + end_) ÷ 2 in
        edgeList ← mergeSort fuel edgeList start pivot;
        edgeList ← mergeSort fuel edgeList (pivot + 1) end_;
        merge edgeList start end_ pivot
      else Some edgeList
  end.

(** *** Specification vocabulary *)

Definition weight_le (a b : Edge) : Prop := edge_weight a ≤ edge_weight b.

(** Sorted by weight: every slot weighs at most its successor. *)
Definition sorted_by_weight (l : list Edge) : Prop := Sorted weight_le l.

(** The slots [lo..hi] (both inclusive) of an edge list. *)
Definition segment (l : list Edge) (lo hi : Z) : list Edge :=
  take (Z.to_nat (hi - lo + 1)) (drop (Z.to_nat lo) l).

(** The merge loop on the scratch contents [w], [n] elements to go: compare
    the two ends, take the smaller, the left end on a tie. *)
Fixpoint take_ends (n : nat) (w : list Edge) : list Edge :=
  match n with
  | O => []
  | S n =>
      match head w, last w with
      | Some x, Some y =>
          if decide (edge_weight y < edge_weight x) then y :: take_ends n (removelast w)
          else x :: take_ends n (tail w)
      | _, _ => []
      end
  end.

(** The merge of two runs as the specification words it: while both runs
    have a next candidate, the right one is written only when it is strictly
    lighter, so on equal weights the left one goes first.  Once the left run
    is used up the rest of the right run is drained from the scratch; once
    the right run is used up the rest of the left run follows in order. *)
Fixpoint merge_left_first (a : list Edge) : list Edge → list Edge :=
  fix go (b : list Edge) : list Edge :=
    match a, b with
    | [], _ => take_ends (length b) (reverse b)
    | _, [] => a
    | x :: a', y :: b' =>
        if decide (edge_weight y < edge_weight x) then y :: go b'
        else x :: merge_left_first a' b
    end.

Example merge_example :
  merge [mkEdge 0 1 1; mkEdge 1 2 4; mkEdge 0 2 2; mkEdge 2 3 4; mkEdge 3 4 9]
        0 4 1
  = Some [mkEdge 0 1 1; mkEdge 0 2 2; mkEdge 1 2 4; mkEdge 2 3 4; mkEdge 3 4 9].
Proof. reflexivity. Qed.

Example mergeSort_example :
  mergeSort 5 [mkEdge 0 1 5; mkEdge 1 2 1; mkEdge 0 3 4; mkEdge 1 4 2] 0 3
  = Some [mkEdge 1 2 1; mkEdge 1 4 2; mkEdge 0 3 4; mkEdge 0 1 5].
Proof. reflexivity. Qed.

(** *** Taking from the two ends of a bitonic scratch *)

#[local] Instance weight_le_preorder : PreOrder weight_le.
Proof. split; unfold weight_le; [intros ?|intros ? ? ?]; lia. Qed.

(** A run that rises and then falls. *)
Definition bitonic (w : list Edge) : Prop :=
  ∃ a b, w = a ++ reverse b ∧
         StronglySorted weight_le a ∧ StronglySorted weight_le b.

Lemma snoc_cases {A} (l : list A) : l = [] ∨ ∃ l' y, l = l' ++ [y].
Proof.
  induction l as [|x l IH] using rev_ind; [by left|right; eauto].
Qed.

Lemma removelast_snoc {A} (l : list A) y : removelast (l ++ [y]) = l.
Proof. apply removelast_last. Qed.

Lemma bitonic_tail x w : bitonic (x :: w) → bitonic w.
Proof.
  intros (a & b & Hw & Ha & Hb). destruct a as [|a0 a'].
  - simpl in Hw. exists [], (reverse w). rewrite reverse_involutive.
    split_and!; [done|constructor|].
    assert (b = reverse w ++ [x]) as ->.
    { rewrite <-(reverse_involutive b), <-Hw. by rewrite reverse_cons. }
    by apply StronglySorted_app_1_l in Hb.
  - simplify_eq/=. exists a', b. split_and!; [done| |done].
    by inversion Ha.
Qed.

Lemma bitonic_removelast w y : bitonic (w ++ [y]) → bitonic w.
Proof.
  intros (a & b & Hw & Ha & Hb). destruct b as [|b0 b'].
  - rewrite reverse_nil, app_nil_r in Hw. subst a.
    exists w, []. rewrite reverse_nil, app_nil_r.
    split_and!; [done| |constructor]. by apply StronglySorted_app_1_l in Ha.
  - rewrite reverse_cons, app_assoc in Hw. apply app_inj_tail in Hw as [-> ->].
    exists a, b'. split_and!; [done..|]. by inversion Hb.
Qed.

Lemma bitonic_ends w x y e :
  bitonic w → head w = Some x → last w = Some y → e ∈ w →
  edge_weight x ≤ edge_weight e ∨ edge_weight y ≤ edge_weight e.
Proof.
  intros (a & b & -> & Ha & Hb) Hx Hy [He|He]%elem_of_app;
    [|rewrite elem_of_reverse in He].
  - left. destruct a as [|a0 a']; [by apply elem_of_nil in He|].
    simpl in Hx. simplify_eq. inversion Ha as [|? ? _ Hall]; subst.
    apply elem_of_cons in He as [->|He]; [done|].
    rewrite Forall_forall in Hall. by apply Hall.
  - right. destruct b as [|b0 b']; [by apply elem_of_nil in He|].
    rewrite reverse_cons, app_assoc, last_snoc in Hy. simplify_eq.
    inversion Hb as [|? ? _ Hall]; subst.
    apply elem_of_cons in He as [->|He]; [done|].
    rewrite Forall_forall in Hall. by apply Hall.
Qed.

Lemma take_ends_bitonic n : ∀ w,
  length w = n → bitonic w →
  take_ends n w ≡ₚ w ∧ StronglySorted weight_le (take_ends n w).
Proof.
  induction n as [|n IH]; intros w Hlen Hw.
  { destruct w; [|done]. split; [done|constructor]. }
  destruct w as [|x w']; [done|].
  destruct (snoc_cases (x :: w')) as [?|(w0 & y & Hsnoc)]; [done|].
  assert (last (x :: w') = Some y) as Hlast by (by rewrite Hsnoc, last_snoc).
  assert (∀ e, e ∈ x :: w' → edge_weight x ≤ edge_weight e ∨ edge_weight y ≤ edge_weight e)
    as Hmin by (intros e; by apply bitonic_ends).
  cbn [take_ends head]. rewrite Hlast. case_decide as Hlt.
  - rewrite Hsnoc, removelast_snoc.
    destruct (IH w0) as [Hperm Hsorted].
    { rewrite Hsnoc, length_app in Hlen. simpl in Hlen. lia. }
    { rewrite Hsnoc in Hw. by eapply bitonic_removelast. }
    split.
    + rewrite Hperm. by rewrite Permutation_app_comm.
    + constructor; [done|]. apply Forall_forall. intros e He.
      rewrite Hperm in He. unfold weight_le.
      destruct (Hmin e) as [?|?]; [|lia..].
      rewrite Hsnoc. apply elem_of_app. by left.
  - cbn [tail]. destruct (IH w') as [Hperm Hsorted].
    { simpl in Hlen. lia. }
    { by eapply bitonic_tail. }
    split.
    + by rewrite Hperm.
    + constructor; [done|]. apply Forall_forall. intros e He.
      rewrite Hperm in He. unfold weight_le.
      destruct (Hmin e) as [?|?]; [|lia..].
      by apply elem_of_cons; right.
Qed.

Lemma take_ends_sorted_id l :
  StronglySorted weight_le l → take_ends (length l) l = l.
Proof.
  induction 1 as [|x l Hl IH Hall]; [done|].
  destruct (snoc_cases (x :: l)) as [?|(w0 & y & Hsnoc)]; [done|].
  assert (last (x :: l) = Some y) as Hlast by (by rewrite Hsnoc, last_snoc).
  cbn [take_ends length head]. rewrite Hlast.
  assert (edge_weight x ≤ edge_weight y).
  { assert (y ∈ x :: l) as [->|Hy]%elem_of_cons; [|done|].
    - rewrite Hsnoc. apply elem_of_app. right. by apply list_elem_of_singleton.
    - rewrite Forall_forall in Hall. by apply Hall. }
  rewrite decide_False by lia. cbn [tail]. by rewrite IH.
Qed.

Lemma merge_left_first_nil_l b :
  merge_left_first [] b = take_ends (length b) (reverse b).
Proof. by destruct b. Qed.

Lemma merge_left_first_nil_r a : a ≠ [] → merge_left_first a [] = a.
Proof. by destruct a. Qed.

Lemma merge_left_first_cons x a y b :
  merge_left_first (x :: a) (y :: b) =
  if decide (edge_weight y < edge_weight x) then y :: merge_left_first (x :: a) b
  else x :: merge_left_first a (y :: b).
Proof. done. Qed.

Lemma take_ends_merge_left_first a : ∀ b,
  StronglySorted weight_le a →
  take_ends (length (a ++ reverse b)) (a ++ reverse b) = merge_left_first a b.
Proof.
  induction a as [|x a IHa]; intros b Ha.
  { rewrite merge_left_first_nil_l. simpl. by rewrite length_reverse. }
  induction b as [|y b IHb].
  { rewrite reverse_nil, app_nil_r, merge_left_first_nil_r by done.
    by apply take_ends_sorted_id. }
  rewrite merge_left_first_cons.
  rewrite reverse_cons, app_assoc.
  assert (last ((x :: a) ++ reverse b ++ [y]) = Some y) as Hlast.
  { by rewrite app_assoc, last_snoc. }
  rewrite <-app_assoc.
  replace (length ((x :: a) ++ reverse b ++ [y]))
    with (S (length ((x :: a) ++ reverse b)))
    by (rewrite !length_app; simpl; lia).
  cbn [take_ends]. rewrite Hlast. cbn [head app].
  case_decide.
  - f_equal.
    replace (x :: a ++ reverse b ++ [y]) with ((x :: a ++ reverse b) ++ [y])
      by (by rewrite <-app_comm_cons, <-app_assoc).
    rewrite removelast_snoc. apply IHb.
  - f_equal. cbn [tail]. rewrite <-IHa by (by inversion Ha).
    rewrite reverse_cons. f_equal. rewrite !length_app. simpl.
    rewrite !length_app. simpl. lia.
Qed.

(** *** The three loops of [merge] *)

Lemma rd_of_nat {A} (l : list A) (k : nat) : rd l (Z.of_nat k) = l !! k.
Proof. unfold rd. by rewrite decide_True, Nat2Z.id by lia. Qed.

Lemma wr_of_nat {A} (l : list A) (k : nat) x :
  (k < length l)%nat → wr l (Z.of_nat k) x = Some (<[k := x]> l).
Proof. intros ?. rewrite wr_in_range by lia. by rewrite Nat2Z.id. Qed.

Lemma take_S_insert {A} (l : list A) (k : nat) x :
  (k < length l)%nat → take (S k) (<[k := x]> l) = take k l ++ [x].
Proof.
  intros ?. rewrite (take_S_r _ _ x) by (by apply list_lookup_insert_eq).
  by rewrite take_insert_ge.
Qed.

Lemma drop_insert_here {A} (l : list A) (k : nat) x :
  (k < length l)%nat → drop k (<[k := x]> l) = x :: drop (S k) l.
Proof.
  intros ?. rewrite drop_insert_ge, Nat.sub_diag by lia.
  destruct (lookup_lt_is_Some_2 l k) as [y Hy]; [done|].
  by rewrite (drop_S _ _ _ Hy).
Qed.

Lemma copy_forward (el : list Edge) (start : nat) (n : nat) :
  ∀ (i : nat) (w : list (cell Edge)),
    (i + n ≤ length w)%nat → (start + i + n ≤ length el)%nat →
    for_loop n (Z.of_nat i)
      (λ i w, e ← rd el (Z.of_nat start + i); wrc w i e) w
    = Some (take i w ++ (Some <$> take n (drop (start + i) el))
              ++ drop (i + n) w).
Proof.
  induction n as [|n IH]; intros i w Hw Hel.
  { simpl. by rewrite Nat.add_0_r, take_drop. }
  cbn [for_loop].
  replace (Z.of_nat start + Z.of_nat i) with (Z.of_nat (start + i)) by lia.
  rewrite rd_of_nat.
  destruct (lookup_lt_is_Some_2 el (start + i)) as [e He]; [lia|].
  rewrite He. cbn [mbind option_bind]. unfold wrc.
  rewrite wr_of_nat by lia. cbn [mbind option_bind].
  replace (Z.of_nat i + 1) with (Z.of_nat (S i)) by lia.
  rewrite IH by (rewrite ?length_insert; lia).
  rewrite take_S_insert by lia.
  rewrite drop_insert_lt by lia.
  rewrite (drop_S _ _ _ He), firstn_cons, fmap_cons.
  replace (start + S i)%nat with (S (start + i)) by lia.
  replace (S i + n)%nat with (i + S n)%nat by lia.
  by rewrite <-app_assoc.
Qed.

Lemma copy_reversed (el : list Edge) (c : Z) (n : nat) :
  ∀ (i0 t : nat) (w : list (cell Edge)),
    c = Z.of_nat (t + i0) → (n ≤ S t)%nat → (t < length w)%nat →
    (i0 + n ≤ length el)%nat →
    for_loop n (Z.of_nat i0) (λ i w, e ← rd el i; wrc w (c - i) e) w
    = Some (take (S t - n) w ++ (Some <$> reverse (take n (drop i0 el)))
              ++ drop (S t) w).
Proof.
  induction n as [|n IH]; intros i0 t w Hc Hn Hw Hel.
  { cbn [for_loop]. rewrite take_0, reverse_nil, fmap_nil. cbn [app].
    by rewrite Nat.sub_0_r, take_drop. }
  cbn [for_loop]. rewrite rd_of_nat.
  destruct (lookup_lt_is_Some_2 el i0) as [e He]; [lia|].
  rewrite He. cbn [mbind option_bind]. unfold wrc.
  replace (c - Z.of_nat i0) with (Z.of_nat t) by lia.
  rewrite wr_of_nat by lia. cbn [mbind option_bind].
  replace (Z.of_nat i0 + 1) with (Z.of_nat (S i0)) by lia.
  rewrite (drop_S _ _ _ He), firstn_cons, reverse_cons, fmap_app.
  destruct n as [|n].
  { simpl. f_equal. rewrite Nat.sub_0_r.
    rewrite <-(take_drop t (<[t:=Some e]> w)) at 1.
    by rewrite take_insert_ge, drop_insert_here by lia. }
  destruct t as [|t]; [lia|].
  rewrite (IH (S i0) t) by (rewrite ?length_insert; lia).
  f_equal. rewrite take_insert_ge by lia.
  rewrite drop_insert_here by lia.
  replace (S t - S n)%nat with (S (S t) - S (S n))%nat by lia.
  by rewrite <-!app_assoc.
Qed.

Lemma merge_loop (W : list Edge) (m : nat) :
  ∀ (lft k : nat) (el : list Edge),
    (lft + m ≤ length W)%nat → (k + m ≤ length el)%nat →
    ∃ l' r',
      for_loop m (Z.of_nat k) (merge_take (Some <$> W))
        (Z.of_nat lft, Z.of_nat lft + Z.of_nat m - 1, el)
      = Some (l', r',
              take k el ++ take_ends m (take m (drop lft W))
                ++ drop (k + m) el).
Proof.
  induction m as [|m IH]; intros lft k el HW Hel.
  { simpl. eexists _, _. by rewrite Nat.add_0_r, take_drop. }
  cbn [for_loop merge_take].
  replace (Z.of_nat lft + Z.of_nat (S m) - 1) with (Z.of_nat (lft + m)) by lia.
  unfold rdc. rewrite !rd_of_nat, !list_lookup_fmap.
  destruct (lookup_lt_is_Some_2 W lft) as [el_ Hl]; [lia|].
  destruct (lookup_lt_is_Some_2 W (lft + m)) as [er Hr]; [lia|].
  rewrite Hl, Hr. cbn [mbind option_bind fmap option_fmap option_map].
  set (w := take (S m) (drop lft W)).
  assert (length w = S m) as Hlw.
  { unfold w. rewrite length_take, length_drop. lia. }
  assert (head w = Some el_) as Hhead.
  { unfold w. rewrite (drop_S _ _ _ Hl). done. }
  assert (last w = Some er) as Hlast.
  { rewrite last_lookup, Hlw. unfold w. simpl.
    rewrite lookup_take_lt, lookup_drop by lia. done. }
  cbn [take_ends]. rewrite Hhead, Hlast.
  case_decide.
  - rewrite wr_of_nat by lia. cbn [mbind option_bind].
    replace (Z.of_nat (lft + m) - 1) with (Z.of_nat lft + Z.of_nat m - 1) by lia.
    replace (Z.of_nat k + 1) with (Z.of_nat (S k)) by lia.
    destruct (IH lft (S k) (<[k:=er]> el)) as (l' & r' & ->);
      [lia|rewrite length_insert; lia|].
    exists l', r'. do 2 f_equal.
    rewrite take_S_insert, drop_insert_lt by lia.
    unfold w. rewrite removelast_firstn by (rewrite length_drop; lia).
    replace (S k + m)%nat with (k + S m)%nat by lia.
    by rewrite <-app_assoc.
  - rewrite wr_of_nat by lia. cbn [mbind option_bind].
    replace (Z.of_nat (lft + m)) with (Z.of_nat (S lft) + Z.of_nat m - 1) by lia.
    replace (Z.of_nat lft + 1) with (Z.of_nat (S lft)) by lia.
    replace (Z.of_nat k + 1) with (Z.of_nat (S k)) by lia.
    destruct (IH (S lft) (S k) (<[k:=el_]> el)) as (l' & r' & ->);
      [lia|rewrite length_insert; lia|].
    exists l', r'. do 2 f_equal.
    rewrite take_S_insert, drop_insert_lt by lia.
    unfold w. rewrite (drop_S _ _ _ Hl). cbn [take tail].
    replace (S k + m)%nat with (k + S m)%nat by lia.
    by rewrite <-app_assoc.
Qed.

Lemma merge_runs (el : list Edge) (s na nb : nat) :
  (1 ≤ na + nb)%nat → (s + na + nb ≤ length el)%nat →
  merge el (Z.of_nat s) (Z.of_nat (s + na + nb) - 1) (Z.of_nat (s + na) - 1)
  = Some (take s el
            ++ take_ends (na + nb)
                 (take na (drop s el) ++ reverse (take nb (drop (s + na) el)))
            ++ drop (s + na + nb) el).
Proof.
  intros Hn Hel. unfold merge.
  rewrite decide_True by lia.
  replace (Z.to_nat (Z.of_nat (s + na + nb) - 1 - Z.of_nat s + 1))
    with (na + nb)%nat by lia.
  replace (Z.to_nat (Z.of_nat (s + na) - 1 - Z.of_nat s + 1)) with na by lia.
  replace (Z.to_nat (Z.of_nat (s + na + nb) - 1 - (Z.of_nat (s + na) - 1 + 1) + 1))
    with nb by lia.
  set (A := take na (drop s el)). set (B := take nb (drop (s + na) el)).
  assert (length A = na) as HA by (unfold A; rewrite length_take, length_drop; lia).
  assert (length B = nb) as HB by (unfold B; rewrite length_take, length_drop; lia).
  pose proof (copy_forward el s na 0 (replicate (na + nb) None)) as Hcf.
  change (Z.of_nat 0) with 0 in Hcf.
  rewrite Hcf by (rewrite ?length_replicate; lia). clear Hcf.
  rewrite take_0, app_nil_l, Nat.add_0_l, Nat.add_0_r, drop_replicate.
  replace (na + nb - na)%nat with nb by lia. fold A.
  cbn [mbind option_bind].
  replace (Z.of_nat (s + na) - 1 + 1) with (Z.of_nat (s + na)) by lia.
  rewrite (copy_reversed el _ nb (s + na) (na + nb - 1));
    [|lia|lia|rewrite length_app, length_fmap, length_replicate; lia|lia].
  cbn [mbind option_bind]. fold B.
  replace (S (na + nb - 1) - nb)%nat with (length (Some <$> A))
    by (rewrite length_fmap; lia).
  rewrite take_app_length.
  rewrite (drop_ge _ (S (na + nb - 1)))
    by (rewrite length_app, length_fmap, length_replicate; lia).
  rewrite app_nil_r, <-fmap_app.
  change 0 with (Z.of_nat 0).
  replace (Z.of_nat (s + na + nb) - 1 - Z.of_nat s)
    with (Z.of_nat 0 + Z.of_nat (na + nb) - 1) by lia.
  destruct (merge_loop (A ++ reverse B) (na + nb) 0 s el) as (l' & r' & Hloop).
  { rewrite length_app, length_reverse. lia. }
  { lia. }
  unfold cell in *. rewrite Hloop.
  cbn [mbind option_bind]. rewrite drop_0.
  rewrite (take_ge (A ++ reverse B))
    by (rewrite length_app, length_reverse; lia).
  do 4 f_equal. lia.
Qed.

(** *** [merge] and [mergeSort] on a list split into prefix, runs, suffix *)

Lemma merge_app (pre a b post : list Edge) :
  (1 ≤ length a + length b)%nat →
  merge (pre ++ a ++ b ++ post) (Z.of_nat (length pre))
    (Z.of_nat (length pre + length a + length b) - 1)
    (Z.of_nat (length pre + length a) - 1)
  = Some (pre ++ take_ends (length a + length b) (a ++ reverse b) ++ post).
Proof.
  intros Hn. rewrite merge_runs by (rewrite ?length_app; lia).
  rewrite take_app_length, drop_app_length, take_app_length.
  replace (drop (length pre + length a) (pre ++ a ++ b ++ post))
    with (b ++ post).
  2:{ rewrite <-drop_drop, drop_app_length, drop_app_length. done. }
  rewrite take_app_length.
  replace (drop (length pre + length a + length b) (pre ++ a ++ b ++ post))
    with post.
  2:{ rewrite <-!drop_drop, !drop_app_length. done. }
  done.
Qed.

Lemma pivot_bounds lo hi : 0 ≤ lo < hi → lo ≤ (lo + hi) ÷ 2 < hi.
Proof.
  intros ?. rewrite Z.quot_div_nonneg by lia.
  split; [apply Z.div_le_lower_bound|apply Z.div_lt_upper_bound]; lia.
Qed.

Lemma mergeSort_app fuel : ∀ (pre mid post : list Edge),
  (1 ≤ length mid ≤ fuel)%nat →
  ∃ out,
    mergeSort fuel (pre ++ mid ++ post) (Z.of_nat (length pre))
      (Z.of_nat (length pre + length mid) - 1)
    = Some (pre ++ out ++ post) ∧
    out ≡ₚ mid ∧ StronglySorted weight_le out.
Proof.
  induction fuel as [|fuel IH]; intros pre mid post Hlen; [lia|].
  cbn [mergeSort]. case_decide as Hne.
  2:{ exists mid. split; [done|]. split; [done|].
      destruct mid as [|x [|y mid]]; simpl in *; [lia| |lia].
      repeat constructor. }
  destruct (pivot_bounds (Z.of_nat (length pre))
              (Z.of_nat (length pre + length mid) - 1)) as [Hp1 Hp2]; [lia|].
  remember ((Z.of_nat (length pre) + (Z.of_nat (length pre + length mid) - 1)) ÷ 2)
    as pivot eqn:Hpivot.
  clear Hpivot.
  remember (Z.to_nat (pivot - Z.of_nat (length pre) + 1)) as na eqn:Hna.
  remember (take na mid) as a eqn:Hdefa.
  remember (drop na mid) as b eqn:Hdefb.
  assert (length a = na) as Ha by (subst a; rewrite length_take; lia).
  assert (length b = (length mid - na)%nat) as Hb
    by (subst b; by rewrite length_drop).
  assert (mid = a ++ b) as Hmid by (subst a b; by rewrite take_drop).
  clear Hdefa Hdefb. subst mid. rewrite length_app in *.
  rewrite <-app_assoc.
  destruct (IH pre a (b ++ post)) as (out1 & Hs1 & Hp_1 & Hsorted1); [lia|].
  replace (Z.of_nat (length pre + length a) - 1) with pivot in Hs1 by lia.
  rewrite Hs1. cbn [mbind option_bind].
  assert (length out1 = na) as Hlo1 by (by rewrite Hp_1).
  destruct (IH (pre ++ out1) b post) as (out2 & Hs2 & Hp_2 & Hsorted2); [lia|].
  rewrite <-!app_assoc in Hs2.
  replace (Z.of_nat (length (pre ++ out1))) with (pivot + 1) in Hs2
    by (rewrite length_app; lia).
  replace (Z.of_nat (length (pre ++ out1) + length b) - 1)
    with (Z.of_nat (length pre + (length a + length b)) - 1) in Hs2
    by (rewrite length_app; lia).
  rewrite Hs2. cbn [mbind option_bind].
  assert (length out2 = length b) as Hlo2 by (by rewrite Hp_2).
  pose proof (merge_app pre out1 out2 post) as Hm.
  replace (Z.of_nat (length pre + length out1 + length out2) - 1)
    with (Z.of_nat (length pre + (length a + length b)) - 1) in Hm by lia.
  replace (Z.of_nat (length pre + length out1) - 1) with pivot in Hm by lia.
  rewrite Hm by lia.
  eexists. split; [done|].
  destruct (take_ends_bitonic (length out1 + length out2) (out1 ++ reverse out2))
    as [Hperm Hsorted].
  { by rewrite length_app, length_reverse. }
  { by exists out1, out2. }
  split; [|done].
  by rewrite Hperm, reverse_Permutation, Hp_1, Hp_2.
Qed.

Lemma segment_split (el : list Edge) (lo hi : Z) :
  0 ≤ lo → lo - 1 ≤ hi → hi < Z.of_nat (length el) →
  el = take (Z.to_nat lo) el ++ segment el lo hi ++ drop (Z.to_nat (hi + 1)) el
  ∧ length (take (Z.to_nat lo) el) = Z.to_nat lo
  ∧ length (segment el lo hi) = Z.to_nat (hi - lo + 1).
Proof.
  intros ? ? ?. unfold segment. split_and!.
  - rewrite <-(take_drop (Z.to_nat lo) el) at 1. f_equal.
    rewrite <-(take_drop (Z.to_nat (hi - lo + 1)) (drop (Z.to_nat lo) el)) at 1.
    f_equal. rewrite drop_drop. f_equal. lia.
  - rewrite length_take. lia.
  - rewrite length_take, length_drop. lia.
Qed.

Lemma segment_app (el : list Edge) (lo pivot hi : Z) :
  0 ≤ lo → lo - 1 ≤ pivot ≤ hi → hi < Z.of_nat (length el) →
  segment el lo hi = segment el lo pivot ++ segment el (pivot + 1) hi.
Proof.
  intros ? ? ?. unfold segment.
  replace (Z.to_nat (hi - lo + 1))
    with (Z.to_nat (pivot - lo + 1) + Z.to_nat (hi - (pivot + 1) + 1))%nat by lia.
  rewrite <-take_take_drop, drop_drop. do 3 f_equal. lia.
Qed.

Lemma sorted_strongly (l : list Edge) :
  sorted_by_weight l ↔ StronglySorted weight_le l.
Proof.
  split; [apply Sorted_StronglySorted, _|apply StronglySorted_Sorted].
Qed.

Lemma merge_segments (el : list Edge) (lo hi pivot : Z) :
  0 ≤ lo → lo ≤ hi → hi < Z.of_nat (length el) → lo - 1 ≤ pivot ≤ hi →
  merge el lo hi pivot
  = Some (take (Z.to_nat lo) el
            ++ take_ends (Z.to_nat (hi - lo + 1))
                 (segment el lo pivot ++ reverse (segment el (pivot + 1) hi))
            ++ drop (Z.to_nat (hi + 1)) el).
Proof.
  intros Hlo Hle Hhi Hp.
  destruct (segment_split el lo hi) as (Hel & Hlpre & Hlmid); [lia..|].
  rewrite (segment_app el lo pivot hi) in Hel, Hlmid by lia.
  destruct (segment_split el lo pivot) as (_ & _ & Hla); [lia..|].
  destruct (segment_split el (pivot + 1) hi) as (_ & _ & Hlb); [lia..|].
  rewrite <-app_assoc in Hel.
  set (pre := take (Z.to_nat lo) el) in *.
  set (a := segment el lo pivot) in *.
  set (b := segment el (pivot + 1) hi) in *.
  set (post := drop (Z.to_nat (hi + 1)) el) in *.
  pose proof (merge_app pre a b post) as Hm.
  rewrite <-Hel in Hm.
  replace (Z.of_nat (length pre)) with lo in Hm by lia.
  replace (Z.of_nat (length pre + length a + length b) - 1) with hi in Hm by lia.
  replace (Z.of_nat (length pre + length a) - 1) with pivot in Hm by lia.
  rewrite length_app in Hlmid. rewrite Hm by lia. by rewrite Hlmid.
Qed.

(** C6. For a segment [lo..hi] of the edge list whose runs [lo..pivot] and
    [pivot+1..hi] are each sorted by weight, [merge] rewrites [lo..hi] in
    place (the slots before [lo] and after [hi] keep their contents) to a
    permutation of the segment that is sorted by weight, and the result is
    the left-first merge of the two runs: while both runs have a next
    candidate the right one is written only if strictly lighter.  Hence
    [mergeSort] sorts any segment [lo..hi] by weight, for every fuel above
    [hi - lo]. *)
Theorem merge_and_mergeSort_sort (el : list Edge) (lo hi : Z) :
  0 ≤ lo → lo ≤ hi → hi < Z.of_nat (length el) →
  (∀ pivot, lo - 1 ≤ pivot ≤ hi →
     sorted_by_weight (segment el lo pivot) →
     sorted_by_weight (segment el (pivot + 1) hi) →
     ∃ out,
       merge el lo hi pivot
       = Some (take (Z.to_nat lo) el ++ out ++ drop (Z.to_nat (hi + 1)) el) ∧
       out ≡ₚ segment el lo hi ∧ sorted_by_weight out ∧
       out = merge_left_first (segment el lo pivot)
               (segment el (pivot + 1) hi)) ∧
  (∀ fuel, (Z.to_nat (hi - lo) < fuel)%nat →
     ∃ out,
       mergeSort fuel el lo hi
       = Some (take (Z.to_nat lo) el ++ out ++ drop (Z.to_nat (hi + 1)) el) ∧
       out ≡ₚ segment el lo hi ∧ sorted_by_weight out).
Proof.
  intros Hlo Hle Hhi. split.
  - intros pivot Hp Ha%sorted_strongly Hb%sorted_strongly.
    destruct (segment_split el lo pivot) as (_ & _ & Hla); [lia..|].
    destruct (segment_split el (pivot + 1) hi) as (_ & _ & Hlb); [lia..|].
    eexists. split; [by apply merge_segments|].
    destruct (take_ends_bitonic (Z.to_nat (hi - lo + 1))
                (segment el lo pivot ++ reverse (segment el (pivot + 1) hi)))
      as [Hperm Hsorted].
    { rewrite length_app, length_reverse. lia. }
    { by eexists _, _. }
    split_and!.
    + by rewrite Hperm, reverse_Permutation, (segment_app el lo pivot hi) by lia.
    + by apply sorted_strongly.
    + rewrite <-take_ends_merge_left_first by done. f_equal.
      rewrite length_app, length_reverse. lia.
  - intros fuel Hfuel.
    destruct (segment_split el lo hi) as (Hel & Hlpre & Hlmid); [lia..|].
    destruct (mergeSort_app fuel (take (Z.to_nat lo) el) (segment el lo hi)
                (drop (Z.to_nat (hi + 1)) el)) as (out & Hs & Hperm & Hsorted);
      [lia|].
    rewrite <-Hel in Hs.
    replace (Z.of_nat (length (take (Z.to_nat lo) el))) with lo in Hs by lia.
    replace (Z.of_nat (length (take (Z.to_nat lo) el) + length (segment el lo hi)) - 1)
      with hi in Hs by lia.
    exists out. split_and!; [done..|]. by apply sorted_strongly.
Qed.

(** C6, at a concrete edge list: runs [0..1] and [2..3] of four edges. *)
Lemma merge_and_mergeSort_sort_witness :
  let el := [mkEdge 0 1 1; mkEdge 1 2 4; mkEdge 0 2 2; mkEdge 2 3 4] in
  (∀ pivot, 0 - 1 ≤ pivot ≤ 3 →
     sorted_by_weight (segment el 0 pivot) →
     sorted_by_weight (segment el (pivot + 1) 3) →
     ∃ out,
       merge el 0 3 pivot
       = Some (take (Z.to_nat 0) el ++ out ++ drop (Z.to_nat (3 + 1)) el) ∧
       out ≡ₚ segment el 0 3 ∧ sorted_by_weight out ∧
       out = merge_left_first (segment el 0 pivot) (segment el (pivot + 1) 3)) ∧
  (∀ fuel, (Z.to_nat (3 - 0) < fuel)%nat →
     ∃ out,
       mergeSort fuel el 0 3
       = Some (take (Z.to_nat 0) el ++ out ++ drop (Z.to_nat (3 + 1)) el) ∧
       out ≡ₚ segment el 0 3 ∧ sorted_by_weight out).
Proof.
  apply (merge_and_mergeSort_sort
           [mkEdge 0 1 1; mkEdge 1 2 4; mkEdge 0 2 2; mkEdge 2 3 4] 0 3);
    simpl; lia.
Defined.

End MergeSort.

(** ** Scattering the edge list over the cohort *)

Module Scatter.

(** How a call ends on one rank: it returns, the process exits with
    [EXIT_FAILURE] (with what this rank wrote to the error channel), or the
    behaviour is not defined by C. *)
Inductive outcome (A : Type) : Type :=
| Returned (a : A)
| Exited (stderr : list string)
| Undefined.
Arguments Returned {A} a.
Arguments Exited {A} stderr.
Arguments Undefined {A}.

(** The diagnostic of the unsupported size/process combination (the
    trailing newline is left out). *)
Definition UNSUPPORTED : string :=
  "Unsupported size/process combination, exiting!".

(** [MPI_Scatter] with root 0, as seen by [rank]: the [count] slots of the
    root's send buffer that start at [rank * count].  A slot past the end
    of the send buffer has no determined content. *)
Definition MPI_Scatter (sendbuf : list Edge) (count rank : Z)
  : list (cell Edge) :=
  (λ j : nat, rd sendbuf (rank * count + Z.of_nat j)) <$> seq 0 (Z.to_nat count).

(** [scatterEdgeList] on [rank] of a cohort of [size] processes.  The result
    is the received part and the updated [*elementsPart]. *)
Definition scatterEdgeList (rank size : Z) (edgeList : list Edge)
  (elements elementsPart : Z) : outcome (list (cell Edge) * Z) :=
  let edgeListPart := MPI_Scatter edgeList elementsPart rank in
  let check (elementsPart : Z) : outcome (list (cell Edge) * Z) :=
    if decide (elements ÷ 2 + 1 < size ∧ elements ≠ size) then
      Exited (if decide (rank = 0) then [UNSUPPORTED] else [])
    else Returned (edgeListPart, elementsPart) in
  if decide (rank = size - 1) then
    (* [elements % *elementsPart] is evaluated *)
    if decide (elementsPart = 0) then Undefined
    else if decide (elements `rem` elementsPart ≠ 0) then
      check (elements `rem` elementsPart)
    else check elementsPart
  else check elementsPart.

(** The chunk size both callers ([sort], [mstBoruvka]) pass. *)
Definition chunk (elements size : Z) : Z := (elements + size - 1) ÷ size.

(** The two callers scatter only when [size != 1]. *)
Definition unsupported (elements size : Z) : Prop :=
  elements / 2 + 1 < size ∧ elements ≠ size.

Example scatter_example :
  scatterEdgeList 1 2 [mkEdge 0 1 1; mkEdge 1 2 2; mkEdge 0 2 3] 3 (chunk 3 2)
  = Returned ([Some (mkEdge 0 2 3); None], 1).
Proof. reflexivity. Qed.

(** C7. In a cohort of [size ≥ 2] processes (the scatter is not called
    otherwise) and for [E ≥ 0] edges, rank 0 exits with the
    unsupported-combination diagnostic exactly when [⌊E/2⌋ + 1 < size] and
    [E ≠ size]; in that case no rank returns from the scatter, and in every
    other case every rank returns from it. *)
Theorem scatterEdgeList_unsupported_iff (size E : Z) (edgeList : list Edge) :
  2 ≤ size → 0 ≤ E →
  (scatterEdgeList 0 size edgeList E (chunk E size) = Exited [UNSUPPORTED]
   ↔ unsupported E size) ∧
  (unsupported E size →
   ∀ rank, 0 ≤ rank < size → ∀ res,
     scatterEdgeList rank size edgeList E (chunk E size) ≠ Returned res) ∧
  (¬ unsupported E size →
   ∀ rank, 0 ≤ rank < size → ∃ res,
     scatterEdgeList rank size edgeList E (chunk E size) = Returned res).
Proof.
  intros Hsize HE. unfold unsupported.
  assert (E ÷ 2 = E / 2) as Hq by (apply Z.quot_div_nonneg; lia).
  split_and!.
  - unfold scatterEdgeList. rewrite decide_False by lia. rewrite Hq.
    case_decide; [by rewrite decide_True|]. split; [done|tauto].
  - intros Hu rank Hr res. unfold scatterEdgeList. rewrite Hq.
    repeat case_decide; try done; tauto.
  - intros Hu rank Hr. unfold scatterEdgeList. rewrite Hq.
    assert (chunk E size ≠ 0) as Hc.
    { unfold chunk. rewrite Z.quot_div_nonneg by lia.
      assert (0 < E).
      { destruct (decide (E = 0)) as [->|]; [|lia].
        destruct Hu. change (0 / 2) with 0. lia. }
      assert (1 ≤ (E + size - 1) / size); [|lia].
      apply Z.div_le_lower_bound; lia. }
    repeat case_decide; try done; eauto; tauto.
Qed.

(** C7, at a concrete cohort: five edges on four processes is refused. *)
Lemma scatterEdgeList_unsupported_iff_witness :
  (scatterEdgeList 0 4 [] 5 (chunk 5 4) = Exited [UNSUPPORTED]
   ↔ unsupported 5 4) ∧
  (unsupported 5 4 →
   ∀ rank, 0 ≤ rank < 4 → ∀ res,
     scatterEdgeList rank 4 [] 5 (chunk 5 4) ≠ Returned res) ∧
  (¬ unsupported 5 4 →
   ∀ rank, 0 ≤ rank < 4 → ∃ res,
     scatterEdgeList rank 4 [] 5 (chunk 5 4) = Returned res).
Proof. apply (scatterEdgeList_unsupported_iff 4 5 []); lia. Defined.

(** On an empty edge list the last rank divides by zero before it reaches
    the check. *)
Lemma scatterEdgeList_last_rank_empty (size : Z) (edgeList : list Edge) :
  2 ≤ size →
  scatterEdgeList (size - 1) size edgeList 0 (chunk 0 size) = Undefined.
Proof.
  intros ?. unfold scatterEdgeList, chunk. rewrite decide_True by done.
  rewrite decide_True; [done|]. apply Z.quot_small. lia.
Qed.


(** *** What the ranks receive *)

Lemma chunk_bounds (E size : Z) :
  1 ≤ size → 1 ≤ E →
  1 ≤ chunk E size ∧ E ≤ size * chunk E size ∧
  size * (chunk E size - 1) < E.
Proof.
  intros Hs HE. unfold chunk. rewrite Z.quot_div_nonneg by lia.
  pose proof (Z.div_mod (E + size - 1) size ltac:(lia)) as Hdm.
  pose proof (Z.mod_pos_bound (E + size - 1) size ltac:(lia)) as Hm.
  nia.
Qed.

Lemma rdc_MPI_Scatter (sendbuf : list Edge) (count rank j : Z) :
  0 ≤ j < count →
  rdc (MPI_Scatter sendbuf count rank) j = rd sendbuf (rank * count + j).
Proof.
  intros Hj. unfold rdc, MPI_Scatter.
  assert (∀ l : list (cell Edge), rd l j = l !! Z.to_nat j) as ->.
  { intros l. unfold rd. by rewrite decide_True by lia. }
  rewrite list_lookup_fmap, lookup_seq_lt by lia. simpl.
  rewrite Z2Nat.id by lia. by destruct (rd sendbuf _).
Qed.

(** What a rank receives when the parts tile the edge list. *)
Lemma scatterEdgeList_part (size E rank : Z) (edgeList : list Edge) :
  2 ≤ size → E = Z.of_nat (length edgeList) →
  ¬ unsupported E size → (size - 1) * chunk E size < E →
  0 ≤ rank < size →
  ∃ part n,
    scatterEdgeList rank size edgeList E (chunk E size) = Returned (part, n) ∧
    1 ≤ n ≤ chunk E size ∧
    (rank < size - 1 → n = chunk E size) ∧
    (rank = size - 1 → rank * chunk E size + n = E) ∧
    (∀ j, 0 ≤ j < n →
          ∃ e, rdc part j = Some e ∧
               rd edgeList (rank * chunk E size + j) = Some e).
Proof.
  intros Hsize HE Hsup Htile Hrank.
  assert (1 ≤ E) as HE1.
  { destruct (decide (1 ≤ E)); [done|]. assert (E = 0) as -> by lia.
    unfold chunk in Htile. rewrite Z.quot_small in Htile by lia. lia. }
  destruct (chunk_bounds E size) as (Hc1 & Hc2 & Hc3); [lia..|].
  set (c := chunk E size) in *.
  assert (E ÷ 2 = E / 2) as Hq by (apply Z.quot_div_nonneg; lia).
  unfold scatterEdgeList. cbv zeta. rewrite Hq. fold (unsupported E size).
  destruct (decide (unsupported E size)) as [?|_]; [done|].
  assert (∀ n j, 0 ≤ j < n → n ≤ c → rank * c + n ≤ E →
            ∃ e, rdc (MPI_Scatter edgeList c rank) j = Some e ∧
                 rd edgeList (rank * c + j) = Some e) as Hcells.
  { intros n j Hj Hn Hend. rewrite rdc_MPI_Scatter by lia.
    destruct (rd_in_range edgeList (rank * c + j)) as [e He]; [nia|].
    by exists e. }
  destruct (decide (rank = size - 1)) as [->|Hlast].
  - rewrite decide_False by lia.
    assert (E `rem` c = E mod c) as Hrem by (apply Z.rem_mod_nonneg; lia).
    rewrite Hrem.
    destruct (decide (E = size * c)) as [Hfull|Hpart].
    + assert (E mod c = 0) as Hz.
      { rewrite Hfull. apply Z.mod_mul. lia. }
      rewrite Hz, decide_False by lia.
      eexists _, c. split; [done|]. split_and!; try lia.
      intros j Hj. apply (Hcells c); lia.
    + assert (E mod c = E - (size - 1) * c) as Hz.
      { symmetry. apply (Z.mod_unique E c (size - 1)); lia. }
      rewrite Hz, decide_True by lia.
      eexists _, _. split; [done|]. split_and!; try lia.
      intros j Hj. apply (Hcells (E - (size - 1) * c)); lia.
  - eexists _, c. split; [done|]. split_and!; try lia.
    intros j Hj. apply (Hcells c); [lia..|]. nia.
Qed.

(** X12. When the combination is supported and the chunks of the ranks
    before the last do not use up the edge list
    ([(size - 1) * chunk < E]), the parts tile the edge list: rank [r]
    returns with the edges [r * chunk .. r * chunk + n - 1] in the first
    [n] slots of its part, [n] is the whole chunk on every rank but the
    last, and the part of the last rank ends with the last edge. *)
Theorem scatterEdgeList_tiles (size E rank : Z) (edgeList : list Edge) :
  2 ≤ size → E = Z.of_nat (length edgeList) →
  ¬ unsupported E size → (size - 1) * chunk E size < E →
  0 ≤ rank < size →
  ∃ part n,
    scatterEdgeList rank size edgeList E (chunk E size) = Returned (part, n) ∧
    1 ≤ n ≤ chunk E size ∧
    (rank < size - 1 → n = chunk E size) ∧
    (rank = size - 1 → rank * chunk E size + n = E) ∧
    (∀ j, 0 ≤ j < n →
          ∃ e, rdc part j = Some e ∧
               rd edgeList (rank * chunk E size + j) = Some e).
Proof. apply scatterEdgeList_part. Qed.

(** X12 on five edges and three processes: the last rank receives the one
    edge left. *)
Lemma scatterEdgeList_tiles_witness :
  ∃ part n,
    scatterEdgeList 2 3
      [mkEdge 0 1 1; mkEdge 1 2 2; mkEdge 0 2 3; mkEdge 2 3 4; mkEdge 3 0 5]
      5 (chunk 5 3) = Returned (part, n) ∧
    1 ≤ n ≤ chunk 5 3 ∧
    (2 < 3 - 1 → n = chunk 5 3) ∧
    (2 = 3 - 1 → 2 * chunk 5 3 + n = 5) ∧
    (∀ j, 0 ≤ j < n →
          ∃ e, rdc part j = Some e ∧
               rd [mkEdge 0 1 1; mkEdge 1 2 2; mkEdge 0 2 3; mkEdge 2 3 4;
                   mkEdge 3 0 5] (2 * chunk 5 3 + j) = Some e).
Proof.
  apply (scatterEdgeList_tiles 3 5 2
           [mkEdge 0 1 1; mkEdge 1 2 2; mkEdge 0 2 3; mkEdge 2 3 4;
            mkEdge 3 0 5]);
    [lia|reflexivity| |vm_compute; reflexivity|lia].
  unfold unsupported. change (5 / 2) with 2. lia.
Defined.

(** X13. A supported combination in which the last rank receives nothing:
    with [E = 2k] edges on [k + 1] processes ([k >= 2]) the check passes,
    the chunk is 2, the ranks before the last use up the whole edge list,
    and the last rank returns with [*elementsPart = 2] and a part whose two
    slots lie past the end of the root's buffer. *)
Theorem scatterEdgeList_last_rank_past_end (k : Z) (edgeList : list Edge) :
  2 ≤ k → Z.of_nat (length edgeList) = 2 * k →
  ¬ unsupported (2 * k) (k + 1) ∧
  scatterEdgeList k (k + 1) edgeList (2 * k) (chunk (2 * k) (k + 1))
  = Returned ([None; None], 2).
Proof.
  intros Hk Hlen.
  assert (chunk (2 * k) (k + 1) = 2) as Hc.
  { unfold chunk. rewrite Z.quot_div_nonneg by lia.
    symmetry. apply (Z.div_unique _ _ 2 (k - 2)); lia. }
  assert (2 * k / 2 = k) as Hh by (rewrite Z.mul_comm; apply Z.div_mul; lia).
  split; [unfold unsupported; rewrite Hh; lia|].
  unfold scatterEdgeList. rewrite Hc.
  rewrite (Z.quot_div_nonneg (2 * k) 2), Hh by lia.
  rewrite decide_True by lia. rewrite decide_False by lia.
  assert ((2 * k) `rem` 2 = 0) as ->.
  { rewrite Z.rem_mod_nonneg by lia. rewrite Z.mul_comm. apply Z.mod_mul. lia. }
  rewrite decide_False by lia. rewrite decide_False by lia.
  do 2 f_equal. unfold MPI_Scatter. simpl.
  unfold rd. rewrite !decide_True by lia.
  rewrite !lookup_ge_None_2 by lia. done.
Qed.

(** X13 on six edges and four processes. *)
Lemma scatterEdgeList_last_rank_past_end_witness :
  ¬ unsupported (2 * 3) (3 + 1) ∧
  scatterEdgeList 3 (3 + 1)
    [mkEdge 0 1 1; mkEdge 1 2 2; mkEdge 0 2 3; mkEdge 2 3 4; mkEdge 3 0 5;
     mkEdge 1 3 6]
    (2 * 3) (chunk (2 * 3) (3 + 1))
  = Returned ([None; None], 2).
Proof.
  apply (scatterEdgeList_last_rank_past_end 3
           [mkEdge 0 1 1; mkEdge 1 2 2; mkEdge 0 2 3; mkEdge 2 3 4;
            mkEdge 3 0 5; mkEdge 1 3 6]); [lia|reflexivity].
Defined.

(** X14. With an empty edge list the last rank of any cohort of two or
    more processes evaluates [elements % *elementsPart] with
    [*elementsPart = 0] before it reaches the check. *)
Theorem scatterEdgeList_empty_divides_by_zero (size : Z) (edgeList : list Edge) :
  2 ≤ size →
  chunk 0 size = 0 ∧
  scatterEdgeList (size - 1) size edgeList 0 (chunk 0 size) = Undefined.
Proof.
  intros ?. split; [unfold chunk; apply Z.quot_small; lia|].
  by apply scatterEdgeList_last_rank_empty.
Qed.

(** X14 on two processes. *)
Lemma scatterEdgeList_empty_divides_by_zero_witness :
  chunk 0 2 = 0 ∧ scatterEdgeList (2 - 1) 2 [] 0 (chunk 0 2) = Undefined.
Proof. apply (scatterEdgeList_empty_divides_by_zero 2 []). lia. Defined.
End Scatter.

(** ** Sequences of heap operations

    Both heaps are filled by [push] and updated by [decrease]; a sequence of
    such calls is valid for a position table of [V] slots when every pushed
    vertex is in range and new, and every decreased vertex has been
    pushed. *)

Inductive HeapOp :=
  | Push (vertex via weight : Z)
  | Decrease (vertex via weight : Z).

Fixpoint valid_ops (V : Z) (pushed : list Z) (ops : list HeapOp) : Prop :=
  match ops with
  | [] => True
  | Push v _ _ :: ops =>
      0 ≤ v < V ∧ (v ∉ pushed) ∧ valid_ops V (v :: pushed) ops
  | Decrease v _ _ :: ops => v ∈ pushed ∧ valid_ops V pushed ops
  end.

Fixpoint pushed_by (pushed : list Z) (ops : list HeapOp) : list Z :=
  match ops with
  | [] => pushed
  | Push v _ _ :: ops => pushed_by (v :: pushed) ops
  | Decrease _ _ _ :: ops => pushed_by pushed ops
  end.



(** ** Indexed binary min-heap *)

Module BinaryHeap.

Record BinaryHeapElement := mkElement {
  vertex : Z;
  via : Z;
  weight : Z
}.

(** [positions] has one slot per vertex (the caller sizes it), [elements]
    has [alloced] slots of which the first [size] are in use. *)
Record BinaryMinHeap := mkHeap {
  alloced : Z;
  size : Z;
  positions : list (cell Z);
  elements : list (cell BinaryHeapElement)
}.

Definition with_size (heap : BinaryMinHeap) (n : Z) : BinaryMinHeap :=
  {| alloced := alloced heap; size := n; positions := positions heap;
     elements := elements heap |}.

Definition with_positions (heap : BinaryMinHeap) (p : list (cell Z))
  : BinaryMinHeap :=
  {| alloced := alloced heap; size := size heap; positions := p;
     elements := elements heap |}.

Definition with_elements (heap : BinaryMinHeap)
  (e : list (cell BinaryHeapElement)) : BinaryMinHeap :=
  {| alloced := alloced heap; size := size heap; positions := positions heap;
     elements := e |}.

(** [newBinaryMinHeap]: four element slots and a one-slot position table,
    all uninitialised. *)
Definition newBinaryMinHeap : BinaryMinHeap :=
  let startSize := 4 in
  {| alloced := startSize; size := 0; positions := [None];
     elements := replicate (Z.to_nat startSize) None |}.

(** [realloc] of a block to [n] slots: the old contents are kept, the new
    slots are uninitialised. *)
Definition realloc {A} (block : list (cell A)) (n : Z) : list (cell A) :=
  resize (Z.to_nat n) None block.

Definition swapBinaryHeapElement (heap : BinaryMinHeap)
  (position1 position2 : Z) : option BinaryMinHeap :=
  e1 ← rdc (elements heap) position1;
  pos ← wrc (positions heap) (vertex e1) position2;
  e2 ← rdc (elements heap) position2;
  pos ← wrc pos (vertex e2) position1;
  let swap := e1 in
  els ← wrc (elements heap) position1 e2;
  els ← wrc els position2 swap;
  Some (with_elements (with_positions heap pos) els).

(** [heapifyBinaryMinHeap]: restore the heap order from [position]
    upwards. *)
Fixpoint heapifyBinaryMinHeap (fuel : nat) (heap : BinaryMinHeap)
  (position : Z) : option BinaryMinHeap :=
  match fuel with
  | O => None
  | S fuel =>
      if decide (0 ≤ position) then
        let positionParent := (position - 1) ÷ 2 in
        e ← rdc (elements heap) position;
        ep ← rdc (elements heap) positionParent;
        if decide (weight e < weight ep) then
          heap ← swapBinaryHeapElement heap position positionParent;
          heapifyBinaryMinHeap fuel heap positionParent
        else Some heap
      else Some heap
  end.

(** [heapifyDownBinaryMinHeap]: restore the heap order from [position]
    downwards.  The bound checks are [<= size], as in the source. *)
Fixpoint heapifyDownBinaryMinHeap (fuel : nat) (heap : BinaryMinHeap)
  (position : Z) : option BinaryMinHeap :=
  match fuel with
  | O => None
  | S fuel =>
      if decide (position < size heap) then
        let positionLeft := (position + 1) * 2 - 1 in
        let positionRight := (position + 1) * 2 in
        let positionSmallest := position in
        positionSmallest ←
          (if decide (positionLeft ≤ size heap) then
             el ← rdc (elements heap) positionLeft;
             es ← rdc (elements heap) positionSmallest;
             Some (if decide (weight el < weight es) then positionLeft
                   else positionSmallest)
           else Some positionSmallest);
        positionSmallest ←
          (if decide (positionRight ≤ size heap) then
             er ← rdc (elements heap) positionRight;
             es ← rdc (elements heap) positionSmallest;
             Some (if decide (weight er < weight es) then positionRight
                   else positionSmallest)
           else Some positionSmallest);
        e ← rdc (elements heap) position;
        es ← rdc (elements heap) positionSmallest;
        if decide (weight e > weight es) then
          heap ← swapBinaryHeapElement heap position positionSmallest;
          heapifyDownBinaryMinHeap fuel heap positionSmallest
        else Some heap
      else Some heap
  end.

(** [pushBinaryMinHeap]: append at the tail and bubble up. *)
Definition pushBinaryMinHeap (fuel : nat) (heap : BinaryMinHeap)
  (vertex via weight : Z) : option BinaryMinHeap :=
  let heap :=
    if decide (size heap = alloced heap) then
      {| alloced := alloced heap * 2; size := size heap;
         positions := positions heap;
         elements := realloc (elements heap) (2 * alloced heap) |}
    else heap in
  els ← wrc (elements heap) (size heap) (mkElement vertex via weight);
  pos ← wrc (positions heap) vertex (size heap);
  heap ← heapifyBinaryMinHeap fuel
           (with_elements (with_positions heap pos) els) (size heap);
  Some (with_size heap (size heap + 1)).

(** [decreaseBinaryMinHeap]: lower the weight of a vertex that is in the
    heap; nothing happens otherwise. *)
Definition decreaseBinaryMinHeap (fuel : nat) (heap : BinaryMinHeap)
  (vertex via weight : Z) : option BinaryMinHeap :=
  p ← rdc (positions heap) vertex;
  if decide (p ≠ UNSET_ELEMENT) then
    e ← rdc (elements heap) p;
    if decide (BinaryHeap.weight e > weight) then
      els ← wrc (elements heap) p
              (mkElement (BinaryHeap.vertex e) via weight);
      p ← rdc (positions heap) vertex;
      heapifyBinaryMinHeap fuel (with_elements heap els) p
    else Some heap
  else Some heap.

(** [popBinaryMinHeap]: remove the root.  The result carries the three
    output parameters [*vertex], [*via], [*weight]. *)
Definition popBinaryMinHeap (fuel : nat) (heap : BinaryMinHeap)
  : option (BinaryMinHeap * (Z * Z * Z)) :=
  e0 ← rdc (elements heap) 0;
  let out := (vertex e0, via e0, weight e0) in
  pos ← wrc (positions heap) (vertex e0) UNSET_ELEMENT;
  elast ← rdc (elements heap) (size heap - 1);
  els ← wrc (elements heap) 0 elast;
  e0' ← rdc els 0;
  pos ← wrc pos (vertex e0') 0;
  let heap := with_size (with_elements (with_positions heap pos) els)
                (size heap - 1) in
  heap ← heapifyDownBinaryMinHeap fuel heap 0;
  Some (heap, out).

(** The heap as [mstPrimBinary] sets it up: a fresh heap whose position
    table is reallocated to one slot per vertex. *)
Definition heap_for (vertices : Z) : BinaryMinHeap :=
  with_positions newBinaryMinHeap
    (realloc (positions newBinaryMinHeap) vertices).

Example push_pop_example :
  (h ← pushBinaryMinHeap 9 (heap_for 3) 0 7 30;
   h ← pushBinaryMinHeap 9 h 1 8 10;
   h ← pushBinaryMinHeap 9 h 2 9 20;
   h ← decreaseBinaryMinHeap 9 h 0 5 5;
   '(h, o1) ← popBinaryMinHeap 9 h;
   '(h, o2) ← popBinaryMinHeap 9 h;
   '(h, o3) ← popBinaryMinHeap 9 h;
   Some (o1, o2, o3, size h))
  = Some ((0, 5, 5), (1, 8, 10), (2, 9, 20), 0).
Proof. reflexivity. Qed.


(** *** Popping the last entry *)

(** C3 at the heap that holds a single entry (vertex 0, pushed on the fresh
    heap of a one-vertex graph): after [popBinaryMinHeap] the heap is empty
    but the position slot of the popped vertex holds index 0 instead of
    [UNSET_ELEMENT]. *)
Lemma popBinaryMinHeap_last_keeps_position :
  (heap ← pushBinaryMinHeap 1 (heap_for 1) 0 INT_MAX INT_MAX;
   '(heap', out) ← popBinaryMinHeap 1 heap;
   p ← rdc (positions heap') 0;
   Some (size heap, out, size heap', p))
  = Some (1, (0, INT_MAX, INT_MAX), 0, 0).
Proof. reflexivity. Qed.

(** *** Shape and order of the heap array *)

(** The parent index, with C's division: the parent of the root is the
    root itself. *)
Definition parent (i : Z) : Z := (i - 1) ÷ 2.

Lemma parent_0 : parent 0 = 0.
Proof. reflexivity. Qed.

Lemma parent_cases i : 0 < i → i = 2 * parent i + 1 ∨ i = 2 * parent i + 2.
Proof.
  intros Hi. unfold parent. rewrite Z.quot_div_nonneg by lia.
  pose proof (Z.div_mod (i - 1) 2). pose proof (Z.mod_pos_bound (i - 1) 2).
  lia.
Qed.

Lemma parent_bounds i : 0 < i → 0 ≤ parent i < i.
Proof. intros Hi. destruct (parent_cases i Hi); lia. Qed.

Lemma parent_left p : 0 ≤ p → parent ((p + 1) * 2 - 1) = p.
Proof.
  intros. unfold parent. rewrite Z.quot_div_nonneg by lia.
  replace ((p + 1) * 2 - 1 - 1) with (p * 2) by lia. apply Z.div_mul. lia.
Qed.

Lemma parent_right p : 0 ≤ p → parent ((p + 1) * 2) = p.
Proof.
  intros. unfold parent. rewrite Z.quot_div_nonneg by lia.
  replace ((p + 1) * 2 - 1) with (1 + p * 2) by lia.
  rewrite Z.div_add by lia. done.
Qed.

Lemma parent_children i p :
  0 < i → parent i = p → i = (p + 1) * 2 - 1 ∨ i = (p + 1) * 2.
Proof. intros Hi <-. destruct (parent_cases i Hi); lia. Qed.

(** The weight stored in a slot. *)
Definition W (els : list (cell BinaryHeapElement)) (i : Z) : Z :=
  default 0 (weight <$> rdc els i).

Lemma W_Some els i e : rdc els i = Some e → W els i = weight e.
Proof. unfold W. by intros ->. Qed.

(** The first [n] slots hold entries and the position table points back
    at them. *)
Definition entries (n : Z) (pos : list (cell Z))
  (els : list (cell BinaryHeapElement)) : Prop :=
  ∀ i, 0 ≤ i < n → ∃ e, rdc els i = Some e ∧ rdc pos (vertex e) = Some i.

(** A position that is set names a slot that holds the vertex.  The slot is
    one of the first [n], or slot 0 when the heap has just been emptied
    (see [popBinaryMinHeap_last_keeps_position]). *)
Definition located (n : Z) (pos : list (cell Z))
  (els : list (cell BinaryHeapElement)) : Prop :=
  ∀ v p, rdc pos v = Some p → p ≠ UNSET_ELEMENT →
    0 ≤ p < Z.max 1 n ∧ ∃ e, rdc els p = Some e ∧ vertex e = v.

Definition ordered (n : Z) (els : list (cell BinaryHeapElement)) : Prop :=
  ∀ i, 0 < i < n → W els (parent i) ≤ W els i.

(** The order holds except that slot [p] may be lighter than its parent. *)
Definition up_inv (n : Z) (els : list (cell BinaryHeapElement)) (p : Z)
  : Prop :=
  (∀ i, 0 < i < n → i ≠ p → W els (parent i) ≤ W els i) ∧
  (∀ i, 0 < i < n → parent i = p → 0 < p → W els (parent p) ≤ W els i).

(** The order holds except that slot [p] may be heavier than its
    children. *)
Definition down_inv (n : Z) (els : list (cell BinaryHeapElement)) (p : Z)
  : Prop :=
  (∀ i, 0 < i < n → parent i ≠ p → W els (parent i) ≤ W els i) ∧
  (∀ i, 0 < i < n → parent i = p → 0 < p → W els (parent p) ≤ W els i).

Definition live (n : Z) (els : list (cell BinaryHeapElement))
  (e : BinaryHeapElement) : Prop :=
  ∃ i, 0 ≤ i < n ∧ rdc els i = Some e.

(** What the sifting operations leave alone. *)
Definition same_shape (heap heap' : BinaryMinHeap) : Prop :=
  size heap' = size heap ∧ alloced heap' = alloced heap ∧
  length (elements heap') = length (elements heap) ∧
  length (positions heap') = length (positions heap) ∧
  (∀ v, is_Some (rdc (positions heap) v) → is_Some (rdc (positions heap') v)).

Lemma same_shape_refl heap : same_shape heap heap.
Proof. by unfold same_shape. Qed.

Lemma same_shape_trans h1 h2 h3 :
  same_shape h1 h2 → same_shape h2 h3 → same_shape h1 h3.
Proof.
  intros (?&?&?&?&?) (?&?&?&?&?). unfold same_shape.
  split_and!; [congruence..|eauto].
Qed.

Lemma entries_vertex_inj n pos els i j ei ej :
  entries n pos els → 0 ≤ i < n → 0 ≤ j < n →
  rdc els i = Some ei → rdc els j = Some ej → vertex ei = vertex ej → i = j.
Proof.
  intros He Hi Hj Hei Hej Hv.
  destruct (He i Hi) as (e & ? & Hpi). destruct (He j Hj) as (e' & ? & Hpj).
  simplify_eq. rewrite Hv in Hpi. congruence.
Qed.

Lemma swapBinaryHeapElement_spec heap n i j :
  entries n (positions heap) (elements heap) →
  located n (positions heap) (elements heap) →
  0 ≤ i < n → 0 ≤ j < n → i ≠ j →
  ∃ heap',
    swapBinaryHeapElement heap i j = Some heap' ∧
    same_shape heap heap' ∧
    entries n (positions heap') (elements heap') ∧
    located n (positions heap') (elements heap') ∧
    (∀ k, rdc (elements heap') k =
       if decide (k = i) then rdc (elements heap) j
       else if decide (k = j) then rdc (elements heap) i
       else rdc (elements heap) k).
Proof.
  intros He Hl Hi Hj Hij.
  destruct (He i Hi) as (ei & Hei & Hpi). destruct (He j Hj) as (ej & Hej & Hpj).
  assert (vertex ei ≠ vertex ej) as Hv
    by (intros Hv; apply Hij; eauto using entries_vertex_inj).
  unfold swapBinaryHeapElement. rewrite Hei. cbn [mbind option_bind].
  destruct (wrc_is_Some (positions heap) (vertex ei) j) as [pos1 Hpos1];
    [by eapply rdc_Some_range|].
  rewrite Hpos1. cbn [mbind option_bind]. rewrite Hej. cbn [mbind option_bind].
  destruct (wrc_is_Some pos1 (vertex ej) i) as [pos2 Hpos2].
  { rewrite (wrc_length _ _ _ _ Hpos1). by eapply rdc_Some_range. }
  rewrite Hpos2. cbn [mbind option_bind].
  destruct (wrc_is_Some (elements heap) i ej) as [els1 Hels1];
    [by eapply rdc_Some_range|].
  rewrite Hels1. cbn [mbind option_bind].
  destruct (wrc_is_Some els1 j ei) as [els2 Hels2].
  { rewrite (wrc_length _ _ _ _ Hels1). by eapply rdc_Some_range. }
  rewrite Hels2. cbn [mbind option_bind].
  assert (∀ k, rdc els2 k =
            if decide (k = i) then Some ej
            else if decide (k = j) then Some ei else rdc (elements heap) k)
    as Hels.
  { intros k. rewrite (rdc_wrc _ _ _ _ _ Hels2), (rdc_wrc _ _ _ _ _ Hels1).
    repeat case_decide; simplify_eq; done. }
  assert (∀ v, rdc pos2 v =
            if decide (v = vertex ej) then Some i
            else if decide (v = vertex ei) then Some j
            else rdc (positions heap) v) as Hpos.
  { intros v. by rewrite (rdc_wrc _ _ _ _ _ Hpos2), (rdc_wrc _ _ _ _ _ Hpos1). }
  eexists. split; [done|]. simpl. split_and!.
  - unfold same_shape. simpl. split_and!; try done.
    + by rewrite (wrc_length _ _ _ _ Hels2), (wrc_length _ _ _ _ Hels1).
    + by rewrite (wrc_length _ _ _ _ Hpos2), (wrc_length _ _ _ _ Hpos1).
    + intros v Hv'. rewrite Hpos. repeat case_decide; eauto.
  - intros k Hk. rewrite Hels.
    destruct (decide (k = i)) as [->|Hki].
    { exists ej. split; [done|]. rewrite Hpos. by rewrite decide_True. }
    destruct (decide (k = j)) as [->|Hkj].
    { exists ei. split; [done|]. rewrite Hpos.
      by rewrite decide_False, decide_True. }
    destruct (He k Hk) as (e & Hek & Hpk). exists e. split; [done|].
    rewrite Hpos, !decide_False; [done|..].
    + intros Hv'. apply Hki. eauto using entries_vertex_inj.
    + intros Hv'. apply Hkj. eauto using entries_vertex_inj.
  - intros v p. rewrite Hpos, Hels.
    destruct (decide (v = vertex ej)) as [->|Hvj].
    { intros [= <-] _. rewrite decide_True by done. split; [lia|eauto]. }
    destruct (decide (v = vertex ei)) as [->|Hvi].
    { intros [= <-] _. rewrite decide_False, decide_True by done.
      split; [lia|eauto]. }
    intros Hp Hne. destruct (Hl v p Hp Hne) as (Hr & e & Hep & Hev).
    split; [done|]. rewrite !decide_False; [eauto|..]; intros ->; congruence.
  - intros k. apply Hels.
Qed.

Lemma W_swap els els' i j :
  (∀ k, rdc els' k =
     if decide (k = i) then rdc els j
     else if decide (k = j) then rdc els i else rdc els k) →
  ∀ k, W els' k =
     if decide (k = i) then W els j
     else if decide (k = j) then W els i else W els k.
Proof. intros H k. unfold W. rewrite H. by repeat case_decide. Qed.

Lemma live_swap n els els' i j :
  0 ≤ i < n → 0 ≤ j < n →
  (∀ k, rdc els' k =
     if decide (k = i) then rdc els j
     else if decide (k = j) then rdc els i else rdc els k) →
  ∀ e, live n els' e ↔ live n els e.
Proof.
  intros Hi Hj H e. unfold live. split.
  - intros (k & Hk & Hek). rewrite H in Hek.
    repeat case_decide; subst; eauto.
  - intros (k & Hk & Hek).
    destruct (decide (k = i)) as [->|Hki].
    { exists j. split; [done|]. rewrite H.
      case_decide; [by subst|]. by rewrite decide_True. }
    destruct (decide (k = j)) as [->|Hkj].
    { exists i. split; [done|]. rewrite H. by rewrite decide_True. }
    exists k. split; [done|]. rewrite H. by rewrite !decide_False.
Qed.

(** One step of sifting up keeps the order outside the moved slot. *)
Lemma up_inv_swap n els els' p :
  0 < p < n → up_inv n els p → W els p < W els (parent p) →
  (∀ k, W els' k =
     if decide (k = p) then W els (parent p)
     else if decide (k = parent p) then W els p else W els k) →
  up_inv n els' (parent p).
Proof.
  intros Hp [Hup1 Hup2] Hlt HW.
  pose proof (parent_bounds p ltac:(lia)) as Hq.
  split.
  - intros i Hi Hiq. rewrite !HW.
    pose proof (parent_bounds i ltac:(lia)) as Hpi.
    destruct (decide (i = p)) as [->|Hip].
    { rewrite decide_False, decide_True by lia. lia. }
    rewrite (decide_False (P := i = parent p)) by done.
    destruct (decide (parent i = p)) as [Heq|Hne].
    { apply Hup2; [done..|lia]. }
    destruct (decide (parent i = parent p)) as [Heq|Hne'].
    { specialize (Hup1 i Hi Hip). rewrite Heq in Hup1. lia. }
    by apply Hup1.
  - intros i Hi Hiq Hq0. rewrite !HW.
    pose proof (parent_bounds (parent p) Hq0) as Hqq.
    rewrite !(decide_False (P := parent (parent p) = _)) by lia.
    assert (W els (parent (parent p)) ≤ W els (parent p)) as Hqle
      by (apply Hup1; lia).
    destruct (decide (i = p)) as [->|Hip]; [done|].
    rewrite decide_False by (intros ->; lia).
    specialize (Hup1 i Hi Hip). rewrite Hiq in Hup1. lia.
Qed.

Lemma heapifyBinaryMinHeap_spec fuel : ∀ heap n p,
  entries n (positions heap) (elements heap) →
  located n (positions heap) (elements heap) →
  0 ≤ p → p < n ∨ p = 0 → is_Some (rdc (elements heap) p) →
  up_inv n (elements heap) p →
  p < Z.of_nat fuel →
  ∃ heap',
    heapifyBinaryMinHeap fuel heap p = Some heap' ∧
    same_shape heap heap' ∧
    entries n (positions heap') (elements heap') ∧
    located n (positions heap') (elements heap') ∧
    ordered n (elements heap') ∧
    (∀ e, live n (elements heap') e ↔ live n (elements heap) e).
Proof.
  induction fuel as [|fuel IH]; intros heap n p He Hl Hp0 Hpn [e Hep] Hup Hfuel;
    [lia|].
  simpl. rewrite decide_True by done.
  change ((p - 1) ÷ 2) with (parent p). rewrite Hep. cbn [mbind option_bind].
  destruct (decide (p = 0)) as [->|Hpne].
  { rewrite parent_0, Hep. cbn [mbind option_bind].
    rewrite decide_False by lia.
    exists heap. split_and!; eauto using same_shape_refl.
    intros i Hi. apply Hup; lia. }
  assert (0 < p < n) as Hp by lia.
  pose proof (parent_bounds p ltac:(lia)) as Hq.
  destruct (He (parent p)) as (ep & Heq & _); [lia|].
  rewrite Heq. cbn [mbind option_bind].
  case_decide as Hlt.
  - destruct (swapBinaryHeapElement_spec heap n p (parent p))
      as (heap1 & -> & Hshape & He1 & Hl1 & Hels1); [done|done|lia|lia|lia|].
    cbn [mbind option_bind].
    pose proof (W_swap _ _ _ _ Hels1) as HW.
    destruct (IH heap1 n (parent p)) as (heap2 & -> & Hshape2 & ? & ? & ? & Hlive);
      [done|done|lia|lia| | |lia|].
    { rewrite Hels1, decide_False, decide_True by lia. eauto. }
    { apply (up_inv_swap n (elements heap)); [done|done| |done].
      by rewrite (W_Some _ _ _ Hep), (W_Some _ _ _ Heq). }
    exists heap2. split_and!; eauto using same_shape_trans.
    intros e'. rewrite Hlive. apply (live_swap n _ _ p (parent p)); [lia|lia|done].
  - exists heap. split_and!; eauto using same_shape_refl.
    intros i Hi. destruct (decide (i = p)) as [->|Hip].
    + rewrite (W_Some _ _ _ Hep), (W_Some _ _ _ Heq). lia.
    + by apply Hup.
Qed.

(** One step of sifting down keeps the order outside the moved slot. *)
Lemma down_inv_swap n els els' p s :
  0 ≤ p → 0 < s < n → parent s = p → down_inv n els p →
  W els s < W els p →
  (∀ i, 0 < i < n → parent i = p → W els s ≤ W els i) →
  (∀ k, W els' k =
     if decide (k = p) then W els s
     else if decide (k = s) then W els p else W els k) →
  down_inv n els' s.
Proof.
  intros Hp Hs Hps [Hd1 Hd2] Hlt Hmin HW.
  pose proof (parent_bounds s ltac:(lia)) as Hq. rewrite Hps in Hq.
  split.
  - intros i Hi Hne. rewrite !HW.
    pose proof (parent_bounds i ltac:(lia)) as Hpi.
    destruct (decide (i = s)) as [->|His].
    { rewrite Hps, decide_True, decide_False by lia. lia. }
    destruct (decide (i = p)) as [->|Hip].
    { rewrite !decide_False by lia. apply Hd2; [lia|done|lia]. }
    rewrite (decide_False (P := parent i = s)) by done.
    destruct (decide (parent i = p)) as [Heq|Hne']; [by apply Hmin|].
    by apply Hd1.
  - intros i Hi Heq _. rewrite !HW.
    pose proof (parent_bounds i ltac:(lia)) as Hpi.
    rewrite Hps, decide_True by done.
    rewrite !decide_False by lia.
    rewrite <-Heq. apply Hd1; lia.
Qed.

Lemma heapifyDownBinaryMinHeap_spec fuel : ∀ heap p,
  let n := size heap in
  entries n (positions heap) (elements heap) →
  located n (positions heap) (elements heap) →
  0 ≤ p < n →
  (∃ es, rdc (elements heap) n = Some es ∧ weight es = W (elements heap) p) →
  down_inv n (elements heap) p →
  n - p ≤ Z.of_nat fuel →
  ∃ heap',
    heapifyDownBinaryMinHeap fuel heap p = Some heap' ∧
    same_shape heap heap' ∧
    entries n (positions heap') (elements heap') ∧
    located n (positions heap') (elements heap') ∧
    ordered n (elements heap') ∧
    (∀ e, live n (elements heap') e ↔ live n (elements heap) e).
Proof.
  induction fuel as [|fuel IH]; intros heap p n He Hl Hp (es & Hes & Hesw) Hd Hfuel;
    [lia|].
  assert (∀ k, 0 ≤ k ≤ n → ∃ e, rdc (elements heap) k = Some e ∧
            W (elements heap) k = weight e) as Hrd.
  { intros k Hk. destruct (decide (k = n)) as [->|Hkn].
    - exists es. eauto using W_Some.
    - destruct (He k) as (e & Hek & _); [lia|]. exists e. eauto using W_Some. }
  simpl. fold n. rewrite decide_True by lia.
  set (l := (p + 1) * 2 - 1). set (r := (p + 1) * 2).
  destruct (Hrd p) as (e & Hep & HWp); [lia|].
  assert (W (elements heap) n = W (elements heap) p) as HWn
    by (rewrite (W_Some _ _ _ Hes); done).
  (* the lighter of [p] and its left child *)
  assert (∃ s1,
    (if decide (l ≤ n) then
       el ← rdc (elements heap) l; es ← rdc (elements heap) p;
       Some (if decide (weight el < weight es) then l else p)
     else Some p) = Some s1 ∧
    0 ≤ s1 < n ∧ (s1 = p ∨ s1 = l ∧ W (elements heap) l < W (elements heap) p) ∧
    (l < n → W (elements heap) s1 ≤ W (elements heap) l) ∧
    W (elements heap) s1 ≤ W (elements heap) p) as (s1 & -> & Hs1 & Hs1c & Hs1l & Hs1p).
  { case_decide as Hln; [|exists p; split_and!; eauto; lia].
    destruct (Hrd l) as (el & -> & HWl); [unfold l; lia|].
    rewrite Hep. cbn [mbind option_bind]. rewrite <-HWl, <-HWp.
    case_decide as Hlt.
    - exists l. assert (l ≠ n) by (intros Heq; rewrite Heq in Hlt; lia).
      split_and!; eauto; lia.
    - exists p. split_and!; eauto; lia. }
  cbn [mbind option_bind].
  assert (∃ s2,
    (if decide (r ≤ n) then
       er ← rdc (elements heap) r; es ← rdc (elements heap) s1;
       Some (if decide (weight er < weight es) then r else s1)
     else Some s1) = Some s2 ∧
    0 ≤ s2 < n ∧
    (s2 = s1 ∨ s2 = r ∧ W (elements heap) r < W (elements heap) s1) ∧
    (r < n → W (elements heap) s2 ≤ W (elements heap) r) ∧
    W (elements heap) s2 ≤ W (elements heap) s1) as (s2 & -> & Hs2 & Hs2c & Hs2r & Hs2s).
  { case_decide as Hrn; [|exists s1; split_and!; eauto; lia].
    destruct (Hrd r) as (er & -> & HWr); [unfold r; lia|].
    destruct (Hrd s1) as (e1 & -> & HW1); [lia|].
    cbn [mbind option_bind]. rewrite <-HWr, <-HW1.
    case_decide as Hlt.
    - exists r. assert (r ≠ n) by (intros Heq; rewrite Heq in Hlt; lia).
      split_and!; eauto; lia.
    - exists s1. split_and!; eauto; lia. }
  cbn [mbind option_bind]. rewrite Hep. cbn [mbind option_bind].
  destruct (Hrd s2) as (e2 & -> & HW2); [lia|]. cbn [mbind option_bind].
  rewrite <-HWp, <-HW2.
  assert (∀ i, 0 < i < n → parent i = p →
            W (elements heap) s2 ≤ W (elements heap) i) as Hmin.
  { intros i Hi Hpi.
    destruct (parent_children i p) as [->| ->]; [lia|done|..].
    - fold l in Hi |- *. specialize (Hs1l ltac:(lia)). lia.
    - fold r in Hi |- *. apply Hs2r. lia. }
  case_decide as Hgt.
  - assert (s2 ≠ p ∧ parent s2 = p ∧ p < s2) as (Hs2p & Hps2 & Hlt2).
    { destruct Hs2c as [->|[-> _]]; [destruct Hs1c as [->|[-> _]]|].
      - lia.
      - unfold l. rewrite parent_left by lia. lia.
      - unfold r. rewrite parent_right by lia. lia. }
    destruct (swapBinaryHeapElement_spec heap n p s2)
      as (heap1 & -> & Hshape & He1 & Hl1 & Hels1); [done|done|lia|lia|lia|].
    cbn [mbind option_bind].
    pose proof (W_swap _ _ _ _ Hels1) as HW.
    assert (size heap1 = n) as Hn1 by apply Hshape.
    specialize (IH heap1 s2). cbv zeta in IH. rewrite Hn1 in IH.
    destruct IH as (heap2 & -> & Hshape2 & ? & ? & ? & Hlive);
      [done|done|lia| | |lia|].
    { exists es. rewrite Hels1, HW.
      rewrite !(decide_False (P := n = _)) by lia.
      rewrite decide_False, decide_True by lia. done. }
    { apply (down_inv_swap n (elements heap) _ p); [lia|lia|done|done|lia|done|done]. }
    exists heap2. split_and!; eauto using same_shape_trans.
    intros e'. rewrite Hlive. apply (live_swap n _ _ p s2); [lia|lia|done].
  - exists heap. split_and!; eauto using same_shape_refl.
    intros i Hi. destruct (decide (parent i = p)) as [Heq|Hne].
    + rewrite Heq. specialize (Hmin i Hi Heq). lia.
    + by apply Hd.
Qed.

(** *** The heap invariant *)

Record heap_ok (heap : BinaryMinHeap) : Prop := {
  ok_size : 0 ≤ size heap ≤ alloced heap;
  ok_alloced :
    0 < alloced heap ∧ Z.of_nat (length (elements heap)) = alloced heap;
  ok_entries : entries (size heap) (positions heap) (elements heap);
  ok_located : located (size heap) (positions heap) (elements heap);
  ok_ordered : ordered (size heap) (elements heap)
}.

(** No position is left over from an entry that is gone. *)
Definition strict (heap : BinaryMinHeap) : Prop :=
  ∀ v p, rdc (positions heap) v = Some p → p ≠ UNSET_ELEMENT → p < size heap.

Lemma ordered_root n els i : ordered n els → 0 ≤ i < n → W els 0 ≤ W els i.
Proof.
  intros Ho. assert (∀ k : nat, ∀ i, 0 ≤ i ≤ Z.of_nat k → i < n →
                       W els 0 ≤ W els i) as H.
  { clear i. induction k as [|k IH]; intros i Hi Hn.
    - by replace i with 0 by lia.
    - destruct (decide (i = 0)) as [->|Hne]; [done|].
      pose proof (parent_bounds i ltac:(lia)).
      etrans; [apply (IH (parent i)); lia|]. apply Ho. lia. }
  intros Hi. apply (H (Z.to_nat i)); lia.
Qed.

Lemma heap_ok_root heap e0 e :
  heap_ok heap → rdc (elements heap) 0 = Some e0 →
  live (size heap) (elements heap) e → weight e0 ≤ weight e.
Proof.
  intros Hok H0 (i & Hi & Hei).
  rewrite <-(W_Some _ _ _ H0), <-(W_Some _ _ _ Hei).
  eapply ordered_root; [apply Hok|done].
Qed.

Lemma realloc_length {A} (block : list (cell A)) n :
  0 ≤ n → Z.of_nat (length (realloc block n)) = n.
Proof. intros. unfold realloc. rewrite length_resize. lia. Qed.

Lemma rdc_realloc {A} (block : list (cell A)) n i :
  Z.of_nat (length block) ≤ n →
  rdc (realloc block n) i = rdc block i.
Proof.
  intros Hn. unfold rdc, rd, realloc. case_decide; [|done].
  destruct (decide (Z.to_nat i < length block)%nat).
  - rewrite lookup_resize by lia. done.
  - rewrite (lookup_ge_None_2 block) by lia.
    destruct (decide (Z.to_nat i < Z.to_nat n)%nat).
    + rewrite lookup_resize_new by lia. done.
    + rewrite lookup_resize_old by lia. done.
Qed.

Lemma pushBinaryMinHeap_spec fuel heap v via_ w :
  heap_ok heap → strict heap →
  0 ≤ v < Z.of_nat (length (positions heap)) →
  (∀ e, live (size heap) (elements heap) e → vertex e ≠ v) →
  size heap < Z.of_nat fuel →
  ∃ heap',
    pushBinaryMinHeap fuel heap v via_ w = Some heap' ∧
    size heap' = size heap + 1 ∧
    heap_ok heap' ∧ strict heap' ∧
    length (positions heap') = length (positions heap) ∧
    (∀ u, is_Some (rdc (positions heap) u) ∨ u = v →
          is_Some (rdc (positions heap') u)) ∧
    (∀ e, live (size heap') (elements heap') e ↔
          live (size heap) (elements heap) e ∨ e = mkElement v via_ w).
Proof.
  intros [Hsz [Hal Hlen] He Hl Ho] Hst Hv Hnew Hfuel.
  unfold pushBinaryMinHeap.
  set (heap0 := if decide (size heap = alloced heap) then _ else heap).
  assert (size heap0 = size heap ∧ positions heap0 = positions heap ∧
          size heap < alloced heap0 ∧
          Z.of_nat (length (elements heap0)) = alloced heap0 ∧
          ∀ i, rdc (elements heap0) i = rdc (elements heap) i)
    as (Hs0 & Hp0 & Ha0 & Hlen0 & Hrd0).
  { unfold heap0. case_decide; simpl.
    - split_and!; [done|done|lia|rewrite realloc_length; lia|].
      intros i. apply rdc_realloc. lia.
    - split_and!; [done|done|lia|done|done]. }
  clearbody heap0. set (n := size heap) in *.
  rewrite Hs0, Hp0.
  destruct (wrc_is_Some (elements heap0) n (mkElement v via_ w))
    as [els Hels]; [lia|].
  rewrite Hels. cbn [mbind option_bind].
  destruct (wrc_is_Some (positions heap) v n) as [pos Hpos]; [lia|].
  rewrite Hpos. cbn [mbind option_bind].
  assert (∀ i, rdc els i =
            if decide (i = n) then Some (mkElement v via_ w)
            else rdc (elements heap) i) as Hrels.
  { intros i. rewrite (rdc_wrc _ _ _ _ _ Hels), Hrd0. done. }
  assert (∀ u, rdc pos u =
            if decide (u = v) then Some n else rdc (positions heap) u)
    as Hrpos by (intros u; apply (rdc_wrc _ _ _ _ _ Hpos)).
  set (heap1 := with_elements (with_positions heap0 pos) els).
  destruct (heapifyBinaryMinHeap_spec fuel heap1 (n + 1) n)
    as (heap2 & -> & Hshape & He2 & Hl2 & Ho2 & Hlive2); simpl.
  - intros i Hi. rewrite Hrels. destruct (decide (i = n)) as [->|Hin].
    + eexists. split; [done|]. simpl. by rewrite Hrpos, decide_True.
    + destruct (He i) as (e & Hei & Hpi); [lia|]. exists e. split; [done|].
      rewrite Hrpos, decide_False; [done|].
      apply Hnew. exists i. split; [lia|done].
  - intros u p. rewrite Hrpos, Hrels.
    destruct (decide (u = v)) as [->|Huv].
    + intros [= <-] _. rewrite decide_True by done. split; [lia|eauto].
    + intros Hp Hne. destruct (Hl u p Hp Hne) as (Hr & e & Hep & Hev).
      specialize (Hst u p Hp Hne). split; [lia|].
      rewrite decide_False by lia. eauto.
  - lia.
  - left. lia.
  - rewrite Hrels, decide_True by done. eauto.
  - split.
    + intros i Hi Hin. unfold W. rewrite !Hrels.
      pose proof (parent_bounds i ltac:(lia)).
      rewrite !decide_False by lia. apply Ho. lia.
    + intros i Hi Hpi. pose proof (parent_bounds i ltac:(lia)). lia.
  - lia.
  - cbn [mbind option_bind].
    destruct Hshape as (Hsz2 & Hal2 & Hlen2 & Hlenp2 & Hinit2).
    simpl in Hsz2, Hal2, Hlen2, Hlenp2, Hinit2.
    eexists. split; [done|]. simpl. rewrite Hsz2, Hs0. fold n.
    split_and!.
    + done.
    + constructor; simpl; rewrite ?Hsz2, ?Hs0, ?Hal2; fold n; try done.
      * lia.
      * split; [lia|]. rewrite Hlen2, (wrc_length _ _ _ _ Hels). done.
    + intros u p Hp Hne. simpl in *. destruct (Hl2 u p Hp Hne). lia.
    + by rewrite Hlenp2, (wrc_length _ _ _ _ Hpos).
    + intros u Hu. apply Hinit2. rewrite Hrpos. case_decide; [eauto|].
      by destruct Hu.
    + intros e. rewrite Hlive2. unfold live. split.
      * intros (i & Hi & Hei). rewrite Hrels in Hei.
        case_decide; [right; congruence|]. left. exists i. split; [lia|done].
      * intros [(i & Hi & Hei)| ->].
        -- exists i. split; [lia|]. rewrite Hrels, decide_False by lia. done.
        -- exists n. split; [lia|]. by rewrite Hrels, decide_True.
Qed.

(** The vertices that have an entry. *)
Definition holds (heap : BinaryMinHeap) (v : Z) : Prop :=
  ∃ e, live (size heap) (elements heap) e ∧ vertex e = v.

Lemma decreaseBinaryMinHeap_spec fuel heap v via_ w :
  heap_ok heap → is_Some (rdc (positions heap) v) →
  size heap < Z.of_nat fuel →
  ∃ heap',
    decreaseBinaryMinHeap fuel heap v via_ w = Some heap' ∧
    same_shape heap heap' ∧ heap_ok heap' ∧
    (strict heap → strict heap') ∧
    (∀ u, holds heap' u ↔ holds heap u).
Proof.
  intros Hok [p Hp] Hfuel. pose proof Hok as [Hsz [Hal Hlen] He Hl Ho].
  unfold decreaseBinaryMinHeap. rewrite Hp. cbn [mbind option_bind].
  case_decide as Hset; [|exists heap; eauto 6 using same_shape_refl].
  destruct (Hl v p Hp Hset) as (Hpr & e & Hep & Hev).
  rewrite Hep. cbn [mbind option_bind].
  case_decide as Hgt; [|exists heap; eauto 6 using same_shape_refl].
  destruct (wrc_is_Some (elements heap) p (mkElement (vertex e) via_ w))
    as [els Hels]; [by eapply rdc_Some_range|].
  rewrite Hels. cbn [mbind option_bind].
  set (n := size heap) in *.
  assert (∀ i, rdc els i =
            if decide (i = p) then Some (mkElement (vertex e) via_ w)
            else rdc (elements heap) i) as Hrels
    by (intros i; apply (rdc_wrc _ _ _ _ _ Hels)).
  assert (∀ i, W els i = if decide (i = p) then w else W (elements heap) i)
    as HW by (intros i; unfold W; rewrite Hrels; by case_decide).
  destruct (heapifyBinaryMinHeap_spec fuel (with_elements heap els) n p)
    as (heap2 & -> & Hshape & He2 & Hl2 & Ho2 & Hlive2); simpl.
  - intros i Hi. rewrite Hrels. destruct (decide (i = p)) as [->|Hip].
    + eexists. split; [done|]. simpl.
      destruct (He p Hi) as (e' & ? & ?). by simplify_eq.
    + by apply He.
  - intros u q Hq Hne. destruct (Hl u q Hq Hne) as (Hr & e' & Heq & Hev').
    split; [done|]. rewrite Hrels.
    case_decide; [subst q; simplify_eq; eauto|eauto].
  - lia.
  - lia.
  - rewrite Hrels, decide_True by done. eauto.
  - split.
    + intros i Hi Hip. rewrite !HW. rewrite (decide_False (P := i = p)) by done.
      specialize (Ho i Hi). case_decide as Hpar; [|done].
      rewrite Hpar, (W_Some _ _ _ Hep) in Ho. lia.
    + intros i Hi Hpar Hp0. pose proof (parent_bounds p Hp0).
      pose proof (parent_bounds i ltac:(lia)).
      rewrite !HW, !decide_False by lia.
      specialize (Ho i Hi) as Ho1. rewrite Hpar in Ho1.
      specialize (Ho p ltac:(lia)). lia.
  - lia.
  - destruct Hshape as (Hsz2 & Hal2 & Hlen2 & Hlenp2 & Hinit2).
    simpl in Hsz2, Hal2, Hlen2, Hlenp2, Hinit2.
    exists heap2. split; [done|]. split_and!.
    + unfold same_shape.
      rewrite Hsz2, Hal2, Hlen2, Hlenp2, (wrc_length _ _ _ _ Hels). done.
    + constructor; rewrite ?Hsz2, ?Hal2, ?Hlen2, ?(wrc_length _ _ _ _ Hels);
        done.
    + intros Hst u q Hq Hne. rewrite Hsz2. fold n.
      specialize (Hst v p Hp Hset). fold n in Hst.
      destruct (Hl2 u q Hq Hne). lia.
    + intros u. unfold holds. rewrite Hsz2. fold n. split.
      * intros (e' & (i & Hi & Hei)%Hlive2 & Hv').
        rewrite Hrels in Hei. case_decide.
        -- exists e. split; [exists i; subst; eauto|]. by simplify_eq.
        -- exists e'. split; [exists i; eauto|done].
      * intros (e' & (i & Hi & Hei) & Hv').
        destruct (decide (i = p)) as [->|Hip].
        -- exists (mkElement (vertex e) via_ w). split.
           ++ apply Hlive2. exists p. split; [done|].
              by rewrite Hrels, decide_True.
           ++ simpl. congruence.
        -- exists e'. split; [|done]. apply Hlive2. exists i. split; [done|].
           by rewrite Hrels, decide_False.
Qed.

Lemma popBinaryMinHeap_spec fuel heap :
  heap_ok heap → 1 ≤ size heap → size heap < Z.of_nat fuel →
  ∃ heap' e0,
    popBinaryMinHeap fuel heap = Some (heap', (vertex e0, via e0, weight e0)) ∧
    rdc (elements heap) 0 = Some e0 ∧
    size heap' = size heap - 1 ∧
    length (positions heap') = length (positions heap) ∧
    (∀ v, is_Some (rdc (positions heap) v) →
          is_Some (rdc (positions heap') v)) ∧
    heap_ok heap' ∧
    (∀ e, live (size heap) (elements heap) e → weight e0 ≤ weight e) ∧
    (∀ e, live (size heap') (elements heap') e ↔
          live (size heap) (elements heap) e ∧ e ≠ e0).
Proof.
  intros Hok Hn Hfuel. pose proof Hok as [Hsz [Hal Hlen] He Hl Ho].
  set (n := size heap) in *.
  destruct (He 0) as (e0 & He0 & Hp0); [lia|].
  destruct (He (n - 1)) as (el & Hel & Hpl); [lia|].
  unfold popBinaryMinHeap. rewrite He0. cbn [mbind option_bind].
  destruct (wrc_is_Some (positions heap) (vertex e0) UNSET_ELEMENT)
    as [pos1 Hpos1]; [by eapply rdc_Some_range|].
  rewrite Hpos1. cbn [mbind option_bind]. fold n. rewrite Hel.
  cbn [mbind option_bind].
  destruct (wrc_is_Some (elements heap) 0 el) as [els Hels];
    [by eapply rdc_Some_range|].
  rewrite Hels. cbn [mbind option_bind].
  assert (∀ i, rdc els i =
            if decide (i = 0) then Some el else rdc (elements heap) i) as Hrels
    by (intros i; apply (rdc_wrc _ _ _ _ _ Hels)).
  rewrite Hrels, decide_True by done. cbn [mbind option_bind].
  destruct (wrc_is_Some pos1 (vertex el) 0) as [pos Hpos].
  { rewrite (wrc_length _ _ _ _ Hpos1). by eapply rdc_Some_range. }
  rewrite Hpos. cbn [mbind option_bind].
  assert (∀ u, rdc pos u =
            if decide (u = vertex el) then Some 0
            else if decide (u = vertex e0) then Some UNSET_ELEMENT
            else rdc (positions heap) u) as Hrpos.
  { intros u. by rewrite (rdc_wrc _ _ _ _ _ Hpos), (rdc_wrc _ _ _ _ _ Hpos1). }
  set (heap1 := with_size (with_elements (with_positions heap pos) els) (n - 1)).
  assert (entries (n - 1) pos els) as He1.
  { intros i Hi. rewrite Hrels. destruct (decide (i = 0)) as [->|Hi0].
    - exists el. split; [done|]. by rewrite Hrpos, decide_True.
    - destruct (He i) as (e & Hei & Hpi); [lia|]. exists e. split; [done|].
      rewrite Hrpos, !decide_False; [done|..]; intros Hv.
      + apply Hi0. eapply (entries_vertex_inj n); eauto; lia.
      + assert (i = n - 1); [|lia].
        eapply (entries_vertex_inj n); eauto; lia. }
  assert (located (n - 1) pos els) as Hl1.
  { intros u q. rewrite Hrpos, Hrels.
    destruct (decide (u = vertex el)) as [->|Hul].
    { intros [= <-] _. rewrite decide_True by done. split; [lia|eauto]. }
    destruct (decide (u = vertex e0)) as [->|Hu0]; [by intros [= <-]|].
    intros Hq Hne. destruct (Hl u q Hq Hne) as (Hr & e & Heq & Hev).
    assert (q ≠ 0) by (intros ->; congruence).
    assert (q ≠ n - 1) by (intros ->; congruence).
    rewrite decide_False by done. split; [lia|eauto]. }
  assert (∀ e, live (n - 1) els e ↔ live n (elements heap) e ∧ e ≠ e0)
    as Hsub.
  { intros e. split.
    - intros (i & Hi & Hei). rewrite Hrels in Hei.
      destruct (decide (i = 0)) as [->|Hi0].
      + split; [exists (n - 1); split; [lia|congruence]|].
        intros ->. assert (n - 1 = 0); [|lia].
        eapply (entries_vertex_inj n); eauto; [lia|lia|congruence].
      + split; [exists i; split; [lia|done]|].
        intros ->. apply Hi0. eapply (entries_vertex_inj n); eauto; lia.
    - intros [(i & Hi & Hei) Hne].
      assert (i ≠ 0) as Hi0 by (intros ->; congruence).
      destruct (decide (i = n - 1)) as [->|Hil].
      + exists 0. split; [lia|]. rewrite Hrels, decide_True by done. congruence.
      + exists i. split; [lia|]. by rewrite Hrels, decide_False. }
  assert (∀ v, is_Some (rdc (positions heap) v) → is_Some (rdc pos v)) as Hinit.
  { intros v Hv. rewrite Hrpos. repeat case_decide; eauto. }
  assert (length pos = length (positions heap)) as Hlenp
    by (by rewrite (wrc_length _ _ _ _ Hpos), (wrc_length _ _ _ _ Hpos1)).
  assert (length els = length (elements heap)) as Hlene
    by apply (wrc_length _ _ _ _ Hels).
  destruct (decide (n = 1)) as [Hn1|Hn1].
  - (* the last entry *)
    destruct fuel as [|fuel]; [lia|]. simpl. fold n.
    rewrite decide_False by lia. cbn [mbind option_bind].
    eexists _, e0. split; [done|]. simpl. fold n. split_and!; try done.
    + constructor; simpl; fold n; rewrite ?Hlene; try done; [lia|].
      intros i Hi. lia.
    + intros e. by apply heap_ok_root.
  - destruct (heapifyDownBinaryMinHeap_spec fuel heap1 0)
      as (heap2 & -> & Hshape & He2 & Hl2 & Ho2 & Hlive2); simpl; try done.
    + lia.
    + exists el. rewrite Hrels, decide_False by lia. split; [done|].
      symmetry. apply W_Some. by rewrite Hrels, decide_True.
    + split; [|intros; lia]. intros i Hi Hpar.
      pose proof (parent_bounds i ltac:(lia)).
      unfold W. rewrite !Hrels, !decide_False by lia. apply Ho. lia.
    + lia.
    + destruct Hshape as (Hsz2 & Hal2 & Hlen2 & Hlenp2 & Hinit2).
      simpl in Hsz2, Hal2, Hlen2, Hlenp2, Hinit2.
      cbn [mbind option_bind].
      exists heap2, e0. split; [done|]. rewrite Hsz2. split_and!; try done.
      * congruence.
      * eauto.
      * constructor; rewrite ?Hsz2, ?Hal2, ?Hlen2, ?Hlene; try done. lia.
      * intros e. by apply heap_ok_root.
      * intros e. simpl in Hlive2. by rewrite Hlive2, Hsub.
Qed.

(** *** Filling and draining the heap *)

Definition apply_op (fuel : nat) (heap : BinaryMinHeap) (op : HeapOp)
  : option BinaryMinHeap :=
  match op with
  | Push v via_ w => pushBinaryMinHeap fuel heap v via_ w
  | Decrease v via_ w => decreaseBinaryMinHeap fuel heap v via_ w
  end.

Fixpoint run (fuel : nat) (ops : list HeapOp) (heap : BinaryMinHeap)
  : option BinaryMinHeap :=
  match ops with
  | [] => Some heap
  | op :: ops => heap ← apply_op fuel heap op; run fuel ops heap
  end.

(** [while (heap->size > 0) popBinaryMinHeap(...)], collecting what is
    popped. *)
Fixpoint pop_all (fuel0 fuel : nat) (heap : BinaryMinHeap)
  : option (BinaryMinHeap * list (Z * Z * Z)) :=
  match fuel with
  | O => None
  | S fuel =>
      if decide (size heap > 0) then
        '(heap, out) ← popBinaryMinHeap fuel0 heap;
        '(heap, outs) ← pop_all fuel0 fuel heap;
        Some (heap, out :: outs)
      else Some (heap, [])
  end.

Lemma heap_for_positions V v : rdc (positions (heap_for V)) v = None.
Proof.
  unfold heap_for, realloc, rdc, rd. simpl. case_decide; [|done].
  destruct (resize _ _ _ !! _) as [c|] eqn:Hc; [|done].
  rewrite resize_spec in Hc. apply list_elem_of_lookup_2 in Hc.
  apply elem_of_app in Hc as [Hc%elem_of_take|Hc%elem_of_replicate].
  - destruct Hc as (i & Hi%list_elem_of_lookup_2 & _).
    by apply list_elem_of_singleton in Hi as ->.
  - by destruct Hc as [-> _].
Qed.

Lemma heap_for_ok V : heap_ok (heap_for V) ∧ strict (heap_for V).
Proof.
  split; [constructor|].
  - simpl. lia.
  - simpl. lia.
  - intros i Hi. simpl in Hi. lia.
  - intros v p Hp. by rewrite heap_for_positions in Hp.
  - intros i Hi. simpl in Hi. lia.
  - intros v p Hp. by rewrite heap_for_positions in Hp.
Qed.

Lemma heap_for_length V :
  0 ≤ V → Z.of_nat (length (positions (heap_for V))) = V.
Proof. intros. unfold heap_for. simpl. by apply realloc_length. Qed.

(** The state reached after the vertices [pushed] have been pushed. *)
Record filled (V : Z) (pushed : list Z) (heap : BinaryMinHeap) : Prop := {
  filled_ok : heap_ok heap;
  filled_strict : strict heap;
  filled_size : size heap = Z.of_nat (length pushed);
  filled_length : Z.of_nat (length (positions heap)) = V;
  filled_holds : ∀ v, holds heap v ↔ v ∈ pushed;
  filled_init : ∀ v, v ∈ pushed → is_Some (rdc (positions heap) v)
}.




(** What [decreaseBinaryMinHeap] does to the entries: the entry of the
    vertex is replaced when it is heavier than the new weight. *)
Lemma decreaseBinaryMinHeap_entries fuel heap v via_ w heap' :
  heap_ok heap → size heap < Z.of_nat fuel →
  decreaseBinaryMinHeap fuel heap v via_ w = Some heap' →
  ∀ e', live (size heap') (elements heap') e' ↔
        ∃ e, live (size heap) (elements heap) e ∧
             e' = if decide (vertex e = v ∧ weight e > w)
                  then mkElement v via_ w else e.
Proof.
  intros Hok Hfuel Hrun. pose proof Hok as [Hsz [Hal Hlen] He Hl Ho].
  destruct (decide (size heap = 0)) as [Hz|Hnz].
  { assert (size heap' = 0) as Hz'.
    { destruct (decreaseBinaryMinHeap_spec fuel heap v via_ w Hok) as
        (heap2 & Hrun2 & (Hsz2 & _) & _); [|done|].
      - unfold decreaseBinaryMinHeap in Hrun.
        destruct (rdc (positions heap) v); [by eexists|done].
      - rewrite Hrun in Hrun2. simplify_eq. lia. }
    intros e'. rewrite Hz, Hz'. split.
    - intros (i & Hi & _). lia.
    - intros (e & (i & Hi & _) & _). lia. }
  assert (∀ e i, 0 ≤ i < size heap → rdc (elements heap) i = Some e →
                 rdc (positions heap) (vertex e) = Some i) as Hpos.
  { intros e i Hi Hei. destruct (He i Hi) as (e0 & ? & ?). by simplify_eq. }
  assert ((∀ e, live (size heap) (elements heap) e →
                ¬ (vertex e = v ∧ weight e > w)) →
          heap' = heap →
          ∀ e', live (size heap') (elements heap') e' ↔
                ∃ e, live (size heap) (elements heap) e ∧
                     e' = if decide (vertex e = v ∧ weight e > w)
                          then mkElement v via_ w else e) as Hsame.
  { intros Hno -> e'. split.
    - intros Hl'. exists e'. split; [done|]. rewrite decide_False; [done|].
      by apply Hno.
    - intros (e & Hle & ->). rewrite decide_False; [done|]. by apply Hno. }
  unfold decreaseBinaryMinHeap in Hrun.
  destruct (rdc (positions heap) v) as [p|] eqn:Hp; [|done].
  cbn [mbind option_bind] in Hrun.
  case_decide as Hset.
  2:{ apply Hsame; [|congruence].
      intros e (i & Hi & Hei) [Hv _]. rewrite <-Hv in Hp.
      rewrite (Hpos e i Hi Hei) in Hp.
      simplify_eq; try (unfold UNSET_ELEMENT in *; lia). }
  destruct (Hl v p Hp Hset) as (Hpn & e & Hep & Hev).
  assert (0 ≤ p) as Hp0 by (apply rdc_Some_range in Hep; lia).
  rewrite Hep in Hrun. cbn [mbind option_bind] in Hrun.
  assert (∀ e1, live (size heap) (elements heap) e1 → vertex e1 = v →
                e1 = e) as Huniq.
  { intros e1 (i & Hi & Hei) Hv1. rewrite <-Hv1 in Hp.
    rewrite (Hpos e1 i Hi Hei) in Hp. by simplify_eq. }
  case_decide as Hgt.
  2:{ apply Hsame; [|congruence].
      intros e1 Hl1 [Hv1 Hw1]. rewrite (Huniq e1 Hl1 Hv1) in Hw1. lia. }
  destruct (wrc_is_Some (elements heap) p (mkElement (vertex e) via_ w))
    as [els Hels]; [by eapply rdc_Some_range|].
  rewrite Hels in Hrun. cbn [mbind option_bind] in Hrun.
  set (n := size heap) in *.
  assert (∀ i, rdc els i =
            if decide (i = p) then Some (mkElement (vertex e) via_ w)
            else rdc (elements heap) i) as Hrels
    by (intros i; apply (rdc_wrc _ _ _ _ _ Hels)).
  assert (∀ i, W els i = if decide (i = p) then w else W (elements heap) i)
    as HW by (intros i; unfold W; rewrite Hrels; by case_decide).
  destruct (heapifyBinaryMinHeap_spec fuel (with_elements heap els) n p)
    as (heap2 & Hrun2 & Hshape & _ & _ & _ & Hlive2); simpl.
  - intros i Hi. rewrite Hrels. destruct (decide (i = p)) as [->|Hip].
    + eexists. split; [done|]. simpl.
      destruct (He p Hi) as (e0 & ? & ?). by simplify_eq.
    + by apply He.
  - intros u q Hq Hne. destruct (Hl u q Hq Hne) as (Hr & e0 & Heq & Hev').
    split; [done|]. rewrite Hrels.
    case_decide; [subst q; simplify_eq; eauto|eauto].
  - lia.
  - lia.
  - rewrite Hrels, decide_True by done. eauto.
  - split.
    + intros i Hi Hip. rewrite !HW. rewrite (decide_False (P := i = p)) by done.
      specialize (Ho i Hi). case_decide as Hpar; [|done].
      rewrite Hpar, (W_Some _ _ _ Hep) in Ho. lia.
    + intros i Hi Hpar Hpp. pose proof (parent_bounds p Hpp).
      pose proof (parent_bounds i ltac:(lia)).
      rewrite !HW, !decide_False by lia.
      specialize (Ho i Hi) as Ho1. rewrite Hpar in Ho1.
      specialize (Ho p ltac:(lia)). lia.
  - lia.
  - rewrite Hrun2 in Hrun. injection Hrun as <-.
    destruct Hshape as (Hsz2 & _). simpl in Hsz2. rewrite Hsz2. fold n.
    intros e'. rewrite Hlive2. split.
    + intros (i & Hi & Hei). rewrite Hrels in Hei.
      destruct (decide (i = p)) as [->|Hip].
      * exists e. split; [by exists p|]. rewrite decide_True by done.
        by simplify_eq.
      * exists e'. split; [by exists i|]. rewrite decide_False; [done|].
        intros [Hv' _]. apply Hip.
        assert (e' = e) as Hee by (apply Huniq; [by exists i|done]).
        rewrite Hee in Hei. pose proof (Hpos e i Hi Hei) as H1.
        pose proof (Hpos e p ltac:(lia) Hep) as H2. congruence.
    + intros (e1 & (i & Hi & Hei) & ->). case_decide as Hc.
      * exists p. split; [lia|]. rewrite Hrels, decide_True by done.
        by rewrite Hev.
      * exists i. split; [done|]. rewrite Hrels, decide_False; [done|].
        intros ->. apply Hc. rewrite Hep in Hei. simplify_eq. split; [done|lia].
Qed.

(** *** The operations of the binary heap, as their callers see them *)

(** The heap after [pushBinaryMinHeap(heap, 1, 7, 30)] on the fresh heap of
    a three-vertex graph. *)
Definition one_entry_heap : BinaryMinHeap :=
  Eval vm_compute in
    default (heap_for 3) (pushBinaryMinHeap 1 (heap_for 3) 1 7 30).

Lemma one_entry_heap_ok : heap_ok one_entry_heap ∧ strict one_entry_heap.
Proof.
  destruct (heap_for_ok 3) as [Hok Hst].
  destruct (pushBinaryMinHeap_spec 1 (heap_for 3) 1 7 30 Hok Hst)
    as (heap' & Hpush & _ & Hok' & Hst' & _); [simpl; lia| |simpl; lia|].
  { intros e (i & Hi & _). simpl in Hi. lia. }
  assert (heap' = one_entry_heap) as <-; [|done].
  vm_compute in Hpush. by injection Hpush as <-.
Qed.

(** X1. [pushBinaryMinHeap] of a vertex that is in range and has no entry
    yet, on a heap that satisfies the invariant (the first [size] slots hold
    entries, the position table points back at them, every slot is at least
    as heavy as its parent) and in which no position is left over from an
    entry that is gone (every position slot that is set points below
    [size]; the invariant gives this for every heap with an entry, and it
    fails only for the heap that [popBinaryMinHeap] has just emptied, where
    the popped vertex keeps position 0): the call returns, the size grows
    by one, the invariant holds again, again no position is left over, and
    the entries are the old ones plus the new triple. *)
Theorem pushBinaryMinHeap_keeps_heap fuel heap v via_ w :
  heap_ok heap → strict heap →
  0 ≤ v < Z.of_nat (length (positions heap)) →
  (∀ e, live (size heap) (elements heap) e → vertex e ≠ v) →
  size heap < Z.of_nat fuel →
  ∃ heap',
    pushBinaryMinHeap fuel heap v via_ w = Some heap' ∧
    size heap' = size heap + 1 ∧
    heap_ok heap' ∧ strict heap' ∧
    (∀ e, live (size heap') (elements heap') e ↔
          live (size heap) (elements heap) e ∨ e = mkElement v via_ w).
Proof.
  intros Hok Hst Hv Hnew Hfuel.
  destruct (pushBinaryMinHeap_spec fuel heap v via_ w Hok Hst Hv Hnew Hfuel)
    as (heap' & ? & ? & ? & ? & _ & _ & ?).
  by exists heap'.
Qed.

(** X1 on the heap that holds the entry (1, 7, 30): the push of
    (2, 1, 10) sifts the new entry up to the root. *)
Lemma pushBinaryMinHeap_keeps_heap_witness :
  ∃ heap',
    pushBinaryMinHeap 2 one_entry_heap 2 1 10 = Some heap' ∧
    size heap' = size one_entry_heap + 1 ∧
    heap_ok heap' ∧ strict heap' ∧
    (∀ e, live (size heap') (elements heap') e ↔
          live (size one_entry_heap) (elements one_entry_heap) e ∨
          e = mkElement 2 1 10).
Proof.
  apply (pushBinaryMinHeap_keeps_heap 2 one_entry_heap 2 1 10);
    [apply one_entry_heap_ok|apply one_entry_heap_ok|simpl; lia| |simpl; lia].
  intros e (i & Hi & Hei). assert (i = 0) as -> by (simpl in Hi; lia).
  vm_compute in Hei. by injection Hei as <-.
Defined.

(** X2. [decreaseBinaryMinHeap] on a heap that satisfies the invariant, for
    a vertex whose position slot has been written: the call returns, the
    size is unchanged and the invariant holds again; the entries are the
    old ones, except that the entry of the vertex, when it is heavier than
    the new weight, now carries the new [via] and the new weight; when the
    slot holds [UNSET_ELEMENT] the heap is returned as it is. *)
Theorem decreaseBinaryMinHeap_keeps_heap fuel heap v via_ w :
  heap_ok heap → is_Some (rdc (positions heap) v) →
  size heap < Z.of_nat fuel →
  ∃ heap',
    decreaseBinaryMinHeap fuel heap v via_ w = Some heap' ∧
    size heap' = size heap ∧ heap_ok heap' ∧
    (∀ e', live (size heap') (elements heap') e' ↔
           ∃ e, live (size heap) (elements heap) e ∧
                e' = if decide (vertex e = v ∧ weight e > w)
                     then mkElement v via_ w else e) ∧
    (rdc (positions heap) v = Some UNSET_ELEMENT → heap' = heap).
Proof.
  intros Hok Hv Hfuel.
  destruct (decreaseBinaryMinHeap_spec fuel heap v via_ w Hok Hv Hfuel)
    as (heap' & Hrun & (Hsz & _) & Hok' & _ & Hholds).
  exists heap'. split_and!; try done.
  { by apply (decreaseBinaryMinHeap_entries fuel heap v via_ w). }
  intros Hunset. unfold decreaseBinaryMinHeap in Hrun.
  rewrite Hunset in Hrun. cbn [mbind option_bind] in Hrun.
  rewrite decide_False in Hrun by (intros Hne; by apply Hne). congruence.
Qed.

(** X2 on a heap with one entry: the weight of vertex 1 is lowered from 30
    to 5. *)
Lemma decreaseBinaryMinHeap_keeps_heap_witness :
  ∃ heap',
    decreaseBinaryMinHeap 2 one_entry_heap 1 5 5 = Some heap' ∧
    size heap' = size one_entry_heap ∧ heap_ok heap' ∧
    (∀ e', live (size heap') (elements heap') e' ↔
           ∃ e, live (size one_entry_heap) (elements one_entry_heap) e ∧
                e' = if decide (vertex e = 1 ∧ weight e > 5)
                     then mkElement 1 5 5 else e) ∧
    (rdc (positions one_entry_heap) 1 = Some UNSET_ELEMENT →
     heap' = one_entry_heap).
Proof.
  apply (decreaseBinaryMinHeap_keeps_heap 2 one_entry_heap 1 5 5);
    [apply one_entry_heap_ok|by eexists|simpl; lia].
Defined.

(** X3. [popBinaryMinHeap] on a non-empty heap that satisfies the
    invariant: the call returns the triple stored in slot 0, no entry of
    the heap is lighter than it, the size drops by one, the remaining
    entries are the entries of the heap before the call other than the
    popped one, and the invariant holds again (the read of slot [size] by
    [heapifyDownBinaryMinHeap], whose bound checks are [<= size], does not
    break it). *)
Theorem popBinaryMinHeap_returns_minimum fuel heap :
  heap_ok heap → 1 ≤ size heap → size heap < Z.of_nat fuel →
  ∃ heap' e0,
    popBinaryMinHeap fuel heap = Some (heap', (vertex e0, via e0, weight e0)) ∧
    rdc (elements heap) 0 = Some e0 ∧
    size heap' = size heap - 1 ∧
    heap_ok heap' ∧
    (∀ e, live (size heap) (elements heap) e → weight e0 ≤ weight e) ∧
    (∀ e, live (size heap') (elements heap') e ↔
          live (size heap) (elements heap) e ∧ e ≠ e0).
Proof.
  intros Hok Hn Hfuel.
  destruct (popBinaryMinHeap_spec fuel heap Hok Hn Hfuel)
    as (heap' & e0 & ? & ? & ? & _ & _ & ? & ? & ?).
  by exists heap', e0.
Qed.

(** X3 on a heap with one entry. *)
Lemma popBinaryMinHeap_returns_minimum_witness :
  ∃ heap' e0,
    popBinaryMinHeap 2 one_entry_heap
    = Some (heap', (vertex e0, via e0, weight e0)) ∧
    rdc (elements one_entry_heap) 0 = Some e0 ∧
    size heap' = size one_entry_heap - 1 ∧
    heap_ok heap' ∧
    (∀ e, live (size one_entry_heap) (elements one_entry_heap) e →
          weight e0 ≤ weight e) ∧
    (∀ e, live (size heap') (elements heap') e ↔
          live (size one_entry_heap) (elements one_entry_heap) e ∧ e ≠ e0).
Proof.
  apply (popBinaryMinHeap_returns_minimum 2 one_entry_heap);
    [apply one_entry_heap_ok|simpl; lia|simpl; lia].
Defined.



End BinaryHeap.

(** ** Indexed Fibonacci min-heap *)

Module FibonacciHeap.

(** A pointer to a heap node; [NULL] is [None] of [option ptr].  The
    sibling links [left] and [right] are never assigned [NULL] in the
    source, hence they are plain pointers. *)
Definition ptr : Type := nat.

Record FibonacciHeapElement := mkNode {
  marked : bool;
  childrens : Z;
  vertex : Z;
  via : Z;
  weight : Z;
  parent : option ptr;
  child : option ptr;
  left_ : ptr;
  right_ : ptr
}.

(** The nodes that are allocated and not yet freed. *)
Abbreviation mem := (gmap ptr FibonacciHeapElement).

Record FibonacciMinHeap := mkHeap {
  size : Z;
  minimum : option ptr;
  positions : list (cell (option ptr))
}.

Definition set_marked (b : bool) (n : FibonacciHeapElement) :=
  mkNode b (childrens n) (vertex n) (via n) (weight n) (parent n) (child n)
    (left_ n) (right_ n).
Definition set_childrens (c : Z) (n : FibonacciHeapElement) :=
  mkNode (marked n) c (vertex n) (via n) (weight n) (parent n) (child n)
    (left_ n) (right_ n).
Definition set_via (v : Z) (n : FibonacciHeapElement) :=
  mkNode (marked n) (childrens n) (vertex n) v (weight n) (parent n) (child n)
    (left_ n) (right_ n).
Definition set_weight (w : Z) (n : FibonacciHeapElement) :=
  mkNode (marked n) (childrens n) (vertex n) (via n) w (parent n) (child n)
    (left_ n) (right_ n).
Definition set_parent (p : option ptr) (n : FibonacciHeapElement) :=
  mkNode (marked n) (childrens n) (vertex n) (via n) (weight n) p (child n)
    (left_ n) (right_ n).
Definition set_child (c : option ptr) (n : FibonacciHeapElement) :=
  mkNode (marked n) (childrens n) (vertex n) (via n) (weight n) (parent n) c
    (left_ n) (right_ n).
Definition set_left (l : ptr) (n : FibonacciHeapElement) :=
  mkNode (marked n) (childrens n) (vertex n) (via n) (weight n) (parent n)
    (child n) l (right_ n).
Definition set_right (r : ptr) (n : FibonacciHeapElement) :=
  mkNode (marked n) (childrens n) (vertex n) (via n) (weight n) (parent n)
    (child n) (left_ n) r.

(** [p->field = value]: [None] when [p] is not a live node. *)
Definition upd (m : mem) (p : ptr)
  (f : FibonacciHeapElement → FibonacciHeapElement) : option mem :=
  n ← m !! p; Some (<[p := f n]> m).

Definition with_minimum (heap : FibonacciMinHeap) (p : option ptr) :=
  mkHeap (size heap) p (positions heap).
Definition with_size (heap : FibonacciMinHeap) (n : Z) :=
  mkHeap n (minimum heap) (positions heap).
Definition with_positions (heap : FibonacciMinHeap)
  (p : list (cell (option ptr))) :=
  mkHeap (size heap) (minimum heap) p.

(** [malloc]: an address that is not live. *)
Definition malloc (m : mem) : ptr := fresh (dom m).

(** [newFibonacciMinHeap] applied to the compound literal of
    [mstPrimFibonacci] ([.size = 0, .minimum = NULL]), followed by the
    [realloc] of the position table to one slot per vertex. *)
Definition heap_for (vertices : Z) : FibonacciMinHeap :=
  {| size := 0; minimum := None;
     positions := replicate (Z.to_nat vertices) None |}.

(** [insertFibonacciMinHeap]: splice [element] into the root list left of
    the minimum. *)
Definition insertFibonacciMinHeap (m : mem) (heap : FibonacciMinHeap)
  (element : ptr) : option (mem * FibonacciMinHeap) :=
  match minimum heap with
  | None => Some (m, with_minimum heap (Some element))
  | Some min =>
      nmin ← m !! min;
      let endHeap := left_ nmin in
      m ← upd m min (set_left element);
      m ← upd m element (set_left endHeap);
      m ← upd m endHeap (set_right element);
      m ← upd m element (set_right min);
      nmin ← m !! min;
      ne ← m !! element;
      if decide (weight nmin > weight ne) then
        Some (m, with_minimum heap (Some element))
      else Some (m, heap)
  end.

(** [pushFibonacciMinHeap]; [newFibonacciHeapElement] fills every field of
    the fresh node. *)
Definition pushFibonacciMinHeap (m : mem) (heap : FibonacciMinHeap)
  (vertex via weight : Z) : option (mem * FibonacciMinHeap) :=
  let element := malloc m in
  let m := <[element := mkNode false 0 vertex via weight None None
                          element element]> m in
  ne ← m !! element;
  pos ← wrc (positions heap) (FibonacciHeap.vertex ne) (Some element);
  '(m, heap) ← insertFibonacciMinHeap m (with_positions heap pos) element;
  Some (m, with_size heap (size heap + 1)).

(** [cutFibonacciMinHeap]. *)
Fixpoint cutFibonacciMinHeap (fuel : nat) (m : mem) (heap : FibonacciMinHeap)
  (element : ptr) : option (mem * FibonacciMinHeap) :=
  match fuel with
  | O => None
  | S fuel =>
      ne ← m !! element;
      let parent := FibonacciHeap.parent ne in
      m ← match parent with
          | Some p => upd m p (λ n, set_childrens (childrens n - 1) n)
          | None => Some m
          end;
      ne ← m !! element;
      m ← (if decide (right_ ne = element) then
             p ← parent; upd m p (set_child None)
           else
             m ← upd m (right_ ne) (set_left (left_ ne));
             ne ← m !! element;
             m ← upd m (left_ ne) (set_right (right_ ne));
             p ← parent;
             np ← m !! p;
             if decide (child np = Some element) then
               ne ← m !! element;
               upd m p (set_child (Some (right_ ne)))
             else Some m);
      '(m, heap) ← insertFibonacciMinHeap m heap element;
      m ← upd m element (set_parent None);
      p ← parent;
      np ← m !! p;
      if decide (FibonacciHeap.parent np ≠ None) then
        if marked np then
          '(m, heap) ← cutFibonacciMinHeap fuel m heap p;
          m ← upd m p (set_marked false);
          Some (m, heap)
        else
          m ← upd m p (set_marked true);
          Some (m, heap)
      else Some (m, heap)
  end.

(** [decreaseFibonacciMinHeap]. *)
Definition decreaseFibonacciMinHeap (fuel : nat) (m : mem)
  (heap : FibonacciMinHeap) (vertex via weight : Z)
  : option (mem * FibonacciMinHeap) :=
  element ← rdc (positions heap) vertex;
  match element with
  | None => Some (m, heap)
  | Some element =>
      ne ← m !! element;
      if decide (FibonacciHeap.weight ne > weight) then
        m ← upd m element (set_via via);
        m ← upd m element (set_weight weight);
        ne ← m !! element;
        match parent ne with
        | None =>
            min ← minimum heap;
            nmin ← m !! min;
            if decide (FibonacciHeap.weight ne < FibonacciHeap.weight nmin)
            then Some (m, with_minimum heap (Some element))
            else Some (m, heap)
        | Some p =>
            np ← m !! p;
            if decide (weight < FibonacciHeap.weight np) then
              cutFibonacciMinHeap fuel m heap element
            else Some (m, heap)
        end
      else Some (m, heap)
  end.

(** The size of the degree table of [consolidateFibonacciMinHeap].  The
    source computes [2 * log2(size) + 1] in double precision and truncates
    it to [int]; this is its exact value, [⌊2·log2 size⌋ + 1]. *)
Definition degreeSize (size : Z) : Z := Z.log2 (size * size) + 1.

(** The inner [while (degree[currentDegree] != NULL)] of the consolidation:
    link the tree in the table under [element], or the other way round. *)
Fixpoint consolidate_link (fuel : nat) (m : mem) (degree : list (option ptr))
  (element : ptr) (currentDegree : Z)
  : option (mem * list (option ptr) * ptr * Z) :=
  match fuel with
  | O => None
  | S fuel =>
      d ← rd degree currentDegree;
      match d with
      | None => Some (m, degree, element, currentDegree)
      | Some other =>
          ne ← m !! element;
          no ← m !! other;
          '(element, degree) ←
            (if decide (weight ne > weight no) then
               let tmp := element in
               degree ← wr degree currentDegree (Some tmp);
               Some (other, degree)
             else Some (element, degree));
          d ← rd degree currentDegree;
          y ← d;
          ne ← m !! element;
          m ← match child ne with
              | None =>
                  m ← upd m element (set_child (Some y));
                  upd m y (set_parent (Some element))
              | Some _ =>
                  m ← upd m y (set_parent (Some element));
                  ne ← m !! element;
                  c ← child ne;
                  m ← upd m y (set_right c);
                  ne ← m !! element;
                  c ← child ne;
                  nc ← m !! c;
                  m ← upd m y (set_left (left_ nc));
                  ny ← m !! y;
                  m ← upd m (right_ ny) (set_left y);
                  ny ← m !! y;
                  upd m (left_ ny) (set_right y)
              end;
          m ← upd m element (λ n, set_childrens (childrens n + 1) n);
          m ← upd m y (set_marked false);
          degree ← wr degree currentDegree None;
          consolidate_link fuel m degree element (currentDegree + 1)
      end
  end.

(** The [do ... while (element != NULL)] of the consolidation: detach each
    root in turn and enter it in the degree table. *)
Fixpoint consolidate_roots (fuel : nat) (m : mem) (degree : list (option ptr))
  (element : ptr) : option (mem * list (option ptr)) :=
  match fuel with
  | O => None
  | S fuel =>
      ne ← m !! element;
      let nextElement :=
        if decide (element = right_ ne) then None else Some (right_ ne) in
      m ← upd m (right_ ne) (set_left (left_ ne));
      ne ← m !! element;
      m ← upd m (left_ ne) (set_right (right_ ne));
      m ← upd m element (set_right element);
      m ← upd m element (set_left element);
      ne ← m !! element;
      let currentDegree := childrens ne in
      '(m, degree, element, currentDegree) ←
        consolidate_link fuel m degree element currentDegree;
      degree ← wr degree currentDegree (Some element);
      match nextElement with
      | None => Some (m, degree)
      | Some element => consolidate_roots fuel m degree element
      end
  end.

(** The body of the final [for] of the consolidation: rebuild the root
    list from the degree table and elect the minimum. *)
Definition consolidate_rebuild (degree : list (option ptr)) (i : Z)
  (st : mem * option ptr) : option (mem * option ptr) :=
  let '(m, minimum) := st in
  d ← rd degree i;
  match d with
  | None => Some (m, minimum)
  | Some y =>
      match minimum with
      | None =>
          m ← upd m y (set_right y);
          m ← upd m y (set_left y);
          Some (m, Some y)
      | Some min =>
          m ← upd m y (set_right min);
          nmin ← m !! min;
          m ← upd m y (set_left (left_ nmin));
          nmin ← m !! min;
          m ← upd m (left_ nmin) (set_right y);
          m ← upd m min (set_left y);
          ny ← m !! y;
          nmin ← m !! min;
          if decide (weight ny < weight nmin) then Some (m, Some y)
          else Some (m, Some min)
      end
  end.

(** [consolidateFibonacciMinHeap]. *)
Definition consolidateFibonacciMinHeap (fuel : nat) (m : mem)
  (heap : FibonacciMinHeap) : option (mem * FibonacciMinHeap) :=
  let degreeSize := degreeSize (size heap) in
  let degree : list (option ptr) := replicate (Z.to_nat degreeSize) None in
  element ← minimum heap;
  '(m, degree) ← consolidate_roots fuel m degree element;
  '(m, minimum) ←
    for_loop (Z.to_nat degreeSize) 0 (consolidate_rebuild degree) (m, None);
  Some (m, with_minimum heap minimum).

(** The body of the [for] of [popFibonacciMinHeap] that moves the children
    of the minimum into the root list. *)
Definition pop_child (minimum : ptr) (i : Z) (m : mem) : option mem :=
  nmin ← m !! minimum;
  child ← FibonacciHeap.child nmin;
  nc ← m !! child;
  m ← (if decide (child = right_ nc) then upd m minimum (set_child None)
       else
         m ← upd m minimum (set_child (Some (right_ nc)));
         nc ← m !! child;
         m ← upd m (right_ nc) (set_left (left_ nc));
         nc ← m !! child;
         upd m (left_ nc) (set_right (right_ nc)));
  m ← upd m child (set_parent None);
  m ← upd m child (set_right minimum);
  nmin ← m !! minimum;
  m ← upd m child (set_left (left_ nmin));
  nmin ← m !! minimum;
  m ← upd m (left_ nmin) (set_right child);
  upd m minimum (set_left child).

(** [popFibonacciMinHeap].  [out] holds the values of [*vertex], [*via] and
    [*weight] on entry; the result carries their values on return. *)
Definition popFibonacciMinHeap (fuel : nat) (m : mem) (heap : FibonacciMinHeap)
  (out : Z * Z * Z) : option (mem * FibonacciMinHeap * (Z * Z * Z)) :=
  match minimum heap with
  | None => Some (m, heap, out)
  | Some minimum =>
      nmin ← m !! minimum;
      let out := (vertex nmin, via nmin, weight nmin) in
      m ← for_loop (Z.to_nat (childrens nmin)) 0 (pop_child minimum) m;
      nmin ← m !! minimum;
      '(m, heap) ←
        (if decide (minimum = right_ nmin) then
           Some (m, with_minimum heap None)
         else
           m ← upd m (right_ nmin) (set_left (left_ nmin));
           nmin ← m !! minimum;
           m ← upd m (left_ nmin) (set_right (right_ nmin));
           nmin ← m !! minimum;
           Some (m, with_minimum heap (Some (right_ nmin))));
      let heap := with_size heap (size heap - 1) in
      nmin ← m !! minimum;
      pos ← wrc (positions heap) (vertex nmin) None;
      let heap := with_positions heap pos in
      let m := delete minimum m in
      if decide (size heap > 0) then
        '(m, heap) ← consolidateFibonacciMinHeap fuel m heap;
        Some (m, heap, out)
      else Some (m, heap, out)
  end.

(** *** Popping an empty heap *)

(** C10. [popFibonacciMinHeap] on a heap whose [minimum] is [NULL] changes
    nothing: the nodes, the heap record (size, minimum, position table) and
    the three output parameters are returned as they were, whatever the
    fuel. *)
Theorem popFibonacciMinHeap_empty (fuel : nat) (m : mem)
  (heap : FibonacciMinHeap) (out : Z * Z * Z) :
  minimum heap = None →
  popFibonacciMinHeap fuel m heap out = Some (m, heap, out).
Proof. intros Hmin. unfold popFibonacciMinHeap. by rewrite Hmin. Qed.

(** C10, on the fresh heap of a three-vertex graph. *)
Lemma popFibonacciMinHeap_empty_witness :
  popFibonacciMinHeap 0 ∅ (heap_for 3) (7, 8, 9)
  = Some (∅, heap_for 3, (7, 8, 9)).
Proof. apply (popFibonacciMinHeap_empty 0 ∅ (heap_for 3) (7, 8, 9)). reflexivity. Defined.

(** *** Cutting a marked node *)

(** Five pushes and one pop leave the tree 1 → {2, 3}, 3 → {4}; lowering
    vertex 4 below its parent cuts node 4 and marks node 3, which is not a
    root. *)
Definition marked_child_heap : option (mem * FibonacciMinHeap) :=
  '(m, h) ← pushFibonacciMinHeap ∅ (heap_for 5) 0 0 1;
  '(m, h) ← pushFibonacciMinHeap m h 1 0 10;
  '(m, h) ← pushFibonacciMinHeap m h 2 0 20;
  '(m, h) ← pushFibonacciMinHeap m h 3 0 30;
  '(m, h) ← pushFibonacciMinHeap m h 4 0 40;
  '(m, h, _) ← popFibonacciMinHeap 9 m h (0, 0, 0);
  decreaseFibonacciMinHeap 1 m h 4 3 25.

(** C8 at a reachable heap: node 3 has the parent 1 and is marked; after
    [cutFibonacciMinHeap] it is a root (its parent is [NULL], the degree of
    node 1 went from 2 to 1 and the child pointer of node 1 is node 2), but
    its [marked] flag is still set. *)
Lemma cutFibonacciMinHeap_keeps_mark :
  ('(m, h) ← marked_child_heap;
   n ← m !! 3%nat;
   p ← m !! 1%nat;
   '(m', h') ← cutFibonacciMinHeap 1 m h 3%nat;
   n' ← m' !! 3%nat;
   p' ← m' !! 1%nat;
   Some (parent n, marked n, childrens p,
         (parent n', marked n', childrens p', child p')))
  = Some (Some 1%nat, true, 2, (None, true, 1, Some 2%nat)).
Proof. vm_compute. reflexivity. Qed.


(** *** Field views of the node store *)

Abbreviation fl m p := (left_ <$> (m !! p)).
Abbreviation fr m p := (right_ <$> (m !! p)).
Abbreviation fp m p := (parent <$> (m !! p)).
Abbreviation fc m p := (child <$> (m !! p)).
Abbreviation fk m p := (childrens <$> (m !! p)).
Abbreviation fw m p := (weight <$> (m !! p)).
Abbreviation fm m p := (marked <$> (m !! p)).
Abbreviation fv m p := (vertex <$> (m !! p)).

Lemma upd_Some (m : mem) p f m' :
  upd m p f = Some m' → ∃ n, m !! p = Some n ∧ m' = <[p := f n]> m.
Proof.
  unfold upd. destruct (m !! p) as [n|]; [|done]. intros [= <-]. eauto.
Qed.

Lemma upd_is_Some (m : mem) p f :
  is_Some (m !! p) → ∃ m', upd m p f = Some m'.
Proof. intros [n Hn]. unfold upd. rewrite Hn. eauto. Qed.

Lemma upd_dom (m : mem) p f m' q :
  upd m p f = Some m' → is_Some (m' !! q) ↔ is_Some (m !! q).
Proof.
  intros (n & Hn & ->)%upd_Some. destruct (decide (q = p)) as [->|Hne].
  - rewrite lookup_insert_eq, Hn. split; eauto.
  - by rewrite lookup_insert_ne.
Qed.

Lemma upd_same {X} (π : FibonacciHeapElement → X) (m : mem) p f m' :
  upd m p f = Some m' → (∀ n, π (f n) = π n) →
  ∀ q, π <$> (m' !! q) = π <$> (m !! q).
Proof.
  intros (n & Hn & ->)%upd_Some Hπ q. destruct (decide (q = p)) as [->|Hne].
  - rewrite lookup_insert_eq, Hn. simpl. by rewrite Hπ.
  - by rewrite lookup_insert_ne.
Qed.

Lemma upd_set {X} (π : FibonacciHeapElement → X) (m : mem) p f m' v :
  upd m p f = Some m' → (∀ n, π (f n) = v) →
  ∀ q, π <$> (m' !! q) = if decide (q = p) then Some v else π <$> (m !! q).
Proof.
  intros (n & Hn & ->)%upd_Some Hπ q. case_decide as Hq.
  - subst. rewrite lookup_insert_eq. simpl. by rewrite Hπ.
  - by rewrite lookup_insert_ne.
Qed.

Lemma upd_childrens (m : mem) p d m' :
  upd m p (λ n, set_childrens (childrens n + d) n) = Some m' →
  ∀ q, fk m' q = if decide (q = p) then (λ k, k + d) <$> fk m q else fk m q.
Proof.
  intros (n & Hn & ->)%upd_Some q. case_decide as Hq.
  - subst. rewrite lookup_insert_eq, Hn. done.
  - by rewrite lookup_insert_ne.
Qed.

Lemma upd_childrens_sub (m : mem) p d m' :
  upd m p (λ n, set_childrens (childrens n - d) n) = Some m' →
  ∀ q, fk m' q = if decide (q = p) then (λ k, k - d) <$> fk m q else fk m q.
Proof.
  intros (n & Hn & ->)%upd_Some q. case_decide as Hq.
  - subst. rewrite lookup_insert_eq, Hn. done.
  - by rewrite lookup_insert_ne.
Qed.

Lemma view_Some {X} (π : FibonacciHeapElement → X) (m : mem) p n :
  m !! p = Some n → π <$> (m !! p) = Some (π n).
Proof. by intros ->. Qed.

Lemma view_dom {X} (π : FibonacciHeapElement → X) (m : mem) p x :
  π <$> (m !! p) = Some x → is_Some (m !! p).
Proof. destruct (m !! p); [eauto|done]. Qed.

Lemma upd_left (m : mem) p v m' :
  upd m p (set_left v) = Some m' →
  ∀ q, fl m' q = if decide (q = p) then Some v else fl m q.
Proof. intros H. by apply (upd_set left_ _ _ _ _ _ H). Qed.

Lemma upd_right (m : mem) p v m' :
  upd m p (set_right v) = Some m' →
  ∀ q, fr m' q = if decide (q = p) then Some v else fr m q.
Proof. intros H. by apply (upd_set right_ _ _ _ _ _ H). Qed.

Lemma upd_parent (m : mem) p v m' :
  upd m p (set_parent v) = Some m' →
  ∀ q, fp m' q = if decide (q = p) then Some v else fp m q.
Proof. intros H. by apply (upd_set parent _ _ _ _ _ H). Qed.

Lemma upd_child (m : mem) p v m' :
  upd m p (set_child v) = Some m' →
  ∀ q, fc m' q = if decide (q = p) then Some v else fc m q.
Proof. intros H. by apply (upd_set child _ _ _ _ _ H). Qed.

Lemma upd_marked (m : mem) p v m' :
  upd m p (set_marked v) = Some m' →
  ∀ q, fm m' q = if decide (q = p) then Some v else fm m q.
Proof. intros H. by apply (upd_set marked _ _ _ _ _ H). Qed.

Lemma upd_weight (m : mem) p v m' :
  upd m p (set_weight v) = Some m' →
  ∀ q, fw m' q = if decide (q = p) then Some v else fw m q.
Proof. intros H. by apply (upd_set weight _ _ _ _ _ H). Qed.

(** Rewrite the views of the store [m'] obtained by the update [H] into
    views of the store before it. *)
Ltac view_step H :=
  first [ rewrite !(upd_same _ _ _ _ _ H) by done
        | rewrite !(upd_left _ _ _ _ H)
        | rewrite !(upd_right _ _ _ _ H)
        | rewrite !(upd_parent _ _ _ _ H)
        | rewrite !(upd_child _ _ _ _ H)
        | rewrite !(upd_marked _ _ _ _ H)
        | rewrite !(upd_weight _ _ _ _ H)
        | rewrite !(upd_childrens _ _ _ _ H)
        | rewrite !(upd_childrens_sub _ _ _ _ H) ].

Ltac views H := repeat view_step H.

Ltac view_step_in H H' :=
  first [ rewrite !(upd_same _ _ _ _ _ H) in H' by done
        | rewrite !(upd_left _ _ _ _ H) in H'
        | rewrite !(upd_right _ _ _ _ H) in H'
        | rewrite !(upd_parent _ _ _ _ H) in H'
        | rewrite !(upd_child _ _ _ _ H) in H'
        | rewrite !(upd_marked _ _ _ _ H) in H'
        | rewrite !(upd_weight _ _ _ _ H) in H'
        | rewrite !(upd_childrens _ _ _ _ H) in H'
        | rewrite !(upd_childrens_sub _ _ _ _ H) in H' ].

Ltac views_in H H' := repeat view_step_in H H'.

Example views_test (m m1 m2 : mem) a b x :
  upd m a (set_left x) = Some m1 → upd m1 b (set_right x) = Some m2 →
  ∀ q, fl m2 q = (if decide (q = a) then Some x else fl m q) ∧
       fr m2 q = (if decide (q = b) then Some x else fr m q).
Proof. intros H1 H2 q. views H2. views H1. done. Qed.

(** *** Circular doubly linked sibling lists *)

(** [dll m prev l next]: the nodes of [l] are chained by [right] and
    [left], the first one has [prev] to its left and the last one [next] to
    its right. *)
Fixpoint dll (m : mem) (prev : ptr) (l : list ptr) (next : ptr) : Prop :=
  match l with
  | [] => True
  | p :: l' =>
      fl m p = Some prev ∧ fr m p = Some (hd next l') ∧ dll m p l' next
  end.

(** [ring m l]: [l] lists a sibling ring in the order of the [right]
    links. *)
Definition ring (m : mem) (l : list ptr) : Prop :=
  match l with
  | [] => True
  | p :: _ => dll m (List.last l p) l p
  end.

Lemma last_elem_of (l : list ptr) d : l ≠ [] → List.last l d ∈ l.
Proof.
  induction l as [|a l IH]; [done|]. intros _. destruct l as [|b l].
  - simpl. set_solver.
  - change (List.last (a :: b :: l) d) with (List.last (b :: l) d).
    apply elem_of_cons. right. by apply IH.
Qed.

Lemma last_cons_ne (l : list ptr) a d :
  l ≠ [] → List.last (a :: l) d = List.last l d.
Proof. by destruct l. Qed.

Lemma last_default_irrel (l : list ptr) d d' :
  l ≠ [] → List.last l d = List.last l d'.
Proof.
  induction l as [|a l IH]; [done|]. intros _. destruct l as [|b l]; [done|].
  change (List.last (b :: l) d = List.last (b :: l) d'). by apply IH.
Qed.

Lemma last_snoc (l : list ptr) x d : List.last (l ++ [x]) d = x.
Proof. apply last_last. Qed.

Lemma last_app_ne (l1 l2 : list ptr) d :
  l2 ≠ [] → List.last (l1 ++ l2) d = List.last l2 d.
Proof.
  intros Hne. induction l1 as [|a l1 IH]; [done|].
  rewrite <-app_comm_cons, last_cons_ne; [done|]. by destruct l1, l2.
Qed.

Lemma dll_app m prev l1 l2 next :
  dll m prev (l1 ++ l2) next ↔
  dll m prev l1 (hd next l2) ∧ dll m (List.last l1 prev) l2 next.
Proof.
  revert prev. induction l1 as [|p l1 IH]; intros prev; simpl; [naive_solver|].
  rewrite IH.
  assert (hd next (l1 ++ l2) = hd (hd next l2) l1) as -> by by destruct l1.
  assert (List.last l1 p = match l1 with [] => p | _ :: _ => List.last l1 prev end)
    as ->.
  { destruct l1; [done|]. by apply last_default_irrel. }
  destruct l1; naive_solver.
Qed.

Lemma dll_dom m prev l next q :
  dll m prev l next → q ∈ l → is_Some (m !! q).
Proof.
  revert prev. induction l as [|p l IH]; intros prev Hd Hq; [by apply elem_of_nil in Hq|].
  destruct Hd as (Hl & _ & Hd). apply elem_of_cons in Hq as [->|Hq]; [|eauto].
  by eapply view_dom.
Qed.

(** Re-linking the two ends of a chain. *)
Lemma dll_relink m m' a b a' b' l :
  NoDup l → dll m a l b →
  (∀ q, q ∈ l → fl m' q = if decide (q = hd q l) then Some a' else fl m q) →
  (∀ q, q ∈ l →
        fr m' q = if decide (q = List.last l q) then Some b' else fr m q) →
  dll m' a' l b'.
Proof.
  revert a a'. induction l as [|p l IH]; intros a a' Hnd Hd Hl Hr; [done|].
  apply NoDup_cons in Hnd as [Hp Hnd]. destruct Hd as (Hlp & Hrp & Hd).
  simpl. split_and!.
  - rewrite Hl by set_solver. simpl. by rewrite decide_True.
  - rewrite Hr by set_solver. destruct l as [|p' l].
    + simpl. by rewrite decide_True.
    + rewrite decide_False; [done|].
      intros Heq. apply Hp. rewrite Heq, last_cons_ne by done.
      by apply last_elem_of.
  - destruct l as [|p' l]; [done|].
    apply (IH p p); [done| |..].
    + done.
    + intros q Hq. rewrite Hl by set_solver. simpl.
      rewrite decide_False by set_solver.
      case_decide as Hq'; [|done]. subst q. by destruct Hd as (-> & _).
    + intros q Hq. rewrite Hr by set_solver.
      rewrite last_cons_ne by done. done.
Qed.

Lemma dll_frame m m' a b l :
  dll m a l b →
  (∀ q, q ∈ l → fl m' q = fl m q ∧ fr m' q = fr m q) →
  dll m' a l b.
Proof.
  revert a. induction l as [|p l IH]; intros a Hd Hf; [done|].
  destruct Hd as (Hlp & Hrp & Hd). destruct (Hf p) as [Hl' Hr']; [set_solver|].
  simpl. rewrite Hl', Hr'. split_and!; [done|done|]. apply IH; [done|]. intros q Hq. apply Hf. set_solver.
Qed.

Lemma ring_frame m m' l :
  ring m l →
  (∀ q, q ∈ l → fl m' q = fl m q ∧ fr m' q = fr m q) →
  ring m' l.
Proof. destruct l; [done|]. apply dll_frame. Qed.

Lemma ring_dom m l q : ring m l → q ∈ l → is_Some (m !! q).
Proof. destruct l; [by intros _ ?%elem_of_nil|]. apply dll_dom. Qed.

Lemma ring_head m x l :
  ring m (x :: l) → fl m x = Some (List.last l x) ∧ fr m x = Some (hd x l).
Proof.
  unfold ring. intros (Hl & Hr & _). split; [|done].
  rewrite Hl. f_equal. destruct l; [done|]. by rewrite last_cons_ne.
Qed.

Lemma ring_singleton m x : ring m [x] ↔ fl m x = Some x ∧ fr m x = Some x.
Proof. unfold ring. simpl. naive_solver. Qed.

Lemma ring_rotate m l1 l2 : ring m (l1 ++ l2) → ring m (l2 ++ l1).
Proof.
  destruct l1 as [|a l1]; [by rewrite app_nil_r|].
  destruct l2 as [|b l2]; [by rewrite app_nil_r|].
  unfold ring. cbn [app].
  rewrite !app_comm_cons, !dll_app, !last_app_ne by done.
  cbn [hd]. intros [H1 H2]. split.
  - by rewrite (last_default_irrel (a :: l1) b (List.last (b :: l2) a)).
  - by rewrite (last_default_irrel (b :: l2) _ a).
Qed.

(** Splicing [x] into a ring, to the left of its first node. *)
Lemma ring_snoc m m' h l x :
  NoDup (h :: l) → x ∉ h :: l → ring m (h :: l) →
  (∀ q, q ∈ h :: l →
        fl m' q = if decide (q = h) then Some x else fl m q) →
  (∀ q, q ∈ h :: l →
        fr m' q = if decide (q = List.last l h) then Some x else fr m q) →
  fl m' x = Some (List.last l h) → fr m' x = Some h →
  ring m' (h :: l ++ [x]).
Proof.
  intros Hnd Hx Hring Hl Hr Hlx Hrx. unfold ring in *.
  rewrite !app_comm_cons, last_snoc, dll_app. split.
  - eapply (dll_relink m m' _ h x x); [done|exact Hring|..].
    + intros q Hq. by rewrite Hl.
    + intros q Hq. rewrite Hr by done.
      assert (List.last (h :: l) q = List.last l h) as ->; [|done].
      destruct l; [done|]. rewrite last_cons_ne by done.
      by apply last_default_irrel.
  - simpl. split_and!; [|done..]. rewrite Hlx. f_equal.
    destruct l; [done|]. by apply last_default_irrel.
Qed.

(** Unlinking the first node of a ring. *)
Lemma ring_tail m m' x l :
  NoDup (x :: l) → l ≠ [] → ring m (x :: l) →
  (∀ q, q ∈ l →
        fl m' q = if decide (q = hd x l) then Some (List.last l x)
                  else fl m q) →
  (∀ q, q ∈ l →
        fr m' q = if decide (q = List.last l x) then Some (hd x l)
                  else fr m q) →
  ring m' l.
Proof.
  intros [Hx Hnd]%NoDup_cons Hne Hring Hl Hr.
  destruct l as [|p l]; [done|]. destruct Hring as (_ & _ & Hd).
  unfold ring. eapply (dll_relink m m' x x _ _ (p :: l)); [done|exact Hd|..].
  - intros q Hq. rewrite Hl by done. cbn [hd].
    by rewrite (last_default_irrel (p :: l) p x).
  - intros q Hq. rewrite Hr by done.
    by rewrite (last_default_irrel (p :: l) x q).
Qed.

Lemma hd_app_ne (l1 l2 : list ptr) d : l1 ≠ [] → hd d (l1 ++ l2) = hd d l1.
Proof. by destruct l1. Qed.

(** The neighbours of a node of a ring. *)
Lemma ring_middle m l1 x l2 :
  ring m (l1 ++ x :: l2) →
  fl m x = Some (List.last l1 (List.last l2 x)) ∧
  fr m x = Some (hd (hd x l1) l2).
Proof.
  intros Hring. apply (ring_rotate m l1 (x :: l2)) in Hring.
  rewrite <-app_comm_cons in Hring. apply ring_head in Hring as [-> ->].
  split; f_equal.
  - destruct l1 as [|a l1]; [by rewrite app_nil_r|].
    rewrite last_app_ne by done. by apply last_default_irrel.
  - by destruct l2.
Qed.

(** Unlinking any node of a ring. *)
Lemma ring_remove m m' l1 x l2 lx rx :
  NoDup (l1 ++ x :: l2) → l1 ++ l2 ≠ [] → ring m (l1 ++ x :: l2) →
  fl m x = Some lx → fr m x = Some rx →
  (∀ q, q ∈ l1 ++ l2 →
        fl m' q = if decide (q = rx) then Some lx else fl m q) →
  (∀ q, q ∈ l1 ++ l2 →
        fr m' q = if decide (q = lx) then Some rx else fr m q) →
  ring m' (l1 ++ l2).
Proof.
  intros Hnd Hne Hring Hlx Hrx Hl Hr.
  destruct (ring_middle _ _ _ _ Hring) as [Hlx' Hrx'].
  rewrite Hlx in Hlx'. rewrite Hrx in Hrx'. simplify_eq.
  apply (ring_rotate m l1 (x :: l2)) in Hring.
  rewrite <-app_comm_cons in Hring.
  assert (hd x (l2 ++ l1) = hd (hd x l1) l2) as Hhd by by destruct l2.
  assert (List.last (l2 ++ l1) x = List.last l1 (List.last l2 x)) as Hlast.
  { destruct l1 as [|a l1]; [by rewrite app_nil_r|].
    rewrite last_app_ne by done. by apply last_default_irrel. }
  apply ring_rotate. apply (ring_tail m m' x); [| |done|..].
  - apply NoDup_app in Hnd as (? & Hd & [? ?]%NoDup_cons).
    apply NoDup_cons. split; [set_solver|].
    apply NoDup_app. split_and!; [done|set_solver|done].
  - by destruct l1, l2.
  - intros q Hq. rewrite Hl by set_solver.
    by rewrite Hhd, Hlast.
  - intros q Hq. rewrite Hr by set_solver.
    by rewrite Hhd, Hlast.
Qed.

(** *** The shape of the heap

    The forest is described by two ghost maps: [K p] lists the children of
    [p] in the order of their sibling ring, starting at [p->child], and
    [A p] lists the ancestors of [p], the parent first.  [R] lists the root
    ring from [heap->minimum]. *)

Definition wt (m : mem) (p : ptr) : Z := default 0 (fw m p).
Definition deg (m : mem) (p : ptr) : Z := default 0 (fk m p).
Definition mk (m : mem) (p : ptr) : bool := default false (fm m p).

Definition live (m : mem) (p : ptr) : Prop := is_Some (m !! p).

(** [exo] is a node that may be lighter than its parent (the node whose
    weight was just lowered), [exd] a node whose degree bound is waived
    (the node a cascading cut is about to detach), [exk] a node whose child
    count is waived (the minimum while its children are moved away). *)
Record forest (m : mem) (K A : ptr → list ptr) (exo exd exk : option ptr)
  : Prop := {
  forest_child : ∀ p, live m p → fc m p = Some (head (K p));
  forest_count : ∀ p, live m p → exk ≠ Some p →
                      fk m p = Some (Z.of_nat (length (K p)));
  forest_nodup : ∀ p, NoDup (K p);
  forest_ring : ∀ p, ring m (K p);
  forest_anc : ∀ p, live m p →
      A p = match fp m p with Some (Some q) => q :: A q | _ => [] end;
  forest_kids : ∀ c p, c ∈ K p ↔ fp m c = Some (Some p);
  forest_parent : ∀ c p, fp m c = Some (Some p) → live m p;
  forest_order : ∀ c p, c ∈ K p → exo ≠ Some c → wt m p ≤ wt m c;
  forest_degree : ∀ p j c, K p !! j = Some c → exd ≠ Some c →
      Z.of_nat j ≤ deg m c + (if mk m c then 1 else 0)
}.

Record rooted (m : mem) (heap : FibonacciMinHeap) (R : list ptr) : Prop := {
  rooted_roots : ∀ r, r ∈ R ↔ fp m r = Some None;
  rooted_nodup : NoDup R;
  rooted_ring : ring m R;
  rooted_minimum : minimum heap = head R
}.

Definition min_ok (m : mem) (R : list ptr) : Prop :=
  ∀ r, r ∈ R → wt m (hd r R) ≤ wt m r.

Definition sized (m : mem) (heap : FibonacciMinHeap) : Prop :=
  size heap = Z.of_nat (base.size (dom m)).

Record indexed (m : mem) (heap : FibonacciMinHeap) : Prop := {
  indexed_node : ∀ p v, fv m p = Some v →
                        rdc (positions heap) v = Some (Some p);
  indexed_slot : ∀ v p, rdc (positions heap) v = Some (Some p) →
                        fv m p = Some v
}.

(** What an update of the sibling links leaves alone. *)
Definition same_payload (m m' : mem) : Prop :=
  ∀ q, fp m' q = fp m q ∧ fc m' q = fc m q ∧ fk m' q = fk m q ∧
       fw m' q = fw m q ∧ fm m' q = fm m q ∧ fv m' q = fv m q.

Lemma same_payload_live m m' q : same_payload m m' → live m' q ↔ live m q.
Proof.
  intros H. destruct (H q) as (Hp & _). unfold live.
  destruct (m' !! q), (m !! q); simpl in Hp; try done; split; eauto.
  all: intros [? ?]; done.
Qed.

Lemma same_payload_wt m m' q : same_payload m m' → wt m' q = wt m q.
Proof. intros H. unfold wt. by destruct (H q) as (_ & _ & _ & -> & _). Qed.

Lemma same_payload_deg m m' q : same_payload m m' → deg m' q = deg m q.
Proof. intros H. unfold deg. by destruct (H q) as (_ & _ & -> & _). Qed.

Lemma same_payload_mk m m' q : same_payload m m' → mk m' q = mk m q.
Proof. intros H. unfold mk. by destruct (H q) as (_ & _ & _ & _ & -> & _). Qed.

Lemma forest_frame m m' K A exo exd exk :
  forest m K A exo exd exk → same_payload m m' →
  (∀ p q, q ∈ K p → fl m' q = fl m q ∧ fr m' q = fr m q) →
  forest m' K A exo exd exk.
Proof.
  intros [] Hsame Hlinks.
  pose proof (λ q, proj1 (Hsame q)) as Hp.
  constructor; intros.
  - destruct (Hsame p) as (_ & -> & _). by apply forest_child0, (same_payload_live m m').
  - destruct (Hsame p) as (_ & _ & -> & _).
    by apply forest_count0; [apply (same_payload_live m m')|].
  - done.
  - eapply ring_frame; [done|]. intros q Hq. by eapply Hlinks.
  - rewrite Hp. by apply forest_anc0, (same_payload_live m m').
  - by rewrite Hp.
  - apply (same_payload_live m m'); [done|]. eapply forest_parent0. by rewrite <-Hp.
  - rewrite !(same_payload_wt m m') by done. eauto.
  - rewrite (same_payload_deg m m'), (same_payload_mk m m') by done. eauto.
Qed.

Lemma indexed_frame m m' heap :
  indexed m heap → same_payload m m' → indexed m' heap.
Proof.
  intros [] Hsame. constructor; intros.
  - destruct (Hsame p) as (_ & _ & _ & _ & _ & Hv). rewrite Hv in *. eauto.
  - destruct (Hsame p) as (_ & _ & _ & _ & _ & ->). eauto.
Qed.

Lemma sized_frame m m' heap :
  sized m heap → same_payload m m' → sized m' heap.
Proof.
  unfold sized. intros -> Hsame. do 2 f_equal. apply set_eq. intros q.
  rewrite !elem_of_dom. symmetry. exact (same_payload_live m m' q Hsame).
Qed.

(** *** Symbolic execution of the store operations *)

Ltac live_solve :=
  unfold live in *;
  repeat match goal with
  | |- is_Some _ => assumption
  | H : upd _ _ _ = Some ?m |- is_Some (?m !! _) =>
      apply (upd_dom _ _ _ _ _ H)
  end;
  eauto.

(** Run the next [upd] of the goal, naming the new store and the equation. *)
Ltac upd_step m1 H :=
  match goal with
  | |- context [upd ?m ?p ?f] =>
      destruct (upd_is_Some m p f) as [m1 H];
      [live_solve | rewrite H; cbn [mbind option_bind]]
  end.

(** Run the next read [m !! p] of the goal. *)
Ltac read_step m p n H :=
  let Hl := fresh in
  assert (is_Some (m !! p)) as Hl by live_solve;
  destruct Hl as [n H]; rewrite H; cbn [mbind option_bind].

Lemma wt_Some m p n : m !! p = Some n → wt m p = weight n.
Proof. unfold wt. by intros ->. Qed.

Lemma min_ok_cons m h l :
  min_ok m (h :: l) ↔ ∀ r, r ∈ l → wt m h ≤ wt m r.
Proof.
  unfold min_ok. simpl. split.
  - intros H r Hr. apply H. set_solver.
  - intros H r [->|Hr]%elem_of_cons; [lia|eauto].
Qed.

(** *** [insertFibonacciMinHeap] *)

Lemma insertFibonacciMinHeap_spec m heap R x :
  ring m R → NoDup R → x ∉ R → live m x → minimum heap = head R →
  (∀ r, r ∈ R → live m r) →
  (R = [] → ring m [x]) →
  ∃ m' heap' R',
    insertFibonacciMinHeap m heap x = Some (m', heap') ∧
    size heap' = size heap ∧ positions heap' = positions heap ∧
    minimum heap' = head R' ∧
    R' ≡ₚ x :: R ∧ ring m' R' ∧
    same_payload m m' ∧
    (∀ q, q ∉ x :: R → fl m' q = fl m q ∧ fr m' q = fr m q) ∧
    (min_ok m R → min_ok m' R').
Proof.
  intros Hring Hnd Hx Hlx Hmin Hlive Hempty.
  unfold insertFibonacciMinHeap. rewrite Hmin.
  destruct R as [|h l]; simpl.
  { exists m, (with_minimum heap (Some x)), [x].
    split_and!; try done; [by apply Hempty|].
    intros _ r ->%list_elem_of_singleton. simpl. lia. }
  assert (x ≠ h) as Hxh by set_solver.
  assert (live m h) as Hlh' by (apply Hlive; set_solver).
  assert (live m (List.last l h)) as Hle.
  { apply Hlive. destruct l; [set_solver|]. apply elem_of_cons. right.
    by apply last_elem_of. }
  read_step m h nmin Hnmin.
  destruct (ring_head _ _ _ Hring) as [Hlh Hrh].
  rewrite Hnmin in Hlh. simpl in Hlh. injection Hlh as Hlh. rewrite Hlh.
  set (e := List.last l h) in *.
  assert (e ∈ h :: l) as He.
  { unfold e. destruct l; [set_solver|]. apply elem_of_cons. right.
    by apply last_elem_of. }
  assert (x ≠ e) as Hxe by (intros ->; done).
  upd_step m1 H1. upd_step m2 H2. upd_step m3 H3. upd_step m4 H4.
  assert (∀ q, fl m4 q = if decide (q = x) then Some e
                         else if decide (q = h) then Some x else fl m q) as Hfl.
  { intros q. views H4. views H3. views H2. views H1. done. }
  assert (∀ q, fr m4 q = if decide (q = x) then Some h
                         else if decide (q = e) then Some x else fr m q) as Hfr.
  { intros q. views H4. views H3. views H2. views H1. done. }
  assert (same_payload m m4) as Hsame.
  { intros q. split_and!; views H4; views H3; views H2; views H1; done. }
  assert (ring m4 (h :: l ++ [x])) as Hring4.
  { apply (ring_snoc m m4); try done.
    - intros q Hq. rewrite Hfl, decide_False; [done|]. intros ->. done.
    - intros q Hq. rewrite Hfr, decide_False; [done|]. intros ->. done.
    - by rewrite Hfl, decide_True.
    - by rewrite Hfr, decide_True. }
  assert (∀ q, q ∉ x :: h :: l → fl m4 q = fl m q ∧ fr m4 q = fr m q) as Hout.
  { intros q Hq. rewrite Hfl, Hfr.
    rewrite !decide_False; [done|..]; intros ->; set_solver. }
  read_step m4 h nmin' Hnmin'. read_step m4 x ne Hne.
  rewrite <-(wt_Some _ _ _ Hnmin'), <-(wt_Some _ _ _ Hne).
  case_decide as Hw.
  - exists m4, (with_minimum heap (Some x)), (x :: h :: l).
    split_and!; try done.
    + apply (ring_rotate m4 (h :: l) [x]). by rewrite <-app_comm_cons.
    + intros Hmo. apply min_ok_cons. intros r Hr.
      rewrite (same_payload_wt m m4 r) by done.
      rewrite (same_payload_wt m m4 h) in Hw by done.
      apply elem_of_cons in Hr as [->|Hr]; [lia|].
      rewrite min_ok_cons in Hmo. specialize (Hmo r Hr). lia.
  - exists m4, heap, (h :: l ++ [x]). split_and!; try done.
    + rewrite app_comm_cons. by rewrite <-Permutation_cons_append.
    + intros Hmo. apply min_ok_cons. intros r Hr.
      rewrite !(same_payload_wt m m4) by done.
      rewrite !(same_payload_wt m m4) in Hw by done.
      apply elem_of_app in Hr as [Hr| ->%list_elem_of_singleton]; [|lia].
      rewrite min_ok_cons in Hmo. by apply Hmo.
Qed.

Record heap_inv (m : mem) (heap : FibonacciMinHeap) (R : list ptr)
  (K A : ptr → list ptr) : Prop := {
  inv_forest : forest m K A None None None;
  inv_rooted : rooted m heap R;
  inv_min : min_ok m R;
  inv_sized : sized m heap;
  inv_indexed : indexed m heap
}.

Lemma insert_view {X} (π : FibonacciHeapElement → X) (m : mem) x n q :
  π <$> (<[x := n]> m !! q) =
  if decide (q = x) then Some (π n) else π <$> (m !! q).
Proof.
  case_decide; [subst; by rewrite lookup_insert_eq|by rewrite lookup_insert_ne].
Qed.

Lemma view_live {X} (π : FibonacciHeapElement → X) (m : mem) p x :
  π <$> (m !! p) = Some x → live m p.
Proof. apply view_dom. Qed.

Lemma forest_kids_live m K A exo exd exk c p :
  forest m K A exo exd exk → c ∈ K p → live m c ∧ live m p.
Proof.
  intros Hf Hc. apply (forest_kids _ _ _ _ _ _ Hf) in Hc.
  split; [by eapply view_live|by eapply forest_parent].
Qed.

Lemma forest_dead m K A exo exd exk p :
  forest m K A exo exd exk → ¬ live m p → K p = [].
Proof.
  intros Hf Hp. destruct (K p) as [|c l] eqn:HK; [done|].
  destruct (forest_kids_live m K A exo exd exk c p Hf); [|done].
  rewrite HK. set_solver.
Qed.

Lemma rooted_live m heap R r : rooted m heap R → r ∈ R → live m r.
Proof. intros Hr Hin. apply (rooted_roots _ _ _ Hr) in Hin. by eapply view_live. Qed.

Lemma forest_kids_not_root m heap R K A exo exd exk c p :
  forest m K A exo exd exk → rooted m heap R → c ∈ K p → c ∉ R.
Proof.
  intros Hf Hr Hc Hin. apply (forest_kids _ _ _ _ _ _ Hf) in Hc.
  apply (rooted_roots _ _ _ Hr) in Hin. congruence.
Qed.

(** *** [pushFibonacciMinHeap] *)

Lemma pushFibonacciMinHeap_spec m heap R K A v via_ w :
  heap_inv m heap R K A →
  0 ≤ v < Z.of_nat (length (positions heap)) →
  (∀ p, fv m p ≠ Some v) →
  ∃ m' heap' R' A' x,
    pushFibonacciMinHeap m heap v via_ w = Some (m', heap') ∧
    heap_inv m' heap' R' K A' ∧
    size heap' = size heap + 1 ∧
    length (positions heap') = length (positions heap) ∧
    (∀ u, is_Some (rdc (positions heap) u) ∨ u = v →
          is_Some (rdc (positions heap') u)) ∧
    ¬ live m x ∧ (∀ q, live m' q ↔ q = x ∨ live m q) ∧
    fv m' x = Some v ∧ fw m' x = Some w ∧
    (∀ q, q ≠ x → fv m' q = fv m q ∧ fw m' q = fw m q).
Proof.
  intros [Hf Hr Hmin Hsz Hix] Hv Hnew. unfold pushFibonacciMinHeap.
  assert (¬ live m (malloc m)) as Hx.
  { unfold live, malloc. rewrite <-elem_of_dom. apply is_fresh. }
  set (x := malloc m) in *.
  set (nx := mkNode false 0 v via_ w None None x x).
  set (m0 := <[x := nx]> m).
  assert (m0 !! x = Some nx) as Hnx by apply lookup_insert_eq.
  rewrite Hnx. cbn [mbind option_bind]. simpl.
  destruct (wrc_is_Some (positions heap) v (Some x)) as [pos Hpos]; [done|].
  rewrite Hpos. cbn [mbind option_bind].
  assert (∀ q, q ≠ x → m0 !! q = m !! q) as Hm0
    by (intros q Hq; by apply lookup_insert_ne).
  assert (∀ q, live m0 q ↔ q = x ∨ live m q) as Hlive0.
  { intros q. unfold live, m0. destruct (decide (q = x)) as [->|Hq].
    - rewrite lookup_insert_eq. naive_solver.
    - rewrite lookup_insert_ne by done. naive_solver. }
  assert (x ∉ R) as HxR by (intros Hin; by apply Hx, (rooted_live m heap R)).
  assert (∀ p, x ∉ K p) as HxK.
  { intros p Hin. by apply Hx, (forest_kids_live m K A None None None x p). }
  assert (K x = []) as HKx by by eapply forest_dead.
  set (A' := λ q, if decide (q = x) then [] else A q).
  assert (forest m0 K A' None None None) as Hf0.
  { destruct Hf. constructor.
    - intros p [->|Hp]%Hlive0; [by rewrite Hnx, HKx|].
      rewrite Hm0 by (intros ->; done). eauto.
    - intros p [->|Hp]%Hlive0 ?; [by rewrite Hnx, HKx|].
      rewrite Hm0 by (intros ->; done). eauto.
    - done.
    - intros p. eapply ring_frame; [apply forest_ring0|].
      intros q Hq. rewrite Hm0; [done|]. intros ->. by eapply HxK.
    - intros p [->|Hp]%Hlive0; unfold A'.
      + by rewrite decide_True, Hnx.
      + assert (p ≠ x) by (intros ->; done).
        rewrite decide_False, Hm0 by done. rewrite forest_anc0 by done.
        destruct (fp m p) as [[q|]|] eqn:Hq; [|done..].
        rewrite decide_False; [done|]. intros ->.
        by apply Hx, (forest_parent0 p).
    - intros c p. destruct (decide (c = x)) as [->|Hc].
      + rewrite Hnx. simpl. split; [by intros ?%HxK|done].
      + rewrite Hm0 by done. apply forest_kids0.
    - intros c p. destruct (decide (c = x)) as [->|Hc]; [by rewrite Hnx|].
      rewrite Hm0 by done. intros ?%forest_parent0. apply Hlive0. by right.
    - intros c p Hc _. unfold wt. rewrite !Hm0; [by apply forest_order0|..].
      + intros ->. by eapply HxK.
      + intros ->. by rewrite HKx in Hc; apply elem_of_nil in Hc.
    - intros p j c Hc _. unfold deg, mk. rewrite !Hm0; [by eapply forest_degree0|].
      intros ->. eapply HxK. by eapply list_elem_of_lookup_2. }
  destruct (insertFibonacciMinHeap_spec m0 (with_positions heap pos) R x)
    as (m' & heap' & R' & -> & Hsz' & Hpos' & Hmin' & HR' & Hring' & Hsame
        & Hout & Hmo).
  { eapply ring_frame; [apply Hr|]. intros q Hq. rewrite Hm0; [done|].
    intros ->. done. }
  { apply Hr. }
  { done. }
  { apply Hlive0. by left. }
  { simpl. apply Hr. }
  { intros r Hin. apply Hlive0. right. by eapply rooted_live. }
  { intros _. apply ring_singleton. by rewrite Hnx. }
  cbn [mbind option_bind].
  assert (∀ q, live m' q ↔ q = x ∨ live m q) as Hlive'.
  { intros q. rewrite <-Hlive0. by apply same_payload_live. }
  exists m', (with_size heap' (size heap' + 1)), R', A', x.
  split; [done|]. split_and!.
  - constructor.
    + eapply forest_frame; [done..|]. intros p q Hq. apply Hout.
      intros [->|Hin]%elem_of_cons; [by eapply HxK|].
      by eapply (forest_kids_not_root m heap R).
    + constructor; simpl;
        [|rewrite HR'; constructor; [done|apply Hr]|done..].
      intros r. rewrite HR', elem_of_cons. destruct (Hsame r) as (-> & _).
      destruct (decide (r = x)) as [->|Hrx]; [rewrite Hnx; naive_solver|].
      rewrite Hm0 by done. rewrite (rooted_roots _ _ _ Hr). naive_solver.
    + apply Hmo. intros r Hin. unfold wt. rewrite !Hm0; [by apply Hmin|..].
      * intros ->. done.
      * destruct R; [by apply elem_of_nil in Hin|]. simpl. intros ->.
        apply HxR. set_solver.
    + unfold sized in *. simpl. rewrite Hsz'. simpl. rewrite Hsz.
      assert (dom m' = {[x]} ∪ dom m) as ->.
      { apply set_eq. intros q. rewrite elem_of_union, elem_of_singleton.
        rewrite !elem_of_dom. apply Hlive'. }
      rewrite size_union by (rewrite disjoint_singleton_l, elem_of_dom; done).
      rewrite size_singleton. lia.
    + destruct Hix as [Hnode Hslot]. constructor; simpl; rewrite Hpos'; simpl.
      * intros p u. destruct (Hsame p) as (_ & _ & _ & _ & _ & ->).
        rewrite (rdc_wrc _ _ _ _ _ Hpos).
        destruct (decide (p = x)) as [->|Hpx].
        -- rewrite Hnx. simpl. intros [= <-]. by rewrite decide_True.
        -- rewrite Hm0 by done. intros Hu. rewrite decide_False; [eauto|].
           intros ->. by eapply Hnew.
      * intros u p. rewrite (rdc_wrc _ _ _ _ _ Hpos).
        destruct (Hsame p) as (_ & _ & _ & _ & _ & ->).
        case_decide as Hu.
        -- intros [= <-]. subst u. by rewrite Hnx.
        -- intros Hp. assert (p ≠ x).
           { intros ->. apply Hx. eapply view_live. eauto. }
           rewrite Hm0 by done. eauto.
  - simpl. rewrite Hsz'. simpl. lia.
  - simpl. rewrite Hpos'. simpl. apply (wrc_length _ _ _ _ Hpos).
  - intros u Hu. simpl. rewrite Hpos'. simpl.
    rewrite (rdc_wrc _ _ _ _ _ Hpos). case_decide; [eauto|]. by destruct Hu.
  - done.
  - done.
  - destruct (Hsame x) as (_ & _ & _ & _ & _ & ->). by rewrite Hnx.
  - destruct (Hsame x) as (_ & _ & _ & -> & _). by rewrite Hnx.
  - intros q Hq. destruct (Hsame q) as (_ & _ & _ & -> & _ & ->).
    by rewrite Hm0.
Qed.

(** *** [cutFibonacciMinHeap] *)

(** The ancestors that remain once [x] has become a root. *)
Fixpoint cut_anc (x : ptr) (l : list ptr) : list ptr :=
  match l with
  | [] => []
  | a :: l => if decide (a = x) then [x] else a :: cut_anc x l
  end.

Lemma cut_anc_length x l : (length (cut_anc x l) ≤ length l)%nat.
Proof. induction l; simpl; [done|]. case_decide; simpl; lia. Qed.

(** The second half of [cutFibonacciMinHeap]: the cascade. *)
Definition cut_tail (fuel : nat) (m : mem) (heap : FibonacciMinHeap)
  (p : ptr) : option (mem * FibonacciMinHeap) :=
  np ← m !! p;
  if decide (parent np ≠ None) then
    if marked np then
      '(m, heap) ← cutFibonacciMinHeap fuel m heap p;
      m ← upd m p (set_marked false);
      Some (m, heap)
    else
      m ← upd m p (set_marked true);
      Some (m, heap)
  else Some (m, heap).

Lemma forest_anc_length m K A exo exd exk c p :
  forest m K A exo exd exk → fp m c = Some (Some p) →
  (length (A p) < length (A c))%nat.
Proof.
  intros Hf Hp. rewrite (forest_anc _ _ _ _ _ _ Hf c) by by eapply view_live.
  rewrite Hp. simpl. lia.
Qed.

Lemma forest_parent_ne m K A exo exd exk c p :
  forest m K A exo exd exk → fp m c = Some (Some p) → p ≠ c.
Proof.
  intros Hf Hp ->. pose proof (forest_anc_length _ _ _ _ _ _ _ _ Hf Hp). lia.
Qed.

(** Every live node sits below a root. *)
Lemma forest_has_root m K A exo exd exk q :
  forest m K A exo exd exk → live m q → ∃ r, fp m r = Some None.
Proof.
  intros Hf. remember (length (A q)) as k eqn:Hk. revert q Hk.
  induction k as [k IH] using lt_wf_ind. intros q -> Hq.
  destruct (fp m q) as [[p|]|] eqn:Hp.
  - eapply (IH (length (A p))); [by eapply forest_anc_length|done|].
    by eapply forest_parent.
  - eauto.
  - destruct Hq as [n Hn]. by rewrite Hn in Hp.
Qed.

Lemma lookup_app_skip (l1 l2 : list ptr) x j c :
  (l1 ++ l2) !! j = Some c →
  ∃ j', (j ≤ j')%nat ∧ (l1 ++ x :: l2) !! j' = Some c.
Proof.
  intros Hj. destruct (decide (j < length l1)%nat).
  - exists j. split; [done|]. rewrite lookup_app_l in Hj |- * by done. done.
  - exists (S j). split; [lia|]. rewrite lookup_app_r in Hj |- * by lia.
    by replace (S j - length l1)%nat with (S (j - length l1)) by lia.
Qed.

Lemma cut_detach fuel m heap R K A x p :
  forest m K A (Some x) (Some x) None →
  rooted m heap R → min_ok m R → sized m heap → indexed m heap →
  fp m x = Some (Some p) →
  ∃ m4 heap4 R' K',
    let A' := λ q, if decide (q = x) then [] else cut_anc x (A q) in
    cutFibonacciMinHeap (S fuel) m heap x = cut_tail fuel m4 heap4 p ∧
    forest m4 K' A' None (Some p) None ∧
    (∀ q j, K' q !! j = Some p →
       Z.of_nat j ≤ deg m4 p + 1 + (if mk m4 p then 1 else 0)) ∧
    rooted m4 heap4 R' ∧ min_ok m4 R' ∧ sized m4 heap4 ∧ indexed m4 heap4 ∧
    (∀ q, fw m4 q = fw m q ∧ fv m4 q = fv m q ∧ fm m4 q = fm m q) ∧
    (∀ q, fp m4 q = if decide (q = x) then Some None else fp m q) ∧
    positions heap4 = positions heap ∧ size heap4 = size heap.
Proof.
  intros Hf Hr Hmin Hsz Hix Hp.
  assert (p ≠ x) as Hpx by by eapply forest_parent_ne.
  assert (live m x) as Hlx by by eapply view_live.
  assert (live m p) as Hlp by by eapply forest_parent.
  assert (x ∈ K p) as Hin by by apply (forest_kids _ _ _ _ _ _ Hf).
  apply list_elem_of_split in Hin as (l1 & l2 & HK).
  pose proof (forest_nodup _ _ _ _ _ _ Hf p) as Hnd. rewrite HK in Hnd.
  pose proof (forest_ring _ _ _ _ _ _ Hf p) as Hring. rewrite HK in Hring.
  destruct (ring_middle _ _ _ _ Hring) as [Hflx Hfrx].
  set (lx := List.last l1 (List.last l2 x)) in *.
  set (rx := hd (hd x l1) l2) in *.
  pose proof (forest_count _ _ _ _ _ _ Hf p Hlp ltac:(done)) as Hk.
  pose proof (forest_child _ _ _ _ _ _ Hf p Hlp) as Hfcp.
  destruct (forest_has_root _ _ _ _ _ _ x Hf Hlx) as [r0 Hr0].
  apply (rooted_roots _ _ _ Hr) in Hr0.
  destruct R as [|h l]; [by apply elem_of_nil in Hr0|]. clear r0 Hr0.
  cbn [cutFibonacciMinHeap].
  read_step m x ne Hne.
  assert (parent ne = Some p) as Hpne by (rewrite Hne in Hp; by injection Hp).
  rewrite Hpne.
  upd_step m1 Hu1.
  read_step m1 x ne1 Hne1.
  assert (right_ ne1 = rx ∧ left_ ne1 = lx) as [Hrne1 Hlne1].
  { pose proof (view_Some right_ _ _ _ Hne1) as Hr1.
    pose proof (view_Some left_ _ _ _ Hne1) as Hl1.
    views_in Hu1 Hr1. views_in Hu1 Hl1.
    rewrite Hfrx in Hr1. rewrite Hflx in Hl1. by simplify_eq. }
  rewrite Hrne1, Hlne1.
  assert (l1 ++ l2 ≠ [] → rx ∈ l1 ++ l2 ∧ lx ∈ l1 ++ l2) as Hends.
  { intros Hne'. unfold rx, lx. split.
    - destruct l2 as [|b l2]; [|set_solver].
      destruct l1 as [|a l1]; [done|set_solver].
    - destruct l1 as [|a l1].
      + destruct l2 as [|b l2]; [done|].
        change (List.last (b :: l2) x ∈ b :: l2). by apply last_elem_of.
      + apply elem_of_app. left. by apply last_elem_of. }
  assert (l1 = [] → head (l1 ++ l2) = Some rx ∨ l2 = []) as Hhd.
  { intros ->. unfold rx. destruct l2; eauto. }
  assert (l1 ++ l2 = [] → rx = x) as Hsingle.
  { intros [-> ->]%app_eq_nil. done. }
  clearbody rx lx.
  assert (x ∉ l1 ++ l2) as Hxl.
  { apply NoDup_app in Hnd as (_ & Hd & [? _]%NoDup_cons).
    intros [?|?]%elem_of_app; [|done]. eapply Hd; [done|set_solver]. }
  assert (NoDup (l1 ++ l2)) as Hnd'.
  { apply NoDup_app in Hnd as (? & Hd & [_ ?]%NoDup_cons).
    apply NoDup_app. split_and!; [done| |done].
    intros q ? ?. eapply Hd; [done|set_solver]. }
  assert (∀ q, q ∈ l1 ++ l2 → live m q ∧ q ≠ p ∧ q ∉ h :: l) as Hsib.
  { intros q Hq. assert (q ∈ K p) as HqK by (rewrite HK; set_solver).
    split_and!.
    - by destruct (forest_kids_live _ _ _ _ _ _ q p Hf HqK).
    - intros ->. apply (forest_kids _ _ _ _ _ _ Hf) in HqK.
      by eapply forest_parent_ne.
    - by eapply forest_kids_not_root. }
  match goal with
  | |- context [?e ≫= (λ m0, insertFibonacciMinHeap m0 heap x ≫= _)] =>
      assert (∃ m3, e = Some m3 ∧
        (∀ q, fp m3 q = fp m q ∧ fw m3 q = fw m q ∧ fm m3 q = fm m q ∧
              fv m3 q = fv m q) ∧
        (∀ q, fc m3 q = if decide (q = p) then Some (head (l1 ++ l2))
                        else fc m q) ∧
        (∀ q, fk m3 q = if decide (q = p)
                        then Some (Z.of_nat (length (K p)) - 1)
                        else fk m q) ∧
        ring m3 (l1 ++ l2) ∧
        (∀ q, q ∉ l1 ++ l2 → fl m3 q = fl m q ∧ fr m3 q = fr m q))
        as (m3 & -> & Hpay3 & Hfc3 & Hfk3 & Hring3 & Hout3)
  end.
  { case_decide as Hrx.
    - (* the only child *)
      assert (l1 ++ l2 = []) as Hnil.
      { destruct (decide (l1 ++ l2 = [])) as [|Hnn]; [done|].
        destruct (Hends Hnn) as [Hin _]. rewrite Hrx in Hin. done. }
      upd_step m2 Hu2. exists m2. split; [done|]. rewrite Hnil. split_and!.
      + intros q. split_and!; views Hu2; views Hu1; done.
      + intros q. views Hu2. views Hu1. done.
      + intros q. views Hu2. views Hu1. case_decide as Hq; [|done]. subst q.
        by rewrite Hk.
      + done.
      + intros q _. split; views Hu2; views Hu1; done.
    - assert (l1 ++ l2 ≠ []) as Hnn.
      { intros Hnil. by apply Hrx, Hsingle. }
      destruct (Hends Hnn) as [Hrin Hlin].
      destruct (Hsib _ Hrin) as (Hrl & Hrp & HrR).
      destruct (Hsib _ Hlin) as (Hll & Hlp' & HlR).
      upd_step m2 Hu2. read_step m2 x ne2 Hne2.
      assert (right_ ne2 = rx ∧ left_ ne2 = lx) as [-> ->].
      { pose proof (view_Some right_ _ _ _ Hne2) as Hr2.
        pose proof (view_Some left_ _ _ _ Hne2) as Hl2.
        views_in Hu2 Hr2. views_in Hu2 Hl2. views_in Hu1 Hr2. views_in Hu1 Hl2.
        rewrite decide_False in Hl2 by (intros ->; done).
        rewrite Hfrx in Hr2. rewrite Hflx in Hl2. by simplify_eq. }
      upd_step m3 Hu3. read_step m3 p np Hnp.
      assert (child np = head (l1 ++ x :: l2)) as ->.
      { pose proof (view_Some child _ _ _ Hnp) as Hc3.
        views_in Hu3 Hc3. views_in Hu2 Hc3. views_in Hu1 Hc3.
        rewrite Hfcp, HK in Hc3. by simplify_eq. }
      assert (∀ m', (∀ q, fl m' q = fl m3 q ∧ fr m' q = fr m3 q) →
                ring m' (l1 ++ l2) ∧
                ∀ q, q ∉ l1 ++ l2 → fl m' q = fl m q ∧ fr m' q = fr m q)
        as Hlinks.
      { intros m' Hm'. split.
        - apply (ring_remove m m' l1 x l2 lx rx); try done.
          + intros q Hq. destruct (Hm' q) as [-> _].
            views Hu3. views Hu2. views Hu1. done.
          + intros q Hq. destruct (Hm' q) as [_ ->].
            views Hu3. views Hu2. views Hu1. done.
        - intros q Hq. destruct (Hm' q) as [-> ->].
          views Hu3. views Hu2. views Hu1.
          rewrite !decide_False; [done|..]; intros ->; done. }
      case_decide as Hhead.
      + destruct l1 as [|a l1]; [|exfalso; simpl in Hhead; simplify_eq; set_solver].
        simpl in *. read_step m3 x ne3 Hne3.
        assert (right_ ne3 = rx) as ->.
        { pose proof (view_Some right_ _ _ _ Hne3) as Hr3.
          views_in Hu3 Hr3. views_in Hu2 Hr3. views_in Hu1 Hr3.
          rewrite decide_False in Hr3 by (intros ->; done).
          rewrite Hfrx in Hr3. by simplify_eq. }
        upd_step m4 Hu4. exists m4. split; [done|].
        destruct (Hlinks m4) as [? ?].
        { intros q. split; views Hu4; done. }
        split_and!; try done.
        * intros q. split_and!; views Hu4; views Hu3; views Hu2; views Hu1; done.
        * intros q. views Hu4. views Hu3. views Hu2. views Hu1.
          case_decide as Hq; [|done].
          destruct Hhd as [Hh|Hh]; [done|by rewrite Hh|by subst l2].
        * intros q. views Hu4. views Hu3. views Hu2. views Hu1.
          case_decide as Hq; [|done]. subst q. by rewrite Hk.
      + exists m3. split; [done|]. destruct (Hlinks m3) as [? ?]; [done|].
        split_and!; try done.
        * intros q. split_and!; views Hu3; views Hu2; views Hu1; done.
        * intros q. views Hu3. views Hu2. views Hu1.
          case_decide as Hq; [|done]. subst q. rewrite Hfcp, HK.
          destruct l1 as [|a l1]; [done|done].
        * intros q. views Hu3. views Hu2. views Hu1.
          case_decide as Hq; [|done]. subst q. by rewrite Hk. }
  cbn [mbind option_bind].
  assert (∀ q, live m3 q ↔ live m q) as Hlive3.
  { intros q. destruct (Hpay3 q) as (Hq & _). unfold live.
    destruct (m3 !! q), (m !! q); simpl in Hq; try done; split; eauto.
    all: by intros [? ?]. }
  assert (x ∉ h :: l) as HxR.
  { intros Hin. apply (rooted_roots _ _ _ Hr) in Hin. congruence. }
  destruct (insertFibonacciMinHeap_spec m3 heap (h :: l) x)
    as (m4 & heap4 & R' & -> & Hsz4 & Hpos4 & Hmin4 & HR' & Hring4 & Hsame4
        & Hout4 & Hmo4).
  { eapply ring_frame; [apply Hr|]. intros q Hq. apply Hout3.
    intros Hq'. by destruct (Hsib _ Hq') as (_ & _ & ?). }
  { apply Hr. }
  { done. }
  { by apply Hlive3. }
  { apply Hr. }
  { intros r Hin. apply Hlive3. by eapply rooted_live. }
  { done. }
  cbn [mbind option_bind].
  assert (live m4 x) as Hlx4 by by apply (same_payload_live m3 m4), Hlive3.
  upd_step m5 Hu5.
  set (K' := λ q, if decide (q = p) then l1 ++ l2 else K q).
  exists m5, heap4, R', K'. cbv zeta.
  set (A' := λ q, if decide (q = x) then [] else cut_anc x (A q)).
  assert (∀ q, fp m5 q = if decide (q = x) then Some None else fp m q) as Hfp5.
  { intros q. views Hu5. destruct (Hsame4 q) as (-> & _).
    by destruct (Hpay3 q) as (-> & _). }
  assert (∀ q, fw m5 q = fw m q ∧ fv m5 q = fv m q ∧ fm m5 q = fm m q) as Hpay5.
  { intros q. destruct (Hsame4 q) as (_ & _ & _ & Hw & Hm & Hv).
    destruct (Hpay3 q) as (_ & Hw3 & Hm3 & Hv3).
    split_and!; views Hu5; congruence. }
  assert (∀ q, fc m5 q = if decide (q = p) then Some (head (l1 ++ l2))
                         else fc m q) as Hfc5.
  { intros q. views Hu5. destruct (Hsame4 q) as (_ & -> & _). apply Hfc3. }
  assert (∀ q, fk m5 q = if decide (q = p)
                         then Some (Z.of_nat (length (K p)) - 1)
                         else fk m q) as Hfk5.
  { intros q. views Hu5. destruct (Hsame4 q) as (_ & _ & -> & _). apply Hfk3. }
  assert (∀ q, q ∉ x :: h :: l → fl m5 q = fl m3 q ∧ fr m5 q = fr m3 q)
    as Hlk5.
  { intros q Hq. destruct (Hout4 q Hq) as [<- <-]. split; views Hu5; done. }
  assert (∀ q, live m5 q ↔ live m q) as Hlive5.
  { intros q. destruct (Hpay5 q) as (Hq & _). unfold live.
    destruct (m5 !! q), (m !! q); simpl in Hq; try done; split; eauto.
    all: by intros [? ?]. }
  assert (∀ q, wt m5 q = wt m q) as Hwt5.
  { intros q. unfold wt. by destruct (Hpay5 q) as (-> & _). }
  assert (∀ q, mk m5 q = mk m q) as Hmk5.
  { intros q. unfold mk. by destruct (Hpay5 q) as (_ & _ & ->). }
  assert (∀ q, deg m5 q = if decide (q = p) then deg m p - 1 else deg m q)
    as Hdeg5.
  { intros q. unfold deg. rewrite Hfk5. case_decide; [|done]. subst q.
    by rewrite Hk. }
  assert (∀ c q, c ∈ K' q ↔ c ≠ x ∧ c ∈ K q) as HK'.
  { intros c q. unfold K'. case_decide as Hq.
    - subst q. rewrite HK. set_solver.
    - split; [|naive_solver]. intros Hcq. split; [|done]. intros ->.
      apply Hq. apply (forest_kids _ _ _ _ _ _ Hf) in Hcq. congruence. }
  split; [done|]. split_and!.
  - constructor.
    + intros q Hq%Hlive5. rewrite Hfc5. unfold K'. case_decide; [done|].
      by apply (forest_child _ _ _ _ _ _ Hf).
    + intros q Hq%Hlive5 _. rewrite Hfk5. unfold K'. case_decide as Hqp.
      * subst q. rewrite HK, !length_app. simpl. f_equal. lia.
      * by apply (forest_count _ _ _ _ _ _ Hf).
    + intros q. unfold K'. case_decide; [done|]. apply Hf.
    + intros q. unfold K'. case_decide as Hqp.
      * eapply ring_frame; [done|]. intros c Hc. apply Hlk5.
        intros [->|Hin]%elem_of_cons; [done|].
        by destruct (Hsib _ Hc) as (_ & _ & ?).
      * eapply ring_frame; [apply (forest_ring _ _ _ _ _ _ Hf q)|].
        intros c Hc.
        assert (c ∉ l1 ++ l2) as Hc1.
        { intros Hc'. apply Hqp.
          assert (c ∈ K p) as Hc2 by (rewrite HK; set_solver).
          apply (forest_kids _ _ _ _ _ _ Hf) in Hc, Hc2. congruence. }
        assert (c ∉ x :: h :: l) as Hc2.
        { intros [->|Hin]%elem_of_cons.
          - apply Hqp. apply (forest_kids _ _ _ _ _ _ Hf) in Hc. congruence.
          - by eapply (forest_kids_not_root m heap (h :: l)). }
        destruct (Hlk5 c Hc2) as [-> ->]. by apply Hout3.
    + intros q Hq%Hlive5. unfold A'. rewrite Hfp5.
      case_decide as Hqx; [done|].
      rewrite (forest_anc _ _ _ _ _ _ Hf q Hq).
      destruct (fp m q) as [[r|]|]; [|done..]. simpl.
      case_decide as Hrx; [by subst|done].
    + intros c q. rewrite HK', Hfp5. case_decide as Hcx; [naive_solver|].
      rewrite (forest_kids _ _ _ _ _ _ Hf). naive_solver.
    + intros c q. rewrite Hfp5. case_decide; [done|].
      intros ?%(forest_parent _ _ _ _ _ _ Hf). by apply Hlive5.
    + intros c q [Hcx Hc]%HK' _. rewrite !Hwt5.
      apply (forest_order _ _ _ _ _ _ Hf); [done|congruence].
    + intros q j c Hj Hcp. rewrite Hdeg5, Hmk5.
      rewrite decide_False by congruence.
      assert (c ≠ x) as Hcx.
      { intros ->. by apply list_elem_of_lookup_2, HK' in Hj as [? _]. }
      unfold K' in Hj. case_decide as Hqp.
      * subst q. destruct (lookup_app_skip l1 l2 x j c Hj) as (j' & Hjj & Hj').
        rewrite <-HK in Hj'.
        pose proof (forest_degree _ _ _ _ _ _ Hf p j' c Hj' ltac:(congruence)).
        lia.
      * apply (forest_degree _ _ _ _ _ _ Hf q); [done|congruence].
  - intros q j Hj. rewrite Hdeg5, Hmk5, decide_True by done.
    assert (q ≠ p) as Hqp.
    { intros ->. apply list_elem_of_lookup_2, HK' in Hj as [_ Hj].
      apply (forest_kids _ _ _ _ _ _ Hf) in Hj.
      by eapply forest_parent_ne. }
    unfold K' in Hj. rewrite decide_False in Hj by done.
    pose proof (forest_degree _ _ _ _ _ _ Hf q j p Hj ltac:(congruence)).
    lia.
  - constructor.
    + intros r. rewrite HR', elem_of_cons, Hfp5.
      rewrite (rooted_roots _ _ _ Hr). case_decide; naive_solver.
    + rewrite HR'. constructor; [done|apply Hr].
    + eapply ring_frame; [done|]. intros q _. split; views Hu5; done.
    + done.
  - assert (min_ok m4 R') as Hmo.
    { apply Hmo4. intros r Hin. unfold wt.
      destruct (Hpay3 r) as (_ & -> & _).
      destruct (Hpay3 (hd r (h :: l))) as (_ & -> & _). by apply Hmin. }
    intros r Hin. unfold wt.
    rewrite !(upd_same weight _ _ _ _ Hu5) by done. by apply Hmo.
  - unfold sized in *. rewrite Hsz4, Hsz. do 2 f_equal. apply set_eq.
    intros q. rewrite !elem_of_dom. symmetry. apply Hlive5.
  - destruct Hix as [Hnode Hslot]. constructor; rewrite Hpos4.
    + intros q v. destruct (Hpay5 q) as (_ & -> & _). apply Hnode.
    + intros v q. destruct (Hpay5 q) as (_ & -> & _). apply Hslot.
  - done.
  - done.
  - done.
  - done.
Qed.

Lemma forest_weaken m K A exo exd exk exo' exd' :
  forest m K A exo exd exk →
  (exo = None ∨ exo = exo') → (exd = None ∨ exd = exd') →
  forest m K A exo' exd' exk.
Proof.
  intros [] Ho Hd. constructor; try done.
  - intros c p Hc Hne. apply forest_order0; [done|]. by destruct Ho as [->| ->].
  - intros p j c Hj Hne. eapply forest_degree0; [done|].
    by destruct Hd as [->| ->].
Qed.

(** Marking or unmarking the node whose degree bound is waived. *)
Lemma forest_set_marked m m' K A p b exo exk :
  forest m K A exo (Some p) exk →
  upd m p (set_marked b) = Some m' →
  (∀ q j, K q !! j = Some p →
          Z.of_nat j ≤ deg m p + (if b then 1 else 0)) →
  forest m' K A exo None exk.
Proof.
  intros [] Hu Hslack.
  assert (∀ q, live m' q ↔ live m q) as Hlive
    by (intros q; apply (upd_dom _ _ _ _ _ Hu)).
  constructor.
  - intros q Hq%Hlive. views Hu. eauto.
  - intros q Hq%Hlive ?. views Hu. eauto.
  - done.
  - intros q. eapply ring_frame; [done|]. intros c _. split; views Hu; done.
  - intros q Hq%Hlive. views Hu. eauto.
  - intros c q. views Hu. eauto.
  - intros c q. views Hu. intros ?%forest_parent0. by apply Hlive.
  - intros c q Hc Hne. unfold wt. views Hu. by apply forest_order0.
  - intros q j c Hj _. unfold deg, mk. views Hu.
    case_decide as Hc; [subst c|].
    + simpl. by apply (Hslack q).
    + eapply forest_degree0; [done|congruence].
Qed.

Lemma forest_exempt_root m K A p exo exk :
  forest m K A exo (Some p) exk → (∀ q, p ∉ K q) →
  forest m K A exo None exk.
Proof.
  intros [] Hp. constructor; try done.
  intros q j c Hj _. eapply forest_degree0; [done|].
  intros [= <-]. eapply Hp. by eapply list_elem_of_lookup_2.
Qed.

Lemma heap_frame_marked m m' heap R p b :
  upd m p (set_marked b) = Some m' →
  rooted m heap R → min_ok m R → sized m heap → indexed m heap →
  rooted m' heap R ∧ min_ok m' R ∧ sized m' heap ∧ indexed m' heap.
Proof.
  intros Hu [] Hmin Hsz []. split_and!.
  - constructor; try done.
    + intros r. views Hu. eauto.
    + eapply ring_frame; [done|]. intros c _. split; views Hu; done.
  - intros r Hr. unfold wt. views Hu. by apply Hmin.
  - unfold sized in *. rewrite Hsz. do 2 f_equal. apply set_eq. intros q.
    rewrite !elem_of_dom. symmetry. apply (upd_dom _ _ _ _ _ Hu).
  - constructor.
    + intros q v. views Hu. eauto.
    + intros v q. views Hu. eauto.
Qed.

Lemma cutFibonacciMinHeap_spec fuel : ∀ m heap R K A x p,
  forest m K A (Some x) (Some x) None →
  rooted m heap R → min_ok m R → sized m heap → indexed m heap →
  fp m x = Some (Some p) → (length (A x) ≤ fuel)%nat →
  ∃ m' heap' R' K' A',
    cutFibonacciMinHeap fuel m heap x = Some (m', heap') ∧
    heap_inv m' heap' R' K' A' ∧
    (∀ q, fw m' q = fw m q ∧ fv m' q = fv m q) ∧
    (∀ q, fp m q = Some None → fp m' q = Some None) ∧
    fp m' x = Some None ∧
    positions heap' = positions heap ∧ size heap' = size heap.
Proof.
  induction fuel as [|fuel IH]; intros m heap R K A x p Hf Hr Hmin Hsz Hix Hp Hfuel.
  { pose proof (forest_anc_length _ _ _ _ _ _ _ _ Hf Hp). lia. }
  destruct (cut_detach fuel m heap R K A x p)
    as (m4 & heap4 & R' & K' & Heq & Hf4 & Hslack & Hr4 & Hmin4 & Hsz4 & Hix4
        & Hpay & Hfp4 & Hpos & Hsize); [done..|].
  cbv zeta in Heq, Hf4. rewrite Heq.
  set (A' := λ q, if decide (q = x) then [] else cut_anc x (A q)) in *.
  assert (p ≠ x) as Hpx by apply (forest_parent_ne _ _ _ _ _ _ _ _ Hf Hp).
  assert (live m p) as Hlp0 by apply (forest_parent _ _ _ _ _ _ Hf _ _ Hp).
  assert (fp m4 x = Some None) as Hx4 by by rewrite Hfp4, decide_True.
  assert (∀ q, fp m q = Some None → fp m4 q = Some None) as Hroots4.
  { intros q Hq. rewrite Hfp4. by case_decide. }
  assert (live m4 p) as Hlp.
  { destruct Hlp0 as [n Hn]. apply (view_live parent _ _ (parent n)).
    rewrite Hfp4, decide_False by done. by rewrite Hn. }
  unfold cut_tail. read_step m4 p np Hnp.
  pose proof (view_Some parent _ _ _ Hnp) as Hpnp.
  pose proof (view_Some marked _ _ _ Hnp) as Hmnp.
  case_decide as Hroot.
  - destruct (parent np) as [pp|] eqn:Hppp; [|done].
    destruct (marked np) eqn:Hmarked.
    + (* the parent is marked: cascade *)
      destruct (IH m4 heap4 R' K' A' p pp)
        as (m6 & heap6 & R6 & K6 & A6 & -> & [Hf6 Hr6 Hmin6 Hsz6 Hix6] & Hpay6
            & Hroots6 & Hp6 & Hpos6 & Hsize6); try done.
      { eapply forest_weaken; [done|by left|by right]. }
      { unfold A'. rewrite decide_False by done.
        pose proof (cut_anc_length x (A p)).
        pose proof (forest_anc_length _ _ _ _ _ _ _ _ Hf Hp). lia. }
      cbn [mbind option_bind].
      assert (live m6 p) as Hlp6 by by eapply view_live.
      upd_step m7 Hu7.
      destruct (heap_frame_marked _ _ _ _ _ _ Hu7 Hr6 Hmin6 Hsz6 Hix6)
        as (? & ? & ? & ?).
      exists m7, heap6, R6, K6, A6. split; [done|]. split_and!.
      * constructor; try done.
        eapply (forest_set_marked m6); [|done|].
        -- eapply forest_weaken; [done|by left|by left].
        -- intros q j Hj. apply list_elem_of_lookup_2 in Hj.
           apply (forest_kids _ _ _ _ _ _ Hf6) in Hj. congruence.
      * intros q. destruct (Hpay6 q) as [Hw6 Hv6], (Hpay q) as (Hw4 & Hv4 & _).
        split; views Hu7; congruence.
      * intros q Hq. views Hu7. eauto.
      * views Hu7. eauto.
      * congruence.
      * congruence.
    + (* the parent is not marked: mark it *)
      upd_step m5 Hu5.
      destruct (heap_frame_marked _ _ _ _ _ _ Hu5 Hr4 Hmin4 Hsz4 Hix4)
        as (? & ? & ? & ?).
      exists m5, heap4, R', K', A'. split; [done|]. split_and!.
      * constructor; try done.
        eapply (forest_set_marked m4); [done|done|].
        intros q j Hj. specialize (Hslack q j Hj). unfold mk in Hslack.
        rewrite Hmnp in Hslack. simpl in Hslack. lia.
      * intros q. destruct (Hpay q) as (Hw4 & Hv4 & _).
        split; views Hu5; done.
      * intros q Hq. views Hu5. eauto.
      * by views Hu5.
      * done.
      * done.
  - (* the parent is a root *)
    assert (parent np = None) as Hnone by by destruct (parent np).
    rewrite Hnone in Hpnp.
    exists m4, heap4, R', K', A'. split; [done|]. split_and!; try done.
    + constructor; try done. eapply forest_exempt_root; [done|].
      intros q Hq. apply (forest_kids _ _ _ _ _ _ Hf4) in Hq. congruence.
    + intros q. by destruct (Hpay q) as (? & ? & _).
Qed.

(** *** Ancestor chains *)

Lemma forest_anc_shorter m K A exo exd exk : ∀ q a,
  forest m K A exo exd exk → live m q → a ∈ A q →
  live m a ∧ (length (A a) < length (A q))%nat.
Proof.
  intros q a Hf. remember (length (A q)) as k eqn:Hk. revert q Hk.
  induction k as [k IH] using lt_wf_ind. intros q -> Hq Ha.
  rewrite (forest_anc _ _ _ _ _ _ Hf q Hq) in Ha.
  destruct (fp m q) as [[p|]|] eqn:Hp; [|by apply elem_of_nil in Ha..].
  pose proof (forest_anc_length _ _ _ _ _ _ _ _ Hf Hp) as Hlen.
  pose proof (forest_parent _ _ _ _ _ _ Hf _ _ Hp) as Hlp.
  apply elem_of_cons in Ha as [->|Ha]; [done|].
  destruct (IH (length (A p)) Hlen p eq_refl Hlp Ha). split; [done|lia].
Qed.

Lemma forest_anc_nodup m K A exo exd exk : ∀ q,
  forest m K A exo exd exk → live m q → NoDup (q :: A q).
Proof.
  intros q Hf. remember (length (A q)) as k eqn:Hk. revert q Hk.
  induction k as [k IH] using lt_wf_ind. intros q -> Hq.
  apply NoDup_cons. split.
  - intros Ha. destruct (forest_anc_shorter _ _ _ _ _ _ _ _ Hf Hq Ha). lia.
  - rewrite (forest_anc _ _ _ _ _ _ Hf q Hq).
    destruct (fp m q) as [[p|]|] eqn:Hp; [|constructor..].
    eapply IH; [by eapply forest_anc_length|done|by eapply forest_parent].
Qed.

Lemma forest_anc_bound m K A exo exd exk q :
  forest m K A exo exd exk → live m q →
  (length (A q) < base.size (dom m))%nat.
Proof.
  intros Hf Hq.
  assert (length (q :: A q) ≤ base.size (dom m))%nat; [|simpl in *; lia].
  change (base.size (dom m)) with (length (elements (dom m))).
  apply submseteq_length.
  apply NoDup_submseteq; [by eapply forest_anc_nodup|].
  intros a Ha. apply elem_of_elements, elem_of_dom.
  apply elem_of_cons in Ha as [->|Ha]; [done|].
  by destruct (forest_anc_shorter _ _ _ _ _ _ _ _ Hf Hq Ha).
Qed.

(** *** [decreaseFibonacciMinHeap] *)

Lemma decreaseFibonacciMinHeap_spec fuel m heap R K A v via_ w :
  heap_inv m heap R K A →
  is_Some (rdc (positions heap) v) →
  size heap ≤ Z.of_nat fuel →
  ∃ m' heap' R' K' A',
    decreaseFibonacciMinHeap fuel m heap v via_ w = Some (m', heap') ∧
    heap_inv m' heap' R' K' A' ∧
    (∀ q, fv m' q = fv m q) ∧
    positions heap' = positions heap ∧ size heap' = size heap ∧
    (∀ q, wt m' q = if decide (fv m q = Some v) then Z.min w (wt m q)
                    else wt m q).
Proof.
  intros Hinv [ox Hox] Hfuel. pose proof Hinv as [Hf Hr Hmin Hsz Hix].
  unfold decreaseFibonacciMinHeap. rewrite Hox. cbn [mbind option_bind].
  destruct ox as [x|].
  2:{ exists m, heap, R, K, A. split_and!; try done.
      intros q. rewrite decide_False; [done|]. intros Hq.
      apply (indexed_node _ _ Hix) in Hq. congruence. }
  pose proof (indexed_slot _ _ Hix _ _ Hox) as Hvx.
  assert (live m x) as Hlx by by eapply view_live.
  assert (∀ q, fv m q = Some v ↔ q = x) as Hlabel.
  { intros q. split; [|by intros ->]. intros Hq.
    apply (indexed_node _ _ Hix) in Hq. congruence. }
  read_step m x ne Hne.
  case_decide as Hgt.
  2:{ exists m, heap, R, K, A. split_and!; try done.
      intros q. case_decide as Hq; [|done]. apply Hlabel in Hq as ->.
      rewrite (wt_Some _ _ _ Hne). lia. }
  assert (∀ m', (∀ q, fw m' q = if decide (q = x) then Some w else fw m q) →
            ∀ q, wt m' q = if decide (fv m q = Some v) then Z.min w (wt m q)
                           else wt m q) as Hweights.
  { intros m' Hm' q. unfold wt at 1. rewrite Hm'.
    destruct (decide (q = x)) as [->|Hqx].
    - rewrite decide_True by done. rewrite (wt_Some _ _ _ Hne). simpl. lia.
    - rewrite decide_False; [done|]. by rewrite Hlabel. }
  upd_step m1 Hu1. upd_step m2 Hu2.
  assert (∀ q, fw m2 q = if decide (q = x) then Some w else fw m q) as Hfw.
  { intros q. views Hu2. views Hu1. done. }
  assert (∀ q, wt m2 q = if decide (q = x) then w else wt m q) as Hwt.
  { intros q. unfold wt. rewrite Hfw. by case_decide. }
  assert (wt m x = weight ne) as Hwx by by apply wt_Some.
  assert (∀ q, live m2 q ↔ live m q) as Hlive.
  { intros q. unfold live. rewrite (upd_dom _ _ _ _ _ Hu2).
    apply (upd_dom _ _ _ _ _ Hu1). }
  assert (∀ exo, forest m2 K A exo exo None ↔
                 forest m2 K A exo exo None) as _ by done.
  assert (∀ exo, (∀ p, x ∈ K p → exo ≠ Some x → wt m p ≤ w) →
                 forest m2 K A exo exo None) as Hf2.
  { intros exo Hpar. destruct Hf. constructor.
    - intros q Hq%Hlive. views Hu2. views Hu1. eauto.
    - intros q Hq%Hlive ?. views Hu2. views Hu1. eauto.
    - done.
    - intros q. eapply ring_frame; [done|]. intros c _.
      split; views Hu2; views Hu1; done.
    - intros q Hq%Hlive. views Hu2. views Hu1. eauto.
    - intros c q. views Hu2. views Hu1. eauto.
    - intros c q. views Hu2. views Hu1. intros ?%forest_parent0.
      by apply Hlive.
    - intros c q Hc Hne'. rewrite !Hwt.
      specialize (forest_order0 c q Hc ltac:(done)).
      destruct (decide (c = x)) as [->|Hcx].
      + rewrite decide_False.
        * by apply Hpar.
        * intros ->. apply forest_kids0 in Hc.
          by apply (forest_parent_ne m K A None None None x x (inv_forest _ _ _ _ _ Hinv)).
      + case_decide; [subst q; lia|done].
    - intros q j c Hj _. unfold deg, mk. views Hu2. views Hu1.
      by eapply forest_degree0. }
  assert (indexed m2 heap ∧ sized m2 heap) as [Hix2 Hsz2].
  { split.
    - destruct Hix. constructor.
      + intros q u. views Hu2. views Hu1. eauto.
      + intros u q. views Hu2. views Hu1. eauto.
    - unfold sized in *. rewrite Hsz. do 2 f_equal. apply set_eq. intros q.
      rewrite !elem_of_dom. symmetry. apply Hlive. }
  assert (∀ q, fv m2 q = fv m q) as Hfv by (intros q; views Hu2; by views Hu1).
  assert (∀ q, fp m2 q = fp m q) as Hfp by (intros q; views Hu2; by views Hu1).
  assert (∀ R', R' ≡ₚ R → ring m R' → ring m2 R') as Hring2.
  { intros R' _ HR'. eapply ring_frame; [done|]. intros c _.
    split; views Hu2; views Hu1; done. }
  read_step m2 x ne2 Hne2.
  pose proof (view_Some parent _ _ _ Hne2) as Hpx. rewrite Hfp in Hpx.
  pose proof (view_Some weight _ _ _ Hne2) as Hwx2.
  rewrite Hfw, decide_True in Hwx2 by done. injection Hwx2 as Hwx2.
  destruct (parent ne2) as [p|] eqn:Hpar.
  - (* not a root *)
    assert (live m2 p) as Hlp.
    { apply Hlive. by eapply forest_parent. }
    read_step m2 p np Hnp.
    assert (p ≠ x) as Hpx' by by eapply forest_parent_ne.
    assert (weight np = wt m p) as ->.
    { rewrite <-(wt_Some _ _ _ Hnp), Hwt. by rewrite decide_False. }
    assert (x ∉ R) as HxR.
    { intros Hin. apply (rooted_roots _ _ _ Hr) in Hin. congruence. }
    assert (rooted m2 heap R ∧ min_ok m2 R) as [Hr2 Hmin2].
    { split.
      - destruct Hr. constructor; try done.
        + intros r. rewrite Hfp. eauto.
        + by apply Hring2.
      - intros r Hin. rewrite !Hwt, !decide_False; [by apply Hmin|..].
        + intros ->. done.
        + intros Heq. apply HxR. rewrite <-Heq.
          destruct R; [by apply elem_of_nil in Hin|]. simpl. set_solver. }
    case_decide as Hlt.
    + destruct (cutFibonacciMinHeap_spec fuel m2 heap R K A x p)
        as (m' & heap' & R' & K' & A' & -> & Hinv' & Hpay' & _ & _ & Hpos' & Hsize');
        try done.
      { apply Hf2. intros ? ? ?. done. }
      { by rewrite Hfp. }
      { pose proof (forest_anc_bound _ _ _ _ _ _ x Hf Hlx).
        unfold sized in Hsz. lia. }
      exists m', heap', R', K', A'. split_and!; try done.
      * intros q. destruct (Hpay' q) as [_ ->]. apply Hfv.
      * apply Hweights. intros q. destruct (Hpay' q) as [-> _]. apply Hfw.
    + exists m2, heap, R, K, A.
      split_and!; try done; try (by apply Hweights).
      constructor; try done. apply Hf2. intros p' Hin _.
      apply (forest_kids _ _ _ _ _ _ Hf) in Hin. rewrite Hin in Hpx.
      simplify_eq. lia.
  - (* a root *)
    assert (x ∈ R) as HxR by by apply (rooted_roots _ _ _ Hr).
    assert (forest m2 K A None None None) as Hf2'.
    { apply Hf2. intros p' Hin _.
      apply (forest_kids _ _ _ _ _ _ Hf) in Hin. congruence. }
    destruct R as [|h l]; [by apply elem_of_nil in HxR|].
    rewrite (rooted_minimum _ _ _ Hr). cbn [head mbind option_bind].
    assert (live m2 h) as Hlh.
    { apply Hlive. eapply rooted_live; [done|]. set_solver. }
    read_step m2 h nmin Hnmin.
    rewrite <-(wt_Some _ _ _ Hnmin), Hwt. rewrite Hwx2.
    pose proof (proj1 (min_ok_cons _ _ _) Hmin) as Hmin'.
    case_decide as Hlt.
    + (* the new minimum *)
      assert (x ≠ h) as Hxh by (intros ->; rewrite decide_True in Hlt by done; lia).
      rewrite decide_False in Hlt by done.
      apply elem_of_cons in HxR as [?|HxR]; [done|].
      apply list_elem_of_split in HxR as (l1 & l2 & ->).
      exists m2, (with_minimum heap (Some x)), (x :: l2 ++ h :: l1), K, A.
      split_and!; try done; try (rewrite <-Hwx2; by apply Hweights).
      constructor; try done.
      * destruct Hr. constructor; simpl; try done.
        -- intros r. rewrite Hfp, <-rooted_roots0. set_solver.
        -- eapply NoDup_Permutation_proper; [|done].
           rewrite (app_comm_cons l1), (app_comm_cons l2).
           apply Permutation_app_comm.
        -- apply (ring_rotate m2 (h :: l1) (x :: l2)). by apply Hring2.
      * apply min_ok_cons. intros r Hin. rewrite !Hwt, decide_True by done.
        case_decide; [lia|].
        assert (r ∈ l1 ++ x :: l2 ∨ r = h) as [Hr'| ->] by set_solver.
        -- specialize (Hmin' r Hr'). lia.
        -- lia.
      * destruct Hix2. by constructor.
    + exists m2, heap, (h :: l), K, A.
      split_and!; try done; try (rewrite <-Hwx2; by apply Hweights).
      constructor; try done.
      * destruct Hr. constructor; try done.
        -- intros r. rewrite Hfp. eauto.
        -- by apply Hring2.
      * apply min_ok_cons. intros r Hin. rewrite !Hwt.
        specialize (Hmin' r Hin).
        repeat case_decide; subst; lia.
Qed.

(** *** [popFibonacciMinHeap]: moving the children of the minimum *)

Lemma view_eq_live {X} (π : FibonacciHeapElement → X) (m m' : mem) q :
  π <$> (m' !! q) = π <$> (m !! q) → live m' q ↔ live m q.
Proof.
  unfold live. destruct (m' !! q), (m !! q); simpl; try done.
  all: intros _; split; intros [? ?]; done || eauto.
Qed.

Lemma pop_child_spec m heap h l K A c cs i :
  forest m K A None None (Some h) →
  rooted m heap (h :: l) →
  K h = c :: cs →
  ∃ m',
    let K' := λ q, if decide (q = h) then cs else K q in
    let A' := λ q, if decide (q = c) then [] else cut_anc c (A q) in
    pop_child h i m = Some m' ∧
    forest m' K' A' None None (Some h) ∧
    rooted m' heap (h :: l ++ [c]) ∧
    (∀ q, fw m' q = fw m q ∧ fv m' q = fv m q ∧ fk m' q = fk m q).
Proof.
  intros Hf Hr HK.
  assert (live m h) as Hlh by (eapply rooted_live; [done|set_solver]).
  assert (c ∈ K h) as Hc by (rewrite HK; set_solver).
  destruct (forest_kids_live _ _ _ _ _ _ _ _ Hf Hc) as [Hlc _].
  assert (fp m c = Some (Some h)) as Hpc by by apply (forest_kids _ _ _ _ _ _ Hf).
  assert (c ≠ h) as Hch by (intros ->; by eapply forest_parent_ne).
  pose proof (forest_nodup _ _ _ _ _ _ Hf h) as Hnd. rewrite HK in Hnd.
  pose proof (forest_ring _ _ _ _ _ _ Hf h) as Hring. rewrite HK in Hring.
  destruct (ring_head _ _ _ Hring) as [Hflc Hfrc].
  pose proof (forest_child _ _ _ _ _ _ Hf h Hlh) as Hfch. rewrite HK in Hfch.
  destruct (ring_head _ _ _ (rooted_ring _ _ _ Hr)) as [Hflh Hfrh].
  remember (List.last l h) as e eqn:Hedef.
  assert (e ∈ h :: l) as He.
  { rewrite Hedef. destruct l; [set_solver|]. apply elem_of_cons. right.
    by apply last_elem_of. }
  assert (∀ q, q ∈ h :: l → live m q ∧ q ≠ c ∧ q ∉ cs) as Hroot.
  { intros q Hq. split_and!.
    - by eapply rooted_live.
    - intros ->. apply (rooted_roots _ _ _ Hr) in Hq. congruence.
    - intros Hq'. apply (rooted_roots _ _ _ Hr) in Hq.
      assert (q ∈ K h) as Hq'' by (rewrite HK; set_solver).
      apply (forest_kids _ _ _ _ _ _ Hf) in Hq''. congruence. }
  assert (∀ q, q ∈ cs → live m q ∧ q ≠ h ∧ q ≠ c) as Hsib.
  { intros q Hq. assert (q ∈ K h) as Hq' by (rewrite HK; set_solver).
    split_and!.
    - by destruct (forest_kids_live _ _ _ _ _ _ _ _ Hf Hq').
    - intros ->. apply (forest_kids _ _ _ _ _ _ Hf) in Hq'.
      by eapply forest_parent_ne.
    - intros ->. by apply NoDup_cons in Hnd as [? _]. }
  destruct (Hroot e He) as (Hle & Hec & Hecs).
  unfold pop_child.
  read_step m h nmin Hnmin.
  assert (child nmin = Some c) as ->.
  { pose proof (view_Some child _ _ _ Hnmin) as H'. rewrite Hfch in H'.
    by simplify_eq. }
  cbn [mbind option_bind].
  read_step m c nc Hnc.
  assert (right_ nc = hd c cs) as ->.
  { pose proof (view_Some right_ _ _ _ Hnc) as H1.
    rewrite Hfrc in H1. by simplify_eq. }
  match goal with
  | |- context [?e0 ≫= (λ m0, upd m0 c (set_parent None) ≫= _)] =>
      assert (∃ m3, e0 = Some m3 ∧
        (∀ q, fp m3 q = fp m q ∧ fw m3 q = fw m q ∧ fm m3 q = fm m q ∧
              fv m3 q = fv m q ∧ fk m3 q = fk m q) ∧
        (∀ q, fc m3 q = if decide (q = h) then Some (head cs) else fc m q) ∧
        ring m3 cs ∧
        (∀ q, q ∉ cs → fl m3 q = fl m q ∧ fr m3 q = fr m q))
        as (m3 & -> & Hpay3 & Hfc3 & Hring3 & Hout3)
  end.
  { case_decide as Hsingle.
    - destruct cs as [|c' cs]; [|simpl in Hsingle; subst c'; exfalso].
      + upd_step m1 Hu1. exists m1. split; [done|]. split_and!.
        * intros q. split_and!; views Hu1; done.
        * intros q. views Hu1. done.
        * done.
        * intros q _. split; views Hu1; done.
      + apply NoDup_cons in Hnd as [Hnd _]. apply Hnd. set_solver.
    - destruct cs as [|c' cs]; [done|]. clear Hsingle.
      set (rc := hd c (c' :: cs)) in *.
      set (lc := List.last (c' :: cs) c) in *.
      assert (rc ∈ c' :: cs) as Hrc by (unfold rc; set_solver).
      assert (lc ∈ c' :: cs) as Hlcin by (unfold lc; by apply last_elem_of).
      assert (head (c' :: cs) = Some rc) as Hhd by done.
      clearbody rc lc.
      destruct (Hsib _ Hrc) as (Hrcl & Hrch & Hrcc).
      destruct (Hsib _ Hlcin) as (Hlcl & Hlch & Hlcc).
      upd_step m1 Hu1. read_step m1 c nc1 Hnc1.
      assert (right_ nc1 = rc ∧ left_ nc1 = lc) as [-> ->].
      { pose proof (view_Some right_ _ _ _ Hnc1) as H1'.
        pose proof (view_Some left_ _ _ _ Hnc1) as H2'.
        views_in Hu1 H1'. views_in Hu1 H2'.
        rewrite Hfrc in H1'. rewrite Hflc in H2'. by simplify_eq. }
      upd_step m2 Hu2. read_step m2 c nc2 Hnc2.
      assert (right_ nc2 = rc ∧ left_ nc2 = lc) as [-> ->].
      { pose proof (view_Some right_ _ _ _ Hnc2) as H1'.
        pose proof (view_Some left_ _ _ _ Hnc2) as H2'.
        views_in Hu2 H1'. views_in Hu2 H2'. views_in Hu1 H1'. views_in Hu1 H2'.
        rewrite decide_False in H2' by congruence.
        rewrite Hfrc in H1'. rewrite Hflc in H2'. by simplify_eq. }
      upd_step m3 Hu3. exists m3. split; [done|]. split_and!.
      * intros q. split_and!; views Hu3; views Hu2; views Hu1; done.
      * intros q. views Hu3. views Hu2. views Hu1. by rewrite Hhd.
      * apply (ring_remove m m3 [] c (c' :: cs) lc rc); try done.
        -- intros q Hq. views Hu3. views Hu2. views Hu1. done.
        -- intros q Hq. views Hu3. views Hu2. views Hu1. done.
      * intros q Hq. split; views Hu3; views Hu2; views Hu1.
        -- rewrite decide_False; [done|]. intros ->. done.
        -- rewrite decide_False; [done|]. intros ->. done. }
  cbn [mbind option_bind].
  assert (∀ q, live m3 q ↔ live m q) as Hlive3.
  { intros q. apply (view_eq_live parent). by destruct (Hpay3 q) as (-> & _). }
  assert (live m3 c) as Hlc3 by by apply Hlive3.
  assert (live m3 h) as Hlh3 by by apply Hlive3.
  assert (live m3 e) as Hle3 by by apply Hlive3.
  upd_step m4 Hu4. upd_step m5 Hu5. read_step m5 h nmin5 Hnmin5.
  assert (left_ nmin5 = e) as ->.
  { pose proof (view_Some left_ _ _ _ Hnmin5) as H1.
    views_in Hu5 H1. views_in Hu4 H1.
    destruct (Hout3 h) as [Hl3 _]; [by apply Hroot; set_solver|].
    rewrite Hl3, Hflh in H1. by simplify_eq. }
  upd_step m6 Hu6. read_step m6 h nmin6 Hnmin6.
  assert (left_ nmin6 = e) as ->.
  { pose proof (view_Some left_ _ _ _ Hnmin6) as H1.
    views_in Hu6 H1. views_in Hu5 H1. views_in Hu4 H1.
    rewrite decide_False in H1 by done.
    destruct (Hout3 h) as [Hl3 _]; [by apply Hroot; set_solver|].
    rewrite Hl3, Hflh in H1. by simplify_eq. }
  upd_step m7 Hu7. upd_step m8 Hu8.
  exists m8. cbv zeta.
  set (K' := λ q, if decide (q = h) then cs else K q).
  set (A' := λ q, if decide (q = c) then [] else cut_anc c (A q)).
  assert (∀ q, fp m8 q = if decide (q = c) then Some None else fp m q) as Hfp8.
  { intros q. views Hu8. views Hu7. views Hu6. views Hu5. views Hu4.
    by destruct (Hpay3 q) as (-> & _). }
  assert (∀ q, fw m8 q = fw m q ∧ fv m8 q = fv m q ∧ fk m8 q = fk m q ∧
               fm m8 q = fm m q) as Hpay8.
  { intros q. destruct (Hpay3 q) as (_ & Hw & Hm & Hv & Hk).
    split_and!; views Hu8; views Hu7; views Hu6; views Hu5; views Hu4; done. }
  assert (∀ q, fc m8 q = if decide (q = h) then Some (head cs) else fc m q)
    as Hfc8.
  { intros q. views Hu8. views Hu7. views Hu6. views Hu5. views Hu4.
    apply Hfc3. }
  assert (∀ q, fl m8 q = if decide (q = h) then Some c
                         else if decide (q = c) then Some e else fl m3 q)
    as Hfl8.
  { intros q. views Hu8. views Hu7. views Hu6. views Hu5. views Hu4. done. }
  assert (∀ q, fr m8 q = if decide (q = e) then Some c
                         else if decide (q = c) then Some h else fr m3 q)
    as Hfr8.
  { intros q. views Hu8. views Hu7. views Hu6. views Hu5. views Hu4. done. }
  assert (∀ q, live m8 q ↔ live m q) as Hlive8.
  { intros q. apply (view_eq_live weight). by destruct (Hpay8 q) as (-> & _). }
  assert (∀ q, wt m8 q = wt m q) as Hwt8.
  { intros q. unfold wt. by destruct (Hpay8 q) as (-> & _). }
  assert (∀ q, mk m8 q = mk m q) as Hmk8.
  { intros q. unfold mk. by destruct (Hpay8 q) as (_ & _ & _ & ->). }
  assert (∀ q, deg m8 q = deg m q) as Hdeg8.
  { intros q. unfold deg. by destruct (Hpay8 q) as (_ & _ & -> & _). }
  assert (∀ c' q, c' ∈ K' q ↔ c' ≠ c ∧ c' ∈ K q) as HK'.
  { intros c' q. unfold K'. case_decide as Hq.
    - subst q. rewrite HK. apply NoDup_cons in Hnd as [? _]. set_solver.
    - split; [|naive_solver]. intros Hcq. split; [|done]. intros ->.
      apply Hq. apply (forest_kids _ _ _ _ _ _ Hf) in Hcq. congruence. }
  assert (∀ q, q ∉ c :: h :: l → q ∉ cs → fl m8 q = fl m q ∧ fr m8 q = fr m q)
    as Hother.
  { intros q Hq Hq'. rewrite Hfl8, Hfr8.
    rewrite !decide_False; [by apply Hout3|..]; intros ->; set_solver. }
  split; [done|]. split_and!.
  - constructor.
    + intros q Hq%Hlive8. rewrite Hfc8. unfold K'. case_decide; [done|].
      by apply (forest_child _ _ _ _ _ _ Hf).
    + intros q Hq%Hlive8 Hqh. destruct (Hpay8 q) as (_ & _ & -> & _).
      unfold K'. rewrite decide_False by congruence.
      by apply (forest_count _ _ _ _ _ _ Hf).
    + intros q. unfold K'. case_decide; [|apply Hf].
      by apply NoDup_cons in Hnd as [_ ?].
    + intros q. unfold K'. case_decide as Hqh.
      * eapply ring_frame; [done|]. intros c' Hc'.
        destruct (Hsib _ Hc') as (_ & ? & ?). rewrite Hfl8, Hfr8.
        rewrite !decide_False; [done|done| |done|done].
        intros ->. done.
      * eapply ring_frame; [apply (forest_ring _ _ _ _ _ _ Hf q)|].
        intros c' Hc'. apply Hother.
        -- intros [->|Hin]%elem_of_cons.
           ++ apply Hqh. apply (forest_kids _ _ _ _ _ _ Hf) in Hc'. congruence.
           ++ by eapply (forest_kids_not_root m heap (h :: l)).
        -- intros Hin. apply Hqh.
           assert (c' ∈ K h) as Hc2 by (rewrite HK; set_solver).
           apply (forest_kids _ _ _ _ _ _ Hf) in Hc', Hc2. congruence.
    + intros q Hq%Hlive8. unfold A'. rewrite Hfp8.
      case_decide as Hqc; [done|].
      rewrite (forest_anc _ _ _ _ _ _ Hf q Hq).
      destruct (fp m q) as [[r|]|]; [|done..]. simpl.
      case_decide as Hrc; [by subst|done].
    + intros c' q. rewrite HK', Hfp8. case_decide as Hcc; [naive_solver|].
      rewrite (forest_kids _ _ _ _ _ _ Hf). naive_solver.
    + intros c' q. rewrite Hfp8. case_decide; [done|].
      intros ?%(forest_parent _ _ _ _ _ _ Hf). by apply Hlive8.
    + intros c' q [Hcc Hc']%HK' _. rewrite !Hwt8.
      by apply (forest_order _ _ _ _ _ _ Hf).
    + intros q j c' Hj _. rewrite Hdeg8, Hmk8.
      unfold K' in Hj. case_decide as Hqh.
      * subst q.
        pose proof (forest_degree _ _ _ _ _ _ Hf h (S j) c') as Hd.
        rewrite HK in Hd. specialize (Hd Hj ltac:(done)). lia.
      * by apply (forest_degree _ _ _ _ _ _ Hf q).
  - destruct Hr. constructor.
    + intros r. rewrite Hfp8. rewrite app_comm_cons, elem_of_app.
      rewrite list_elem_of_singleton, rooted_roots0.
      case_decide; naive_solver.
    + rewrite app_comm_cons. apply NoDup_app. split_and!; [done| |apply NoDup_singleton].
      intros q Hq ->%list_elem_of_singleton. by destruct (Hroot _ Hq) as (_ & ? & _).
    + apply (ring_snoc m m8); try done.
      * intros Hin. by destruct (Hroot _ Hin) as (_ & ? & _).
      * intros q Hq. destruct (Hroot _ Hq) as (_ & ? & ?). rewrite Hfl8.
        case_decide; [done|]. rewrite decide_False by done.
        by apply Hout3.
      * intros q Hq. destruct (Hroot _ Hq) as (_ & ? & ?). rewrite Hfr8.
        rewrite <-Hedef. case_decide; [done|]. rewrite decide_False by done.
        by apply Hout3.
      * rewrite Hfl8, <-Hedef. rewrite decide_False by done.
        by rewrite decide_True.
      * rewrite Hfr8. rewrite decide_False by done. by rewrite decide_True.
    + done.
  - intros q. by destruct (Hpay8 q) as (? & ? & ? & _).
Qed.

Lemma forest_weaken_count m K A exo exd exk :
  forest m K A exo exd None → forest m K A exo exd exk.
Proof. intros []. constructor; eauto. Qed.

Lemma forest_count_root m K A exo exd h :
  forest m K A exo exd (Some h) → ¬ live m h → forest m K A exo exd None.
Proof.
  intros [] Hh. constructor; try done.
  intros p Hp _. apply forest_count0; [done|]. by intros [= ->].
Qed.

Lemma pop_children_spec h : ∀ cs m heap l K A i,
  forest m K A None None (Some h) →
  rooted m heap (h :: l) →
  K h = cs →
  ∃ m' K' A',
    for_loop (length cs) i (pop_child h) m = Some m' ∧
    forest m' K' A' None None (Some h) ∧ K' h = [] ∧
    rooted m' heap (h :: l ++ cs) ∧
    (∀ q, fw m' q = fw m q ∧ fv m' q = fv m q ∧ fk m' q = fk m q).
Proof.
  induction cs as [|c cs IH]; intros m heap l K A i Hf Hr HK.
  { exists m, K, A. rewrite app_nil_r. by split_and!. }
  destruct (pop_child_spec m heap h l K A c cs i Hf Hr HK)
    as (m1 & Hrun & Hf1 & Hr1 & Hpay1).
  cbv zeta in Hrun, Hf1. cbn [length for_loop]. rewrite Hrun.
  cbn [mbind option_bind].
  edestruct (IH m1 heap (l ++ [c])) as (m' & K' & A' & -> & Hf' & HK' & Hr' & Hpay');
    [exact Hf1|exact Hr1|cbn beta; by rewrite decide_True|].
  exists m', K', A'. split_and!; try done.
  - by rewrite <-app_assoc in Hr'.
  - intros q. destruct (Hpay' q) as (-> & -> & ->). apply Hpay1.
Qed.

(** *** [popFibonacciMinHeap]: unlinking and freeing the minimum *)

Lemma delete_view {X} (π : FibonacciHeapElement → X) (m : mem) h q :
  π <$> (delete h m !! q) = if decide (q = h) then None else π <$> (m !! q).
Proof.
  case_decide; [subst; by rewrite lookup_delete_eq|by rewrite lookup_delete_ne].
Qed.

Lemma forest_delete m K A exo exd h :
  forest m K A exo exd (Some h) → K h = [] → fp m h = Some None →
  forest (delete h m) K A exo exd None.
Proof.
  intros Hf HK Hh.
  assert (∀ q, h ∉ K q) as HhK.
  { intros q Hq. apply (forest_kids _ _ _ _ _ _ Hf) in Hq. congruence. }
  assert (∀ q, live (delete h m) q ↔ live m q ∧ q ≠ h) as Hlive.
  { intros q. unfold live. destruct (decide (q = h)) as [->|Hq].
    - rewrite lookup_delete_eq. split; [by intros [? ?]|naive_solver].
    - rewrite lookup_delete_ne by done. naive_solver. }
  assert (∀ c q, c ∈ K q → c ≠ h ∧ q ≠ h) as Hne.
  { intros c q Hc. split; intros ->; [by eapply HhK|].
    rewrite HK in Hc. by apply elem_of_nil in Hc. }
  destruct Hf. constructor.
  - intros q [Hq Hqh]%Hlive. rewrite delete_view, decide_False by done. eauto.
  - intros q [Hq Hqh]%Hlive _. rewrite delete_view, decide_False by done.
    apply forest_count0; [done|congruence].
  - done.
  - intros q. eapply ring_frame; [done|]. intros c Hc.
    destruct (Hne _ _ Hc). by rewrite !delete_view, !decide_False.
  - intros q [Hq Hqh]%Hlive. rewrite delete_view, decide_False by done. eauto.
  - intros c q. rewrite delete_view. case_decide as Hc.
    + subst c. split; [by intros ?%HhK|done].
    + apply forest_kids0.
  - intros c q. rewrite delete_view. case_decide; [done|].
    intros Hp. apply Hlive. split; [by eapply forest_parent0|].
    apply forest_kids0 in Hp. by destruct (Hne _ _ Hp).
  - intros c q Hc Hex. destruct (Hne _ _ Hc). unfold wt.
    rewrite !delete_view, !decide_False by done. by apply forest_order0.
  - intros q j c Hj Hex.
    destruct (Hne c q); [by eapply list_elem_of_lookup_2|].
    unfold deg, mk. rewrite !delete_view, !decide_False by done.
    by eapply forest_degree0.
Qed.

(** The second half of [popFibonacciMinHeap]. *)
Definition pop_tail (fuel : nat) (m : mem) (heap : FibonacciMinHeap)
  (out : Z * Z * Z) : option (mem * FibonacciMinHeap * (Z * Z * Z)) :=
  if decide (size heap > 0) then
    '(m, heap) ← consolidateFibonacciMinHeap fuel m heap;
    Some (m, heap, out)
  else Some (m, heap, out).

Lemma pop_prefix fuel out m heap h l K A :
  heap_inv m heap (h :: l) K A →
  ∃ nh m3 heap3 K3 A3,
    m !! h = Some nh ∧
    popFibonacciMinHeap fuel m heap out
    = pop_tail fuel m3 heap3 (vertex nh, via nh, weight nh) ∧
    forest m3 K3 A3 None None None ∧
    rooted m3 heap3 (l ++ K h) ∧ sized m3 heap3 ∧ indexed m3 heap3 ∧
    size heap3 = size heap - 1 ∧
    length (positions heap3) = length (positions heap) ∧
    (∀ u, is_Some (rdc (positions heap) u) →
          is_Some (rdc (positions heap3) u)) ∧
    (∀ q, live m3 q ↔ live m q ∧ q ≠ h) ∧
    (∀ q, q ≠ h → fw m3 q = fw m q ∧ fv m3 q = fv m q).
Proof.
  intros [Hf Hr Hmin Hsz Hix].
  assert (live m h) as Hlh by (eapply rooted_live; [done|set_solver]).
  unfold popFibonacciMinHeap. rewrite (rooted_minimum _ _ _ Hr). cbn [head].
  read_step m h nh Hnh.
  assert (childrens nh = Z.of_nat (length (K h))) as ->.
  { pose proof (view_Some childrens _ _ _ Hnh) as H1.
    rewrite (forest_count _ _ _ _ _ _ Hf h Hlh) in H1 by done. by simplify_eq. }
  rewrite Nat2Z.id.
  destruct (pop_children_spec h (K h) m heap l K A 0)
    as (m1 & K1 & A1 & -> & Hf1 & HK1 & Hr1 & Hpay1);
    [by apply forest_weaken_count|done|done|].
  cbn [mbind option_bind].
  set (l1 := l ++ K h) in *.
  assert (∀ q, live m1 q ↔ live m q) as Hlive1.
  { intros q. apply (view_eq_live weight). by destruct (Hpay1 q) as (-> & _). }
  assert (live m1 h) as Hlh1 by by apply Hlive1.
  pose proof (rooted_nodup _ _ _ Hr1) as Hnd1.
  destruct (ring_head _ _ _ (rooted_ring _ _ _ Hr1)) as [Hflh Hfrh].
  assert (fp m1 h = Some None) as Hph1.
  { apply (rooted_roots _ _ _ Hr1). set_solver. }
  read_step m1 h nmin1 Hnmin1.
  assert (right_ nmin1 = hd h l1 ∧ left_ nmin1 = List.last l1 h) as [Hrn Hln].
  { pose proof (view_Some right_ _ _ _ Hnmin1) as H1.
    pose proof (view_Some left_ _ _ _ Hnmin1) as H2.
    rewrite Hfrh in H1. rewrite Hflh in H2. by simplify_eq. }
  rewrite Hrn, ?Hln.
  match goal with
  | |- context [?e0 ≫= (λ '(m0, heap0), _)] =>
      assert (∃ m2 heap2, e0 = Some (m2, heap2) ∧
        size heap2 = size heap ∧ positions heap2 = positions heap ∧
        minimum heap2 = head l1 ∧
        ring m2 l1 ∧
        same_payload m1 m2 ∧
        (∀ q, q ∉ l1 → fl m2 q = fl m1 q ∧ fr m2 q = fr m1 q))
        as (m2 & heap2 & -> & Hsz2 & Hpos2 & Hmin2 & Hring2 & Hsame2 & Hout2)
  end.
  { case_decide as Hsingle.
    - assert (l1 = []) as ->.
      { destruct l1 as [|a l1']; [done|]. simpl in Hsingle. subst a.
        apply NoDup_cons in Hnd1 as [Hnd1 _]. exfalso. apply Hnd1. set_solver. }
      exists m1, (with_minimum heap None). by split_and!.
    - destruct l1 as [|a l1'] eqn:Hl1; [done|]. clear Hsingle.
      rewrite <-Hl1 in *.
      assert (hd h l1 ∈ l1 ∧ List.last l1 h ∈ l1) as [Hhd Hlast].
      { rewrite Hl1. split; [set_solver|by apply last_elem_of]. }
      assert (∀ q, q ∈ l1 → live m1 q ∧ q ≠ h) as Hroot.
      { intros q Hq. split.
        - eapply rooted_live; [done|]. set_solver.
        - intros ->. by apply NoDup_cons in Hnd1 as [? _]. }
      destruct (Hroot _ Hhd). destruct (Hroot _ Hlast).
      upd_step m2 Hu2. read_step m2 h nmin2 Hnmin2.
      assert (right_ nmin2 = hd h l1 ∧ left_ nmin2 = List.last l1 h)
        as [-> ->].
      { pose proof (view_Some right_ _ _ _ Hnmin2) as H1'.
        pose proof (view_Some left_ _ _ _ Hnmin2) as H2'.
        views_in Hu2 H1'. views_in Hu2 H2'.
        rewrite decide_False in H2' by done.
        rewrite Hfrh in H1'. rewrite Hflh in H2'. by simplify_eq. }
      upd_step m3 Hu3. read_step m3 h nmin3 Hnmin3.
      assert (right_ nmin3 = hd h l1) as ->.
      { pose proof (view_Some right_ _ _ _ Hnmin3) as H1'.
        views_in Hu3 H1'. views_in Hu2 H1'.
        rewrite decide_False in H1' by done.
        rewrite Hfrh in H1'. by simplify_eq. }
      exists m3, (with_minimum heap (Some (hd h l1))). split; [done|].
      split_and!; try done.
      + simpl. by rewrite Hl1.
      + apply (ring_tail m1 m3 h); [done|by rewrite Hl1|apply Hr1|..].
        * intros q Hq. views Hu3. views Hu2. done.
        * intros q Hq. views Hu3. views Hu2. done.
      + intros q. split_and!; views Hu3; views Hu2; done.
      + intros q Hq. split; views Hu3; views Hu2.
        * rewrite decide_False; [done|]. by intros ->.
        * rewrite decide_False; [done|]. by intros ->. }
  cbn [mbind option_bind].
  assert (h ∉ l1) as Hhl1 by by apply NoDup_cons in Hnd1 as [? _].
  assert (live m2 h) as Hlh2 by by apply (same_payload_live m1 m2).
  read_step m2 h nh2 Hnh2.
  assert (vertex nh2 = vertex nh) as ->.
  { pose proof (view_Some vertex _ _ _ Hnh2) as H1.
    destruct (Hsame2 h) as (_ & _ & _ & _ & _ & Hv). rewrite Hv in H1.
    destruct (Hpay1 h) as (_ & Hv1 & _). rewrite Hv1, Hnh in H1.
    simpl in H1. by simplify_eq. }
  pose proof (indexed_node _ _ Hix h (vertex nh) (view_Some vertex _ _ _ Hnh))
    as Hposh.
  simpl. rewrite Hsz2, Hpos2.
  destruct (wrc_is_Some (positions heap) (vertex nh) None) as [pos Hpos];
    [by eapply rdc_Some_range|].
  rewrite Hpos. cbn [mbind option_bind].
  set (heap3 := with_positions (with_size heap2 (size heap - 1)) pos).
  set (m3 := delete h m2).
  exists nh, m3, heap3, K1, A1. split; [done|]. split; [done|].
  assert (∀ q, live m3 q ↔ live m q ∧ q ≠ h) as Hlive3.
  { intros q. unfold live, m3. destruct (decide (q = h)) as [->|Hq].
    - rewrite lookup_delete_eq. split; [by intros [? ?]|naive_solver].
    - rewrite lookup_delete_ne by done.
      rewrite <-(Hlive1 q). split.
      + intros ?%(same_payload_live m1 m2); done.
      + intros [? _]. by apply (same_payload_live m1 m2). }
  assert (forest m2 K1 A1 None None (Some h)) as Hf2.
  { eapply forest_frame; [done|done|]. intros p q Hq. apply Hout2.
    intros Hin. assert (q ∈ h :: l1) as Hin' by set_solver.
    apply (rooted_roots _ _ _ Hr1) in Hin'.
    apply (forest_kids _ _ _ _ _ _ Hf1) in Hq. congruence. }
  split_and!.
  - apply forest_delete; [done|done|].
    destruct (Hsame2 h) as (-> & _). done.
  - constructor.
    + intros r. unfold m3. rewrite delete_view. case_decide as Hrh.
      * subst r. split; [done|done].
      * destruct (Hsame2 r) as (-> & _).
        rewrite <-(rooted_roots _ _ _ Hr1). set_solver.
    + by apply NoDup_cons in Hnd1 as [_ ?].
    + eapply ring_frame; [done|]. intros q Hq. unfold m3.
      rewrite !delete_view, !decide_False; [done|..]; by intros ->.
    + done.
  - unfold sized in *. simpl. rewrite Hsz.
    assert (dom m = {[h]} ∪ dom m3) as ->.
    { apply set_eq. intros q. rewrite elem_of_union, elem_of_singleton.
      rewrite !elem_of_dom. fold (live m q). fold (live m3 q).
      rewrite Hlive3. destruct (decide (q = h)) as [->|?]; naive_solver. }
    rewrite size_union.
    + rewrite size_singleton. lia.
    + rewrite disjoint_singleton_l, elem_of_dom. fold (live m3 h).
      rewrite Hlive3. naive_solver.
  - destruct Hix as [Hnode Hslot]. constructor; simpl.
    + intros q v. unfold m3. rewrite delete_view. case_decide as Hq; [done|].
      destruct (Hsame2 q) as (_ & _ & _ & _ & _ & ->).
      destruct (Hpay1 q) as (_ & -> & _). intros Hv.
      rewrite (rdc_wrc _ _ _ _ _ Hpos). rewrite decide_False; [eauto|].
      intros ->. apply Hnode in Hv. congruence.
    + intros v q. rewrite (rdc_wrc _ _ _ _ _ Hpos). case_decide; [done|].
      intros Hq. pose proof (Hslot _ _ Hq) as Hv.
      assert (q ≠ h).
      { intros ->. rewrite Hnh in Hv. simpl in Hv. congruence. }
      unfold m3. rewrite delete_view, decide_False by done.
      destruct (Hsame2 q) as (_ & _ & _ & _ & _ & ->).
      by destruct (Hpay1 q) as (_ & -> & _).
  - done.
  - simpl. apply (wrc_length _ _ _ _ Hpos).
  - intros u Hu. simpl. rewrite (rdc_wrc _ _ _ _ _ Hpos). case_decide; eauto.
  - done.
  - intros q Hq. unfold m3. rewrite !delete_view, !decide_False by done.
    destruct (Hsame2 q) as (_ & _ & _ & -> & _ & ->).
    by destruct (Hpay1 q) as (-> & -> & _).
Qed.

(** *** The degree bound

    A node of degree [d] has at least [fib (d + 2)] descendants (itself
    included), hence [2 ^ d] is at most the square of the number of nodes
    and [d] is an index of the degree table of the consolidation. *)

Fixpoint fib (n : nat) : nat :=
  match n with
  | O => 0
  | S n' => match n' with O => 1 | S n'' => fib n' + fib n'' end
  end.

(** [fib 1 + ... + fib k]. *)
Fixpoint fib_sum (k : nat) : nat :=
  match k with
  | O => 0
  | S k' => fib_sum k' + fib (S k')
  end.

(** The nodes below [x], with [x] itself. *)
Definition desc (m : mem) (A : ptr → list ptr) (x : ptr) : list ptr :=
  filter (λ q, q = x ∨ x ∈ A q) (elements (dom m)).

Lemma fib_SS n : fib (S (S n)) = (fib (S n) + fib n)%nat.
Proof. done. Qed.

Lemma fib_mono n k : (n ≤ k)%nat → (fib n ≤ fib k)%nat.
Proof.
  induction 1 as [|k _ IH]; [done|].
  etrans; [exact IH|]. destruct k; [simpl; lia|]. rewrite fib_SS. lia.
Qed.

Lemma fib_sum_eq k : (1 + fib_sum k = fib (k + 2))%nat.
Proof.
  induction k as [|k IH]; [done|].
  cbn [fib_sum]. replace (S k + 2)%nat with (S (S (k + 1))) by lia.
  rewrite fib_SS. replace (S (k + 1)) with (k + 2)%nat by lia.
  replace (k + 1)%nat with (S k) by lia. lia.
Qed.

Lemma fib_pow d : (2 ^ d ≤ fib (d + 2) * fib (d + 2))%nat.
Proof.
  assert ((2 ^ d ≤ fib (d + 2) * fib (d + 2)) ∧
          (2 ^ S d ≤ fib (S d + 2) * fib (S d + 2)))%nat as [? _]; [|done].
  induction d as [|d [IH1 IH2]]; [simpl; lia|]. split; [done|].
  replace (S (S d) + 2)%nat with (S (S (d + 2))) by lia.
  rewrite fib_SS.
  pose proof (fib_mono (d + 2) (S (d + 2)) ltac:(lia)).
  replace (2 ^ S (S d))%nat with (4 * 2 ^ d)%nat by (simpl; lia).
  nia.
Qed.

Lemma elem_of_desc m A x q :
  q ∈ desc m A x ↔ live m q ∧ (q = x ∨ x ∈ A q).
Proof.
  unfold desc. rewrite list_elem_of_filter, elem_of_elements, elem_of_dom.
  unfold live. tauto.
Qed.

Lemma NoDup_desc m A x : NoDup (desc m A x).
Proof. apply NoDup_filter, NoDup_elements. Qed.

Lemma desc_length m A x : (length (desc m A x) ≤ base.size (dom m))%nat.
Proof. unfold desc, base.size, set_size. simpl. apply length_filter. Qed.

Lemma forest_anc_cons m K A exo exd exk q c :
  forest m K A exo exd exk → live m q → c ∈ A q →
  ∃ p, fp m q = Some (Some p) ∧ A q = p :: A p ∧ live m p.
Proof.
  intros Hf Hq Hc. rewrite (forest_anc _ _ _ _ _ _ Hf q Hq) in Hc.
  destruct (fp m q) as [[p|]|] eqn:Hp; try by apply elem_of_nil in Hc.
  exists p. split_and!; [done| |by eapply forest_parent].
  by rewrite (forest_anc _ _ _ _ _ _ Hf q Hq), Hp.
Qed.

Lemma forest_anc_closed m K A exo exd exk c a :
  forest m K A exo exd exk → a ∈ A c →
  ∀ n q, (length (A q) ≤ n)%nat → live m q → c ∈ A q → a ∈ A q.
Proof.
  intros Hf Ha. induction n as [|n IH]; intros q Hn Hq Hc.
  { destruct (A q); [by apply elem_of_nil in Hc|simpl in Hn; lia]. }
  destruct (forest_anc_cons _ _ _ _ _ _ _ _ Hf Hq Hc) as (p & Hp & HA & Hlp).
  rewrite HA in Hc, Hn |- *. simpl in Hn.
  apply elem_of_cons in Hc as [->|Hc]; [set_solver|].
  apply elem_of_cons. right. apply IH; [lia|done..].
Qed.

Lemma forest_kid_anc m K A exo exd exk c x :
  forest m K A exo exd exk → c ∈ K x → live m c ∧ A c = x :: A x.
Proof.
  intros Hf Hc. pose proof (proj1 (forest_kids _ _ _ _ _ _ Hf c x) Hc) as Hp.
  assert (live m c) as Hl by (by eapply view_live).
  split; [done|]. by rewrite (forest_anc _ _ _ _ _ _ Hf c Hl), Hp.
Qed.

Lemma desc_child m K A exo exd exk c x :
  forest m K A exo exd exk → c ∈ K x →
  (∀ q, q ∈ desc m A c → q ∈ desc m A x) ∧ x ∉ desc m A c.
Proof.
  intros Hf Hc. destruct (forest_kid_anc _ _ _ _ _ _ _ _ Hf Hc) as [Hlc HAc].
  pose proof (proj1 (forest_kids _ _ _ _ _ _ Hf c x) Hc) as Hp.
  split.
  - intros q [Hq [->|Hin]]%elem_of_desc; apply elem_of_desc; (split; [done|]).
    + right. rewrite HAc. set_solver.
    + right. eapply (forest_anc_closed _ _ _ _ _ _ c x Hf); [|done..].
      rewrite HAc. set_solver.
  - intros [Hx [->|Hin]]%elem_of_desc.
    + by eapply forest_parent_ne.
    + destruct (forest_anc_shorter _ _ _ _ _ _ x c Hf Hx Hin) as [_ Hlt].
      pose proof (forest_anc_length _ _ _ _ _ _ _ _ Hf Hp). lia.
Qed.

(** A chain of ancestors passes through one child of [x] only. *)
Lemma forest_chain_child m K A exo exd exk x :
  forest m K A exo exd exk →
  ∀ n q c c', (length (A q) ≤ n)%nat → live m q →
    c ∈ q :: A q → c' ∈ q :: A q →
    fp m c = Some (Some x) → fp m c' = Some (Some x) → c = c'.
Proof.
  intros Hf.
  assert (∀ q c', live m q → fp m q = Some (Some x) → c' ∈ A q →
                  fp m c' = Some (Some x) → False) as Hno.
  { intros q c' Hq Hqx Hc' Hc'x.
    rewrite (forest_anc _ _ _ _ _ _ Hf q Hq), Hqx in Hc'.
    apply elem_of_cons in Hc' as [->|Hc'].
    - by eapply forest_parent_ne.
    - assert (live m x) as Hlx by (by eapply forest_parent).
      destruct (forest_anc_shorter _ _ _ _ _ _ x c' Hf Hlx Hc') as [_ Hlt].
      pose proof (forest_anc_length _ _ _ _ _ _ _ _ Hf Hc'x). lia. }
  induction n as [|n IH]; intros q c c' Hn Hq Hc Hc' Hcx Hc'x.
  { destruct (A q); [|simpl in Hn; lia]. set_solver. }
  apply elem_of_cons in Hc as [->|Hc], Hc' as [->|Hc']; [done|..].
  - destruct (Hno q c'); done.
  - destruct (Hno q c); done.
  - destruct (forest_anc_cons _ _ _ _ _ _ _ _ Hf Hq Hc) as (p & Hp & HA & Hlp).
    rewrite HA in Hc, Hc', Hn. simpl in Hn.
    apply (IH p c c'); [lia|done..].
Qed.

Lemma desc_disjoint m K A exo exd exk x c c' q :
  forest m K A exo exd exk → c ∈ K x → c' ∈ K x →
  q ∈ desc m A c → q ∈ desc m A c' → c = c'.
Proof.
  intros Hf Hc Hc' [Hq Hqc]%elem_of_desc [_ Hqc']%elem_of_desc.
  apply (forest_kids _ _ _ _ _ _ Hf) in Hc, Hc'.
  eapply (forest_chain_child _ _ _ _ _ _ x Hf _ q c c'); [done|done|..|done|done];
    apply elem_of_cons; naive_solver.
Qed.

Lemma length_bind_list {X Y} (f : X → list Y) (l : list X) :
  length (l ≫= f) = sum_list_with (λ x, length (f x)) l.
Proof.
  induction l as [|x l IH]; [done|].
  cbn [mbind list_bind]. rewrite length_app. simpl. by rewrite <-IH.
Qed.

Lemma desc_sum m K A exo exd exk x :
  forest m K A exo exd exk → live m x →
  (1 + sum_list_with (λ c, length (desc m A c)) (K x)
   ≤ length (desc m A x))%nat.
Proof.
  intros Hf Hx. rewrite <-length_bind_list.
  change (length (x :: (K x ≫= desc m A)) ≤ length (desc m A x))%nat.
  apply submseteq_length, NoDup_submseteq.
  - apply NoDup_cons. split.
    + intros (c & Hxc & Hc)%list_elem_of_bind.
      by destruct (desc_child _ _ _ _ _ _ _ _ Hf Hc) as [_ []].
    + apply NoDup_bind.
      * intros c c' q Hc Hc' Hq Hq'. by eapply desc_disjoint.
      * intros c _. apply NoDup_desc.
      * apply (forest_nodup _ _ _ _ _ _ Hf).
  - intros q [->|(c & Hqc & Hc)%list_elem_of_bind]%elem_of_cons.
    + apply elem_of_desc. split; [done|by left].
    + by apply (desc_child _ _ _ _ _ _ _ _ Hf Hc).
Qed.

Lemma fib_sum_le {X} (f : X → nat) (l : list X) :
  (∀ j c, l !! j = Some c → (fib (S j) ≤ f c)%nat) →
  (fib_sum (length l) ≤ sum_list_with f l)%nat.
Proof.
  induction l as [|c l IH] using rev_ind; intros Hl; [done|].
  rewrite length_app, sum_list_with_app. simpl.
  rewrite Nat.add_1_r. cbn [fib_sum].
  assert (fib (S (length l)) ≤ f c)%nat.
  { apply Hl. by rewrite lookup_app_r, Nat.sub_diag by lia. }
  assert (fib_sum (length l) ≤ sum_list_with f l)%nat; [|lia].
  apply IH. intros j c' Hj. apply Hl. by apply lookup_app_l_Some.
Qed.

Lemma forest_size_fib m K A :
  forest m K A None None None →
  ∀ n x, (length (desc m A x) ≤ n)%nat → live m x →
         (fib (length (K x) + 2) ≤ length (desc m A x))%nat.
Proof.
  intros Hf. induction n as [|n IH]; intros x Hn Hx.
  { assert (x ∈ desc m A x) as Hin by (apply elem_of_desc; eauto).
    destruct (desc m A x); [by apply elem_of_nil in Hin|simpl in Hn; lia]. }
  pose proof (desc_sum _ _ _ _ _ _ x Hf Hx) as Hsum.
  rewrite <-fib_sum_eq.
  assert (fib_sum (length (K x))
          ≤ sum_list_with (λ c, length (desc m A c)) (K x))%nat; [|lia].
  apply fib_sum_le. intros j c Hj.
  assert (c ∈ K x) as Hc by (by eapply list_elem_of_lookup_2).
  destruct (forest_kids_live _ _ _ _ _ _ _ _ Hf Hc) as [Hlc _].
  assert (length (desc m A c) < length (desc m A x))%nat as Hlt.
  { destruct (desc_child _ _ _ _ _ _ _ _ Hf Hc) as [Hsub Hnx].
    assert (x :: desc m A c ⊆+ desc m A x) as Hle%submseteq_length;
      [|simpl in Hle; lia].
    apply NoDup_submseteq.
    - apply NoDup_cons. split; [done|apply NoDup_desc].
    - intros q [->|Hq]%elem_of_cons; [|by apply Hsub].
      apply elem_of_desc. eauto. }
  etrans; [|apply IH; [lia|done]].
  apply fib_mono.
  pose proof (forest_degree _ _ _ _ _ _ Hf x j c Hj ltac:(done)) as Hd.
  pose proof (forest_count _ _ _ _ _ _ Hf c Hlc ltac:(done)) as Hk.
  unfold deg in Hd. rewrite Hk in Hd. simpl in Hd.
  destruct (mk m c); lia.
Qed.

(** The degree of every node is an index of the degree table. *)
Lemma forest_degree_bound m K A x :
  forest m K A None None None → live m x →
  0 ≤ deg m x < degreeSize (Z.of_nat (base.size (dom m))).
Proof.
  intros Hf Hx.
  pose proof (forest_count _ _ _ _ _ _ Hf x Hx ltac:(done)) as Hk.
  unfold deg. rewrite Hk. simpl. split; [lia|].
  pose proof (forest_size_fib m K A Hf _ x (le_n _) Hx) as Hfib.
  pose proof (desc_length m A x) as Hle.
  pose proof (fib_pow (length (K x))) as Hpow.
  set (n := base.size (dom m)) in *. set (d := length (K x)) in *.
  assert (2 ^ Z.of_nat d ≤ Z.of_nat n * Z.of_nat n) as Hz.
  { assert (2 ^ d ≤ n * n)%nat as Hnat by nia.
    apply Nat2Z.inj_le in Hnat. rewrite Nat2Z.inj_mul, Nat2Z.inj_pow in Hnat.
    done. }
  unfold degreeSize.
  assert (0 < Z.of_nat n * Z.of_nat n).
  { assert (0 < 2 ^ Z.of_nat d) by (apply Z.pow_pos_nonneg; lia). lia. }
  apply Z.log2_le_pow2 in Hz; [lia|done].
Qed.

(** *** Consolidation: linking two trees of equal degree *)

Lemma link_inv m m' K A x y d :
  forest m K A None None None →
  fp m x = Some None → fp m y = Some None → x ≠ y →
  fk m x = Some d → fk m y = Some d → wt m x ≤ wt m y →
  (∀ q, fp m' q = if decide (q = y) then Some (Some x) else fp m q) →
  (∀ q, fc m' q = if decide (q = x) then Some (head (K x ++ [y]))
                  else fc m q) →
  (∀ q, fk m' q = if decide (q = x) then Some (d + 1) else fk m q) →
  (∀ q, fm m' q = if decide (q = y) then Some false else fm m q) →
  (∀ q, fw m' q = fw m q) →
  ring m' (K x ++ [y]) →
  (∀ q, q ≠ y → q ∉ K x → fl m' q = fl m q ∧ fr m' q = fr m q) →
  forest m'
    (λ q, if decide (q = x) then K x ++ [y] else K q)
    (λ q, if decide (q = y ∨ y ∈ A q) then A q ++ [x] else A q)
    None None None.
Proof.
  intros Hf Hpx Hpy Hxy Hkx Hky Hw Hfp Hfc Hfk Hfm Hfw Hring Hlinks.
  assert (live m x) as Hlx by (by eapply view_live).
  assert (live m y) as Hly by (by eapply view_live).
  assert (∀ q, live m' q ↔ live m q) as Hlive.
  { intros q. apply (view_eq_live weight). by rewrite Hfw. }
  assert (∀ q, wt m' q = wt m q) as Hwt.
  { intros q. unfold wt. by rewrite Hfw. }
  assert (∀ p, y ∉ K p) as Hyroot.
  { intros p Hin. apply (forest_kids _ _ _ _ _ _ Hf) in Hin. congruence. }
  assert (∀ p, x ∉ K p) as Hxroot.
  { intros p Hin. apply (forest_kids _ _ _ _ _ _ Hf) in Hin. congruence. }
  assert (A x = []) as HAx.
  { by rewrite (forest_anc _ _ _ _ _ _ Hf x Hlx), Hpx. }
  assert (A y = []) as HAy.
  { by rewrite (forest_anc _ _ _ _ _ _ Hf y Hly), Hpy. }
  assert (d = Z.of_nat (length (K x))) as Hd.
  { pose proof (forest_count _ _ _ _ _ _ Hf x Hlx ltac:(done)) as H'.
    rewrite Hkx in H'. by simplify_eq. }
  constructor.
  - intros q Hq%Hlive. rewrite Hfc. case_decide; [done|].
    by apply (forest_child _ _ _ _ _ _ Hf).
  - intros q Hq%Hlive _. rewrite Hfk. case_decide.
    + rewrite length_app. simpl. f_equal. lia.
    + by apply (forest_count _ _ _ _ _ _ Hf).
  - intros q. case_decide; [|apply Hf].
    apply NoDup_app. split_and!; [apply Hf| |apply NoDup_singleton].
    intros c Hc ->%list_elem_of_singleton. by apply (Hyroot x).
  - intros q. case_decide as Hq; [done|].
    eapply ring_frame; [apply (forest_ring _ _ _ _ _ _ Hf q)|].
    intros c Hc. apply Hlinks.
    + intros ->. by apply (Hyroot q).
    + intros Hc'. apply Hq.
      apply (forest_kids _ _ _ _ _ _ Hf) in Hc, Hc'. congruence.
  - intros q Hq%Hlive. rewrite Hfp.
    destruct (decide (q = y)) as [->|Hqy].
    + rewrite decide_True by (by left). rewrite HAy. simpl.
      rewrite decide_False; [by rewrite HAx|].
      rewrite HAx. intros [?|?%elem_of_nil]; done.
    + case_decide as Hc.
      * destruct Hc as [?|Hc]; [done|].
        destruct (forest_anc_cons _ _ _ _ _ _ _ _ Hf Hq Hc)
          as (p & -> & HA & Hlp).
        rewrite HA in Hc |- *. rewrite decide_True; [done|].
        apply elem_of_cons in Hc as [->|?]; eauto.
      * rewrite (forest_anc _ _ _ _ _ _ Hf q Hq) in Hc |- *.
        destruct (fp m q) as [[p|]|]; try done.
        rewrite decide_False; [done|]. set_solver.
  - intros c p. rewrite Hfp. case_decide as Hp.
    + subst p. rewrite elem_of_app, list_elem_of_singleton.
      rewrite (forest_kids _ _ _ _ _ _ Hf). case_decide; [naive_solver|].
      naive_solver.
    + rewrite (forest_kids _ _ _ _ _ _ Hf). case_decide as Hc; [|done].
      subst c. rewrite Hpy. naive_solver.
  - intros c p. rewrite Hfp. intros Hc. apply Hlive. case_decide.
    + by simplify_eq.
    + by eapply forest_parent.
  - intros c p Hc _. rewrite !Hwt. case_decide as Hp.
    + subst p. apply elem_of_app in Hc as [Hc| ->%list_elem_of_singleton];
        [|done]. by apply (forest_order _ _ _ _ _ _ Hf).
    + by apply (forest_order _ _ _ _ _ _ Hf).
  - intros p j c Hj _.
    assert (c ≠ x ∧ (c = y → p = x ∧ j = length (K x)) ∧
            (c ≠ y → K p !! j = Some c)) as (Hcx & Hcy & Hold).
    { case_decide as Hp.
      - subst p. destruct (decide (j < length (K x))%nat) as [Hlt|Hge].
        + rewrite lookup_app_l in Hj by done.
          apply list_elem_of_lookup_2 in Hj as Hin. split_and!.
          * intros ->. by apply (Hxroot x).
          * intros ->. by destruct (Hyroot x).
          * done.
        + rewrite lookup_app_r in Hj by lia.
          apply list_lookup_singleton_Some in Hj as [Hj0 <-].
          split_and!; [done| |done]. intros _. split; [done|lia].
      - apply list_elem_of_lookup_2 in Hj as Hin. split_and!.
        + intros ->. by apply (Hxroot p).
        + intros ->. by destruct (Hyroot p).
        + done. }
    unfold deg, mk. rewrite Hfk, Hfm, decide_False by done.
    destruct (decide (c = y)) as [->|Hne].
    + destruct (Hcy eq_refl) as [-> ->]. rewrite Hky. simpl. lia.
    + apply (forest_degree _ _ _ _ _ _ Hf p j c); [by apply Hold|done].
Qed.

(** The state of the consolidation: the roots that are still in the ring
    ([Rrem]), the trees entered in the degree table, and the tree in hand
    ([cur]). *)
Record cons_inv (m : mem) (K A : ptr → list ptr) (Rrem : list ptr)
  (degree : list (option ptr)) (cur : option ptr) : Prop := {
  ci_forest : forest m K A None None None;
  ci_ring : ring m Rrem;
  ci_nodup : NoDup Rrem;
  ci_roots : ∀ r, fp m r = Some None ↔
      r ∈ Rrem ∨ (∃ d, rd degree d = Some (Some r)) ∨ cur = Some r;
  ci_table : ∀ d t, rd degree d = Some (Some t) →
      fk m t = Some d ∧ ring m [t] ∧ (t ∉ Rrem) ∧ cur ≠ Some t;
  ci_cur : ∀ e, cur = Some e → ring m [e] ∧ e ∉ Rrem;
  ci_length : Z.of_nat (length degree)
              = degreeSize (Z.of_nat (base.size (dom m)))
}.

Lemma rd_insert {X} (l : list X) (i j : Z) (x : X) :
  0 ≤ i < Z.of_nat (length l) →
  rd (<[Z.to_nat i := x]> l) j = if decide (j = i) then Some x else rd l j.
Proof.
  intros Hi. apply (rd_wr l i j x). by apply wr_in_range.
Qed.

Lemma dom_live_eq (m m' : mem) :
  (∀ q, live m' q ↔ live m q) → dom m' = dom m.
Proof. intros H. apply set_eq. intros q. rewrite !elem_of_dom. apply H. Qed.

Lemma consolidate_link_spec fuel : ∀ m K A Rrem degree e d,
  cons_inv m K A Rrem degree (Some e) → fk m e = Some d →
  Z.of_nat (length degree) - d < Z.of_nat fuel →
  ∃ m' K' A' degree' e' d',
    consolidate_link fuel m degree e d = Some (m', degree', e', d') ∧
    cons_inv m' K' A' Rrem degree' (Some e') ∧
    fk m' e' = Some d' ∧ rd degree' d' = Some None ∧
    (∀ q, fw m' q = fw m q ∧ fv m' q = fv m q).
Proof.
  induction fuel as [|fuel IH]; intros m K A Rrem degree e d Hci Hke Hfuel.
  { pose proof (ci_forest _ _ _ _ _ _ Hci) as Hf.
    assert (live m e) as Hle by (by eapply view_live).
    pose proof (forest_degree_bound m K A e Hf Hle) as Hb.
    unfold deg in Hb. rewrite Hke in Hb. simpl in Hb.
    rewrite <-(ci_length _ _ _ _ _ _ Hci) in Hb. lia. }
  pose proof (ci_forest _ _ _ _ _ _ Hci) as Hf.
  assert (live m e) as Hle by (by eapply view_live).
  pose proof (forest_degree_bound m K A e Hf Hle) as Hb.
  unfold deg in Hb. rewrite Hke in Hb. simpl in Hb.
  rewrite <-(ci_length _ _ _ _ _ _ Hci) in Hb.
  cbn [consolidate_link].
  destruct (rd_in_range degree d Hb) as [slot Hslot]. rewrite Hslot.
  cbn [mbind option_bind].
  destruct slot as [other|].
  2:{ exists m, K, A, degree, e, d. by split_and!. }
  destruct (ci_table _ _ _ _ _ _ Hci d other Hslot)
    as (Hko & Hro & HoR & Hoe).
  assert (other ≠ e) as Hne by congruence.
  destruct (ci_cur _ _ _ _ _ _ Hci e eq_refl) as [Hre HeR].
  assert (fp m e = Some None) as Hpe.
  { apply (ci_roots _ _ _ _ _ _ Hci). eauto. }
  assert (fp m other = Some None) as Hpo.
  { apply (ci_roots _ _ _ _ _ _ Hci). eauto. }
  assert (live m other) as Hlo by (by eapply view_live).
  (* the part of the body after the choice of the root *)
  assert (∀ x y degree1,
    (x = e ∧ y = other ∨ x = other ∧ y = e) → wt m x ≤ wt m y →
    length degree1 = length degree →
    (∀ d', rd degree1 d' = if decide (d' = d) then Some (Some y)
                           else rd degree d') →
    ∃ m' K' A' degree' e' d',
      (d0 ← rd degree1 d;
       y ← d0;
       ne ← m !! x;
       m ← match child ne with
           | None =>
               m ← upd m x (set_child (Some y));
               upd m y (set_parent (Some x))
           | Some _ =>
               m ← upd m y (set_parent (Some x));
               ne ← m !! x;
               c ← child ne;
               m ← upd m y (set_right c);
               ne ← m !! x;
               c ← child ne;
               nc ← m !! c;
               m ← upd m y (set_left (left_ nc));
               ny ← m !! y;
               m ← upd m (right_ ny) (set_left y);
               ny ← m !! y;
               upd m (left_ ny) (set_right y)
           end;
       m ← upd m x (λ n, set_childrens (childrens n + 1) n);
       m ← upd m y (set_marked false);
       degree ← wr degree1 d None;
       consolidate_link fuel m degree x (d + 1))
      = Some (m', degree', e', d') ∧
      cons_inv m' K' A' Rrem degree' (Some e') ∧
      fk m' e' = Some d' ∧ rd degree' d' = Some None ∧
      (∀ q, fw m' q = fw m q ∧ fv m' q = fv m q)) as Hrest.
  { intros x y degree1 Hxy Hw Hlen1 Hdeg1.
    assert (x ≠ y ∧ fp m x = Some None ∧ fp m y = Some None ∧
            fk m x = Some d ∧ fk m y = Some d ∧ ring m [x] ∧ ring m [y] ∧
            (x ∉ Rrem) ∧ (y ∉ Rrem) ∧ live m x ∧ live m y)
      as (Hxy' & Hpx & Hpy & Hkx & Hky & Hrx & Hry & HxR & HyR & Hlx & Hly).
    { destruct Hxy as [[-> ->]|[-> ->]]; by split_and!. }
    rewrite Hdeg1, decide_True by done. cbn [mbind option_bind].
    assert (∀ p, y ∉ K p) as Hyroot.
    { intros p Hin. apply (forest_kids _ _ _ _ _ _ Hf) in Hin. congruence. }
    assert (∀ p, x ∉ K p) as Hxroot.
    { intros p Hin. apply (forest_kids _ _ _ _ _ _ Hf) in Hin. congruence. }
    pose proof (forest_child _ _ _ _ _ _ Hf x Hlx) as Hcx.
    pose proof (forest_ring _ _ _ _ _ _ Hf x) as Hringx.
    pose proof (forest_nodup _ _ _ _ _ _ Hf x) as Hndx.
    apply ring_singleton in Hry as [Hly_l Hly_r].
    read_step m x nx Hnx.
    assert (child nx = head (K x)) as ->.
    { pose proof (view_Some child _ _ _ Hnx) as H'. rewrite Hcx in H'.
      by simplify_eq. }
    match goal with
    | |- context [?e0 ≫= (λ m0, upd m0 x _ ≫= _)] =>
        assert (∃ m5, e0 = Some m5 ∧
          (∀ q, fp m5 q = if decide (q = y) then Some (Some x) else fp m q) ∧
          (∀ q, fc m5 q = if decide (q = x) then Some (head (K x ++ [y]))
                          else fc m q) ∧
          (∀ q, fk m5 q = fk m q ∧ fm m5 q = fm m q ∧ fw m5 q = fw m q ∧
                fv m5 q = fv m q) ∧
          ring m5 (K x ++ [y]) ∧
          (∀ q, q ≠ y → q ∉ K x → fl m5 q = fl m q ∧ fr m5 q = fr m q))
          as (m5 & -> & Hfp5 & Hfc5 & Hpay5 & Hring5 & Hout5)
    end.
    { destruct (K x) as [|c cs] eqn:HK; cbn [head app].
      - upd_step m1 Hu1. upd_step m2 Hu2. exists m2. split; [done|].
        split_and!.
        + intros q. views Hu2. views Hu1. done.
        + intros q. views Hu2. views Hu1. done.
        + intros q. split_and!; views Hu2; views Hu1; done.
        + apply ring_singleton. split; views Hu2; views Hu1; done.
        + intros q _ _. split; views Hu2; views Hu1; done.
      - assert (c ∈ K x) as Hc by (rewrite HK; set_solver).
        destruct (forest_kids_live _ _ _ _ _ _ _ _ Hf Hc) as [Hlc _].
        destruct (ring_head _ _ _ Hringx) as [Hflc Hfrc].
        remember (List.last cs c) as e_ eqn:He_.
        assert (e_ ∈ c :: cs) as He_in.
        { rewrite He_. destruct cs; [set_solver|]. apply elem_of_cons. right.
          by apply last_elem_of. }
        assert (∀ q, q ∈ c :: cs → live m q ∧ q ≠ x ∧ q ≠ y) as Hkid.
        { intros q Hq. rewrite <-HK in Hq. split_and!.
          - by destruct (forest_kids_live _ _ _ _ _ _ _ _ Hf Hq).
          - intros ->. by apply (Hxroot x).
          - intros ->. by apply (Hyroot x). }
        destruct (Hkid c ltac:(set_solver)) as (_ & Hcx' & Hcy).
        destruct (Hkid e_ He_in) as (Hle_ & He_x & He_y).
        upd_step m1 Hu1. read_step m1 x nx1 Hnx1.
        assert (child nx1 = Some c) as ->.
        { pose proof (view_Some child _ _ _ Hnx1) as H'.
          views_in Hu1 H'. rewrite Hcx in H'. by simplify_eq. }
        cbn [mbind option_bind].
        upd_step m2 Hu2. read_step m2 x nx2 Hnx2.
        assert (child nx2 = Some c) as ->.
        { pose proof (view_Some child _ _ _ Hnx2) as H'.
          views_in Hu2 H'. views_in Hu1 H'. rewrite Hcx in H'.
          by simplify_eq. }
        cbn [mbind option_bind].
        read_step m2 c nc Hnc.
        assert (left_ nc = e_) as ->.
        { pose proof (view_Some left_ _ _ _ Hnc) as H'.
          views_in Hu2 H'. views_in Hu1 H'. rewrite Hflc in H'.
          by simplify_eq. }
        upd_step m3 Hu3. read_step m3 y ny3 Hny3.
        assert (right_ ny3 = c) as ->.
        { pose proof (view_Some right_ _ _ _ Hny3) as H'.
          views_in Hu3 H'. views_in Hu2 H'. rewrite decide_True in H' by done.
          by simplify_eq. }
        upd_step m4 Hu4. read_step m4 y ny4 Hny4.
        assert (left_ ny4 = e_) as ->.
        { pose proof (view_Some left_ _ _ _ Hny4) as H'.
          views_in Hu4 H'. views_in Hu3 H'.
          rewrite decide_False, decide_True in H' by done. by simplify_eq. }
        upd_step m5 Hu5. exists m5. split; [done|].
        assert (∀ q, fl m5 q = if decide (q = c) then Some y
                               else if decide (q = y) then Some e_
                               else fl m q) as Hfl5.
        { intros q. views Hu5. views Hu4. views Hu3. views Hu2. views Hu1.
          done. }
        assert (∀ q, fr m5 q = if decide (q = e_) then Some y
                               else if decide (q = y) then Some c
                               else fr m q) as Hfr5.
        { intros q. views Hu5. views Hu4. views Hu3. views Hu2. views Hu1.
          done. }
        split_and!.
        + intros q. views Hu5. views Hu4. views Hu3. views Hu2. views Hu1.
          done.
        + intros q. views Hu5. views Hu4. views Hu3. views Hu2. views Hu1.
          case_decide; [by subst|done].
        + intros q.
          split_and!; views Hu5; views Hu4; views Hu3; views Hu2; views Hu1;
            done.
        + apply (ring_snoc m m5); try done.
          * intros Hin. rewrite <-HK in Hin. by apply (Hyroot x).
          * intros q Hq. rewrite Hfl5. destruct (Hkid q Hq) as (_ & _ & ?).
            case_decide; [done|]. by rewrite decide_False.
          * intros q Hq. rewrite Hfr5, <-He_.
            destruct (Hkid q Hq) as (_ & _ & ?).
            case_decide; [done|]. by rewrite decide_False.
          * rewrite Hfl5, decide_False, decide_True by done. by rewrite He_.
          * rewrite Hfr5, decide_False, decide_True by done. done.
        + intros q Hqy Hq. rewrite Hfl5, Hfr5.
          rewrite !decide_False; [done|..]; try done; intros ->; set_solver. }
    cbn [mbind option_bind].
    assert (∀ q, live m5 q ↔ live m q) as Hlive5.
    { intros q. apply (view_eq_live weight). by destruct (Hpay5 q) as (_ & _ & -> & _). }
    assert (live m5 x) as Hlx5 by by apply Hlive5.
    assert (live m5 y) as Hly5 by by apply Hlive5.
    upd_step m6 Hu6. upd_step m7 Hu7.
    assert (wr degree1 d None = Some (<[Z.to_nat d := None]> degree1)) as ->.
    { apply wr_in_range. lia. }
    cbn [mbind option_bind].
    set (degree2 := <[Z.to_nat d := None]> degree1).
    assert (∀ d', rd degree2 d' = if decide (d' = d) then Some None
                                  else rd degree d') as Hdeg2.
    { intros d'. unfold degree2. rewrite rd_insert by lia.
      case_decide; [done|]. rewrite Hdeg1. by rewrite decide_False. }
    set (K' := λ q, if decide (q = x) then K x ++ [y] else K q).
    set (A' := λ q, if decide (q = y ∨ y ∈ A q) then A q ++ [x] else A q).
    assert (∀ q, fw m7 q = fw m q ∧ fv m7 q = fv m q) as Hpay7.
    { intros q. destruct (Hpay5 q) as (_ & _ & ? & ?).
      split; views Hu7; views Hu6; done. }
    assert (∀ q, fl m7 q = fl m5 q ∧ fr m7 q = fr m5 q) as Hlr7.
    { intros q. split; views Hu7; views Hu6; done. }
    assert (∀ q, fp m7 q = if decide (q = y) then Some (Some x) else fp m q)
      as Hfp7.
    { intros q. views Hu7. views Hu6. apply Hfp5. }
    assert (∀ q, fk m7 q = if decide (q = x) then Some (d + 1) else fk m q)
      as Hfk7.
    { intros q. views Hu7. views Hu6. destruct (Hpay5 q) as (-> & _).
      case_decide; [subst; by rewrite Hkx|done]. }
    assert (∀ q, live m7 q ↔ live m q) as Hlive7.
    { intros q. apply (view_eq_live weight). by destruct (Hpay7 q) as (-> & _). }
    assert (forest m7 K' A' None None None) as Hf7.
    { apply (link_inv m m7 K A x y d); try done.
      - intros q. views Hu7. views Hu6. apply Hfc5.
      - intros q. views Hu7. views Hu6. by destruct (Hpay5 q) as (_ & -> & _).
      - intros q. apply Hpay7.
      - eapply ring_frame; [exact Hring5|]. intros q _. apply Hlr7.
      - intros q Hq Hq'. destruct (Hlr7 q) as [-> ->]. by apply Hout5. }
    assert (∀ q, fp m q = Some None → q ≠ y →
                 fl m7 q = fl m q ∧ fr m7 q = fr m q) as Hrootlinks.
    { intros q Hq Hqy. destruct (Hlr7 q) as [-> ->]. apply Hout5; [done|].
      intros Hin. apply (forest_kids _ _ _ _ _ _ Hf) in Hin. congruence. }
    assert (cons_inv m7 K' A' Rrem degree2 (Some x)) as Hci7.
    { constructor.
      - done.
      - eapply ring_frame; [apply (ci_ring _ _ _ _ _ _ Hci)|].
        intros q Hq. apply Hrootlinks.
        + apply (ci_roots _ _ _ _ _ _ Hci). by left.
        + intros ->. done.
      - apply (ci_nodup _ _ _ _ _ _ Hci).
      - intros r. rewrite Hfp7. case_decide as Hr.
        + subst r. split; [done|]. intros [?|[(d' & Hd')|?]]; [done| |congruence].
          rewrite Hdeg2 in Hd'. case_decide; [done|].
          destruct (ci_table _ _ _ _ _ _ Hci d' y Hd') as (Hk' & _ & _ & Hcur).
          destruct Hxy as [[-> ->]|[-> ->]]; [|done]. congruence.
        + rewrite (ci_roots _ _ _ _ _ _ Hci). split.
          * intros [?|[(d' & Hd')|Hcur]]; [by left| |].
            -- destruct (decide (d' = d)) as [->|Hd].
               ++ assert (r = other) as -> by congruence.
                  destruct Hxy as [[-> ->]|[-> ->]]; [done|]. by right; right.
               ++ right. left. exists d'. rewrite Hdeg2. by rewrite decide_False.
            -- assert (r = e) as -> by congruence.
               destruct Hxy as [[-> ->]|[-> ->]]; [|done]. by right; right.
          * intros [?|[(d' & Hd')|Hcur]]; [by left| |].
            -- rewrite Hdeg2 in Hd'. case_decide; [done|]. right. left. eauto.
            -- assert (r = x) as -> by congruence.
               destruct Hxy as [[-> ->]|[-> ->]]; [by right; right|].
               right. left. eauto.
      - intros d' t Hd'. rewrite Hdeg2 in Hd'. case_decide as Hdd; [done|].
        destruct (ci_table _ _ _ _ _ _ Hci d' t Hd') as (Hk' & Hr' & HtR & Hcur).
        assert (t ≠ other) as Hto by (intros ->; congruence).
        assert (t ≠ e) as Hte by congruence.
        assert (t ≠ x ∧ t ≠ y) as [Htx Hty]
          by (destruct Hxy as [[-> ->]|[-> ->]]; done).
        assert (fp m t = Some None) as Hpt.
        { apply (ci_roots _ _ _ _ _ _ Hci). eauto. }
        split_and!.
        + rewrite Hfk7. by rewrite decide_False.
        + eapply ring_frame; [exact Hr'|].
          intros q ->%list_elem_of_singleton. by apply Hrootlinks.
        + done.
        + congruence.
      - intros ? [= <-]. split; [|done].
        eapply ring_frame; [exact Hrx|].
        intros q ->%list_elem_of_singleton. by apply Hrootlinks.
      - unfold degree2. rewrite length_insert, Hlen1.
        rewrite (dom_live_eq m m7) by done. apply Hci. }
    destruct (IH m7 K' A' Rrem degree2 x (d + 1) Hci7)
      as (m' & K'' & A'' & degree' & e' & d' & Hrun & Hci' & Hk' & Hrd' & Hpay');
      [by rewrite Hfk7, decide_True| |].
    { unfold degree2. rewrite length_insert, Hlen1. lia. }
    exists m', K'', A'', degree', e', d'. split_and!; try done.
    intros q. destruct (Hpay' q) as [-> ->]. apply Hpay7. }
  read_step m e ne Hnee. read_step m other no Hno.
  rewrite <-(wt_Some _ _ _ Hnee), <-(wt_Some _ _ _ Hno).
  case_decide as Hw.
  - assert (wr degree d (Some e) = Some (<[Z.to_nat d := Some e]> degree))
      as -> by (apply wr_in_range; lia).
    cbn [mbind option_bind].
    apply (Hrest other e); [by right|lia|by rewrite length_insert|].
    intros d'. by rewrite rd_insert by lia.
  - cbn [mbind option_bind].
    apply (Hrest e other); [by left|lia|done|].
    intros d'. case_decide; [by subst|done].
Qed.

Lemma consolidate_roots_spec fuel : ∀ m K A degree e rest,
  cons_inv m K A (e :: rest) degree None →
  Z.of_nat (length rest) + Z.of_nat (length degree) + 1 < Z.of_nat fuel →
  ∃ m' K' A' degree',
    consolidate_roots fuel m degree e = Some (m', degree') ∧
    cons_inv m' K' A' [] degree' None ∧
    (∀ q, fw m' q = fw m q ∧ fv m' q = fv m q).
Proof.
  induction fuel as [|fuel IH]; intros m K A degree e rest Hci Hfuel; [lia|].
  pose proof (ci_forest _ _ _ _ _ _ Hci) as Hf.
  pose proof (ci_ring _ _ _ _ _ _ Hci) as Hring.
  pose proof (ci_nodup _ _ _ _ _ _ Hci) as Hnd.
  assert (∀ q, q ∈ e :: rest → fp m q = Some None) as Hroot.
  { intros q Hq. apply (ci_roots _ _ _ _ _ _ Hci). by left. }
  assert (∀ q, q ∈ e :: rest → live m q) as Hlive.
  { intros q Hq. eapply view_live. by apply Hroot. }
  assert (live m e) as Hle by (apply Hlive; set_solver).
  destruct (ring_head _ _ _ Hring) as [Hfle Hfre].
  remember (hd e rest) as rx eqn:Hrx.
  remember (List.last rest e) as lx eqn:Hlx.
  assert (rx ∈ e :: rest) as Hrxin.
  { rewrite Hrx. destruct rest; set_solver. }
  assert (lx ∈ e :: rest) as Hlxin.
  { rewrite Hlx. destruct rest; [set_solver|]. apply elem_of_cons. right.
    by apply last_elem_of. }
  assert (e = rx ↔ rest = []) as Hlast.
  { rewrite Hrx. destruct rest as [|e2 rest2]; [done|]. simpl.
    apply NoDup_cons in Hnd as [Hnd _]. split; [|done]. intros ->.
    destruct Hnd. set_solver. }
  cbn [consolidate_roots].
  read_step m e ne Hne.
  assert (right_ ne = rx ∧ left_ ne = lx) as [-> ->].
  { pose proof (view_Some right_ _ _ _ Hne) as H1.
    pose proof (view_Some left_ _ _ _ Hne) as H2.
    rewrite Hfre in H1. rewrite Hfle in H2. by simplify_eq. }
  assert (live m rx) as Hlrx by by apply Hlive.
  assert (live m lx) as Hllx by by apply Hlive.
  upd_step m1 Hu1. read_step m1 e ne1 Hne1.
  assert (right_ ne1 = rx ∧ left_ ne1 = lx) as [-> ->].
  { pose proof (view_Some right_ _ _ _ Hne1) as H1.
    pose proof (view_Some left_ _ _ _ Hne1) as H2.
    views_in Hu1 H1. views_in Hu1 H2. rewrite Hfre in H1.
    rewrite Hfle in H2. case_decide; by simplify_eq. }
  upd_step m2 Hu2. upd_step m3 Hu3. upd_step m4 Hu4.
  read_step m4 e ne4 Hne4.
  assert (same_payload m m4) as Hsame.
  { intros q. split_and!; views Hu4; views Hu3; views Hu2; views Hu1; done. }
  assert (∀ q, fl m4 q = if decide (q = e) then Some e
                         else if decide (q = rx) then Some lx else fl m q)
    as Hfl4.
  { intros q. views Hu4. views Hu3. views Hu2. views Hu1. done. }
  assert (∀ q, fr m4 q = if decide (q = e) then Some e
                         else if decide (q = lx) then Some rx else fr m q)
    as Hfr4.
  { intros q. views Hu4. views Hu3. views Hu2. views Hu1. done. }
  assert (∀ q, q ∉ e :: rest → fl m4 q = fl m q ∧ fr m4 q = fr m q) as Hout.
  { intros q Hq. rewrite Hfl4, Hfr4.
    rewrite !decide_False; [done|..]; intros ->; set_solver. }
  assert (∀ q, live m4 q ↔ live m q) as Hlive4.
  { intros q. by apply same_payload_live. }
  assert (fk m4 e = Some (childrens ne4)) as Hk4 by (by rewrite Hne4).
  assert (cons_inv m4 K A rest degree (Some e)) as Hci4.
  { constructor.
    - eapply forest_frame; [done..|]. intros p q Hq. apply Hout.
      intros Hin%Hroot. apply (forest_kids _ _ _ _ _ _ Hf) in Hq. congruence.
    - destruct (decide (rest = [])) as [->|Hne']; [done|].
      apply (ring_tail m m4 e rest); try done.
      + intros q Hq. rewrite Hfl4, <-Hrx, <-Hlx.
        rewrite decide_False; [done|]. intros ->.
        by apply NoDup_cons in Hnd as [? _].
      + intros q Hq. rewrite Hfr4, <-Hrx, <-Hlx.
        rewrite decide_False; [done|]. intros ->.
        by apply NoDup_cons in Hnd as [? _].
    - by apply NoDup_cons in Hnd as [_ ?].
    - intros r. destruct (Hsame r) as (-> & _).
      rewrite (ci_roots _ _ _ _ _ _ Hci), elem_of_cons. naive_solver.
    - intros d t Hd.
      destruct (ci_table _ _ _ _ _ _ Hci d t Hd) as (Hk & Hr & HtR & _).
      destruct (Hsame t) as (_ & _ & -> & _). split_and!; [done| | |].
      + eapply ring_frame; [exact Hr|].
        intros q ->%list_elem_of_singleton. by apply Hout.
      + set_solver.
      + intros [= ->]. set_solver.
    - intros ? [= <-]. split.
      + apply ring_singleton. rewrite Hfl4, Hfr4. by rewrite !decide_True.
      + by apply NoDup_cons in Hnd as [? _].
    - rewrite (dom_live_eq m m4) by done. apply Hci. }
  destruct (consolidate_link_spec fuel m4 K A rest degree e (childrens ne4)
              Hci4 Hk4)
    as (m5 & K5 & A5 & degree5 & e5 & d5 & -> & Hci5 & Hk5 & Hrd5 & Hpay5).
  { pose proof (forest_degree_bound m4 K A e (ci_forest _ _ _ _ _ _ Hci4)
                  ltac:(by apply Hlive4)) as Hb.
    unfold deg in Hb. rewrite Hk4 in Hb. simpl in Hb. lia. }
  cbn [mbind option_bind].
  pose proof (rd_Some_range _ _ _ Hrd5) as Hd5.
  rewrite (wr_in_range degree5 d5 (Some e5) Hd5). cbn [mbind option_bind].
  set (degree6 := <[Z.to_nat d5 := Some e5]> degree5).
  assert (∀ d, rd degree6 d = if decide (d = d5) then Some (Some e5)
                              else rd degree5 d) as Hdeg6.
  { intros d. unfold degree6. by rewrite rd_insert. }
  destruct (ci_cur _ _ _ _ _ _ Hci5 e5 eq_refl) as [Hr5 He5].
  assert (cons_inv m5 K5 A5 rest degree6 None) as Hci6.
  { constructor; try apply Hci5.
    - intros r. rewrite (ci_roots _ _ _ _ _ _ Hci5). split.
      + intros [?|[(d & Hd)|[= ->]]]; [by left| |].
        * right. left. exists d. rewrite Hdeg6.
          rewrite decide_False; [done|]. intros ->. congruence.
        * right. left. exists d5. by rewrite Hdeg6, decide_True.
      + intros [?|[(d & Hd)|?]]; [by left| |done].
        rewrite Hdeg6 in Hd. case_decide; [|eauto].
        right. right. congruence.
    - intros d t Hd. rewrite Hdeg6 in Hd. case_decide.
      + simplify_eq. by split_and!.
      + destruct (ci_table _ _ _ _ _ _ Hci5 d t Hd) as (? & ? & ? & _).
        by split_and!.
    - done.
    - unfold degree6. rewrite length_insert. apply Hci5. }
  assert (∀ q, fw m5 q = fw m q ∧ fv m5 q = fv m q) as Hpay.
  { intros q. destruct (Hpay5 q) as [-> ->].
    by destruct (Hsame q) as (_ & _ & _ & -> & _ & ->). }
  destruct rest as [|e2 rest2].
  - rewrite decide_True by (by apply Hlast).
    exists m5, K5, A5, degree6. by split_and!.
  - rewrite decide_False by (rewrite Hlast; done).
    assert (rx = e2) as -> by (by rewrite Hrx).
    destruct (IH m5 K5 A5 degree6 e2 rest2 Hci6)
      as (m' & K' & A' & degree' & Hrun & Hci' & Hpay').
    { unfold degree6. rewrite length_insert.
      assert (length degree5 = length degree) as ->; [|simpl in Hfuel; lia].
      pose proof (ci_length _ _ _ _ _ _ Hci5) as H5.
      pose proof (ci_length _ _ _ _ _ _ Hci) as H0.
      assert (dom m5 = dom m) as Hdom.
      { apply dom_live_eq. intros q.
        etrans; [apply (view_eq_live weight); by destruct (Hpay q) as [-> _]|done]. }
      rewrite Hdom in H5. lia. }
    exists m', K', A', degree'. split_and!; try done.
    intros q. destruct (Hpay' q) as [-> ->]. apply Hpay.
Qed.

(** The state of the rebuilding loop: [Rcur] lists the new root ring from
    the elected minimum; it holds the table entries below index [i]. *)
Record rebuild_inv (m : mem) (degree : list (option ptr)) (i : Z)
  (st : mem * option ptr) (Rcur : list ptr) : Prop := {
  rb_payload : same_payload m st.1;
  rb_links : ∀ q, fp m q ≠ Some None →
                  fl st.1 q = fl m q ∧ fr st.1 q = fr m q;
  rb_ring : ring st.1 Rcur;
  rb_nodup : NoDup Rcur;
  rb_min : st.2 = head Rcur;
  rb_min_ok : min_ok st.1 Rcur;
  rb_roots : ∀ r, r ∈ Rcur ↔ ∃ d, 0 ≤ d < i ∧ rd degree d = Some (Some r)
}.

Lemma consolidate_rebuild_spec m K A degree i st Rcur :
  cons_inv m K A [] degree None →
  0 ≤ i < Z.of_nat (length degree) →
  rebuild_inv m degree i st Rcur →
  ∃ st' Rcur',
    consolidate_rebuild degree i st = Some st' ∧
    rebuild_inv m degree (i + 1) st' Rcur'.
Proof.
  intros Hci Hi [Hsame Hlinks Hring Hnd Hmin Hmo Hroots].
  destruct st as [m0 min]. simpl in *.
  unfold consolidate_rebuild.
  destruct (rd_in_range degree i Hi) as [slot Hslot]. rewrite Hslot.
  cbn [mbind option_bind].
  destruct slot as [y|].
  2:{ exists (m0, min), Rcur. split; [done|]. constructor; try done.
      intros r. rewrite Hroots. split; intros (d & Hd & Hr).
      - exists d. split; [lia|done].
      - exists d. split; [|done].
        destruct (decide (d = i)) as [->|]; [congruence|lia]. }
  destruct (ci_table _ _ _ _ _ _ Hci i y Hslot) as (Hky & _).
  assert (∀ r, r ∈ Rcur → fp m r = Some None ∧ r ≠ y ∧ live m0 r) as Hcur.
  { intros r (d & Hd & Hr)%Hroots.
    assert (fp m r = Some None) as Hp.
    { apply (ci_roots _ _ _ _ _ _ Hci). eauto. }
    split_and!; [done| |].
    - intros ->. destruct (ci_table _ _ _ _ _ _ Hci d y Hr) as (Hky' & _).
      rewrite Hky in Hky'. simplify_eq. lia.
    - apply (same_payload_live m m0); [done|]. by eapply view_live. }
  assert (fp m y = Some None) as Hpy.
  { apply (ci_roots _ _ _ _ _ _ Hci). eauto. }
  assert (live m0 y) as Hly.
  { apply (same_payload_live m m0); [done|]. by eapply view_live. }
  assert (y ∉ Rcur) as HyR by (intros Hin; by destruct (Hcur y Hin) as (_ & ? & _)).
  assert (∀ Rnew : list ptr, (∀ r, r ∈ Rnew ↔ r = y ∨ r ∈ Rcur) →
            ∀ r, r ∈ Rnew ↔ ∃ d, 0 ≤ d < i + 1 ∧ rd degree d = Some (Some r))
    as Hmem.
  { intros Rnew HR r. rewrite HR, Hroots. split.
    - intros [->|(d & Hd & Hr)]; [exists i; split; [lia|done]|].
      exists d. split; [lia|done].
    - intros (d & Hd & Hr). destruct (decide (d = i)) as [->|].
      + left. congruence.
      + right. exists d. split; [lia|done]. }
  rewrite Hmin. destruct Rcur as [|h l]; simpl.
  - upd_step m1 Hu1. upd_step m2 Hu2.
    exists (m2, Some y), [y]. split; [done|]. constructor; simpl.
    + intros q. destruct (Hsame q) as (? & ? & ? & ? & ? & ?).
      split_and!; views Hu2; views Hu1; done.
    + intros q Hq. destruct (Hlinks q Hq) as [<- <-].
      split; views Hu2; views Hu1; rewrite decide_False; try done;
        intros ->; done.
    + apply ring_singleton. split; views Hu2; views Hu1; by rewrite ?decide_True.
    + apply NoDup_singleton.
    + done.
    + intros r ->%list_elem_of_singleton. simpl. lia.
    + apply Hmem. intros r. set_solver.
  - destruct (Hcur h ltac:(set_solver)) as (Hph & Hhy & Hlh).
    destruct (ring_head _ _ _ Hring) as [Hflh Hfrh].
    remember (List.last l h) as e_ eqn:He_.
    assert (e_ ∈ h :: l) as He_in.
    { rewrite He_. destruct l; [set_solver|]. apply elem_of_cons. right.
      by apply last_elem_of. }
    destruct (Hcur e_ He_in) as (Hpe & Hey & Hle).
    upd_step m1 Hu1. read_step m1 h nh1 Hnh1.
    assert (left_ nh1 = e_) as ->.
    { pose proof (view_Some left_ _ _ _ Hnh1) as H'.
      views_in Hu1 H'. rewrite Hflh in H'. by simplify_eq. }
    upd_step m2 Hu2. read_step m2 h nh2 Hnh2.
    assert (left_ nh2 = e_) as ->.
    { pose proof (view_Some left_ _ _ _ Hnh2) as H'.
      views_in Hu2 H'. views_in Hu1 H'. rewrite decide_False in H' by done.
      rewrite Hflh in H'. by simplify_eq. }
    upd_step m3 Hu3. upd_step m4 Hu4.
    read_step m4 y ny Hny. read_step m4 h nh Hnh.
    rewrite <-(wt_Some _ _ _ Hny), <-(wt_Some _ _ _ Hnh).
    assert (∀ q, fl m4 q = if decide (q = h) then Some y
                           else if decide (q = y) then Some e_
                           else fl m0 q) as Hfl4.
    { intros q. views Hu4. views Hu3. views Hu2. views Hu1. done. }
    assert (∀ q, fr m4 q = if decide (q = e_) then Some y
                           else if decide (q = y) then Some h
                           else fr m0 q) as Hfr4.
    { intros q. views Hu4. views Hu3. views Hu2. views Hu1. done. }
    assert (same_payload m0 m4) as Hsame4.
    { intros q. split_and!; views Hu4; views Hu3; views Hu2; views Hu1; done. }
    assert (same_payload m m4) as Hsame'.
    { intros q. destruct (Hsame q) as (? & ? & ? & ? & ? & ?).
      destruct (Hsame4 q) as (? & ? & ? & ? & ? & ?).
      split_and!; congruence. }
    assert (ring m4 (h :: l ++ [y])) as Hring4.
    { apply (ring_snoc m0 m4); try done.
      - intros q Hq. rewrite Hfl4. destruct (Hcur q Hq) as (_ & ? & _).
        case_decide; [done|]. by rewrite decide_False.
      - intros q Hq. rewrite Hfr4, <-He_. destruct (Hcur q Hq) as (_ & ? & _).
        case_decide; [done|]. by rewrite decide_False.
      - rewrite Hfl4, decide_False, decide_True by done. by rewrite He_.
      - by rewrite Hfr4, decide_False, decide_True by done. }
    assert (∀ q, fp m q ≠ Some None →
                 fl m4 q = fl m q ∧ fr m4 q = fr m q) as Hlinks4.
    { intros q Hq. destruct (Hlinks q Hq) as [<- <-]. rewrite Hfl4, Hfr4.
      rewrite !decide_False; [done|..]; intros ->; done. }
    assert (∀ q, wt m4 q = wt m0 q) as Hwt.
    { intros q. by apply same_payload_wt. }
    case_decide as Hw.
    + exists (m4, Some y), (y :: h :: l). split; [done|].
      constructor; simpl; try done.
      * apply (ring_rotate m4 (h :: l) [y]). by rewrite <-app_comm_cons.
      * apply NoDup_cons. split; [done|done].
      * apply min_ok_cons. intros r Hr. rewrite !Hwt. rewrite !Hwt in Hw.
        apply elem_of_cons in Hr as [->|Hr]; [lia|].
        rewrite min_ok_cons in Hmo. specialize (Hmo r Hr). lia.
      * apply Hmem. intros r. set_solver.
    + exists (m4, Some h), (h :: l ++ [y]). split; [done|].
      constructor; simpl; try done.
      * rewrite app_comm_cons. apply NoDup_app. split_and!; [done| |].
        -- intros r Hr ->%list_elem_of_singleton. done.
        -- apply NoDup_singleton.
      * apply min_ok_cons. intros r Hr. rewrite !Hwt. rewrite !Hwt in Hw.
        apply elem_of_app in Hr as [Hr| ->%list_elem_of_singleton]; [|lia].
        rewrite min_ok_cons in Hmo. by apply Hmo.
      * apply Hmem. intros r. set_solver.
Qed.

Lemma NoDup_live_length (m : mem) (l : list ptr) :
  NoDup l → (∀ q, q ∈ l → live m q) → (length l ≤ base.size (dom m))%nat.
Proof.
  intros Hnd Hl. unfold base.size, set_size. simpl.
  apply submseteq_length, NoDup_submseteq; [done|].
  intros q Hq. apply elem_of_elements, elem_of_dom. by apply Hl.
Qed.

Lemma degreeSize_pos n : 1 ≤ degreeSize n.
Proof. unfold degreeSize. pose proof (Z.log2_nonneg (n * n)). lia. Qed.

(** *** [consolidateFibonacciMinHeap] *)

Lemma consolidateFibonacciMinHeap_spec fuel m heap R K A :
  forest m K A None None None → rooted m heap R → sized m heap →
  indexed m heap → R ≠ [] →
  size heap + degreeSize (size heap) < Z.of_nat fuel →
  ∃ m' heap' R' K' A',
    consolidateFibonacciMinHeap fuel m heap = Some (m', heap') ∧
    heap_inv m' heap' R' K' A' ∧
    (∀ q, fw m' q = fw m q ∧ fv m' q = fv m q) ∧
    positions heap' = positions heap ∧ size heap' = size heap.
Proof.
  intros Hf Hr Hsz Hix HR Hfuel.
  destruct R as [|e rest]; [done|]. clear HR.
  unfold consolidateFibonacciMinHeap.
  rewrite (rooted_minimum _ _ _ Hr). cbn [head mbind option_bind].
  set (DS := degreeSize (size heap)) in *.
  pose proof (degreeSize_pos (size heap)) as HDS. fold DS in HDS.
  set (degree0 := replicate (Z.to_nat DS) (@None ptr)).
  assert (∀ d, rd degree0 d ≠ Some (Some e) ∧
               ∀ t, rd degree0 d ≠ Some (Some t)) as Hempty.
  { intros d. assert (∀ t, rd degree0 d ≠ Some (Some t)); [|done].
    intros t Hd. unfold rd, degree0 in Hd. case_decide; [|done].
    apply lookup_replicate in Hd as [? _]. done. }
  assert (cons_inv m K A (e :: rest) degree0 None) as Hci.
  { constructor; try done; try apply Hr.
    - intros r. rewrite <-(rooted_roots _ _ _ Hr). split; [by left|].
      intros [?|[(d & Hd)|?]]; [done| |done].
      by destruct (proj2 (Hempty d) r).
    - intros d t Hd. by destruct (proj2 (Hempty d) t).
    - unfold degree0. rewrite length_replicate, Z2Nat.id by lia.
      unfold DS. by rewrite Hsz. }
  assert (length (e :: rest) ≤ base.size (dom m))%nat as Hlen.
  { apply NoDup_live_length; [apply Hr|].
    intros q Hq. by eapply rooted_live. }
  destruct (consolidate_roots_spec fuel m K A degree0 e rest Hci)
    as (m1 & K1 & A1 & degree1 & -> & Hci1 & Hpay1).
  { unfold degree0. rewrite length_replicate, Z2Nat.id by lia.
    simpl in Hlen. unfold sized in Hsz. lia. }
  cbn [mbind option_bind].
  assert (Z.of_nat (length degree1) = DS) as Hlen1.
  { rewrite (ci_length _ _ _ _ _ _ Hci1).
    assert (dom m1 = dom m) as ->; [|unfold DS; by rewrite Hsz].
    apply dom_live_eq. intros q. apply (view_eq_live weight).
    by destruct (Hpay1 q) as [-> _]. }
  destruct (for_loop_inv
              (λ i st, ∃ Rcur, rebuild_inv m1 degree1 i st Rcur)
              (consolidate_rebuild degree1) (Z.to_nat DS) 0 (m1, None))
    as ([m2 min2] & -> & Rcur & Hrb).
  { exists []. constructor; simpl; try done.
    - apply NoDup_nil_2.
    - by intros r ?%elem_of_nil.
    - intros r. split; [by intros ?%elem_of_nil|]. intros (d & ? & _). lia. }
  { intros j st Hj (Rcur & Hrb).
    destruct (consolidate_rebuild_spec m1 K1 A1 degree1 j st Rcur Hci1)
      as (st' & Rcur' & ? & ?); [lia|done|]. eauto. }
  cbn [mbind option_bind].
  destruct Hrb as [Hsame Hlinks Hring Hnd Hmin Hmo Hroots]. simpl in *.
  exists m2, (with_minimum heap min2), Rcur, K1, A1.
  assert (∀ q, fw m2 q = fw m q ∧ fv m2 q = fv m q) as Hpay.
  { intros q. destruct (Hsame q) as (_ & _ & _ & -> & _ & ->). apply Hpay1. }
  assert (∀ q, live m2 q ↔ live m q) as Hlive.
  { intros q. apply (view_eq_live weight). by destruct (Hpay q) as [-> _]. }
  split_and!; try done.
  constructor.
  - eapply forest_frame; [apply Hci1|done|].
    intros p q Hq. apply Hlinks.
    apply (forest_kids _ _ _ _ _ _ (ci_forest _ _ _ _ _ _ Hci1)) in Hq.
    congruence.
  - constructor; try done.
    intros r. destruct (Hsame r) as (-> & _).
    rewrite (ci_roots _ _ _ _ _ _ Hci1), Hroots. split.
    + intros (d & _ & Hd). eauto.
    + intros [?%elem_of_nil|[(d & Hd)|?]]; [done| |done].
      exists d. split; [|done].
      pose proof (rd_Some_range _ _ _ Hd). lia.
  - done.
  - unfold sized. simpl. rewrite (dom_live_eq m m2) by done. apply Hsz.
  - destruct Hix as [Hn Hs]. constructor; simpl.
    + intros p v Hv. apply Hn. by destruct (Hpay p) as [_ <-].
    + intros v p Hv. destruct (Hpay p) as [_ ->]. by apply Hs.
Qed.

(** *** [popFibonacciMinHeap] *)

(** [heap->minimum] is a lightest node of the whole heap. *)
Lemma heap_inv_least m heap h l K A :
  heap_inv m heap (h :: l) K A → ∀ q, live m q → wt m h ≤ wt m q.
Proof.
  intros [Hf Hr Hmo _ _].
  assert (∀ n q, (length (A q) ≤ n)%nat → live m q → wt m h ≤ wt m q) as H;
    [|by eauto].
  induction n as [|n IH]; intros q Hn Hq.
  - destruct (fp m q) as [[p|]|] eqn:Hp.
    + rewrite (forest_anc _ _ _ _ _ _ Hf q Hq), Hp in Hn. simpl in Hn. lia.
    + apply (Hmo q). by apply (rooted_roots _ _ _ Hr).
    + destruct Hq as [nq Hnq]. by rewrite Hnq in Hp.
  - destruct (fp m q) as [[p|]|] eqn:Hp.
    + pose proof (forest_anc_length _ _ _ _ _ _ _ _ Hf Hp).
      assert (wt m h ≤ wt m p).
      { apply IH; [lia|]. by eapply forest_parent. }
      assert (wt m p ≤ wt m q); [|lia].
      apply (forest_order _ _ _ _ _ _ Hf); [|done].
      by apply (forest_kids _ _ _ _ _ _ Hf).
    + apply (Hmo q). by apply (rooted_roots _ _ _ Hr).
    + destruct Hq as [nq Hnq]. by rewrite Hnq in Hp.
Qed.

Lemma sized_nonempty m heap R K A exo exd exk :
  forest m K A exo exd exk → rooted m heap R → sized m heap →
  0 < size heap → R ≠ [].
Proof.
  intros Hf Hr Hsz Hpos ->. unfold sized in Hsz.
  destruct (elements (dom m)) as [|q qs] eqn:Hel.
  { unfold base.size, set_size in Hsz. simpl in Hsz. rewrite Hel in Hsz.
    simpl in Hsz. lia. }
  assert (live m q) as Hq.
  { apply elem_of_dom, elem_of_elements. rewrite Hel. set_solver. }
  destruct (forest_has_root _ _ _ _ _ _ _ Hf Hq) as [r Hroot].
  apply (rooted_roots _ _ _ Hr) in Hroot. by apply elem_of_nil in Hroot.
Qed.

Lemma sized_empty m heap : sized m heap → size heap ≤ 0 → ∀ q, ¬ live m q.
Proof.
  unfold sized. intros Hsz Hle q Hq.
  assert (base.size (dom m) = 0%nat) as Hz%size_empty_inv by lia.
  apply elem_of_dom in Hq. set_solver.
Qed.

Lemma heap_inv_minimum m heap R K A :
  heap_inv m heap R K A → 1 ≤ size heap →
  ∃ h l, R = h :: l ∧ minimum heap = Some h.
Proof.
  intros [Hf Hr _ Hsz _] Hpos.
  destruct R as [|h l] eqn:HR.
  - by destruct (sized_nonempty _ _ _ _ _ _ _ _ Hf Hr Hsz ltac:(lia)).
  - exists h, l. split; [done|]. by rewrite (rooted_minimum _ _ _ Hr).
Qed.

Lemma popFibonacciMinHeap_spec fuel out m heap R K A :
  heap_inv m heap R K A → 1 ≤ size heap →
  size heap + degreeSize (size heap - 1) ≤ Z.of_nat fuel →
  ∃ m' heap' R' K' A' h nh,
    minimum heap = Some h ∧ m !! h = Some nh ∧
    popFibonacciMinHeap fuel m heap out
    = Some (m', heap', (vertex nh, via nh, weight nh)) ∧
    heap_inv m' heap' R' K' A' ∧
    size heap' = size heap - 1 ∧
    length (positions heap') = length (positions heap) ∧
    (∀ u, is_Some (rdc (positions heap) u) →
          is_Some (rdc (positions heap') u)) ∧
    (∀ q, live m' q ↔ live m q ∧ q ≠ h) ∧
    (∀ q, q ≠ h → fw m' q = fw m q ∧ fv m' q = fv m q) ∧
    (∀ q, live m q → weight nh ≤ wt m q).
Proof.
  intros Hinv Hpos Hfuel.
  destruct (heap_inv_minimum _ _ _ _ _ Hinv Hpos) as (h & l & -> & Hmin).
  destruct (pop_prefix fuel out m heap h l K A Hinv)
    as (nh & m3 & heap3 & K3 & A3 & Hnh & Hrun & Hf3 & Hr3 & Hsz3 & Hix3
        & Hsize3 & Hlen3 & Hinit3 & Hlive3 & Hpay3).
  assert (∀ q, live m q → weight nh ≤ wt m q) as Hleast.
  { intros q Hq. rewrite <-(wt_Some _ _ _ Hnh). by eapply heap_inv_least. }
  rewrite Hrun. unfold pop_tail. case_decide as Hgt.
  - destruct (consolidateFibonacciMinHeap_spec fuel m3 heap3 (l ++ K h) K3 A3)
      as (m' & heap' & R' & K' & A' & -> & Hinv' & Hpay' & Hpos' & Hsize');
      [done..| | |].
    { eapply sized_nonempty; [done..|lia]. }
    { rewrite Hsize3. lia. }
    cbn [mbind option_bind].
    exists m', heap', R', K', A', h, nh. split_and!; try done.
    + lia.
    + by rewrite Hpos'.
    + intros u Hu. rewrite Hpos'. by apply Hinit3.
    + intros q. rewrite <-Hlive3. apply (view_eq_live weight).
      by destruct (Hpay' q) as [-> _].
    + intros q Hq. destruct (Hpay' q) as [-> ->]. by apply Hpay3.
  - exists m3, heap3, (l ++ K h), K3, A3, h, nh. split_and!; try done.
    constructor; try done.
    intros r Hr. destruct (sized_empty m3 heap3 Hsz3 ltac:(lia) r).
    by eapply rooted_live.
Qed.

(** *** Sequences of operations *)

Definition apply_op (fuel : nat) (st : mem * FibonacciMinHeap) (op : HeapOp)
  : option (mem * FibonacciMinHeap) :=
  match op with
  | Push v via_ w => pushFibonacciMinHeap st.1 st.2 v via_ w
  | Decrease v via_ w => decreaseFibonacciMinHeap fuel st.1 st.2 v via_ w
  end.

Fixpoint run (fuel : nat) (ops : list HeapOp) (st : mem * FibonacciMinHeap)
  : option (mem * FibonacciMinHeap) :=
  match ops with
  | [] => Some st
  | op :: ops => st ← apply_op fuel st op; run fuel ops st
  end.

(** [while (heap->size > 0) popFibonacciMinHeap(...)], collecting what is
    popped. *)
Fixpoint pop_all (fuel0 fuel : nat) (m : mem) (heap : FibonacciMinHeap)
  (out : Z * Z * Z) : option (mem * FibonacciMinHeap * list (Z * Z * Z)) :=
  match fuel with
  | O => None
  | S fuel =>
      if decide (size heap > 0) then
        '(m, heap, out) ← popFibonacciMinHeap fuel0 m heap out;
        '(m, heap, outs) ← pop_all fuel0 fuel m heap out;
        Some (m, heap, out :: outs)
      else Some (m, heap, [])
  end.

(** The invariant, with the ghost state hidden. *)
Definition well_formed (m : mem) (heap : FibonacciMinHeap) : Prop :=
  ∃ R K A, heap_inv m heap R K A.

Record filled (V : Z) (pushed : list Z) (m : mem) (heap : FibonacciMinHeap)
  : Prop := {
  filled_wf : well_formed m heap;
  filled_size : size heap = Z.of_nat (length pushed);
  filled_length : Z.of_nat (length (positions heap)) = V;
  filled_holds : ∀ v, (∃ p, fv m p = Some v) ↔ v ∈ pushed;
  filled_init : ∀ v, v ∈ pushed → is_Some (rdc (positions heap) v)
}.

Lemma heap_for_inv V :
  heap_inv ∅ (heap_for V) [] (λ _, []) (λ _, []).
Proof.
  constructor.
  - constructor; try done;
      try (intros p [n Hn]; by rewrite lookup_empty in Hn);
      try (intros p; apply NoDup_nil_2);
      try (intros c p; rewrite lookup_empty; split;
           [by intros ?%elem_of_nil|done]);
      try (intros c p; by rewrite lookup_empty);
      try (by intros c p ?%elem_of_nil).
  - constructor; try done; [|apply NoDup_nil_2].
    intros r. rewrite lookup_empty. split; [by intros ?%elem_of_nil|done].
  - by intros r ?%elem_of_nil.
  - unfold sized. simpl. by rewrite dom_empty_L, size_empty.
  - constructor.
    + intros p v. by rewrite lookup_empty.
    + intros v p Hv. unfold heap_for, rdc, rd in Hv. simpl in Hv.
      case_decide; [|done].
      destruct (replicate _ _ !! _) as [c|] eqn:Hc; [|done].
      apply lookup_replicate in Hc as [-> _]. done.
Qed.

Lemma heap_for_filled V : 0 ≤ V → filled V [] ∅ (heap_for V).
Proof.
  intros HV. constructor.
  - eexists _, _, _. apply heap_for_inv.
  - done.
  - simpl. rewrite length_replicate. lia.
  - intros v. split; [|by intros ?%elem_of_nil].
    intros [p Hp]. by rewrite lookup_empty in Hp.
  - by intros v ?%elem_of_nil.
Qed.

Lemma fib_run_spec fuel V : ∀ ops pushed m heap,
  valid_ops V pushed ops → filled V pushed m heap →
  (length pushed + length ops ≤ fuel)%nat →
  ∃ m' heap', run fuel ops (m, heap) = Some (m', heap') ∧
              filled V (pushed_by pushed ops) m' heap'.
Proof.
  induction ops as [|[v via_ w|v via_ w] ops IH];
    intros pushed m heap Hv Hfill Hfuel; simpl in *.
  - eauto.
  - destruct Hv as (Hrange & Hnew & Hv).
    destruct Hfill as [(R & K & A & Hinv) Hsz Hlen Hholds Hinit].
    destruct (pushFibonacciMinHeap_spec m heap R K A v via_ w Hinv)
      as (m1 & heap1 & R1 & A1 & x & -> & Hinv1 & Hsz1 & Hlen1 & Hinit1
          & Hfresh & Hlive1 & Hvx & _ & Hold); [lia| |].
    { intros p Hp. apply Hnew, Hholds. eauto. }
    cbn [mbind option_bind].
    apply (IH (v :: pushed)); [done| |simpl; lia].
    constructor.
    + by exists R1, K, A1.
    + rewrite Hsz1, Hsz. simpl. lia.
    + lia.
    + intros u. rewrite elem_of_cons, <-Hholds. split.
      * intros [p Hp]. destruct (decide (p = x)) as [->|Hne].
        -- left. congruence.
        -- right. exists p. by destruct (Hold p Hne) as [<- _].
      * intros [->|[p Hp]]; [by exists x|].
        exists p. destruct (decide (p = x)) as [->|Hne].
        -- destruct Hfresh. by eapply view_live.
        -- by destruct (Hold p Hne) as [-> _].
    + intros u [->|Hu]%elem_of_cons; apply Hinit1; [by right|left; by apply Hinit].
  - destruct Hv as (Hin & Hv).
    destruct Hfill as [(R & K & A & Hinv) Hsz Hlen Hholds Hinit].
    destruct (decreaseFibonacciMinHeap_spec fuel m heap R K A v via_ w Hinv)
      as (m1 & heap1 & R1 & K1 & A1 & -> & Hinv1 & Hv1 & Hpos1 & Hsz1 & _);
      [by apply Hinit|lia|].
    cbn [mbind option_bind].
    apply (IH pushed); [done| |lia].
    constructor.
    + by exists R1, K1, A1.
    + by rewrite Hsz1.
    + by rewrite Hpos1.
    + intros u. rewrite <-Hholds. split; intros [p Hp]; exists p; by rewrite ?Hv1 in *.
    + intros u Hu. rewrite Hpos1. by apply Hinit.
Qed.

Lemma degreeSize_mono a b : 0 ≤ a ≤ b → degreeSize a ≤ degreeSize b.
Proof.
  intros ?. unfold degreeSize.
  assert (Z.log2 (a * a) ≤ Z.log2 (b * b)); [|lia].
  apply Z.log2_le_mono. nia.
Qed.


(** *** The operations of the Fibonacci heap, as their callers see them *)

(** The heap after the pushes of the vertices 0, 1, 2 with the weights 10,
    20, 30 and one pop: node 1 is the only root and node 2 its child. *)
Definition parent_child_mem : mem :=
  <[1%nat := mkNode false 1 1 8 20 None (Some 2%nat) 1%nat 1%nat]>
    (<[2%nat := mkNode false 0 2 9 30 (Some 1%nat) None 2%nat 2%nat]> ∅).

Definition parent_child_heap : FibonacciMinHeap :=
  mkHeap 2 (Some 1%nat) [Some None; Some (Some 1%nat); Some (Some 2%nat)].

Lemma parent_child_wf : well_formed parent_child_mem parent_child_heap.
Proof.
  destruct (fib_run_spec 3 3 [Push 0 7 10; Push 1 8 20; Push 2 9 30] []
              ∅ (heap_for 3)) as (m & heap & Hrun & Hfill).
  { simpl. repeat split; try lia; set_solver. }
  { by apply heap_for_filled. }
  { simpl. lia. }
  destruct Hfill as [(R & K & A & Hinv) Hsz _ _ _]. simpl in Hsz.
  destruct (popFibonacciMinHeap_spec 9 (0, 0, 0) m heap R K A Hinv)
    as (m' & heap' & R' & K' & A' & h & nh & _ & _ & Hpop & Hinv' & _);
    [lia| |].
  { rewrite Hsz. vm_compute. by intros ?. }
  assert (('(m, h) ← run 3 [Push 0 7 10; Push 1 8 20; Push 2 9 30]
                        (∅, heap_for 3);
           '(m, h, _) ← popFibonacciMinHeap 9 m h (0, 0, 0); Some (m, h))
          = Some (parent_child_mem, parent_child_heap)) as Heq
    by (vm_compute; reflexivity).
  rewrite Hrun in Heq. cbn [mbind option_bind] in Heq.
  rewrite Hpop in Heq. cbn [mbind option_bind] in Heq.
  injection Heq as <- <-. by exists R', K', A'.
Qed.

(** X15. [pushFibonacciMinHeap] of an in-range vertex that labels no node
    yet, on a heap that satisfies the invariant: the call returns, one
    fresh node with the pushed vertex and weight is added and entered in
    the position table, every other node keeps its vertex and weight, the
    size grows by one and the invariant holds again. *)
Theorem pushFibonacciMinHeap_keeps_heap m heap v via_ w :
  well_formed m heap →
  0 ≤ v < Z.of_nat (length (positions heap)) →
  (∀ p, fv m p ≠ Some v) →
  ∃ m' heap' x,
    pushFibonacciMinHeap m heap v via_ w = Some (m', heap') ∧
    well_formed m' heap' ∧
    size heap' = size heap + 1 ∧
    ¬ live m x ∧ (∀ q, live m' q ↔ q = x ∨ live m q) ∧
    fv m' x = Some v ∧ fw m' x = Some w ∧
    rdc (positions heap') v = Some (Some x) ∧
    (∀ q, q ≠ x → fv m' q = fv m q ∧ fw m' q = fw m q).
Proof.
  intros (R & K & A & Hinv) Hv Hnew.
  destruct (pushFibonacciMinHeap_spec m heap R K A v via_ w Hinv Hv Hnew)
    as (m' & heap' & R' & A' & x & Hpush & Hinv' & Hsz & _ & _ & Hfresh
        & Hlive & Hvx & Hwx & Hold).
  exists m', heap', x. split_and!; try done.
  - by exists R', K, A'.
  - by apply (indexed_node _ _ (inv_indexed _ _ _ _ _ Hinv')).
Qed.

(** X15 on the fresh heap of a three-vertex graph. *)
Lemma pushFibonacciMinHeap_keeps_heap_witness :
  ∃ m' heap' x,
    pushFibonacciMinHeap ∅ (heap_for 3) 1 7 30 = Some (m', heap') ∧
    well_formed m' heap' ∧
    size heap' = size (heap_for 3) + 1 ∧
    ¬ live ∅ x ∧ (∀ q, live m' q ↔ q = x ∨ live ∅ q) ∧
    fv m' x = Some 1 ∧ fw m' x = Some 30 ∧
    rdc (positions heap') 1 = Some (Some x) ∧
    (∀ q, q ≠ x → fv m' q = fv (∅ : mem) q ∧ fw m' q = fw (∅ : mem) q).
Proof.
  apply (pushFibonacciMinHeap_keeps_heap ∅ (heap_for 3) 1 7 30).
  - eexists _, _, _. apply heap_for_inv.
  - simpl. lia.
  - intros p. by rewrite lookup_empty.
Defined.

(** X16. [decreaseFibonacciMinHeap] on a heap that satisfies the invariant,
    for a vertex whose position slot has been written: the call returns
    (the cascading cut included), the node labelled with the vertex gets
    the smaller of its old weight and the new one, every other node keeps
    its weight, no vertex label, position slot or the size changes, and the
    invariant holds again. *)
Theorem decreaseFibonacciMinHeap_keeps_heap fuel m heap v via_ w :
  well_formed m heap → is_Some (rdc (positions heap) v) →
  size heap ≤ Z.of_nat fuel →
  ∃ m' heap',
    decreaseFibonacciMinHeap fuel m heap v via_ w = Some (m', heap') ∧
    well_formed m' heap' ∧
    (∀ q, fv m' q = fv m q) ∧
    positions heap' = positions heap ∧ size heap' = size heap ∧
    (∀ q, wt m' q = if decide (fv m q = Some v) then Z.min w (wt m q)
                    else wt m q).
Proof.
  intros (R & K & A & Hinv) Hv Hfuel.
  destruct (decreaseFibonacciMinHeap_spec fuel m heap R K A v via_ w Hinv Hv
              Hfuel)
    as (m' & heap' & R' & K' & A' & Hrun & Hinv' & ? & ? & ? & ?).
  exists m', heap'. split_and!; try done. by exists R', K', A'.
Qed.

(** X16 on the heap with the root 1 and its child 2: the weight of vertex 2
    is lowered below that of its parent, so node 2 is cut. *)
Lemma decreaseFibonacciMinHeap_keeps_heap_witness :
  ∃ m' heap',
    decreaseFibonacciMinHeap 2 parent_child_mem parent_child_heap 2 1 5
    = Some (m', heap') ∧
    well_formed m' heap' ∧
    (∀ q, fv m' q = fv parent_child_mem q) ∧
    positions heap' = positions parent_child_heap ∧
    size heap' = size parent_child_heap ∧
    (∀ q, wt m' q = if decide (fv parent_child_mem q = Some 2)
                    then Z.min 5 (wt parent_child_mem q)
                    else wt parent_child_mem q).
Proof.
  apply (decreaseFibonacciMinHeap_keeps_heap 2 parent_child_mem
           parent_child_heap 2 1 5);
    [apply parent_child_wf|by eexists|simpl; lia].
Defined.

(** X17. [popFibonacciMinHeap] on a non-empty heap that satisfies the
    invariant: the call returns (consolidation included) the triple of the
    node [heap->minimum], no node of the heap is lighter than it, exactly
    that node is freed, the other nodes keep vertex and weight, the size
    drops by one and the invariant holds again. *)
Theorem popFibonacciMinHeap_returns_minimum fuel out m heap :
  well_formed m heap → 1 ≤ size heap →
  size heap + degreeSize (size heap - 1) ≤ Z.of_nat fuel →
  ∃ m' heap' h nh,
    minimum heap = Some h ∧ m !! h = Some nh ∧
    popFibonacciMinHeap fuel m heap out
    = Some (m', heap', (vertex nh, via nh, weight nh)) ∧
    well_formed m' heap' ∧
    size heap' = size heap - 1 ∧
    (∀ q, live m' q ↔ live m q ∧ q ≠ h) ∧
    (∀ q, q ≠ h → fw m' q = fw m q ∧ fv m' q = fv m q) ∧
    (∀ q, live m q → weight nh ≤ wt m q).
Proof.
  intros (R & K & A & Hinv) Hpos Hfuel.
  destruct (popFibonacciMinHeap_spec fuel out m heap R K A Hinv Hpos Hfuel)
    as (m' & heap' & R' & K' & A' & h & nh & ? & ? & ? & Hinv' & ? & _ & _
        & ? & ? & ?).
  exists m', heap', h, nh. split_and!; try done. by exists R', K', A'.
Qed.

(** X17 on the heap with the root 1 and its child 2. *)
Lemma popFibonacciMinHeap_returns_minimum_witness :
  ∃ m' heap' h nh,
    minimum parent_child_heap = Some h ∧ parent_child_mem !! h = Some nh ∧
    popFibonacciMinHeap 3 parent_child_mem parent_child_heap (0, 0, 0)
    = Some (m', heap', (vertex nh, via nh, weight nh)) ∧
    well_formed m' heap' ∧
    size heap' = size parent_child_heap - 1 ∧
    (∀ q, live m' q ↔ live parent_child_mem q ∧ q ≠ h) ∧
    (∀ q, q ≠ h → fw m' q = fw parent_child_mem q ∧
                  fv m' q = fv parent_child_mem q) ∧
    (∀ q, live parent_child_mem q → weight nh ≤ wt parent_child_mem q).
Proof.
  apply (popFibonacciMinHeap_returns_minimum 3 (0, 0, 0) parent_child_mem
           parent_child_heap);
    [apply parent_child_wf|simpl; lia|vm_compute; by intros ?].
Defined.

(** X18. In a heap that satisfies the invariant the child count of every
    node is a valid index of the degree table that
    [consolidateFibonacciMinHeap] allocates for the heap's size
    ([2 * log2(size) + 1] slots): a node with [d] children has at least
    [fib (d + 2)] descendants. *)
Theorem childrens_below_degreeSize m heap x n :
  well_formed m heap → m !! x = Some n →
  0 ≤ childrens n < degreeSize (size heap).
Proof.
  intros (R & K & A & [Hf _ _ Hsz _]) Hn.
  pose proof (forest_degree_bound m K A x Hf ltac:(by exists n)) as Hb.
  unfold deg in Hb. rewrite Hn in Hb. simpl in Hb. by rewrite Hsz.
Qed.

(** X18 on the root of the heap with the root 1 and its child 2. *)
Lemma childrens_below_degreeSize_witness :
  0 ≤ childrens (mkNode false 1 1 8 20 None (Some 2%nat) 1%nat 1%nat)
  < degreeSize (size parent_child_heap).
Proof.
  apply (childrens_below_degreeSize parent_child_mem parent_child_heap 1%nat
           (mkNode false 1 1 8 20 None (Some 2%nat) 1%nat 1%nat));
    [apply parent_child_wf|reflexivity].
Defined.

(** X19. [cutFibonacciMinHeap] of a node that has a parent, in a heap that
    satisfies the invariant: the call returns (cascading through marked
    ancestors), the node is a root afterwards, roots stay roots, no weight,
    vertex label, position slot or the size changes, and the invariant
    holds again. *)
Theorem cutFibonacciMinHeap_makes_root fuel m heap x p :
  well_formed m heap → fp m x = Some (Some p) →
  size heap ≤ Z.of_nat fuel →
  ∃ m' heap',
    cutFibonacciMinHeap fuel m heap x = Some (m', heap') ∧
    well_formed m' heap' ∧
    fp m' x = Some None ∧
    (∀ q, fp m q = Some None → fp m' q = Some None) ∧
    (∀ q, fw m' q = fw m q ∧ fv m' q = fv m q) ∧
    positions heap' = positions heap ∧ size heap' = size heap.
Proof.
  intros (R & K & A & [Hf Hr Hmo Hsz Hix]) Hp Hfuel.
  assert (live m x) as Hlx by (by eapply view_live).
  destruct (cutFibonacciMinHeap_spec fuel m heap R K A x p)
    as (m' & heap' & R' & K' & A' & ? & Hinv' & ? & ? & ? & ? & ?);
    try done.
  - eapply forest_weaken; [done|by left|by left].
  - pose proof (forest_anc_bound _ _ _ _ _ _ x Hf Hlx).
    unfold sized in Hsz. lia.
  - exists m', heap'. split_and!; try done. by exists R', K', A'.
Qed.

(** X19 on the heap with the root 1 and its child 2. *)
Lemma cutFibonacciMinHeap_makes_root_witness :
  ∃ m' heap',
    cutFibonacciMinHeap 2 parent_child_mem parent_child_heap 2%nat
    = Some (m', heap') ∧
    well_formed m' heap' ∧
    fp m' 2%nat = Some None ∧
    (∀ q, fp parent_child_mem q = Some None → fp m' q = Some None) ∧
    (∀ q, fw m' q = fw parent_child_mem q ∧ fv m' q = fv parent_child_mem q) ∧
    positions heap' = positions parent_child_heap ∧
    size heap' = size parent_child_heap.
Proof.
  apply (cutFibonacciMinHeap_makes_root 2 parent_child_mem parent_child_heap
           2%nat 1%nat);
    [apply parent_child_wf|reflexivity|simpl; lia].
Defined.




(** *** The entries of the heap *)

(** The triple [(vertex, via, weight)] that a node stands for. *)
Definition triple (n : FibonacciHeapElement) : Z * Z * Z :=
  (vertex n, via n, weight n).

(** Only [pushFibonacciMinHeap], [decreaseFibonacciMinHeap] and
    [popFibonacciMinHeap] change the triples; every other step moves links,
    child counts and marks. *)
Definition entries_kept (m m' : mem) : Prop :=
  ∀ q, triple <$> (m' !! q) = triple <$> (m !! q).

Lemma entries_kept_refl m : entries_kept m m.
Proof. by intros q. Qed.

Lemma entries_kept_trans m1 m2 m3 :
  entries_kept m1 m2 → entries_kept m2 m3 → entries_kept m1 m3.
Proof. intros H1 H2 q. by rewrite H2, H1. Qed.

Lemma upd_entries_kept (m : mem) p f m' :
  upd m p f = Some m' → (∀ n, triple (f n) = triple n) → entries_kept m m'.
Proof. intros H Hf q. by apply (upd_same triple _ _ _ _ H). Qed.

(** Take a computation that returned apart, keeping for every update what
    it does to the triples. *)
Ltac frame_step :=
  match goal with
  | H : upd ?m ?p ?f = Some ?m' |- _ =>
      apply upd_entries_kept in H; [|done]
  | H : mbind _ _ = Some _ |- _ =>
      let x := fresh "x" in
      apply bind_Some in H as (x & ? & H);
      try match type of x with (_ * _)%type => destruct x end
  | H : context [match ?p with (_, _) => _ end] |- _ => is_var p; destruct p
  | H : Some _ = Some _ |- _ => injection H as ?; subst
  | H : (if decide ?P then _ else _) = Some _ |- _ => destruct (decide P)
  | H : match ?x with Some _ => _ | None => _ end = Some _ |- _ =>
      destruct x eqn:?
  | H : (if ?b then _ else _) = Some _ |- _ => destruct b eqn:?
  | H : None = Some _ |- _ => discriminate H
  end.

Ltac frame := repeat (frame_step; cbn beta iota zeta in * ).

Ltac kept_solve :=
  repeat match goal with
  | |- entries_kept ?a ?a => apply entries_kept_refl
  | H : entries_kept ?a ?b |- entries_kept ?a ?c =>
      first [exact H | apply (entries_kept_trans a b c H); clear H]
  end.

Lemma insertFibonacciMinHeap_kept m heap x m' heap' :
  insertFibonacciMinHeap m heap x = Some (m', heap') → entries_kept m m'.
Proof.
  unfold insertFibonacciMinHeap. intros H. frame; kept_solve.
Qed.

Lemma cutFibonacciMinHeap_kept fuel : ∀ m heap x m' heap',
  cutFibonacciMinHeap fuel m heap x = Some (m', heap') → entries_kept m m'.
Proof.
  induction fuel as [|fuel IH]; intros m heap x m' heap' H; [done|].
  cbn [cutFibonacciMinHeap] in H. frame;
    repeat match goal with
    | H : insertFibonacciMinHeap _ _ _ = Some _ |- _ =>
        apply insertFibonacciMinHeap_kept in H
    | H : cutFibonacciMinHeap fuel _ _ _ = Some _ |- _ => apply IH in H
    end; kept_solve.
Qed.

Lemma consolidate_link_kept fuel : ∀ m degree element d m' degree' element' d',
  consolidate_link fuel m degree element d = Some (m', degree', element', d') →
  entries_kept m m'.
Proof.
  induction fuel as [|fuel IH]; intros m degree element d m' degree' element' d' H;
    [done|].
  cbn [consolidate_link] in H. frame;
    repeat match goal with
    | H : consolidate_link fuel _ _ _ _ = Some _ |- _ => apply IH in H
    end; kept_solve.
Qed.

Lemma consolidate_roots_kept fuel : ∀ m degree element m' degree',
  consolidate_roots fuel m degree element = Some (m', degree') →
  entries_kept m m'.
Proof.
  induction fuel as [|fuel IH]; intros m degree element m' degree' H; [done|].
  cbn [consolidate_roots] in H. frame;
    repeat match goal with
    | H : consolidate_link fuel _ _ _ _ = Some _ |- _ =>
        apply consolidate_link_kept in H
    | H : consolidate_roots fuel _ _ _ = Some _ |- _ => apply IH in H
    end; kept_solve.
Qed.

Lemma for_loop_frame {St : Type} (Rel : St → St → Prop)
  (body : Z → St → option St) (n : nat) :
  (∀ s, Rel s s) → (∀ a b c, Rel a b → Rel b c → Rel a c) →
  (∀ j s s', body j s = Some s' → Rel s s') →
  ∀ i s s', for_loop n i body s = Some s' → Rel s s'.
Proof.
  intros Hrefl Htrans Hbody. induction n as [|n IH]; intros i s s' H.
  { simpl in H. simplify_eq. apply Hrefl. }
  cbn [for_loop] in H. apply bind_Some in H as (s1 & H1 & H).
  eapply Htrans; [by eapply Hbody|by eapply IH].
Qed.

Lemma consolidate_rebuild_kept degree i m min m' min' :
  consolidate_rebuild degree i (m, min) = Some (m', min') → entries_kept m m'.
Proof.
  unfold consolidate_rebuild. intros H. frame; kept_solve.
Qed.

Lemma consolidateFibonacciMinHeap_kept fuel m heap m' heap' :
  consolidateFibonacciMinHeap fuel m heap = Some (m', heap') →
  entries_kept m m'.
Proof.
  unfold consolidateFibonacciMinHeap. intros H. frame.
  match goal with
  | H : consolidate_roots _ _ _ _ = Some _ |- _ =>
      apply consolidate_roots_kept in H
  end.
  match goal with
  | H : for_loop _ _ _ _ = Some _ |- _ =>
      apply (for_loop_frame (λ s s', entries_kept s.1 s'.1)) in H
  end; simpl in *.
  - kept_solve.
  - intros s. apply entries_kept_refl.
  - intros a b c. apply entries_kept_trans.
  - intros j [m1 min1] [m2 min2] Hb. by eapply consolidate_rebuild_kept.
Qed.

Lemma pop_child_kept minimum i m m' :
  pop_child minimum i m = Some m' → entries_kept m m'.
Proof.
  unfold pop_child. intros H. frame; kept_solve.
Qed.

(** [popFibonacciMinHeap] removes the node of the minimum and leaves the
    triples of the others. *)
Lemma popFibonacciMinHeap_entries fuel m heap out h m' heap' out' :
  popFibonacciMinHeap fuel m heap out = Some (m', heap', out') →
  minimum heap = Some h →
  ∀ q, triple <$> (m' !! q)
       = if decide (q = h) then None else triple <$> (m !! q).
Proof.
  unfold popFibonacciMinHeap. intros H Hmin q. rewrite Hmin in H.
  assert (∀ m1 m2 : mem, entries_kept m m1 → entries_kept (delete h m1) m2 →
            triple <$> (m2 !! q)
            = if decide (q = h) then None else triple <$> (m !! q)) as Hdone.
  { intros m1 m2 H1 H2. rewrite H2. case_decide as Hq.
    - subst q. by rewrite lookup_delete_eq.
    - by rewrite lookup_delete_ne, H1. }
  frame;
    repeat match goal with
    | H : for_loop _ _ (pop_child _) _ = Some _ |- _ =>
        apply (for_loop_frame entries_kept) in H;
          [|apply entries_kept_refl|apply entries_kept_trans
           |intros ????; by eapply pop_child_kept]
    | H : consolidateFibonacciMinHeap _ _ _ = Some _ |- _ =>
        apply consolidateFibonacciMinHeap_kept in H
    end;
    (eapply Hdone; [|first [eassumption|apply entries_kept_refl]]); kept_solve.
Qed.

(** [pushFibonacciMinHeap] adds the node of the pushed triple. *)
Lemma pushFibonacciMinHeap_entries m heap v via_ w m' heap' :
  pushFibonacciMinHeap m heap v via_ w = Some (m', heap') →
  ∀ q, triple <$> (m' !! q)
       = if decide (q = malloc m) then Some (v, via_, w)
         else triple <$> (m !! q).
Proof.
  unfold pushFibonacciMinHeap. intros H q. frame.
  match goal with
  | H : insertFibonacciMinHeap _ _ _ = Some _ |- _ =>
      apply insertFibonacciMinHeap_kept in H; rewrite H
  end.
  case_decide as Hq.
  - subst q. by rewrite lookup_insert_eq.
  - by rewrite lookup_insert_ne.
Qed.

(** [decreaseFibonacciMinHeap] replaces the triple of the vertex when its
    weight is above the new one. *)
Lemma decreaseFibonacciMinHeap_entries fuel m heap v via_ w m' heap' :
  indexed m heap →
  decreaseFibonacciMinHeap fuel m heap v via_ w = Some (m', heap') →
  ∀ q, triple <$> (m' !! q)
       = (λ n, if decide (vertex n = v ∧ weight n > w) then (v, via_, w)
               else triple n) <$> (m !! q).
Proof.
  unfold decreaseFibonacciMinHeap. intros Hix H q.
  assert (∀ x n, rdc (positions heap) v = Some x → m !! q = Some n →
            vertex n = v ↔ x = Some q) as Hslot.
  { intros x n Hx Hn. split.
    - intros <-. rewrite (indexed_node _ _ Hix q (vertex n)) in Hx;
        [congruence|by rewrite Hn].
    - intros ->. apply (indexed_slot _ _ Hix) in Hx. rewrite Hn in Hx.
      simpl in Hx. congruence. }
  assert (∀ x, rdc (positions heap) v = Some x →
            (∀ n, m !! q = Some n → ¬ (x = Some q ∧ weight n > w)) →
            m' = m →
            triple <$> (m' !! q)
            = (λ n, if decide (vertex n = v ∧ weight n > w) then (v, via_, w)
                    else triple n) <$> (m !! q)) as Hsame.
  { intros x Hx Hno ->. destruct (m !! q) as [n|] eqn:Hn; [|done]. simpl.
    rewrite decide_False; [done|]. intros [Hv Hw].
    apply (Hno n eq_refl). split; [|done]. by apply (Hslot x n). }
  destruct (rdc (positions heap) v) as [[x|]|] eqn:Hx; simpl in H; [| |done].
  2:{ apply (Hsame None); [done| |congruence]. by intros n _ [? _]. }
  destruct (m !! x) as [nx|] eqn:Hnx; [|done]. simpl in H.
  case_decide as Hgt.
  2:{ apply (Hsame (Some x)); [done| |congruence].
      intros n Hn [[= ->] Hw]. simplify_eq. lia. }
  apply bind_Some in H as (m1 & H1 & H).
  apply bind_Some in H as (m2 & H2 & H).
  assert (entries_kept m2 m') as Hrest.
  { frame;
      repeat match goal with
      | H : cutFibonacciMinHeap _ _ _ _ = Some _ |- _ =>
          apply cutFibonacciMinHeap_kept in H
      end; kept_solve. }
  rewrite Hrest.
  apply upd_Some in H1 as (n1 & Hn1 & ->).
  apply upd_Some in H2 as (n2 & Hn2 & ->).
  rewrite lookup_insert_eq in Hn2. simplify_eq.
  destruct (decide (q = x)) as [->|Hne].
  - rewrite lookup_insert_eq, Hnx. simpl.
    rewrite decide_True; [|split; [by apply (Hslot (Some x))|done]].
    unfold triple. simpl. do 3 f_equal. by apply (Hslot (Some x) nx).
  - rewrite !lookup_insert_ne by done.
    destruct (m !! q) as [n|] eqn:Hn; [|done]. simpl.
    rewrite decide_False; [done|]. intros [Hv _].
    apply (Hslot (Some x) n) in Hv; [|done..]. congruence.
Qed.

(** No two nodes carry the same vertex. *)
Lemma heap_inv_label m heap R K A q q' v :
  heap_inv m heap R K A → fv m q = Some v → fv m q' = Some v → q = q'.
Proof.
  intros Hinv Hq Hq'. pose proof (inv_indexed _ _ _ _ _ Hinv) as Hix.
  apply (indexed_node _ _ Hix) in Hq. apply (indexed_node _ _ Hix) in Hq'.
  congruence.
Qed.
End FibonacciHeap.

(** ** The two heaps, filled and drained *)



(** ** Graphs and adjacency lists *)

Record WeightedGraph := mkGraph {
  edges : Z;
  vertices : Z;
  edgeList : list Edge
}.

Definition with_edgeList (graph : WeightedGraph) (l : list Edge) :=
  mkGraph (edges graph) (vertices graph) l.

(** [newWeightedGraph]: the edge list is [calloc]ed, every int is 0. *)
Definition newWeightedGraph (vertices edges : Z) : WeightedGraph :=
  mkGraph edges vertices (replicate (Z.to_nat edges) (mkEdge 0 0 0)).

Module AdjacencyList.

Record ListElement := mkListElement { vertex : Z; weight : Z }.

(** [struct List]. *)
Record NeighbourList := mkList {
  alloced : Z;
  size : Z;
  elements : list (cell ListElement)
}.

(** [struct AdjacencyList]; its field [elements] is [count] here. *)
Record AdjacencyList := mkAdjacencyList {
  count : Z;
  lists : list NeighbourList
}.

Definition newAdjacencyList (graph : WeightedGraph) : AdjacencyList :=
  let startSize := 4 in
  {| count := vertices graph;
     lists := replicate (Z.to_nat (vertices graph))
                (mkList startSize 0 (replicate (Z.to_nat startSize) None)) |}.

(** One round of the [for (i = 0; i < 2; i++)] of [pushAdjacencyList]:
    append [(neighbour, weight)] to the list of [owner]. *)
Definition push_one (list : AdjacencyList) (owner neighbour weight : Z)
  : option AdjacencyList :=
  l ← rd (lists list) owner;
  let l :=
    if decide (size l = alloced l) then
      mkList (alloced l * 2) (size l)
        (BinaryHeap.realloc (elements l) (2 * alloced l))
    else l in
  els ← wrc (elements l) (size l) (mkListElement neighbour weight);
  ls ← wr (lists list) owner (mkList (alloced l) (size l + 1) els);
  Some (mkAdjacencyList (count list) ls).

Definition pushAdjacencyList (list : AdjacencyList) (from to weight : Z)
  : option AdjacencyList :=
  list ← push_one list from to weight;
  push_one list to from weight.

(** The first loop of both Prim variants: one [pushAdjacencyList] per
    edge. *)
Definition build (graph : WeightedGraph) : option AdjacencyList :=
  for_loop (Z.to_nat (edges graph)) 0
    (λ i list,
       e ← rd (edgeList graph) i;
       pushAdjacencyList list (edge_from e) (edge_to e) (edge_weight e))
    (newAdjacencyList graph).


(** *** The adjacency list of a well-formed graph *)

Record list_ok (V : Z) (l : NeighbourList) : Prop := {
  list_size : 0 ≤ size l ≤ alloced l;
  list_alloced :
    0 < alloced l ∧ Z.of_nat (length (elements l)) = alloced l;
  list_elements : ∀ j, 0 ≤ j < size l →
    ∃ n, rdc (elements l) j = Some n ∧ 0 ≤ vertex n < V
}.

Definition adj_ok (V : Z) (list : AdjacencyList) : Prop :=
  Z.of_nat (length (lists list)) = V ∧
  ∀ v l, rd (lists list) v = Some l → list_ok V l.

Lemma push_one_ok V list owner neighbour weight_ :
  adj_ok V list → 0 ≤ owner < V → 0 ≤ neighbour < V →
  ∃ list', push_one list owner neighbour weight_ = Some list' ∧
           adj_ok V list'.
Proof.
  intros [Hlen Hok] Ho Hn. unfold push_one.
  destruct (rd_in_range (lists list) owner) as [l Hl]; [lia|].
  rewrite Hl. cbn [mbind option_bind].
  destruct (Hok _ _ Hl) as [Hsz [Hal Hlene] Hels].
  set (l0 := if decide (size l = alloced l) then _ else l).
  assert (size l0 = size l ∧ size l < alloced l0 ∧
          Z.of_nat (length (elements l0)) = alloced l0 ∧
          ∀ i, rdc (elements l0) i = rdc (elements l) i)
    as (Hs0 & Ha0 & Hlen0 & Hrd0).
  { unfold l0. case_decide; simpl.
    - split_and!; [done|lia|rewrite BinaryHeap.realloc_length; lia|].
      intros i. apply BinaryHeap.rdc_realloc. lia.
    - split_and!; [done|lia|done|done]. }
  clearbody l0. rewrite Hs0.
  destruct (wrc_is_Some (elements l0) (size l)
              (mkListElement neighbour weight_)) as [els Hw]; [lia|].
  rewrite Hw. cbn [mbind option_bind].
  pose proof (wr_in_range (lists list) owner
                (mkList (alloced l0) (size l + 1) els) ltac:(lia)) as Hls.
  rewrite Hls. cbn [mbind option_bind].
  eexists. split; [done|]. split; simpl.
  - rewrite length_insert. done.
  - intros v l'. rewrite (rd_wr _ owner v _ _ Hls).
    case_decide; [|by apply Hok]. intros [= <-].
    constructor; simpl.
    + lia.
    + split; [lia|]. by rewrite (wrc_length _ _ _ _ Hw).
    + intros j Hj. rewrite (rdc_wrc _ _ _ _ _ Hw). case_decide; [eauto|].
      rewrite Hrd0. apply Hels. lia.
Qed.

Lemma newAdjacencyList_ok graph :
  0 ≤ vertices graph → adj_ok (vertices graph) (newAdjacencyList graph).
Proof.
  intros HV. split; simpl.
  - rewrite length_replicate. lia.
  - intros v l Hl. unfold rd in Hl. case_decide; [|done].
    apply lookup_replicate in Hl as [-> _].
    constructor; simpl; [lia|done|intros; lia].
Qed.

Lemma build_ok graph :
  0 ≤ vertices graph →
  edges graph = Z.of_nat (length (edgeList graph)) →
  (∀ e, e ∈ edgeList graph →
        0 ≤ edge_from e < vertices graph ∧ 0 ≤ edge_to e < vertices graph) →
  ∃ list, build graph = Some list ∧ adj_ok (vertices graph) list.
Proof.
  intros HV HE Hrange. unfold build.
  destruct (for_loop_inv (λ _ list, adj_ok (vertices graph) list)
              (λ i list,
                 e ← rd (edgeList graph) i;
                 pushAdjacencyList list (edge_from e) (edge_to e)
                   (edge_weight e))
              (Z.to_nat (edges graph)) 0 (newAdjacencyList graph))
    as (list & Hrun & Hok); [by apply newAdjacencyList_ok| |by eauto].
  intros j list Hj Hok.
  destruct (rd_in_range (edgeList graph) j) as [e He]; [lia|].
  rewrite He. cbn [mbind option_bind].
  assert (e ∈ edgeList graph) as [Hf Ht]%Hrange.
  { unfold rd in He. case_decide; [|done]. by eapply list_elem_of_lookup_2. }
  unfold pushAdjacencyList.
  destruct (push_one_ok (vertices graph) list (edge_from e) (edge_to e)
              (edge_weight e)) as (list1 & -> & Hok1); [done..|].
  cbn [mbind option_bind]. by apply push_one_ok.
Qed.

(** *** The content of the adjacency list *)

(** What one edge contributes to the list of [v]. *)
Definition edge_entries (v : Z) (e : Edge) : list ListElement :=
  (if decide (edge_from e = v)
   then [mkListElement (edge_to e) (edge_weight e)] else []) ++
  (if decide (edge_to e = v)
   then [mkListElement (edge_from e) (edge_weight e)] else []).

(** The neighbours of [v], in the order of the edge list. *)
Definition neighbours (es : list Edge) (v : Z) : list ListElement :=
  es ≫= edge_entries v.

(** The first [size] slots of every list hold the entries given by [f]. *)
Definition holds_entries (al : AdjacencyList) (f : Z → list ListElement)
  : Prop :=
  ∀ v l, rd (lists al) v = Some l →
    size l = Z.of_nat (length (f v)) ∧
    ∀ j, 0 ≤ j < size l → rdc (elements l) j = f v !! Z.to_nat j.

Lemma push_one_entries V list f owner neighbour weight_ :
  adj_ok V list → holds_entries list f →
  0 ≤ owner < V → 0 ≤ neighbour < V →
  ∃ list', push_one list owner neighbour weight_ = Some list' ∧
    adj_ok V list' ∧
    holds_entries list'
      (λ v, if decide (v = owner)
            then f v ++ [mkListElement neighbour weight_] else f v).
Proof.
  intros [Hlen Hok] Hf Ho Hn. unfold push_one.
  destruct (rd_in_range (lists list) owner) as [l Hl]; [lia|].
  rewrite Hl. cbn [mbind option_bind].
  destruct (Hok _ _ Hl) as [Hsz [Hal Hlene] Hels].
  destruct (Hf _ _ Hl) as [Hfs Hfe].
  set (l0 := if decide (size l = alloced l) then _ else l).
  assert (size l0 = size l ∧ size l < alloced l0 ∧
          Z.of_nat (length (elements l0)) = alloced l0 ∧
          ∀ i, rdc (elements l0) i = rdc (elements l) i)
    as (Hs0 & Ha0 & Hlen0 & Hrd0).
  { unfold l0. case_decide; simpl.
    - split_and!; [done|lia|rewrite BinaryHeap.realloc_length; lia|].
      intros i. apply BinaryHeap.rdc_realloc. lia.
    - split_and!; [done|lia|done|done]. }
  clearbody l0. rewrite Hs0.
  destruct (wrc_is_Some (elements l0) (size l)
              (mkListElement neighbour weight_)) as [els Hw]; [lia|].
  rewrite Hw. cbn [mbind option_bind].
  pose proof (wr_in_range (lists list) owner
                (mkList (alloced l0) (size l + 1) els) ltac:(lia)) as Hls.
  rewrite Hls. cbn [mbind option_bind].
  eexists. split; [done|]. split; [split|]; simpl.
  - rewrite length_insert. done.
  - intros v l'. rewrite (rd_wr _ owner v _ _ Hls).
    case_decide; [|by apply Hok]. intros [= <-].
    constructor; simpl.
    + lia.
    + split; [lia|]. by rewrite (wrc_length _ _ _ _ Hw).
    + intros j Hj. rewrite (rdc_wrc _ _ _ _ _ Hw). case_decide; [eauto|].
      rewrite Hrd0. apply Hels. lia.
  - intros v l'. simpl. rewrite (rd_wr _ owner v _ _ Hls).
    case_decide as Hv; [|by apply Hf]. intros [= <-]. subst v. simpl.
    split; [rewrite length_app; simpl; lia|].
    intros j Hj. rewrite (rdc_wrc _ _ _ _ _ Hw). case_decide as Hjs.
    + subst j. rewrite Hfs, Nat2Z.id.
      by rewrite lookup_app_r, Nat.sub_diag by lia.
    + rewrite Hrd0, Hfe by lia. rewrite lookup_app_l by lia. done.
Qed.

Lemma neighbours_snoc es e v :
  neighbours (es ++ [e]) v = neighbours es v ++ edge_entries v e.
Proof.
  unfold neighbours. rewrite bind_app. simpl. by rewrite app_nil_r.
Qed.

Lemma build_entries graph :
  0 ≤ vertices graph →
  edges graph = Z.of_nat (length (edgeList graph)) →
  (∀ e, e ∈ edgeList graph →
        0 ≤ edge_from e < vertices graph ∧ 0 ≤ edge_to e < vertices graph) →
  ∃ list, build graph = Some list ∧ adj_ok (vertices graph) list ∧
          holds_entries list (neighbours (edgeList graph)).
Proof.
  intros HV HE Hrange. unfold build.
  destruct (for_loop_inv
              (λ i list, adj_ok (vertices graph) list ∧
                 holds_entries list
                   (neighbours (take (Z.to_nat i) (edgeList graph))))
              (λ i list,
                 e ← rd (edgeList graph) i;
                 pushAdjacencyList list (edge_from e) (edge_to e)
                   (edge_weight e))
              (Z.to_nat (edges graph)) 0 (newAdjacencyList graph))
    as (list & Hrun & Hok & Hent).
  - split; [by apply newAdjacencyList_ok|].
    intros v l Hl. unfold rd in Hl. case_decide; [|done]. simpl in Hl.
    apply lookup_replicate in Hl as [-> _]. simpl. split; [done|lia].
  - intros j list Hj [Hok Hent].
    destruct (rd_in_range (edgeList graph) j) as [e He]; [lia|].
    rewrite He. cbn [mbind option_bind].
    assert (edgeList graph !! Z.to_nat j = Some e) as Hlook.
    { unfold rd in He. by case_decide. }
    assert (e ∈ edgeList graph) as [Hf Ht]%Hrange
      by (by eapply list_elem_of_lookup_2).
    unfold pushAdjacencyList.
    destruct (push_one_entries (vertices graph) list _ (edge_from e)
                (edge_to e) (edge_weight e) Hok Hent)
      as (list1 & -> & Hok1 & Hent1); [done..|].
    cbn [mbind option_bind].
    destruct (push_one_entries (vertices graph) list1 _ (edge_to e)
                (edge_from e) (edge_weight e) Hok1 Hent1)
      as (list2 & -> & Hok2 & Hent2); [done..|].
    eexists. split; [done|]. split; [done|].
    replace (Z.to_nat (j + 1)) with (S (Z.to_nat j)) by lia.
    rewrite (take_S_r _ _ _ Hlook).
    intros v l Hl. destruct (Hent2 v l Hl) as [Hs Hc].
    assert (neighbours (take (Z.to_nat j) (edgeList graph) ++ [e]) v
            = (if decide (v = edge_to e)
               then (if decide (v = edge_from e)
                     then neighbours (take (Z.to_nat j) (edgeList graph)) v ++
                          [mkListElement (edge_to e) (edge_weight e)]
                     else neighbours (take (Z.to_nat j) (edgeList graph)) v) ++
                    [mkListElement (edge_from e) (edge_weight e)]
               else if decide (v = edge_from e)
                    then neighbours (take (Z.to_nat j) (edgeList graph)) v ++
                         [mkListElement (edge_to e) (edge_weight e)]
                    else neighbours (take (Z.to_nat j) (edgeList graph)) v))
      as ->; [|done].
    rewrite neighbours_snoc. unfold edge_entries.
    repeat case_decide; subst; try done; simpl;
      rewrite ?app_nil_r, <-?app_assoc; done.
  - exists list. split; [done|]. split; [done|].
    rewrite take_ge in Hent; [done|]. lia.
Qed.

(** X23. The adjacency list that both Prim variants build with one
    [pushAdjacencyList] per edge of a graph whose endpoints are vertices:
    every call returns (the doubling [realloc] included), and the list of
    vertex [v] holds, in edge order, one entry [(to, weight)] for every
    edge leaving [v] and one entry [(from, weight)] for every edge entering
    it, so every edge is entered twice. *)
Theorem build_lists_neighbours graph v :
  0 ≤ vertices graph →
  edges graph = Z.of_nat (length (edgeList graph)) →
  (∀ e, e ∈ edgeList graph →
        0 ≤ edge_from e < vertices graph ∧ 0 ≤ edge_to e < vertices graph) →
  0 ≤ v < vertices graph →
  ∃ list l,
    build graph = Some list ∧ rd (lists list) v = Some l ∧
    size l = Z.of_nat (length (neighbours (edgeList graph) v)) ∧
    (∀ j, 0 ≤ j < size l →
          rdc (elements l) j = neighbours (edgeList graph) v !! Z.to_nat j) ∧
    size l ≤ alloced l ∧ Z.of_nat (length (elements l)) = alloced l.
Proof.
  intros HV HE Hrange Hv.
  destruct (build_entries graph HV HE Hrange) as (list & Hrun & Hok & Hent).
  destruct Hok as [Hlen Hok].
  destruct (rd_in_range (lists list) v) as [l Hl]; [lia|].
  destruct (Hent v l Hl) as [Hs Hc].
  destruct (Hok v l Hl) as [Hsz [_ Hal] _].
  exists list, l. split_and!; try done. lia.
Qed.

(** X23 on the triangle 0-1, 1-2, 0-2 and vertex 1. *)
Lemma build_lists_neighbours_witness :
  ∃ list l,
    build (mkGraph 3 3 [mkEdge 0 1 1; mkEdge 1 2 2; mkEdge 0 2 3])
    = Some list ∧
    rd (lists list) 1 = Some l ∧
    size l = Z.of_nat (length (neighbours
               [mkEdge 0 1 1; mkEdge 1 2 2; mkEdge 0 2 3] 1)) ∧
    (∀ j, 0 ≤ j < size l →
          rdc (elements l) j
          = neighbours [mkEdge 0 1 1; mkEdge 1 2 2; mkEdge 0 2 3] 1
              !! Z.to_nat j) ∧
    size l ≤ alloced l ∧ Z.of_nat (length (elements l)) = alloced l.
Proof.
  apply (build_lists_neighbours
           (mkGraph 3 3 [mkEdge 0 1 1; mkEdge 1 2 2; mkEdge 0 2 3]) 1);
    [simpl; lia|reflexivity| |simpl; lia].
  intros e He. simpl in He.
  repeat (apply elem_of_cons in He as [->|He]; [simpl; lia|]).
  by apply elem_of_nil in He.
Defined.
End AdjacencyList.

(** ** The four MST algorithms, as run by a cohort of one process

    With [size == 1] the flag [parallel] of [sort] and [mstBoruvka] is
    false: nothing is scattered, sent or received, [edgesPart] is the whole
    edge count and the local part is the edge list itself.  Rank 0 is the
    only rank.  Each algorithm returns the MST buffer together with the
    number of edges it has written to it.  Where C leaves the order of two
    [findSet] calls open (an initialiser list, the operands of [!=]) they
    are taken left to right; both orders return the same roots. *)

Module MST.

Import DisjointSet.

(** [sort] for [size = 1]. *)
Definition sort (fuel : nat) (graph : WeightedGraph) : option WeightedGraph :=
  let size := 1 in
  let elements := edges graph in
  let elementsPart := (elements + size - 1) ÷ size in
  let edgeListPart := edgeList graph in
  edgeListPart ← MergeSort.mergeSort fuel edgeListPart 0 (elementsPart - 1);
  Some (with_edgeList graph edgeListPart).

(** The [for] of [mstKruskal], on rank 0. *)
Fixpoint kruskal_loop (fuel0 fuel : nat) (graph : WeightedGraph)
  (set : SetForest) (mst : list Edge) (edgesMST currentEdge : Z)
  : option (list Edge * Z) :=
  match fuel with
  | O => None
  | S fuel =>
      if decide (edgesMST < vertices graph - 1 ∨ currentEdge < edges graph)
      then
        e ← rd (edgeList graph) currentEdge;
        '(set, canonicalElementFrom) ← findSet fuel0 set (edge_from e);
        '(set, canonicalElementTo) ← findSet fuel0 set (edge_to e);
        if decide (canonicalElementFrom ≠ canonicalElementTo) then
          mst ← wr mst edgesMST e;
          set ← unionSet fuel0 set canonicalElementFrom canonicalElementTo;
          kruskal_loop fuel0 fuel graph set mst (edgesMST + 1) (currentEdge + 1)
        else
          kruskal_loop fuel0 fuel graph set mst edgesMST (currentEdge + 1)
      else Some (mst, edgesMST)
  end.

Definition mstKruskal (fuel : nat) (graph mst : WeightedGraph)
  : option (WeightedGraph * Z) :=
  let set := newSet (vertices graph) in
  graph ← sort fuel graph;
  '(l, edgesMST) ← kruskal_loop fuel fuel graph set (edgeList mst) 0 0;
  Some (with_edgeList mst l, edgesMST).

(** One slot of [closestEdge]: three ints, each possibly uninitialised. *)
Record EdgeSlot := mkSlot {
  slot_from : cell Z;
  slot_to : cell Z;
  slot_weight : cell Z
}.

Definition slot_of (e : Edge) : EdgeSlot :=
  mkSlot (Some (edge_from e)) (Some (edge_to e)) (Some (edge_weight e)).

Definition edge_of (s : EdgeSlot) : option Edge :=
  f ← slot_from s; t ← slot_to s; w ← slot_weight s; Some (mkEdge f t w).

(** [closestEdge[j * EDGE_MEMBERS + 2] = INT_MAX]. *)
Definition reset_closest (j : Z) (closestEdge : list EdgeSlot)
  : option (list EdgeSlot) :=
  s ← rd closestEdge j;
  wr closestEdge j (mkSlot (slot_from s) (slot_to s) (Some INT_MAX)).

(** One round of the [for (k = 0; k < 2; k++)]. *)
Definition update_closest (closestEdge : list EdgeSlot) (canonical : Z)
  (currentEdge : Edge) : option (list EdgeSlot) :=
  s ← rd closestEdge canonical;
  w ← slot_weight s;
  let closestEdgeNotSet := bool_decide (w = INT_MAX) in
  let weightSmaller := bool_decide (edge_weight currentEdge < w) in
  if closestEdgeNotSet || weightSmaller then
    wr closestEdge canonical (slot_of currentEdge)
  else Some closestEdge.

Definition find_closest (fuel0 : nat) (edgeListPart : list Edge) (j : Z)
  (st : SetForest * list EdgeSlot) : option (SetForest * list EdgeSlot) :=
  let '(set, closestEdge) := st in
  currentEdge ← rd edgeListPart j;
  '(set, c0) ← findSet fuel0 set (edge_from currentEdge);
  '(set, c1) ← findSet fuel0 set (edge_to currentEdge);
  if decide (c0 ≠ c1) then
    closestEdge ← update_closest closestEdge c0 currentEdge;
    closestEdge ← update_closest closestEdge c1 currentEdge;
    Some (set, closestEdge)
  else Some (set, closestEdge).

Definition add_closest (fuel0 : nat) (closestEdge : list EdgeSlot) (j : Z)
  (st : SetForest * list Edge * Z) : option (SetForest * list Edge * Z) :=
  let '(set, mst, edgesMST) := st in
  s ← rd closestEdge j;
  w ← slot_weight s;
  if decide (w ≠ INT_MAX) then
    from ← slot_from s;
    to ← slot_to s;
    '(set, rf) ← findSet fuel0 set from;
    '(set, rt) ← findSet fuel0 set to;
    if decide (rf ≠ rt) then
      e ← edge_of s;
      mst ← wr mst edgesMST e;
      set ← unionSet fuel0 set from to;
      Some (set, mst, edgesMST + 1)
    else Some (set, mst, edgesMST)
  else Some (set, mst, edgesMST).

(** The phase loop [for (i = 1; i < vertices && edgesMST < vertices - 1;
    i *= 2)]; [phases] counts its iterations. *)
Fixpoint boruvka_phases (fuel0 fuel : nat) (vertices edgesPart : Z)
  (edgeListPart : list Edge) (set : SetForest) (closestEdge : list EdgeSlot)
  (mst : list Edge) (edgesMST i phases : Z) : option (list Edge * Z * Z) :=
  match fuel with
  | O => None
  | S fuel =>
      if decide (i < vertices ∧ edgesMST < vertices - 1) then
        closestEdge ←
          for_loop (Z.to_nat vertices) 0 reset_closest closestEdge;
        '(set, closestEdge) ←
          for_loop (Z.to_nat edgesPart) 0 (find_closest fuel0 edgeListPart)
            (set, closestEdge);
        '(set, mst, edgesMST) ←
          for_loop (Z.to_nat vertices) 0 (add_closest fuel0 closestEdge)
            (set, mst, edgesMST);
        boruvka_phases fuel0 fuel vertices edgesPart edgeListPart set
          closestEdge mst edgesMST (i * 2) (phases + 1)
      else Some (mst, edgesMST, phases)
  end.

(** [mstBoruvka] for [size = 1]; the last component of the result is the
    number of phases that were run. *)
Definition mstBoruvka (fuel : nat) (graph mst : WeightedGraph)
  : option (WeightedGraph * Z * Z) :=
  let size := 1 in
  let edges := edges graph in
  let vertices := vertices graph in
  let edgesPart := (edges + size - 1) ÷ size in
  let edgeListPart := edgeList graph in
  let set := newSet vertices in
  let closestEdge := replicate (Z.to_nat vertices) (mkSlot None None None) in
  '(l, edgesMST, phases) ←
    boruvka_phases fuel fuel vertices edgesPart edgeListPart set closestEdge
      (edgeList mst) 0 1 0;
  Some (with_edgeList mst l, edgesMST, phases).

(** *** Boruvka on a cohort of processes

    With [size != 1] every rank runs [mstBoruvka] on the part of the edge
    list that [scatterEdgeList] hands it; in every phase the tables of
    closest edges are combined along a binary tree of blocking sends and
    receives and the table of rank 0 is broadcast.  Every receive names its
    sender and sits in the same iteration as the send it matches, and the
    broadcast is entered by every rank, so the cohort is run in lock step:
    the state is the list of what the ranks hold, in rank order. *)

(** What one rank holds between two phases. *)
Record Process := mkProcess {
  pr_set : SetForest;
  pr_closestEdge : list EdgeSlot;
  pr_mst : list Edge;
  pr_edgesMST : Z
}.

(** The body of the edge scan on a scattered part, whose slots past the
    end of the root's buffer are not initialised. *)
Definition find_closest_part (fuel0 : nat) (edgeListPart : list (cell Edge))
  (j : Z) (st : SetForest * list EdgeSlot)
  : option (SetForest * list EdgeSlot) :=
  let '(set, closestEdge) := st in
  currentEdge ← rdc edgeListPart j;
  '(set, c0) ← findSet fuel0 set (edge_from currentEdge);
  '(set, c1) ← findSet fuel0 set (edge_to currentEdge);
  if decide (c0 ≠ c1) then
    closestEdge ← update_closest closestEdge c0 currentEdge;
    closestEdge ← update_closest closestEdge c1 currentEdge;
    Some (set, closestEdge)
  else Some (set, closestEdge).

(** The first two loops of a phase on one rank. *)
Definition find_phase (fuel0 : nat) (vertices : Z)
  (part : list (cell Edge) * Z) (p : Process) : option Process :=
  let '(edgeListPart, edgesPart) := part in
  closestEdge ←
    for_loop (Z.to_nat vertices) 0 reset_closest (pr_closestEdge p);
  '(set, closestEdge) ←
    for_loop (Z.to_nat edgesPart) 0 (find_closest_part fuel0 edgeListPart)
      (pr_set p, closestEdge);
  Some (mkProcess set closestEdge (pr_mst p) (pr_edgesMST p)).

(** One round of the loop that combines a received table into the local
    one; [copyEdge] copies the three ints of the slot as they are. *)
Definition combine_closest (closestEdgeRecieved : list EdgeSlot) (i : Z)
  (closestEdge : list EdgeSlot) : option (list EdgeSlot) :=
  r ← rd closestEdgeRecieved i;
  wr_ ← slot_weight r;
  s ← rd closestEdge i;
  w ← slot_weight s;
  if decide (wr_ < w) then wr closestEdge i r else Some closestEdge.

(** One iteration of [for (step = 1; step < size; step *= 2)] on [rank]:
    a rank that is a multiple of [2 * step] receives the table of
    [rank + step], if there is such a rank, and combines it into its own;
    a rank that is a multiple of [step] only sends its table to
    [rank - step]; the other ranks do nothing.  [tables] are the tables
    of all ranks before the iteration. *)
Definition reduce_rank (vertices size step : Z)
  (tables : list (list EdgeSlot)) (rank : Z) : option (list EdgeSlot) :=
  closestEdge ← rd tables rank;
  if decide (rank `rem` (2 * step) = 0) then
    let from := rank + step in
    if decide (from < size) then
      closestEdgeRecieved ← rd tables from;
      for_loop (Z.to_nat vertices) 0 (combine_closest closestEdgeRecieved)
        closestEdge
    else Some closestEdge
  else Some closestEdge.

Fixpoint reduce_steps (fuel : nat) (vertices size step : Z)
  (tables : list (list EdgeSlot)) : option (list (list EdgeSlot)) :=
  match fuel with
  | O => None
  | S fuel =>
      if decide (step < size) then
        tables ← mapM (reduce_rank vertices size step tables) (seqZ 0 size);
        reduce_steps fuel vertices size (step * 2) tables
      else Some tables
  end.

(** The [if (parallel)] in the middle of a phase: the tree of sends and
    receives, then [MPI_Bcast] of the table of rank 0. *)
Definition exchange (fuel : nat) (vertices size : Z)
  (tables : list (list EdgeSlot)) : option (list (list EdgeSlot)) :=
  if decide (size ≠ 1) then
    tables ← reduce_steps fuel vertices size 1 tables;
    closestEdge ← rd tables 0;
    Some (replicate (Z.to_nat size) closestEdge)
  else Some tables.

(** The body of the last loop of a phase on [rank]: only rank 0 writes the
    edge to the MST buffer. *)
Definition add_closest_rank (rank : Z) (fuel0 : nat)
  (closestEdge : list EdgeSlot) (j : Z) (st : SetForest * list Edge * Z)
  : option (SetForest * list Edge * Z) :=
  let '(set, mst, edgesMST) := st in
  s ← rd closestEdge j;
  w ← slot_weight s;
  if decide (w ≠ INT_MAX) then
    from ← slot_from s;
    to ← slot_to s;
    '(set, rf) ← findSet fuel0 set from;
    '(set, rt) ← findSet fuel0 set to;
    if decide (rf ≠ rt) then
      mst ← (if decide (rank = 0) then e ← edge_of s; wr mst edgesMST e
             else Some mst);
      set ← unionSet fuel0 set from to;
      Some (set, mst, edgesMST + 1)
    else Some (set, mst, edgesMST)
  else Some (set, mst, edgesMST).

Definition add_phase (fuel0 : nat) (vertices : Z)
  (closestEdge : list EdgeSlot) (rank : Z) (p : Process) : option Process :=
  '(set, mst, edgesMST) ←
    for_loop (Z.to_nat vertices) 0 (add_closest_rank rank fuel0 closestEdge)
      (pr_set p, pr_mst p, pr_edgesMST p);
  Some (mkProcess set closestEdge mst edgesMST).

(** One phase of the cohort. *)
Definition cohort_phase (fuel0 fuel : nat) (vertices size : Z)
  (parts : list (list (cell Edge) * Z)) (ps : list Process)
  : option (list Process) :=
  ps ← mapM (λ rank, part ← rd parts rank; p ← rd ps rank;
                     find_phase fuel0 vertices part p) (seqZ 0 size);
  tables ← exchange fuel vertices size (pr_closestEdge <$> ps);
  mapM (λ rank, closestEdge ← rd tables rank; p ← rd ps rank;
                add_phase fuel0 vertices closestEdge rank p) (seqZ 0 size).

(** The phase loop of the cohort.  Every rank tests the guard with its own
    [edgesMST]; if the ranks disagree, those that enter the phase wait in
    a receive or in the broadcast for ranks that have left the loop, and
    the run does not return. *)
Fixpoint cohort_phases (fuel0 fuel : nat) (vertices size : Z)
  (parts : list (list (cell Edge) * Z)) (ps : list Process) (i phases : Z)
  : option (list Process * Z) :=
  match fuel with
  | O => None
  | S fuel =>
      let enters (p : Process) : bool :=
        bool_decide (i < vertices ∧ pr_edgesMST p < vertices - 1) in
      if forallb enters ps then
        ps ← cohort_phase fuel0 fuel0 vertices size parts ps;
        cohort_phases fuel0 fuel vertices size parts ps (i * 2) (phases + 1)
      else if forallb (λ p, negb (enters p)) ps then Some (ps, phases)
      else None
  end.

(** The outcomes of the ranks of a cohort, taken together: the run has no
    defined behaviour if one rank has none, otherwise it exits when a rank
    exits (the error channel holds what the ranks wrote, in rank order). *)
Fixpoint gather {A : Type} (os : list (Scatter.outcome A))
  : Scatter.outcome (list A) :=
  match os with
  | [] => Scatter.Returned []
  | o :: os =>
      match o, gather os with
      | Scatter.Undefined, _ | _, Scatter.Undefined => Scatter.Undefined
      | Scatter.Exited s, Scatter.Exited s' => Scatter.Exited (s ++ s')
      | Scatter.Exited s, Scatter.Returned _ => Scatter.Exited s
      | Scatter.Returned _, Scatter.Exited s' => Scatter.Exited s'
      | Scatter.Returned a, Scatter.Returned l => Scatter.Returned (a :: l)
      end
  end.

(** [mstBoruvka] on a cohort of [size] processes; [graph] and [mst] are the
    arguments of rank 0 (the other ranks receive [edges] and [vertices] by
    broadcast and never touch their [mst]).  The result is what rank 0
    returns with: the MST buffer, [edgesMST] and the number of phases.  A
    run that has no defined behaviour, does not return or is out of fuel
    is [Undefined]. *)
Definition mstBoruvka_cohort (fuel : nat) (size : Z) (graph mst : WeightedGraph)
  : Scatter.outcome (WeightedGraph * Z * Z) :=
  let edges := edges graph in
  let vertices := vertices graph in
  let edgesPart := (edges + size - 1) ÷ size in
  let scattered :=
    if decide (size ≠ 1) then
      gather ((λ rank, Scatter.scatterEdgeList rank size (edgeList graph)
                         edges edgesPart) <$> seqZ 0 size)
    else Scatter.Returned [(Some <$> edgeList graph, edgesPart)] in
  match scattered with
  | Scatter.Returned parts =>
      let process (rank : Z) : Process :=
        mkProcess (newSet vertices)
          (replicate (Z.to_nat vertices) (mkSlot None None None))
          (if decide (rank = 0) then edgeList mst else []) 0 in
      match
        '(ps, phases) ←
          cohort_phases fuel fuel vertices size parts
            (process <$> seqZ 0 size) 1 0;
        p ← rd ps 0;
        Some (with_edgeList mst (pr_mst p), pr_edgesMST p, phases)
      with
      | Some res => Scatter.Returned res
      | None => Scatter.Undefined
      end
  | Scatter.Exited stderr => Scatter.Exited stderr
  | Scatter.Undefined => Scatter.Undefined
  end.

(** *** Kruskal on a cohort of processes

    [sort] scatters the edge list, every rank sorts its part, and the parts
    are merged along the same binary tree of sends and receives as the
    tables of Boruvka; rank 0 ends with the sorted list and runs the edge
    loop alone.  The buffer of a rank is modelled by its first
    [elementsPart] slots, the only ones [sort] reads or writes; every one of
    them is read by a merge on this rank or on the rank that receives the
    part, so a part with a slot that was never initialised has no defined
    behaviour from the start. *)

(** The part of a rank, sorted. *)
Definition sort_part (fuel : nat) (part : list (cell Edge) * Z)
  : option (list Edge) :=
  let '(edgeListPart, elementsPart) := part in
  edgeListPart ← mapM id (take (Z.to_nat elementsPart) edgeListPart);
  MergeSort.mergeSort fuel edgeListPart 0 (elementsPart - 1).

(** One iteration of [for (step = 1; step < size; step *= 2)] of [sort] on
    [rank]: a rank that is a multiple of [2 * step] receives the part of
    [rank + step], if there is such a rank, behind its own and merges the
    two; [parts] are the parts of all ranks before the iteration. *)
Definition merge_rank (size step : Z) (parts : list (list Edge)) (rank : Z)
  : option (list Edge) :=
  edgeListPart ← rd parts rank;
  if decide (rank `rem` (2 * step) = 0) then
    let from := rank + step in
    if decide (from < size) then
      recieved ← rd parts from;
      let elementsPart := Z.of_nat (length edgeListPart) in
      let elementsRecieved := Z.of_nat (length recieved) in
      MergeSort.merge (edgeListPart ++ recieved) 0
        (elementsPart + elementsRecieved - 1) (elementsPart - 1)
    else Some edgeListPart
  else Some edgeListPart.

Fixpoint merge_steps (fuel : nat) (size step : Z) (parts : list (list Edge))
  : option (list (list Edge)) :=
  match fuel with
  | O => None
  | S fuel =>
      if decide (step < size) then
        parts ← mapM (merge_rank size step parts) (seqZ 0 size);
        merge_steps fuel size (step * 2) parts
      else Some parts
  end.

(** [mstKruskal] on a cohort of [size] processes; [graph] and [mst] are the
    arguments of rank 0, and the result is what rank 0 returns with. *)
Definition mstKruskal_cohort (fuel : nat) (size : Z) (graph mst : WeightedGraph)
  : Scatter.outcome (WeightedGraph * Z) :=
  let set := newSet (vertices graph) in
  let elements := edges graph in
  let elementsPart := (elements + size - 1) ÷ size in
  let scattered :=
    if decide (size ≠ 1) then
      gather ((λ rank, Scatter.scatterEdgeList rank size (edgeList graph)
                         elements elementsPart) <$> seqZ 0 size)
    else Scatter.Returned [(Some <$> edgeList graph, elementsPart)] in
  match scattered with
  | Scatter.Returned parts =>
      match
        parts ← mapM (sort_part fuel) parts;
        parts ← (if decide (size ≠ 1) then merge_steps fuel size 1 parts
                 else Some parts);
        edgeListPart ← rd parts 0;
        '(l, edgesMST) ←
          kruskal_loop fuel fuel (with_edgeList graph edgeListPart) set
            (edgeList mst) 0 0;
        Some (with_edgeList mst l, edgesMST)
      with
      | Some res => Scatter.Returned res
      | None => Scatter.Undefined
      end
  | Scatter.Exited stderr => Scatter.Exited stderr
  | Scatter.Undefined => Scatter.Undefined
  end.

(** *** Prim with the binary heap *)

Definition relax_binary (fuel0 : nat) (list_ : AdjacencyList.AdjacencyList)
  (vertex : Z) (j : Z) (heap : BinaryHeap.BinaryMinHeap)
  : option BinaryHeap.BinaryMinHeap :=
  l ← rd (AdjacencyList.lists list_) vertex;
  n ← rdc (AdjacencyList.elements l) j;
  BinaryHeap.decreaseBinaryMinHeap fuel0 heap (AdjacencyList.vertex n) vertex
    (AdjacencyList.weight n).

Fixpoint prim_binary_loop (fuel0 fuel : nat)
  (list_ : AdjacencyList.AdjacencyList) (heap : BinaryHeap.BinaryMinHeap)
  (mst : list Edge) (i : Z) : option (list Edge * Z) :=
  match fuel with
  | O => None
  | S fuel =>
      if decide (BinaryHeap.size heap > 0) then
        '(heap, (vertex, via, weight)) ← BinaryHeap.popBinaryMinHeap fuel0 heap;
        mst ← wr mst i (mkEdge vertex via weight);
        l ← rd (AdjacencyList.lists list_) vertex;
        heap ← for_loop (Z.to_nat (AdjacencyList.size l)) 0
                 (relax_binary fuel0 list_ vertex) heap;
        prim_binary_loop fuel0 fuel list_ heap mst (i + 1)
      else Some (mst, i)
  end.

Definition mstPrimBinary (fuel : nat) (graph mst : WeightedGraph)
  : option (WeightedGraph * Z) :=
  list_ ← AdjacencyList.build graph;
  heap ← for_loop (Z.to_nat (vertices graph)) 0
           (λ i heap, BinaryHeap.pushBinaryMinHeap fuel heap i INT_MAX INT_MAX)
           (BinaryHeap.heap_for (vertices graph));
  heap ← BinaryHeap.decreaseBinaryMinHeap fuel heap 0 0 0;
  '(heap, (vertex, via, weight)) ← BinaryHeap.popBinaryMinHeap fuel heap;
  l ← rd (AdjacencyList.lists list_) vertex;
  heap ← for_loop (Z.to_nat (AdjacencyList.size l)) 0
           (relax_binary fuel list_ vertex) heap;
  '(l, i) ← prim_binary_loop fuel fuel list_ heap (edgeList mst) 0;
  Some (with_edgeList mst l, i).

(** *** Prim with the Fibonacci heap *)

Definition relax_fibonacci (fuel0 : nat) (list_ : AdjacencyList.AdjacencyList)
  (vertex : Z) (j : Z) (st : FibonacciHeap.mem * FibonacciHeap.FibonacciMinHeap)
  : option (FibonacciHeap.mem * FibonacciHeap.FibonacciMinHeap) :=
  let '(m, heap) := st in
  l ← rd (AdjacencyList.lists list_) vertex;
  n ← rdc (AdjacencyList.elements l) j;
  FibonacciHeap.decreaseFibonacciMinHeap fuel0 m heap (AdjacencyList.vertex n)
    vertex (AdjacencyList.weight n).

Fixpoint prim_fibonacci_loop (fuel0 fuel : nat)
  (list_ : AdjacencyList.AdjacencyList) (m : FibonacciHeap.mem)
  (heap : FibonacciHeap.FibonacciMinHeap) (out : Z * Z * Z)
  (mst : list Edge) (i : Z) : option (list Edge * Z) :=
  match fuel with
  | O => None
  | S fuel =>
      if decide (FibonacciHeap.size heap > 0) then
        '(m, heap, out) ← FibonacciHeap.popFibonacciMinHeap fuel0 m heap out;
        let '(vertex, via, weight) := out in
        mst ← wr mst i (mkEdge vertex via weight);
        l ← rd (AdjacencyList.lists list_) vertex;
        '(m, heap) ← for_loop (Z.to_nat (AdjacencyList.size l)) 0
                       (relax_fibonacci fuel0 list_ vertex) (m, heap);
        prim_fibonacci_loop fuel0 fuel list_ m heap out mst (i + 1)
      else Some (mst, i)
  end.

(** [out0] stands for the indeterminate initial values of the locals
    [vertex], [via] and [weight]. *)
Definition mstPrimFibonacci (fuel : nat) (out0 : Z * Z * Z)
  (graph mst : WeightedGraph) : option (WeightedGraph * Z) :=
  list_ ← AdjacencyList.build graph;
  '(m, heap) ←
    for_loop (Z.to_nat (vertices graph)) 0
      (λ i '(m, heap),
         FibonacciHeap.pushFibonacciMinHeap m heap i INT_MAX INT_MAX)
      (∅, FibonacciHeap.heap_for (vertices graph));
  '(m, heap) ← FibonacciHeap.decreaseFibonacciMinHeap fuel m heap 0 0 0;
  '(m, heap, out) ← FibonacciHeap.popFibonacciMinHeap fuel m heap out0;
  let '(vertex, via, weight) := out in
  l ← rd (AdjacencyList.lists list_) vertex;
  '(m, heap) ← for_loop (Z.to_nat (AdjacencyList.size l)) 0
                 (relax_fibonacci fuel list_ vertex) (m, heap);
  '(l, i) ← prim_fibonacci_loop fuel fuel list_ m heap out (edgeList mst) 0;
  Some (with_edgeList mst l, i).

(** The dispatch of [main] on rank 0: the MST buffer has [vertices - 1]
    slots; selector 0 is Kruskal, 1 Prim with the Fibonacci heap, 2 Prim
    with the binary heap, 3 Boruvka. *)
Definition mst_of (fuel : nat) (out0 : Z * Z * Z) (algorithm : Z)
  (graph : WeightedGraph) : option (WeightedGraph * Z) :=
  let mst := newWeightedGraph (vertices graph) (vertices graph - 1) in
  if decide (algorithm = 0) then mstKruskal fuel graph mst
  else if decide (algorithm = 1) then mstPrimFibonacci fuel out0 graph mst
  else if decide (algorithm = 2) then mstPrimBinary fuel graph mst
  else if decide (algorithm = 3) then
    '(mst, edgesMST, _) ← mstBoruvka fuel graph mst; Some (mst, edgesMST)
  else None.

(** The dispatch of [main] on a cohort of [size] processes, as rank 0 sees
    it.  The two versions of Prim run on rank 0 alone; the other ranks
    skip the body. *)
Definition mst_of_cohort (fuel : nat) (out0 : Z * Z * Z) (size algorithm : Z)
  (graph : WeightedGraph) : Scatter.outcome (WeightedGraph * Z) :=
  let mst := newWeightedGraph (vertices graph) (vertices graph - 1) in
  let alone (res : option (WeightedGraph * Z)) :=
    match res with
    | Some res => Scatter.Returned res
    | None => Scatter.Undefined
    end in
  if decide (algorithm = 0) then mstKruskal_cohort fuel size graph mst
  else if decide (algorithm = 1) then
    alone (mstPrimFibonacci fuel out0 graph mst)
  else if decide (algorithm = 2) then alone (mstPrimBinary fuel graph mst)
  else if decide (algorithm = 3) then
    match mstBoruvka_cohort fuel size graph mst with
    | Scatter.Returned (mst, edgesMST, _) => Scatter.Returned (mst, edgesMST)
    | Scatter.Exited stderr => Scatter.Exited stderr
    | Scatter.Undefined => Scatter.Undefined
    end
  else
    Scatter.Exited ["Unknown algorithm: " +:+ pretty algorithm; "-h for help"].

Definition triangle : WeightedGraph :=
  mkGraph 3 3 [mkEdge 0 1 1; mkEdge 1 2 2; mkEdge 0 2 3].

Definition grid23 : WeightedGraph :=
  mkGraph 7 6 [mkEdge 0 1 5; mkEdge 1 2 1; mkEdge 0 3 4; mkEdge 1 4 2;
               mkEdge 2 5 3; mkEdge 3 4 6; mkEdge 4 5 2].


(** *** Graphs: well-formedness and connectivity *)

(** The input the core expects: at least one vertex, [edges] is the length
    of the edge list, the flat block of [3·E] ints and the block of [3·V]
    ints that Boruvka's table of closest edges takes are both addressable
    by an [int], every endpoint is a vertex and every weight is a
    non-negative [int]. *)
Record graph_wf (graph : WeightedGraph) : Prop := {
  wf_vertices : 1 ≤ vertices graph;
  wf_edges : edges graph = Z.of_nat (length (edgeList graph));
  wf_addressable : EDGE_MEMBERS * edges graph ≤ INT_MAX;
  wf_vertices_addressable : EDGE_MEMBERS * vertices graph ≤ INT_MAX;
  wf_range : ∀ e, e ∈ edgeList graph →
               0 ≤ edge_from e < vertices graph ∧
               0 ≤ edge_to e < vertices graph;
  wf_weight : ∀ e, e ∈ edgeList graph → 0 ≤ edge_weight e ≤ INT_MAX
}.

(** [joined es u v]: [u] and [v] are linked by a walk along edges of
    [es]. *)
Inductive joined (es : list Edge) : Z → Z → Prop :=
| joined_refl u : joined es u u
| joined_edge e : e ∈ es → joined es (edge_from e) (edge_to e)
| joined_sym u v : joined es u v → joined es v u
| joined_trans u v w : joined es u v → joined es v w → joined es u w.

Definition connected (graph : WeightedGraph) : Prop :=
  ∀ u v, 0 ≤ u < vertices graph → 0 ≤ v < vertices graph →
         joined (edgeList graph) u v.

Lemma joined_perm es es' u v : es ≡ₚ es' → joined es u v → joined es' u v.
Proof.
  intros Hp. induction 1; eauto using joined.
  apply joined_edge. by rewrite <-Hp.
Qed.

Lemma joined_mono es es' u v : es ⊆ es' → joined es u v → joined es' u v.
Proof.
  intros Hsub. induction 1.
  - apply joined_refl.
  - apply joined_edge. by apply Hsub.
  - by apply joined_sym.
  - by eapply joined_trans.
Qed.

Lemma joined_same cs es u v :
  (∀ e, e ∈ es → same cs (edge_from e) (edge_to e)) →
  joined es u v → u = v ∨ same cs u v.
Proof.
  intros Hes. induction 1 as [| |u v _ IH|u v w _ IH1 _ IH2]; auto.
  - destruct IH as [->|?]; auto using same_sym.
  - destruct IH1 as [->|?]; [done|]. destruct IH2 as [<-|?]; [by right|].
    right. by eapply same_trans.
Qed.

(** When all vertices are in one set there is exactly one root. *)
Lemma one_set_one_root set :
  forest set → 1 ≤ elements set →
  (∀ u v, 0 ≤ u < elements set → 0 ≤ v < elements set →
          u = v ∨ same (canonicalElements set) u v) →
  nroots (canonicalElements set) = 1.
Proof.
  intros Hf HV Hall.
  destruct (forest_reach _ Hf 0 ltac:(lia)) as [r Hr].
  apply (nroots_one _ r); [by eapply root_of_is_root|].
  intros b Hb.
  assert (0 ≤ b < elements set) as Hbr.
  { apply rd_Some_range in Hb. by rewrite (forest_len_ce _ Hf) in Hb. }
  assert (0 ≤ r < elements set) as Hrr.
  { apply root_of_is_root, rd_Some_range in Hr.
    by rewrite (forest_len_ce _ Hf) in Hr. }
  destruct (Hall b r Hbr Hrr) as [?|(q & Hq1 & Hq2)]; [done|].
  rewrite (root_of_det _ _ _ _ (root_of_root _ _ Hb) Hq1).
  apply root_of_is_root in Hr.
  by rewrite (root_of_det _ _ _ _ (root_of_root _ _ Hr) Hq2).
Qed.

Lemma distinct_roots_not_same cs a b :
  is_root cs a → is_root cs b → a ≠ b → ¬ same cs a b.
Proof.
  intros Ha Hb Hne (r & Hra & Hrb). destruct Hne.
  rewrite (root_of_det _ _ _ _ (root_of_root _ _ Ha) Hra).
  by rewrite (root_of_det _ _ _ _ (root_of_root _ _ Hb) Hrb).
Qed.

Lemma same_root cs x r : root_of cs x r → same cs x r.
Proof.
  intros Hx. exists r. split; [done|].
  by eapply root_of_root, root_of_is_root.
Qed.

Lemma root_range set x r :
  forest set → root_of (canonicalElements set) x r → 0 ≤ r < elements set.
Proof.
  intros Hf Hr%root_of_is_root%rd_Some_range.
  by rewrite (forest_len_ce _ Hf) in Hr.
Qed.

(** *** Kruskal *)

(** What the loop of [mstKruskal] maintains:  the edges scanned so far join
    elements of one set, and every edge written went with one root less. *)
Record kruskal_inv (graph : WeightedGraph) (set : SetForest)
  (mst : list Edge) (edgesMST k : Z) : Prop := {
  ki_forest : forest set;
  ki_elements : elements set = vertices graph;
  ki_mst : Z.of_nat (length mst) = vertices graph - 1;
  ki_scanned : ∀ e, e ∈ take (Z.to_nat k) (edgeList graph) →
                 same (canonicalElements set) (edge_from e) (edge_to e);
  ki_count : edgesMST + nroots (canonicalElements set) = vertices graph
}.

Lemma kruskal_loop_connected fuel0 graph :
  graph_wf graph → connected graph → (Z.to_nat (vertices graph) ≤ fuel0)%nat →
  ∀ (n fuel : nat) set mst edgesMST k,
    0 ≤ k → k + Z.of_nat n = edges graph → (n < fuel)%nat →
    kruskal_inv graph set mst edgesMST k →
    ∃ mst',
      kruskal_loop fuel0 fuel graph set mst edgesMST k
      = Some (mst', vertices graph - 1) ∧
      length mst' = length mst.
Proof.
  intros Hwf Hconn Hfuel0.
  induction n as [|n IH]; intros fuel set mst edgesMST k Hk Hkn Hfuel Hinv;
    (destruct fuel as [|fuel]; [lia|]); cbn [kruskal_loop];
    destruct Hinv as [Hf Hel Hmst Hscan Hcount].
  - (* every edge is scanned: one set, one root *)
    assert (nroots (canonicalElements set) = 1) as Hone.
    { apply one_set_one_root; [done|rewrite Hel; apply Hwf|].
      rewrite Hel. intros u v Hu Hv. eapply joined_same; [|by apply Hconn].
      intros e He. apply Hscan. rewrite take_ge; [done|].
      rewrite (wf_edges _ Hwf) in Hkn. lia. }
    rewrite decide_False by lia. exists mst. split; [|done].
    do 2 f_equal. lia.
  - rewrite decide_True by lia.
    pose proof (wf_edges _ Hwf) as HE.
    destruct (lookup_lt_is_Some_2 (edgeList graph) (Z.to_nat k)) as [e He];
      [lia|].
    assert (rd (edgeList graph) k = Some e) as ->
      by (unfold rd; by rewrite decide_True).
    cbn [mbind option_bind].
    assert (e ∈ edgeList graph) as Hein by (by eapply list_elem_of_lookup_2).
    destruct (wf_range _ Hwf e Hein) as [Hfrom Hto].
    destruct (findSet_ok set (edge_from e) Hf ltac:(by rewrite Hel))
      as (cf & set1 & Hfind1 & Hcf & Hf1 & Hel1 & Hroots1 & Hisr1 & Hn1).
    rewrite Hfind1 by (rewrite <-(Nat2Z.id (length _)), (forest_len_ce _ Hf); lia).
    cbn [mbind option_bind].
    destruct (findSet_ok set1 (edge_to e) Hf1 ltac:(by rewrite Hel1, Hel))
      as (ct & set2 & Hfind2 & Hct & Hf2 & Hel2 & Hroots2 & Hisr2 & Hn2).
    rewrite Hfind2
      by (rewrite <-(Nat2Z.id (length _)), (forest_len_ce _ Hf1); lia).
    cbn [mbind option_bind].
    assert (root_of (canonicalElements set2) (edge_from e) cf) as Hcf2
      by (by apply Hroots2, Hroots1).
    assert (root_of (canonicalElements set2) (edge_to e) ct) as Hct2
      by (by apply Hroots2).
    assert (∀ x y, same (canonicalElements set) x y →
                   same (canonicalElements set2) x y) as Hsame2.
    { intros x y (r & ? & ?). exists r. split; by apply Hroots2, Hroots1. }
    assert (take (Z.to_nat (k + 1)) (edgeList graph)
            = take (Z.to_nat k) (edgeList graph) ++ [e]) as Htake.
    { replace (Z.to_nat (k + 1)) with (S (Z.to_nat k)) by lia.
      by apply take_S_r. }
    case_decide as Hne.
    + (* a new MST edge *)
      assert (is_root (canonicalElements set2) cf) as Hrcf
        by (by eapply root_of_is_root).
      assert (is_root (canonicalElements set2) ct) as Hrct
        by (eapply root_of_is_root, Hroots2, Hct).
      pose proof (nroots_ge_2 _ _ _ Hrcf Hrct Hne) as Hge2.
      pose proof (nroots_le_length (canonicalElements set)) as Hle.
      rewrite (forest_len_ce _ Hf) in Hle.
      rewrite wr_in_range by lia. cbn [mbind option_bind].
      destruct (unionSet_ok set2 cf ct Hf2)
        as (set3 & Hun & Hf3 & Hel3 & Hsame3 & Hjoin & _ & Hn3 & _);
        [exact (root_range _ _ _ Hf2 Hcf2)|exact (root_range _ _ _ Hf2 Hct2)|].
      rewrite Hun
        by (rewrite <-(Nat2Z.id (length _)), (forest_len_ce _ Hf2); lia).
      cbn [mbind option_bind].
      specialize (Hn3 (distinct_roots_not_same _ _ _ Hrcf Hrct Hne)).
      destruct (IH fuel set3 (<[Z.to_nat edgesMST:=e]> mst) (edgesMST + 1) (k + 1))
        as (mst' & -> & Hlen'); [lia|lia|lia| |].
      { split; [done|lia|rewrite length_insert; lia| |lia].
        rewrite Htake. intros e' [He' | ->%list_elem_of_singleton]%elem_of_app.
        - by apply Hsame3, Hsame2, Hscan.
        - eapply same_trans; [apply Hsame3, same_root, Hcf2|].
          eapply same_trans; [apply Hjoin|].
          apply same_sym, Hsame3, same_root, Hroots2, Hct. }
      exists mst'. split; [done|]. by rewrite Hlen', length_insert.
    + (* the edge would close a cycle *)
      assert (cf = ct) as <- by (by destruct (decide (cf = ct))).
      destruct (IH fuel set2 mst edgesMST (k + 1))
        as (mst' & -> & Hlen'); [lia|lia|lia| |].
      { split; [done|lia|done| |lia].
        rewrite Htake. intros e' [He' | ->%list_elem_of_singleton]%elem_of_app.
        - by apply Hsame2, Hscan.
        - exists cf. split; [done|]. by apply Hroots2. }
      by exists mst'.
Qed.

Lemma sort_permutes fuel graph :
  graph_wf graph → 1 ≤ edges graph → (Z.to_nat (edges graph) ≤ fuel)%nat →
  ∃ l, sort fuel graph = Some (with_edgeList graph l) ∧ l ≡ₚ edgeList graph ∧
       StronglySorted MergeSort.weight_le l.
Proof.
  intros Hwf HE Hfuel. unfold sort. pose proof (wf_edges _ Hwf) as Hlen.
  destruct (MergeSort.mergeSort_app fuel [] (edgeList graph) [])
    as (out & Hs & Hperm & Hsorted); [lia|].
  rewrite app_nil_r in Hs. cbn [app length Nat.add] in Hs.
  change (Z.of_nat 0) with 0 in Hs.
  replace ((edges graph + 1 - 1) ÷ 1 - 1)
    with (Z.of_nat (length (edgeList graph)) - 1)
    by (rewrite Z.quot_1_r; lia).
  rewrite Hs. cbn [mbind option_bind]. rewrite app_nil_r. by exists out.
Qed.

Lemma graph_wf_perm graph l :
  graph_wf graph → l ≡ₚ edgeList graph → graph_wf (with_edgeList graph l).
Proof.
  intros [? ? ? ? ? ?] Hp. split; simpl; try done.
  - by rewrite Hp.
  - intros e He. rewrite Hp in He. auto.
  - intros e He. rewrite Hp in He. auto.
Qed.

Lemma connected_perm graph l :
  connected graph → l ≡ₚ edgeList graph → connected (with_edgeList graph l).
Proof.
  intros Hc Hp u v Hu Hv. simpl. eapply joined_perm; [by symmetry|].
  by apply Hc.
Qed.

(** Kruskal on a connected graph with a non-empty edge list writes
    [vertices - 1] edges. *)
Lemma mstKruskal_connected fuel graph :
  graph_wf graph → connected graph → 1 ≤ edges graph →
  (Z.to_nat (vertices graph) ≤ fuel)%nat →
  (Z.to_nat (edges graph) < fuel)%nat →
  ∃ mst,
    mstKruskal fuel graph
      (newWeightedGraph (vertices graph) (vertices graph - 1))
    = Some (mst, vertices graph - 1).
Proof.
  intros Hwf Hconn HE HfV HfE. unfold mstKruskal.
  destruct (sort_permutes fuel graph Hwf HE) as (l & -> & Hperm & _); [lia|].
  cbn [mbind option_bind].
  pose proof (wf_vertices _ Hwf) as HV.
  destruct (kruskal_loop_connected fuel (with_edgeList graph l)
              (graph_wf_perm _ _ Hwf Hperm) (connected_perm _ _ Hconn Hperm) HfV
              (Z.to_nat (edges graph)) fuel (newSet (vertices graph))
              (edgeList (newWeightedGraph (vertices graph) (vertices graph - 1)))
              0 0) as (mst' & Hloop & _); [lia|simpl; lia|lia| |].
  { split.
    - apply newSet_forest. lia.
    - done.
    - simpl. rewrite length_replicate. lia.
    - intros e []%elem_of_nil.
    - rewrite (newSet_nroots (vertices graph)) by lia. simpl. lia. }
  simpl in Hloop |- *. rewrite Hloop. cbn [mbind option_bind]. eauto.
Qed.

(** On an empty segment the recursion of [mergeSort] does not end. *)
Lemma mergeSort_1_0_diverges fuel : ∀ l, MergeSort.mergeSort fuel l 1 0 = None.
Proof.
  induction fuel as [|fuel IH]; intros l; [done|].
  cbn [MergeSort.mergeSort]. rewrite decide_True by done.
  change ((1 + 0) ÷ 2) with 0. by rewrite IH.
Qed.

Lemma mergeSort_0_m1_diverges fuel l : MergeSort.mergeSort fuel l 0 (-1) = None.
Proof.
  destruct fuel as [|fuel]; [done|].
  cbn [MergeSort.mergeSort]. rewrite decide_True by done.
  change ((0 + -1) ÷ 2) with 0. change (0 + 1) with 1.
  destruct (MergeSort.mergeSort fuel l 0 0) as [l1|]; [|done].
  cbn [mbind option_bind].
  destruct fuel as [|fuel]; [done|].
  cbn [MergeSort.mergeSort]. rewrite decide_True by done.
  change ((1 + -1) ÷ 2) with 0. by rewrite mergeSort_1_0_diverges.
Qed.

(** Kruskal on the graph with one vertex and no edge: [sort] calls
    [mergeSort(edgeList, 0, -1)], which never returns. *)
Lemma mstKruskal_single_vertex_diverges fuel mst :
  mstKruskal fuel (mkGraph 0 1 []) mst = None.
Proof.
  unfold mstKruskal, sort. simpl.
  change ((0 + 1 - 1) ÷ 1 - 1) with (-1).
  by rewrite mergeSort_0_m1_diverges.
Qed.

(** *** Boruvka *)

(** Writing slot [i] of the output extends its first [i] entries. *)
Lemma take_insert_snoc (mst : list Edge) (i : Z) (out : Edge) :
  0 ≤ i < Z.of_nat (length mst) →
  take (Z.to_nat (i + 1)) (<[Z.to_nat i := out]> mst)
  = take (Z.to_nat i) mst ++ [out].
Proof.
  intros Hi. replace (Z.to_nat (i + 1)) with (S (Z.to_nat i)) by lia.
  rewrite (take_S_r _ _ out) by (apply list_lookup_insert_eq; lia).
  by rewrite take_insert_ge by lia.
Qed.

(** Pairing every element of [l1] with a partner of its own in [l0] that is
    outside [avoid]. *)
Lemma pairing_partners (P : Z → Z → Prop) (l0 avoid : list Z) :
  (∀ x x' y, P x y → P x' y → x = x') →
  ∀ l1, NoDup l1 →
    (∀ x, x ∈ l1 → ∃ y, y ∈ l0 ∧ (y ∉ avoid) ∧ P x y) →
    ∃ l', length l' = length l1 ∧ NoDup l' ∧
          ∀ y, y ∈ l' → y ∈ l0 ∧ (y ∉ avoid) ∧ ∃ x, x ∈ l1 ∧ P x y.
Proof.
  intros Hinj. induction l1 as [|x xs IH]; intros Hnd Hex.
  { exists []. split; [done|]. split; [constructor|].
    intros y []%elem_of_nil. }
  apply NoDup_cons in Hnd as [Hx Hnd].
  destruct IH as (l' & Hlen & Hnd' & Hl'); [done| |].
  { intros x' Hx'. apply Hex. by apply elem_of_cons; right. }
  destruct (Hex x) as (y & Hy0 & Hya & HP); [by apply elem_of_cons; left|].
  exists (y :: l'). split; [simpl; lia|]. split.
  - constructor; [|done]. intros (_ & _ & x' & Hx' & HP')%Hl'.
    by rewrite (Hinj x x' y HP HP') in Hx.
  - intros y' [->|Hy']%elem_of_cons.
    + split_and!; [done..|]. exists x. split; [by apply elem_of_cons; left|done].
    + destruct (Hl' y' Hy') as (? & ? & x' & ? & ?). split_and!; [done..|].
      exists x'. split; [by apply elem_of_cons; right|done].
Qed.

Lemma pairing_count (P : Z → Z → Prop) (l0 l1 : list Z) :
  (∀ x x' y, P x y → P x' y → x = x') →
  NoDup l1 → (∀ x, x ∈ l1 → x ∈ l0) →
  (∀ x, x ∈ l1 → ∃ y, y ∈ l0 ∧ (y ∉ l1) ∧ P x y) →
  (2 * length l1 ≤ length l0)%nat.
Proof.
  intros Hinj Hnd Hsub Hex.
  destruct (pairing_partners P l0 l1 Hinj l1 Hnd Hex) as (l' & Hlen & Hnd' & Hl').
  assert (l' ++ l1 ⊆+ l0) as Hle%submseteq_length.
  { apply NoDup_submseteq.
    - apply NoDup_app. split_and!; [done| |done].
      intros y Hy. by destruct (Hl' y Hy) as (_ & ? & _).
    - intros y [Hy|Hy]%elem_of_app; [by destruct (Hl' y Hy)|by apply Hsub]. }
  rewrite length_app in Hle. lia.
Qed.

(** Two counted loops that keep a relation between their states both
    return, with the relation at the final index. *)
Lemma for_loop_rel {S1 S2 : Type} (R : Z → S1 → S2 → Prop)
  (body1 : Z → S1 → option S1) (body2 : Z → S2 → option S2) (n : nat) :
  ∀ (i : Z) (s : S1) (t : S2),
  R i s t →
  (∀ j s t, i ≤ j < i + Z.of_nat n → R j s t →
            ∃ s' t', body1 j s = Some s' ∧ body2 j t = Some t' ∧
                     R (j + 1) s' t') →
  ∃ s' t', for_loop n i body1 s = Some s' ∧ for_loop n i body2 t = Some t' ∧
           R (i + Z.of_nat n) s' t'.
Proof.
  induction n as [|n IH]; intros i s t HR Hstep.
  { exists s, t. split_and!; [done..|].
    by replace (i + Z.of_nat 0) with i by lia. }
  cbn [for_loop]. destruct (Hstep i s t) as (s1 & t1 & -> & -> & HR1); [lia|done|].
  cbn [mbind option_bind].
  destruct (IH (i + 1) s1 t1 HR1) as (s' & t' & -> & -> & HR').
  { intros j s2 t2 Hj. apply Hstep. lia. }
  exists s', t'. split_and!; [done..|].
  by replace (i + Z.of_nat (S n)) with (i + 1 + Z.of_nat n) by lia.
Qed.

(** One result per rank: [mapM] over the ranks [0 .. n - 1]. *)
Lemma mapM_ranks {B : Type} (f : Z → option B) (P : Z → B → Prop) (n : Z) :
  (∀ r, 0 ≤ r < n → ∃ y, f r = Some y ∧ P r y) →
  ∃ l, mapM f (seqZ 0 n) = Some l ∧ length l = Z.to_nat n ∧
       ∀ r y, rd l r = Some y → P r y.
Proof.
  intros Hf.
  destruct (mapM_is_Some_2 f (seqZ 0 n)) as [l Hl].
  { apply Forall_forall. intros r [Hr1 Hr2]%elem_of_seqZ.
    destruct (Hf r) as (y & Hy & _); [lia|]. simpl. rewrite Hy. by eexists. }
  exists l. split; [done|].
  pose proof (length_mapM _ _ _ Hl) as Hlen. rewrite length_seqZ in Hlen.
  split; [done|]. intros r y Hy.
  pose proof (rd_Some_range _ _ _ Hy) as Hr.
  unfold rd in Hy. rewrite decide_True in Hy by lia.
  apply mapM_Some_1 in Hl.
  destruct (Forall2_lookup_r _ _ _ _ _ Hl Hy) as (r' & Hr' & Hfr).
  simpl in Hfr.
  apply lookup_seqZ in Hr' as [-> _].
  destruct (Hf r) as (y' & Hy' & HP); [lia|].
  replace (0 + Z.of_nat (Z.to_nat r)) with r in Hfr by lia.
  congruence.
Qed.

(** A test that does not tell the elements of a non-empty list apart. *)
Lemma forallb_const {A : Type} (f : A → bool) (b : bool) (l : list A) :
  l ≠ [] → (∀ x, x ∈ l → f x = b) → forallb f l = b.
Proof.
  intros Hne Hall. destruct b.
  - apply forallb_forall. intros x Hx. apply Hall. by apply list_elem_of_In.
  - destruct l as [|x l]; [done|]. simpl. rewrite (Hall x); [done|].
    by apply elem_of_cons; left.
Qed.

Section boruvka.

Context (graph : WeightedGraph) (Hwf : graph_wf graph).
Context (fuel0 : nat) (Hfuel0 : (Z.to_nat (vertices graph) ≤ fuel0)%nat).

(** An edge crosses when its endpoints are in two sets of the forest [cs0]
    the phase starts with; it touches the set whose root is [c] when one of
    its endpoints is in it. *)
Definition crossing (cs0 : list Z) (e : Edge) : Prop :=
  ¬ same cs0 (edge_from e) (edge_to e).

Definition touches (cs0 : list Z) (e : Edge) (c : Z) : Prop :=
  root_of cs0 (edge_from e) c ∨ root_of cs0 (edge_to e) c.

Definition slot_set (s : EdgeSlot) : Prop :=
  ∃ w, slot_weight s = Some w ∧ w ≠ INT_MAX.

(** A slot of [closestEdge] after the reset: its weight is initialised, and
    if it is not the sentinel the slot holds an edge of the graph that
    crosses and touches the set of [c]. *)
Definition slot_inv (cs0 : list Z) (c : Z) (s : EdgeSlot) : Prop :=
  ∃ w, slot_weight s = Some w ∧
       (w ≠ INT_MAX →
        ∃ e, e ∈ edgeList graph ∧ s = slot_of e ∧
             crossing cs0 e ∧ touches cs0 e c).

Definition slots_inv (cs0 : list Z) (ce : list EdgeSlot) : Prop :=
  Z.of_nat (length ce) = vertices graph ∧
  ∀ c, 0 ≤ c < vertices graph → ∃ s, rd ce c = Some s ∧ slot_inv cs0 c s.

Lemma reset_loop (cs0 : list Z) (ce : list EdgeSlot) :
  Z.of_nat (length ce) = vertices graph →
  ∃ ce', for_loop (Z.to_nat (vertices graph)) 0 reset_closest ce = Some ce' ∧
         slots_inv cs0 ce' ∧
         ∀ c s, rd ce' c = Some s → ¬ slot_set s.
Proof.
  intros Hlen.
  destruct (for_loop_inv
    (λ j ce', Z.of_nat (length ce') = vertices graph ∧
              ∀ c s, 0 ≤ c < j → rd ce' c = Some s →
                     slot_weight s = Some INT_MAX)
    reset_closest (Z.to_nat (vertices graph)) 0 ce) as (ce' & Hloop & Hl & Hw).
  { split; [done|]. intros; lia. }
  { intros j ce1 Hj [Hl1 Hw1]. unfold reset_closest.
    destruct (rd_in_range ce1 j) as [s Hs]; [lia|]. rewrite Hs.
    cbn [mbind option_bind]. rewrite wr_in_range by lia.
    eexists. split; [done|]. split; [by rewrite length_insert|].
    intros c s' Hc Hrd.
    assert (wr ce1 j (mkSlot (slot_from s) (slot_to s) (Some INT_MAX))
            = Some (<[Z.to_nat j:=mkSlot (slot_from s) (slot_to s) (Some INT_MAX)]> ce1))
      as Hwr by (apply wr_in_range; lia).
    rewrite (rd_wr _ _ c _ _ Hwr) in Hrd. case_decide.
    - by simplify_eq.
    - apply (Hw1 c); [lia|done]. }
  pose proof (wf_vertices _ Hwf).
  replace (0 + Z.of_nat (Z.to_nat (vertices graph))) with (vertices graph)
    in Hw by lia.
  exists ce'. split; [done|]. split; [split; [done|]|].
  - intros c Hc. destruct (rd_in_range ce' c) as [s Hs]; [lia|].
    exists s. split; [done|]. exists INT_MAX. split; [by eapply Hw|done].
  - intros c s Hs (w & Hw' & Hne).
    pose proof (rd_Some_range _ _ _ Hs).
    rewrite (Hw c s) in Hw' by (done || lia). congruence.
Qed.

Lemma slot_inv_weight cs0 c s w :
  slot_inv cs0 c s → slot_weight s = Some w → w ≤ INT_MAX.
Proof.
  intros (w' & Hw' & Hs) Hw. rewrite Hw in Hw'. injection Hw' as <-.
  destruct (decide (w = INT_MAX)) as [->|Hne]; [done|].
  destruct (Hs Hne) as (e & He & -> & _). simpl in Hw. injection Hw as <-.
  by apply (wf_weight _ Hwf).
Qed.

(** One [update_closest] with a crossing edge that touches [c]. *)
Lemma update_closest_spec cs0 ce c e :
  slots_inv cs0 ce → e ∈ edgeList graph → crossing cs0 e → touches cs0 e c →
  0 ≤ c < vertices graph →
  ∃ ce', update_closest ce c e = Some ce' ∧ slots_inv cs0 ce' ∧
         (∀ c' s, rd ce c' = Some s → slot_set s →
                  ∃ s', rd ce' c' = Some s' ∧ slot_set s') ∧
         (edge_weight e ≠ INT_MAX → ∃ s', rd ce' c = Some s' ∧ slot_set s').
Proof.
  intros [Hlen Hslots] He Hcross Htouch Hc. unfold update_closest.
  destruct (Hslots c Hc) as (s & Hs & Hinv). rewrite Hs.
  cbn [mbind option_bind].
  pose proof Hinv as (w & Hw & Hwe). rewrite Hw. cbn [mbind option_bind].
  pose proof (slot_inv_weight _ _ _ _ Hinv Hw) as Hwmax.
  destruct (bool_decide (w = INT_MAX) || bool_decide (edge_weight e < w))
    eqn:Hcond.
  - assert (wr ce c (slot_of e) = Some (<[Z.to_nat c:=slot_of e]> ce)) as Hwr
      by (apply wr_in_range; lia).
    rewrite Hwr. eexists. split; [done|]. split_and!.
    + split; [by rewrite length_insert|]. intros c' Hc'.
      rewrite (rd_wr _ _ c' _ _ Hwr).
      destruct (decide (c' = c)) as [->|Hcc]; [|by apply Hslots].
      exists (slot_of e). split; [done|]. exists (edge_weight e).
      split; [done|]. intros _. by exists e.
    + intros c' s0 Hs0 Hset0. rewrite (rd_wr _ _ c' _ _ Hwr).
      destruct (decide (c' = c)) as [->|Hcc]; [|by eauto].
      exists (slot_of e). split; [done|]. exists (edge_weight e).
      split; [done|]. simplify_eq. destruct Hset0 as (w0 & Hw0 & Hne0).
      simplify_eq. apply orb_true_iff in Hcond as [Hc1|Hc2].
      * apply bool_decide_eq_true in Hc1. done.
      * apply bool_decide_eq_true in Hc2. lia.
    + intros Hne. exists (slot_of e). split; [by eapply rd_wr_eq|].
      by exists (edge_weight e).
  - eexists. split; [done|]. split_and!; [done|by eauto|].
    intros Hne. exists s. split; [done|]. exists w. split; [done|].
    apply orb_false_iff in Hcond as [Hc1 _].
    by apply bool_decide_eq_false in Hc1.
Qed.

(** What the edge scan of a phase maintains on the part of a rank; [set0]
    is the forest the phase starts with. *)
Record find_inv (set0 : SetForest) (part : list (cell Edge)) (j : Z)
  (st : SetForest * list EdgeSlot) : Prop := {
  fi_forest : forest st.1;
  fi_elements : elements st.1 = vertices graph;
  fi_rank : rank st.1 = rank set0;
  fi_roots : ∀ y r, root_of (canonicalElements set0) y r ↔
                    root_of (canonicalElements st.1) y r;
  fi_is_root : ∀ y, is_root (canonicalElements set0) y ↔
                    is_root (canonicalElements st.1) y;
  fi_slots : slots_inv (canonicalElements set0) st.2;
  fi_scanned :
    ∀ k e c, 0 ≤ k < j → rdc part k = Some e →
             crossing (canonicalElements set0) e → edge_weight e ≠ INT_MAX →
             touches (canonicalElements set0) e c →
             ∃ s, rd st.2 c = Some s ∧ slot_set s
}.

(** The first [n] slots of a part hold edges of the graph. *)
Definition part_of_graph (part : list (cell Edge)) (n : Z) : Prop :=
  ∀ k, 0 ≤ k < n → ∃ e, rdc part k = Some e ∧ e ∈ edgeList graph.

Lemma fuel0_enough set :
  forest set → elements set = vertices graph →
  (length (canonicalElements set) ≤ fuel0)%nat.
Proof. intros Hf Hel. pose proof (forest_len_ce _ Hf). lia. Qed.

Lemma find_closest_part_step set0 part n j st :
  forest set0 → elements set0 = vertices graph → part_of_graph part n →
  0 ≤ j < n → find_inv set0 part j st →
  ∃ st', find_closest_part fuel0 part j st = Some st' ∧
         find_inv set0 part (j + 1) st'.
Proof.
  intros Hf0 Hel0 Hpart Hj [Hf Hel Hrk Hroots Hisr Hslots Hscan].
  destruct st as [set ce]. simpl in *. unfold find_closest_part.
  destruct (Hpart j Hj) as (e & He & Hein). rewrite He.
  cbn [mbind option_bind].
  destruct (wf_range _ Hwf e Hein) as [Hfrom Hto].
  destruct (findSet_ok set (edge_from e) Hf ltac:(by rewrite Hel))
    as (c0 & set1 & Hfind1 & Hc0 & Hf1 & Hel1 & Hroots1 & Hisr1 & _).
  rewrite Hfind1 by (by apply fuel0_enough). cbn [mbind option_bind].
  destruct (findSet_ok set1 (edge_to e) Hf1 ltac:(by rewrite Hel1, Hel))
    as (c1 & set2 & Hfind2 & Hc1 & Hf2 & Hel2 & Hroots2 & Hisr2 & _).
  rewrite Hfind2 by (apply fuel0_enough; [done|congruence]).
  cbn [mbind option_bind].
  destruct (findSet_rank _ _ _ _ _ (Hfind1 _ (fuel0_enough _ Hf Hel)))
    as [Hrk1 _].
  destruct (findSet_rank _ _ _ _ _
              (Hfind2 _ (fuel0_enough _ Hf1 ltac:(congruence)))) as [Hrk2 _].
  assert (root_of (canonicalElements set0) (edge_from e) c0) as Hc0'
    by (by apply Hroots).
  assert (root_of (canonicalElements set0) (edge_to e) c1) as Hc1'
    by (by apply Hroots, Hroots1).
  assert (∀ y r, root_of (canonicalElements set0) y r ↔
                 root_of (canonicalElements set2) y r) as Hroots02.
  { intros y r. by rewrite Hroots, Hroots1, Hroots2. }
  assert (∀ y, is_root (canonicalElements set0) y ↔
               is_root (canonicalElements set2) y) as Hisr02.
  { intros y. by rewrite Hisr, Hisr1, Hisr2. }
  assert (∀ k e', 0 ≤ k < j + 1 → rdc part k = Some e' →
                  0 ≤ k < j ∨ e' = e) as Hlast.
  { intros k e' Hk Hk'. destruct (decide (k = j)) as [->|]; [|left; lia].
    right. congruence. }
  case_decide as Hne.
  - assert (crossing (canonicalElements set0) e) as Hcross.
    { intros (r & Hr1 & Hr2). destruct Hne.
      by rewrite (root_of_det _ _ _ _ Hc0' Hr1), (root_of_det _ _ _ _ Hc1' Hr2). }
    destruct (update_closest_spec (canonicalElements set0) ce c0 e)
      as (ce1 & -> & Hslots1 & Hkeep1 & Hset1); [done|done|done|by left| |].
    { rewrite <-Hel0. by eapply root_range. }
    cbn [mbind option_bind].
    destruct (update_closest_spec (canonicalElements set0) ce1 c1 e)
      as (ce2 & -> & Hslots2 & Hkeep2 & Hset2); [done|done|done|by right| |].
    { rewrite <-Hel0. by eapply root_range. }
    cbn [mbind option_bind].
    eexists. split; [done|]. split; simpl; try done; [congruence..|].
    intros k e' c Hk Hk' Hcr Hw Htouch.
    destruct (Hlast k e' Hk Hk') as [Hold| ->].
    + destruct (Hscan k e' c Hold Hk' Hcr Hw Htouch) as (s & Hs & Hset).
      destruct (Hkeep1 c s Hs Hset) as (s1 & Hs1 & Hsset1).
      by apply (Hkeep2 c s1).
    + destruct Htouch as [Ht|Ht].
      * rewrite (root_of_det _ _ _ _ Ht Hc0').
        destruct (Hset1 Hw) as (s1 & Hs1 & Hsset1). by apply (Hkeep2 c0 s1).
      * rewrite (root_of_det _ _ _ _ Ht Hc1'). by apply Hset2.
  - assert (c0 = c1) as <- by (by destruct (decide (c0 = c1))).
    eexists. split; [done|]. split; simpl; try done; [congruence..|].
    intros k e' c Hk Hk' Hcr Hw Htouch.
    destruct (Hlast k e' Hk Hk') as [Hold| ->].
    + by apply (Hscan k e').
    + destruct Hcr. by exists c0.
Qed.

Lemma find_part_loop set0 part n st :
  forest set0 → elements set0 = vertices graph → part_of_graph part n →
  find_inv set0 part 0 st →
  ∃ st', for_loop (Z.to_nat n) 0 (find_closest_part fuel0 part) st = Some st' ∧
         find_inv set0 part (Z.max 0 n) st'.
Proof.
  intros Hf0 Hel0 Hpart Hinv0.
  destruct (for_loop_inv (find_inv set0 part) (find_closest_part fuel0 part)
              (Z.to_nat n) 0 st Hinv0) as (st' & Hloop & Hinv).
  - intros j st1 Hj Hinv. apply (find_closest_part_step set0 part n);
      [done..|lia|done].
  - exists st'. split; [done|].
    by replace (0 + Z.of_nat (Z.to_nat n)) with (Z.max 0 n) in Hinv by lia.
Qed.

(** What the add loop of a phase starts from: a table in which every set
    that an edge of the graph leaves has its slot set. *)
Record found (set0 : SetForest) (st : SetForest * list EdgeSlot) : Prop := {
  fo_forest : forest st.1;
  fo_elements : elements st.1 = vertices graph;
  fo_rank : rank st.1 = rank set0;
  fo_roots : ∀ y r, root_of (canonicalElements set0) y r ↔
                    root_of (canonicalElements st.1) y r;
  fo_is_root : ∀ y, is_root (canonicalElements set0) y ↔
                    is_root (canonicalElements st.1) y;
  fo_slots : slots_inv (canonicalElements set0) st.2;
  fo_all :
    ∀ e c, e ∈ edgeList graph →
           crossing (canonicalElements set0) e → edge_weight e ≠ INT_MAX →
           touches (canonicalElements set0) e c →
           ∃ s, rd st.2 c = Some s ∧ slot_set s
}.

Lemma find_closest_whole (edgeListPart : list Edge) j st :
  find_closest fuel0 edgeListPart j st
  = find_closest_part fuel0 (Some <$> edgeListPart) j st.
Proof.
  destruct st as [set ce]. unfold find_closest, find_closest_part.
  by rewrite rdc_fmap_Some.
Qed.

Lemma find_loop set0 ce :
  forest set0 → elements set0 = vertices graph →
  slots_inv (canonicalElements set0) ce →
  ∃ st', for_loop (Z.to_nat (edges graph)) 0
           (find_closest fuel0 (edgeList graph)) (set0, ce) = Some st' ∧
         found set0 st'.
Proof.
  intros Hf0 Hel0 Hslots.
  pose proof (wf_edges _ Hwf) as HE.
  destruct (find_part_loop set0 (Some <$> edgeList graph) (edges graph)
              (set0, ce))
    as (st' & Hloop & [Hf Hel Hrk Hroots Hisr Hslots' Hscan]); [done..| | |].
  { intros k Hk. rewrite rdc_fmap_Some.
    destruct (rd_in_range (edgeList graph) k) as [e He]; [lia|].
    exists e. split; [done|]. unfold rd in He.
    rewrite decide_True in He by lia. by eapply list_elem_of_lookup_2. }
  { split; simpl; try done. intros; lia. }
  exists st'. split.
  { rewrite <-Hloop. apply for_loop_ext. intros j st.
    apply find_closest_whole. }
  split; try done.
  intros e c [k Hk]%list_elem_of_lookup_1 Hcr Hw Htouch.
  pose proof (lookup_lt_Some _ _ _ Hk) as Hlt.
  apply (Hscan (Z.of_nat k) e c); [lia| |done..].
  rewrite rdc_fmap_Some. unfold rd. rewrite decide_True by lia.
  by rewrite Nat2Z.id.
Qed.

(** What the scan of [closestEdge] at the end of a phase maintains; [set1]
    is the forest the scan starts with. *)
Record add_inv (set1 : SetForest) (ce : list EdgeSlot) (j : Z)
  (st : SetForest * list Edge * Z) : Prop := {
  ai_forest : forest st.1.1;
  ai_elements : elements st.1.1 = vertices graph;
  ai_mst : Z.of_nat (length st.1.2) = vertices graph - 1;
  ai_count : st.2 + nroots (canonicalElements st.1.1) = vertices graph;
  ai_coarser : ∀ x y, same (canonicalElements set1) x y →
                      same (canonicalElements st.1.1) x y;
  ai_roots : ∀ y, is_root (canonicalElements st.1.1) y →
                  is_root (canonicalElements set1) y;
  ai_done : ∀ c e, 0 ≤ c < j → rd ce c = Some (slot_of e) →
                   edge_weight e ≠ INT_MAX →
                   same (canonicalElements st.1.1) (edge_from e) (edge_to e);
  ai_sub : ∀ e, e ∈ take (Z.to_nat st.2) st.1.2 → e ∈ edgeList graph;
  ai_tree : ∀ x y, same (canonicalElements st.1.1) x y →
                   joined (take (Z.to_nat st.2) st.1.2) x y
}.

Lemma slot_of_inj e e' : slot_of e = slot_of e' → e = e'.
Proof. destruct e, e'. unfold slot_of. simpl. by intros [= -> -> ->]. Qed.

Lemma edge_of_slot_of e : edge_of (slot_of e) = Some e.
Proof. by destruct e. Qed.

Lemma add_closest_step cs0 set1 ce j st :
  slots_inv cs0 ce → 0 ≤ j < vertices graph → add_inv set1 ce j st →
  ∃ st', add_closest fuel0 ce j st = Some st' ∧ add_inv set1 ce (j + 1) st'.
Proof.
  intros [Hlen Hslots] Hj [Hf Hel Hmst Hcount Hcoarse Hrts Hdone Hsub Htree].
  destruct st as [[set mst] n]. simpl in *. unfold add_closest.
  destruct (Hslots j Hj) as (s & Hs & w & Hw & Hwe). rewrite Hs.
  cbn [mbind option_bind]. rewrite Hw. cbn [mbind option_bind].
  case_decide as Hne.
  2:{ eexists. split; [done|]. split; simpl; try done.
      intros c e Hc Hrd Hwt. destruct (decide (c = j)) as [->|]; [|apply (Hdone c); [lia|done..]].
      rewrite Hs in Hrd. injection Hrd as ->. simpl in Hw. congruence. }
  destruct (Hwe Hne) as (e & Hein & -> & _).
  cbn [slot_of slot_from slot_to mbind option_bind].
  destruct (wf_range _ Hwf e Hein) as [Hfrom Hto].
  destruct (findSet_ok set (edge_from e) Hf ltac:(by rewrite Hel))
    as (rf & set_a & Hfind1 & Hrf & Hfa & Hela & Hrootsa & Hisra & Hna).
  rewrite Hfind1 by (by apply fuel0_enough). cbn [mbind option_bind].
  destruct (findSet_ok set_a (edge_to e) Hfa ltac:(by rewrite Hela, Hel))
    as (rt & set_b & Hfind2 & Hrt & Hfb & Helb & Hrootsb & Hisrb & Hnb).
  rewrite Hfind2 by (apply fuel0_enough; [done|congruence]).
  cbn [mbind option_bind].
  assert (root_of (canonicalElements set_b) (edge_from e) rf) as Hrf_b
    by (by apply Hrootsb, Hrootsa).
  assert (root_of (canonicalElements set_b) (edge_to e) rt) as Hrt_b
    by (by apply Hrootsb).
  assert (∀ x y, same (canonicalElements set) x y →
                 same (canonicalElements set_b) x y) as Hsame_b.
  { intros x y (r & ? & ?). exists r. split; by apply Hrootsb, Hrootsa. }
  assert (∀ y, is_root (canonicalElements set_b) y →
               is_root (canonicalElements set) y) as Hisr_b.
  { intros y. by rewrite Hisra, Hisrb. }
  case_decide as Hroots_ne.
  - fold (slot_of e). rewrite edge_of_slot_of. cbn [mbind option_bind].
    assert (is_root (canonicalElements set_b) rf) as Hirf
      by (by eapply root_of_is_root).
    assert (is_root (canonicalElements set_b) rt) as Hirt
      by (by eapply root_of_is_root).
    pose proof (nroots_ge_2 _ _ _ Hirf Hirt Hroots_ne) as Hge2.
    pose proof (nroots_le_length (canonicalElements set)) as Hle.
    rewrite (forest_len_ce _ Hf) in Hle.
    rewrite wr_in_range by lia. cbn [mbind option_bind].
    destruct (unionSet_ok set_b (edge_from e) (edge_to e) Hfb)
      as (set_c & Hun & Hfc & Helc & Hsame_c & Hjoin & _ & Hnc & Hisr_c);
      [congruence|congruence|].
    destruct (unionSet_partition set_b (edge_from e) (edge_to e) Hfb)
      as (set_c' & Hun' & _ & _ & Hpart & _); [congruence|congruence|].
    assert (set_c' = set_c) as ->.
    { assert (length (canonicalElements set_b) ≤ fuel0)%nat as Hfl
        by (apply fuel0_enough; [done|congruence]).
      specialize (Hun fuel0 Hfl). specialize (Hun' fuel0 Hfl). congruence. }
    rewrite Hun by (apply fuel0_enough; [done|congruence]).
    cbn [mbind option_bind].
    assert (∀ x y, same (canonicalElements set_b) x y →
                   joined (take (Z.to_nat n) mst) x y) as Htree_b.
    { intros x y (r & ? & ?). apply Htree. exists r.
      split; by apply Hrootsa, Hrootsb. }
    assert (0 ≤ n) as Hn0
      by (pose proof (nroots_le_length (canonicalElements set_b));
          rewrite (forest_len_ce _ Hfb) in *; lia).
    assert (¬ same (canonicalElements set_b) (edge_from e) (edge_to e)) as Hns.
    { intros (r & Hr1 & Hr2). destruct Hroots_ne.
      by rewrite (root_of_det _ _ _ _ Hrf_b Hr1), (root_of_det _ _ _ _ Hrt_b Hr2). }
    specialize (Hnc Hns).
    eexists. split; [done|]. split; simpl.
    + done.
    + congruence.
    + rewrite length_insert. done.
    + lia.
    + intros x y Hxy. by apply Hsame_c, Hsame_b, Hcoarse.
    + intros y Hy. by apply Hrts, Hisr_b, Hisr_c.
    + intros c e' Hc Hrd Hwt. destruct (decide (c = j)) as [->|].
      * assert (slot_of e = slot_of e') as Heq%slot_of_inj by congruence.
        by subst e'.
      * apply Hsame_c, Hsame_b. apply (Hdone c); [lia|done..].
    + rewrite take_insert_snoc by lia.
      intros e' [He'| ->%list_elem_of_singleton]%elem_of_app;
        [by apply Hsub|done].
    + rewrite take_insert_snoc by lia.
      intros x y [Hxy|[[Hx Hy]|[Hx Hy]]]%Hpart.
      * eapply joined_mono; [|by apply Htree_b]. set_solver.
      * eapply joined_trans;
          [eapply joined_mono; [|by apply Htree_b]; set_solver|].
        eapply joined_trans; [apply joined_edge; set_solver|].
        apply joined_sym. eapply joined_mono; [|by apply Htree_b]. set_solver.
      * eapply joined_trans;
          [eapply joined_mono; [|by apply Htree_b]; set_solver|].
        eapply joined_trans; [apply joined_sym, joined_edge; set_solver|].
        apply joined_sym. eapply joined_mono; [|by apply Htree_b]. set_solver.
  - assert (rf = rt) as <- by (by destruct (decide (rf = rt))).
    eexists. split; [done|]. split; simpl.
    + done.
    + congruence.
    + done.
    + lia.
    + intros x y Hxy. by apply Hsame_b, Hcoarse.
    + intros y Hy. by apply Hrts, Hisr_b.
    + intros c e' Hc Hrd Hwt. destruct (decide (c = j)) as [->|].
      * assert (slot_of e = slot_of e') as Heq%slot_of_inj by congruence.
        subst e'. by exists rf.
      * apply Hsame_b. apply (Hdone c); [lia|done..].
    + done.
    + intros x y (r & ? & ?). apply Htree. exists r.
      split; by apply Hrootsa, Hrootsb.
Qed.

Lemma add_loop cs0 set1 ce mst n :
  slots_inv cs0 ce → forest set1 → elements set1 = vertices graph →
  Z.of_nat (length mst) = vertices graph - 1 →
  n + nroots (canonicalElements set1) = vertices graph →
  (∀ e, e ∈ take (Z.to_nat n) mst → e ∈ edgeList graph) →
  (∀ x y, same (canonicalElements set1) x y →
          joined (take (Z.to_nat n) mst) x y) →
  ∃ st', for_loop (Z.to_nat (vertices graph)) 0 (add_closest fuel0 ce)
           (set1, mst, n) = Some st' ∧
         add_inv set1 ce (vertices graph) st'.
Proof.
  intros Hslots Hf1 Hel1 Hmst Hn Hsub Htree.
  pose proof (wf_vertices _ Hwf) as HV.
  destruct (for_loop_inv (add_inv set1 ce) (add_closest fuel0 ce)
              (Z.to_nat (vertices graph)) 0 (set1, mst, n))
    as (st' & Hloop & Hinv).
  - split; simpl; try done. intros; lia.
  - intros j st Hj Hinv. eapply add_closest_step; [done|lia|done].
  - exists st'. split; [done|].
    by replace (0 + Z.of_nat (Z.to_nat (vertices graph))) with (vertices graph)
      in Hinv by lia.
Qed.

Lemma root_of_dec set w c :
  forest set →
  root_of (canonicalElements set) w c ∨ ¬ root_of (canonicalElements set) w c.
Proof.
  intros Hf.
  destruct (decide (0 ≤ w < elements set)) as [Hw|Hw].
  - destruct (forest_reach _ Hf w Hw) as [r Hr].
    destruct (decide (r = c)) as [->|Hne]; [by left|right].
    intros Hc. by rewrite (root_of_det _ _ _ _ Hr Hc) in Hne.
  - right. intros [n Hn%reach_range].
    rewrite (forest_len_ce _ Hf) in Hn. lia.
Qed.

(** A walk that leaves the set of [c] uses an edge that crosses and touches
    it. *)
Lemma joined_crossing set0 c u v :
  forest set0 → joined (edgeList graph) u v →
  (root_of (canonicalElements set0) u c ∧
   ¬ root_of (canonicalElements set0) v c) ∨
  (¬ root_of (canonicalElements set0) u c ∧
   root_of (canonicalElements set0) v c) →
  ∃ e, e ∈ edgeList graph ∧ crossing (canonicalElements set0) e ∧
       touches (canonicalElements set0) e c.
Proof.
  intros Hf. induction 1 as [u|e He|u v _ IH|u v w _ IH1 _ IH2]; intros Hc.
  - tauto.
  - exists e. split; [done|]. unfold crossing, touches. split; [|tauto].
    intros (r & Hr1 & Hr2). destruct Hc as [[Hu Hv]|[Hu Hv]].
    + apply Hv. by rewrite (root_of_det _ _ _ _ Hu Hr1).
    + apply Hu. by rewrite (root_of_det _ _ _ _ Hv Hr2).
  - apply IH. tauto.
  - destruct Hc as [[Hu Hw]|[Hu Hw]], (root_of_dec set0 v c Hf) as [Hv|Hv];
      [apply IH2|apply IH1|apply IH1|apply IH2]; tauto.
Qed.

Lemma another_root cs r :
  2 ≤ nroots cs → ∃ r2, is_root cs r2 ∧ r2 ≠ r.
Proof.
  unfold nroots. intros Hn. pose proof (NoDup_roots cs) as Hnd.
  destruct (roots cs) as [|a [|b l]] eqn:Hr; simpl in Hn; [lia..|].
  assert (a ≠ b) as Hab.
  { apply NoDup_cons in Hnd as [Ha _]. intros ->. apply Ha. by left. }
  assert (is_root cs a) by (apply elem_of_roots; rewrite Hr; by left).
  assert (is_root cs b) by (apply elem_of_roots; rewrite Hr; right; by left).
  destruct (decide (a = r)) as [->|]; [by exists b|by exists a].
Qed.

(** With a connected graph whose weights stay below the sentinel, a phase
    at least halves the number of sets. *)
Lemma phase_halves set0 set1 ce set2 mst n :
  connected graph → (∀ e, e ∈ edgeList graph → edge_weight e ≠ INT_MAX) →
  forest set0 → elements set0 = vertices graph →
  2 ≤ nroots (canonicalElements set0) →
  found set0 (set1, ce) →
  add_inv set1 ce (vertices graph) (set2, mst, n) →
  2 * nroots (canonicalElements set2) ≤ nroots (canonicalElements set0).
Proof.
  intros Hconn Hweights Hf0 Hel0 Hn0 [Hf1 Hel1 _ Hroots1 Hisr1 Hslots Hscan]
    [Hf2 Hel2 _ _ Hcoarse Hrts Hdone _ _].
  simpl in *.
  assert (∀ x y, same (canonicalElements set0) x y →
                 same (canonicalElements set2) x y) as Hcoarse0.
  { intros x y (r & ? & ?). apply Hcoarse. exists r. split; by apply Hroots1. }
  unfold nroots.
  pose proof (pairing_count
    (λ r' o, root_of (canonicalElements set2) o r')
    (roots (canonicalElements set0)) (roots (canonicalElements set2))) as Hcount.
  cut (2 * length (roots (canonicalElements set2))
       ≤ length (roots (canonicalElements set0)))%nat; [lia|].
  apply Hcount; clear Hcount.
  - intros x x' y Hx Hx'. eapply root_of_det; eauto.
  - apply NoDup_roots.
  - intros r' Hr'%elem_of_roots. by apply elem_of_roots, Hisr1, Hrts.
  - intros r' Hr'%elem_of_roots.
    assert (is_root (canonicalElements set0) r') as Hr0 by (by apply Hisr1, Hrts).
    assert (0 ≤ r' < vertices graph) as Hr'range.
    { apply rd_Some_range in Hr0. rewrite (forest_len_ce _ Hf0) in Hr0. lia. }
    destruct (another_root _ r' Hn0) as (r2 & Hr2 & Hne).
    assert (0 ≤ r2 < vertices graph) as Hr2range.
    { apply rd_Some_range in Hr2. rewrite (forest_len_ce _ Hf0) in Hr2. lia. }
    destruct (joined_crossing set0 r' r' r2 Hf0 (Hconn r' r2 Hr'range Hr2range))
      as (e & He & Hcross & Htouch).
    { left. split; [by apply root_of_root|].
      intros Hr2'. by rewrite (root_of_det _ _ _ _ Hr2' (root_of_root _ _ Hr2)) in Hne. }
    destruct (Hscan e r') as (s & Hs & w & Hw & Hwne);
      [done|done|by apply Hweights|done|].
    destruct Hslots as [_ Hslots].
    destruct (Hslots r' Hr'range) as (s' & Hs' & w' & Hw' & Hinv).
    assert (s' = s) as -> by congruence.
    assert (w' = w) as -> by congruence.
    destruct (Hinv Hwne) as (e' & He' & -> & Hcross' & Htouch').
    pose proof (Hdone r' e' Hr'range Hs (Hweights e' He')) as Hsame2.
    destruct (wf_range _ Hwf e' He') as [Hfrom Hto].
    (* [a] is the endpoint in the set of [r'], [b] the other one *)
    assert (∃ a b, root_of (canonicalElements set0) a r' ∧
                   ¬ same (canonicalElements set0) a b ∧
                   same (canonicalElements set2) a b ∧
                   0 ≤ b < elements set0) as (a & b & Ha & Hab & Hab2 & Hb).
    { destruct Htouch' as [Ht|Ht].
      - exists (edge_from e'), (edge_to e'). split_and!; try done; lia.
      - exists (edge_to e'), (edge_from e'). split_and!; try done; try lia.
        + intros ?. by apply Hcross', same_sym.
        + by apply same_sym. }
    destruct (forest_reach _ Hf0 b Hb) as [o Ho].
    assert (o ≠ r') as Hor.
    { intros ->. apply Hab. by exists r'. }
    assert (same (canonicalElements set2) o r') as (q & Hq1 & Hq2).
    { eapply same_trans; [apply same_sym, Hcoarse0, same_root, Ho|].
      eapply same_trans; [apply same_sym, Hab2|].
      apply Hcoarse0, same_root, Ha. }
    rewrite <-(root_of_det _ _ _ _ (root_of_root _ _ Hr') Hq2) in Hq1.
    exists o. split_and!.
    + apply elem_of_roots. by eapply root_of_is_root.
    + rewrite elem_of_roots. intros Ho2. apply Hor.
      by rewrite (root_of_det _ _ _ _ (root_of_root _ _ Ho2) Hq1).
    + done.
Qed.

(** The state between two phases. *)
Record phase_inv (set : SetForest) (ce : list EdgeSlot) (mst : list Edge)
  (n : Z) : Prop := {
  pi_forest : forest set;
  pi_elements : elements set = vertices graph;
  pi_closest : Z.of_nat (length ce) = vertices graph;
  pi_mst : Z.of_nat (length mst) = vertices graph - 1;
  pi_count : n + nroots (canonicalElements set) = vertices graph;
  pi_sub : ∀ e, e ∈ take (Z.to_nat n) mst → e ∈ edgeList graph;
  pi_tree : ∀ x y, same (canonicalElements set) x y →
                   joined (take (Z.to_nat n) mst) x y
}.

(** One phase: the three loops return, and in a connected graph whose
    weights stay below the sentinel the number of sets is at least
    halved. *)
Lemma one_phase set ce mst n :
  phase_inv set ce mst n →
  ∃ ce1 set1 ce2 set2 mst2 n2,
    for_loop (Z.to_nat (vertices graph)) 0 reset_closest ce = Some ce1 ∧
    for_loop (Z.to_nat (edges graph)) 0 (find_closest fuel0 (edgeList graph))
      (set, ce1) = Some (set1, ce2) ∧
    for_loop (Z.to_nat (vertices graph)) 0 (add_closest fuel0 ce2)
      (set1, mst, n) = Some (set2, mst2, n2) ∧
    phase_inv set2 ce2 mst2 n2 ∧
    (connected graph →
     (∀ e, e ∈ edgeList graph → edge_weight e ≠ INT_MAX) →
     2 ≤ nroots (canonicalElements set) →
     2 * nroots (canonicalElements set2) ≤ nroots (canonicalElements set)).
Proof.
  intros [Hf Hel Hce Hmst Hcount Hsub Htree].
  destruct (reset_loop (canonicalElements set) ce Hce)
    as (ce1 & Hreset & Hslots1 & _).
  destruct (find_loop set ce1 Hf Hel Hslots1) as ([set1 ce2] & Hfind & Hfi).
  pose proof Hfi as [Hf1 Hel1 _ Hroots1 Hisr1 Hslots2 _]. simpl in *.
  assert (nroots (canonicalElements set1) = nroots (canonicalElements set))
    as Hn1 by (symmetry; by apply nroots_equiv).
  destruct (add_loop (canonicalElements set) set1 ce2 mst n Hslots2 Hf1 Hel1 Hmst)
    as ([[set2 mst2] n2] & Hadd & Hai); [lia|done| |].
  { intros x y (r & ? & ?). apply Htree. exists r. split; by apply Hroots1. }
  pose proof Hai as [Hf2 Hel2 Hmst2 Hcount2 _ _ _ Hsub2 Htree2]. simpl in *.
  exists ce1, set1, ce2, set2, mst2, n2. split_and!; try done.
  - split; try done. by destruct Hslots2.
  - intros Hconn Hweights Hn. by eapply phase_halves.
Qed.

Lemma phase_facts set ce mst n i phases :
  0 ≤ phases → i = 2 ^ phases → phase_inv set ce mst n →
  1 ≤ i ∧ 1 ≤ nroots (canonicalElements set) ∧
  (i < vertices graph → phases < Z.log2_up (vertices graph)) ∧
  (vertices graph ≤ i → Z.log2_up (vertices graph) ≤ phases).
Proof.
  intros Hph -> Hinv. pose proof (wf_vertices _ Hwf) as HV.
  pose proof (Z.pow_pos_nonneg 2 phases). split_and!.
  - lia.
  - destruct (forest_reach _ (pi_forest _ _ _ _ Hinv) 0) as [r Hr];
      [rewrite (pi_elements _ _ _ _ Hinv); lia|].
    by eapply nroots_ge_1, root_of_is_root.
  - intros ?. apply Z.log2_up_lt_pow2; [lia|done].
  - intros ?. apply Z.log2_up_le_pow2; [lia|done].
Qed.

Lemma boruvka_phases_spec (k : nat) :
  ∀ (fuel : nat) set ce mst n i phases,
    (Z.to_nat (vertices graph - i) ≤ k)%nat → (k < fuel)%nat →
    0 ≤ phases → i = 2 ^ phases → phases ≤ Z.log2_up (vertices graph) →
    phase_inv set ce mst n →
    ∃ mst' n' phases',
      boruvka_phases fuel0 fuel (vertices graph) (edges graph)
        (edgeList graph) set ce mst n i phases = Some (mst', n', phases') ∧
      (∃ set' ce', phase_inv set' ce' mst' n') ∧
      phases ≤ phases' ≤ Z.log2_up (vertices graph) ∧
      n' ≤ vertices graph - 1 ∧
      (n' = vertices graph - 1 ∨ phases' = Z.log2_up (vertices graph)) ∧
      (connected graph →
       (∀ e, e ∈ edgeList graph → edge_weight e ≠ INT_MAX) →
       nroots (canonicalElements set) * i ≤ vertices graph →
       n' = vertices graph - 1).
Proof.
  pose proof (wf_vertices _ Hwf) as HV.
  assert (∀ set ce mst n i phases,
    0 ≤ phases → i = 2 ^ phases → phases ≤ Z.log2_up (vertices graph) →
    phase_inv set ce mst n →
    ¬ (i < vertices graph ∧ n < vertices graph - 1) →
    phases ≤ phases ≤ Z.log2_up (vertices graph) ∧
    n ≤ vertices graph - 1 ∧
    (n = vertices graph - 1 ∨ phases = Z.log2_up (vertices graph)) ∧
    (connected graph →
     (∀ e, e ∈ edgeList graph → edge_weight e ≠ INT_MAX) →
     nroots (canonicalElements set) * i ≤ vertices graph →
     n = vertices graph - 1)) as Hstop.
  { intros set ce mst n i phases Hph Hi Hlog Hinv Hguard.
    destruct (phase_facts set ce mst n i phases Hph Hi Hinv)
      as (Hi1 & Hn1 & Hlt & Hge).
    pose proof (pi_count _ _ _ _ Hinv) as Hcount.
    split_and!; try lia.
    intros _ _ Hni. destruct (decide (n = vertices graph - 1)); [done|].
    assert (vertices graph ≤ i) by lia. nia. }
  induction k as [|k IH]; intros fuel set ce mst n i phases Hk Hfuel Hph Hi
    Hlog Hinv; (destruct fuel as [|fuel]; [lia|]); cbn [boruvka_phases];
    destruct (phase_facts set ce mst n i phases Hph Hi Hinv)
      as (Hi1 & Hn1 & Hlt & Hge).
  - rewrite decide_False by lia.
    exists mst, n, phases. split; [done|]. split; [by eauto|].
    eapply Hstop; eauto. lia.
  - case_decide as Hguard.
    2:{ exists mst, n, phases. split; [done|]. split; [by eauto|].
        eapply Hstop; eauto. }
    destruct (one_phase set ce mst n Hinv)
      as (ce1 & set1 & ce2 & set2 & mst2 & n2 & -> & Hfind & Hadd & Hinv2 & Hhalf).
    cbn [mbind option_bind]. rewrite Hfind. cbn [mbind option_bind].
    rewrite Hadd. cbn [mbind option_bind].
    pose proof (pi_count _ _ _ _ Hinv) as Hcount.
    destruct (IH fuel set2 ce2 mst2 n2 (i * 2) (phases + 1))
      as (mst' & n' & phases' & -> & Hfin & Hphases & Hn' & Hor & Hconn);
      [lia|lia|lia| |lia|done|].
    { subst i. rewrite Z.pow_add_r by lia. done. }
    exists mst', n', phases'. split_and!; try done; try lia.
    intros Hc Hw Hni. apply Hconn; [done..|].
    specialize (Hhalf Hc Hw ltac:(lia)). nia.
Qed.

(** **** The cohort: combining the tables *)

(** On rank 0 the body of the last loop is the one of the single process. *)
Lemma add_closest_rank_root ce j st :
  add_closest_rank 0 fuel0 ce j st = add_closest fuel0 ce j st.
Proof.
  destruct st as [[set mst] n]. unfold add_closest_rank, add_closest.
  destruct (rd ce j) as [s|]; [|done]. cbn [mbind option_bind].
  destruct (slot_weight s) as [w|]; [|done]. cbn [mbind option_bind].
  case_decide; [|done].
  destruct (slot_from s) as [from|]; [|done]. cbn [mbind option_bind].
  destruct (slot_to s) as [to|]; [|done]. cbn [mbind option_bind].
  destruct (findSet fuel0 set from) as [[set1 rf]|]; [|done].
  cbn [mbind option_bind].
  destruct (findSet fuel0 set1 to) as [[set2 rt]|]; [|done].
  cbn [mbind option_bind]. case_decide; [|done].
  rewrite decide_True by done.
  destruct (edge_of s) as [e|]; [|done]. cbn [mbind option_bind].
  by destruct (wr mst n e).
Qed.

(** [covers t T]: every slot that is set in the table [T] is set in [t]. *)
Definition covers (t T : list EdgeSlot) : Prop :=
  ∀ c s, rd T c = Some s → slot_set s → ∃ s', rd t c = Some s' ∧ slot_set s'.

Lemma covers_refl t : covers t t.
Proof. intros c s Hs Hset. by exists s. Qed.

Lemma covers_trans t1 t2 t3 : covers t1 t2 → covers t2 t3 → covers t1 t3.
Proof.
  intros H12 H23 c s Hs Hset. destruct (H23 c s Hs Hset) as (s2 & Hs2 & Hset2).
  by apply (H12 c s2).
Qed.

(** The loop that combines a received table into the local one. *)
Lemma combine_loop cs0 recv t :
  slots_inv cs0 recv → slots_inv cs0 t →
  ∃ t', for_loop (Z.to_nat (vertices graph)) 0 (combine_closest recv) t
        = Some t' ∧
        slots_inv cs0 t' ∧ covers t' t ∧ covers t' recv.
Proof.
  intros [Hlr Hrecv] [Hlt Ht].
  pose proof (wf_vertices _ Hwf) as HV.
  destruct (for_loop_inv
    (λ j tj, slots_inv cs0 tj ∧
             (∀ c, j ≤ c → rd tj c = rd t c) ∧
             (∀ c s, 0 ≤ c < j → rd t c = Some s ∨ rd recv c = Some s →
                     slot_set s → ∃ s', rd tj c = Some s' ∧ slot_set s'))
    (combine_closest recv) (Z.to_nat (vertices graph)) 0 t)
    as (t' & Hloop & Hslots' & _ & Hcov).
  { split; [done|]. split; [done|]. intros; lia. }
  { intros j tj Hj ([Hlj Hsj] & Hrest & Hdone). unfold combine_closest.
    destruct (Hrecv j) as (r & Hr & Hrinv); [lia|].
    pose proof Hrinv as (wr_ & Hwr & _).
    destruct (Hsj j) as (s & Hs & Hsinv); [lia|].
    pose proof Hsinv as (w & Hw & _).
    rewrite Hr. cbn [mbind option_bind]. rewrite Hwr. cbn [mbind option_bind].
    rewrite Hs. cbn [mbind option_bind]. rewrite Hw. cbn [mbind option_bind].
    pose proof (slot_inv_weight _ _ _ _ Hrinv Hwr) as Hwr_max.
    pose proof (slot_inv_weight _ _ _ _ Hsinv Hw) as Hw_max.
    assert (rd t j = Some s) as Hts by (rewrite <-Hrest by lia; done).
    case_decide as Hlt'.
    - assert (wr tj j r = Some (<[Z.to_nat j := r]> tj)) as Hwrite
        by (apply wr_in_range; lia).
      rewrite Hwrite. eexists. split; [done|]. split_and!.
      + split; [by rewrite length_insert|]. intros c Hc.
        rewrite (rd_wr _ _ c _ _ Hwrite).
        destruct (decide (c = j)) as [->|]; [by exists r|by apply Hsj].
      + intros c Hc. rewrite (rd_wr _ _ c _ _ Hwrite), decide_False by lia.
        apply Hrest. lia.
      + intros c s0 Hc Hs0 Hset0. rewrite (rd_wr _ _ c _ _ Hwrite).
        destruct (decide (c = j)) as [->|]; [|apply (Hdone c s0); [lia|done..]].
        exists r. split; [done|]. exists wr_. split; [done|lia].
    - eexists. split; [done|]. split_and!.
      + done.
      + intros c Hc. apply Hrest. lia.
      + intros c s0 Hc Hs0 Hset0.
        destruct (decide (c = j)) as [->|]; [|apply (Hdone c s0); [lia|done..]].
        exists s. split; [done|]. exists w. split; [done|].
        destruct Hset0 as (w0 & Hw0 & Hne0).
        destruct Hs0 as [Hs0|Hs0]; simplify_eq; [done|lia]. }
  exists t'. split; [done|]. split; [done|].
  replace (0 + Z.of_nat (Z.to_nat (vertices graph))) with (vertices graph)
    in Hcov by lia.
  split; intros c s Hs Hset; apply (Hcov c s); try done.
  - apply rd_Some_range in Hs. lia.
  - by left.
  - apply rd_Some_range in Hs. lia.
  - by right.
Qed.

Section cohort.

Context (size : Z) (Hsize : 1 ≤ size).

(** What the tree of sends and receives maintains.  [T] are the tables of
    the ranks after their edge scans; before the iteration with [step] the
    table of a rank that is a multiple of [step] covers the tables of the
    [step] ranks that start with it. *)
Record reduce_inv (cs0 : list Z) (T : list (list EdgeSlot)) (step : Z)
  (tables : list (list EdgeSlot)) : Prop := {
  ri_scanned : length T = Z.to_nat size;
  ri_length : length tables = Z.to_nat size;
  ri_slots : ∀ r t, rd tables r = Some t → slots_inv cs0 t;
  ri_covers : ∀ r t r' T', rd tables r = Some t → r `mod` step = 0 →
                           r ≤ r' < r + step → rd T r' = Some T' →
                           covers t T'
}.

Lemma multiple_of_double (r step : Z) :
  1 ≤ step → r `mod` (2 * step) = 0 →
  r `mod` step = 0 ∧ (r + step) `mod` step = 0.
Proof.
  intros Hstep [q ->]%Z.mod_divide; [|lia].
  replace (q * (2 * step)) with (q * 2 * step) by lia.
  replace (q * 2 * step + step) with ((q * 2 + 1) * step) by lia.
  by rewrite !Z.mod_mul by lia.
Qed.

Lemma reduce_rank_spec cs0 T step tables r :
  1 ≤ step → reduce_inv cs0 T step tables → 0 ≤ r < size →
  ∃ t', reduce_rank (vertices graph) size step tables r = Some t' ∧
        slots_inv cs0 t' ∧
        (r `mod` (2 * step) = 0 →
         ∀ r' T', r ≤ r' < r + 2 * step → rd T r' = Some T' → covers t' T').
Proof.
  intros Hstep [HlT Hlen Hslots Hcov] Hr. unfold reduce_rank.
  destruct (rd_in_range tables r) as [t Ht]; [lia|]. rewrite Ht.
  cbn [mbind option_bind]. rewrite Z.rem_mod_nonneg by lia.
  case_decide as Hmult.
  2:{ exists t. split; [done|]. split; [by eapply Hslots|]. done. }
  destruct (multiple_of_double r step Hstep Hmult) as [Hm1 Hm2].
  cbv zeta. case_decide as Hfrom.
  - destruct (rd_in_range tables (r + step)) as [t2 Ht2]; [lia|]. rewrite Ht2.
    cbn [mbind option_bind].
    destruct (combine_loop cs0 t2 t) as (t' & -> & Hslots' & Hct & Hct2);
      [by eapply Hslots..|].
    exists t'. split; [done|]. split; [done|].
    intros _ r' T' Hr' HT'.
    destruct (decide (r' < r + step)).
    + apply (covers_trans _ t); [done|]. apply (Hcov r t r'); [done..|lia|done].
    + apply (covers_trans _ t2); [done|].
      apply (Hcov (r + step) t2 r'); [done..|lia|done].
  - exists t. split; [done|]. split; [by eapply Hslots|].
    intros _ r' T' Hr' HT'. pose proof (rd_Some_range _ _ _ HT').
    apply (Hcov r t r'); [done..|lia|done].
Qed.

Lemma reduce_steps_spec cs0 T (k : nat) :
  ∀ (fuel : nat) step tables,
    (Z.to_nat (size - step) ≤ k)%nat → (k < fuel)%nat → 1 ≤ step →
    reduce_inv cs0 T step tables →
    ∃ tables' step',
      reduce_steps fuel (vertices graph) size step tables = Some tables' ∧
      size ≤ step' ∧ reduce_inv cs0 T step' tables'.
Proof.
  induction k as [|k IH]; intros fuel step tables Hk Hfuel Hstep Hinv;
    (destruct fuel as [|fuel]; [lia|]); cbn [reduce_steps].
  { rewrite decide_False by lia. exists tables, step. split; [done|].
    split; [lia|done]. }
  case_decide as Hlt.
  2:{ exists tables, step. split; [done|]. split; [lia|done]. }
  destruct (mapM_ranks (reduce_rank (vertices graph) size step tables)
    (λ r t', slots_inv cs0 t' ∧
             (r `mod` (2 * step) = 0 →
              ∀ r' T', r ≤ r' < r + 2 * step → rd T r' = Some T' →
                       covers t' T')) size) as (tables1 & -> & Hlen1 & Hall).
  { intros r Hr. by apply (reduce_rank_spec cs0 T). }
  cbn [mbind option_bind].
  apply IH; [lia|lia|lia|].
  destruct Hinv as [HlT Hlen Hslots Hcov]. split; [done|done| |].
  - intros r t Ht. by destruct (Hall r t Ht).
  - intros r t r' T' Ht Hmod Hr' HT'. destruct (Hall r t Ht) as [_ Hc].
    replace (step * 2) with (2 * step) in * by lia. by eapply Hc.
Qed.

Context (Hfuel_size : (Z.to_nat size ≤ fuel0)%nat).

Lemma exchange_spec cs0 T :
  length T = Z.to_nat size →
  (∀ r t, rd T r = Some t → slots_inv cs0 t) →
  ∃ tables t,
    exchange fuel0 (vertices graph) size T = Some tables ∧
    length tables = Z.to_nat size ∧
    (∀ r t', rd tables r = Some t' → t' = t) ∧
    slots_inv cs0 t ∧
    ∀ r T', rd T r = Some T' → covers t T'.
Proof.
  intros HlT Hslots. unfold exchange. case_decide as Hpar.
  - destruct (reduce_steps_spec cs0 T (Z.to_nat (size - 1)) fuel0 1 T)
      as (tables & step & -> & Hstep & [_ Hlen Hslots' Hcov]); [lia..| |].
    { split; try done. intros r t r' T' Ht _ Hr' HT'.
      assert (r' = r) as -> by lia. rewrite Ht in HT'. injection HT' as <-.
      apply covers_refl. }
    cbn [mbind option_bind].
    destruct (rd_in_range tables 0) as [t Ht]; [lia|]. rewrite Ht.
    cbn [mbind option_bind]. eexists _, t. split; [done|].
    split; [by rewrite length_replicate|]. split_and!.
    + intros r t' Hr. pose proof (rd_Some_range _ _ _ Hr) as Hrange.
      rewrite length_replicate in Hrange.
      rewrite rd_replicate in Hr by done. congruence.
    + by eapply Hslots'.
    + intros r T' HT'. pose proof (rd_Some_range _ _ _ HT').
      apply (Hcov 0 t r); [done| |lia|done]. apply Z.mod_0_l. lia.
  - assert (size = 1) as Hone by (by destruct (decide (size = 1))).
    destruct (rd_in_range T 0) as [t Ht]; [lia|].
    assert (∀ r t', rd T r = Some t' → t' = t) as Honly.
    { intros r t' Hr. pose proof (rd_Some_range _ _ _ Hr).
      assert (r = 0) as -> by lia. congruence. }
    exists T, t. split_and!; try done.
    + by eapply Hslots.
    + intros r T' HT'. rewrite (Honly r T' HT'). apply covers_refl.
Qed.

(** On a forest in step with the one of rank 0, the body of the last loop
    of a phase does on another rank what it does on rank 0, the write to
    the MST buffer apart. *)
Lemma add_closest_mirror rank cs0 ce j set mst n setr mstr st' :
  rank ≠ 0 → slots_inv cs0 ce → 0 ≤ j < vertices graph →
  elements set = vertices graph → in_step set setr →
  add_closest fuel0 ce j (set, mst, n) = Some st' →
  ∃ setr', add_closest_rank rank fuel0 ce j (setr, mstr, n)
           = Some (setr', mstr, st'.2) ∧
           in_step st'.1.1 setr'.
Proof.
  intros Hrank [Hlen Hslots] Hj Hel Hstep. unfold add_closest, add_closest_rank.
  destruct (Hslots j Hj) as (s & Hs & w & Hw & Hwe). rewrite Hs.
  cbn [mbind option_bind]. rewrite Hw. cbn [mbind option_bind].
  case_decide as Hne.
  2:{ intros [= <-]. by exists setr. }
  destruct (Hwe Hne) as (e & Hein & -> & _).
  cbn [slot_of slot_from slot_to mbind option_bind].
  destruct (wf_range _ Hwf e Hein) as [Hfrom Hto].
  pose proof Hstep as (Hf & Hfr & Helr & _).
  destruct (findSet_in_step set setr (edge_from e) Hstep ltac:(by rewrite Hel))
    as (rf & set_a & setr_a & Hfa & Hfra & _ & Hsa & Hstep_a).
  rewrite Hfa by (by apply fuel0_enough).
  rewrite Hfra by (apply fuel0_enough; [done|congruence]).
  cbn [mbind option_bind].
  pose proof Hstep_a as (Hf_a & Hfr_a & Helr_a & _).
  pose proof Hsa as (_ & _ & Hel_a & _).
  destruct (findSet_in_step set_a setr_a (edge_to e) Hstep_a
              ltac:(by rewrite Hel_a, Hel))
    as (rt & set_b & setr_b & Hfb & Hfrb & _ & Hsb & Hstep_b).
  rewrite Hfb by (apply fuel0_enough; [done|congruence]).
  rewrite Hfrb by (apply fuel0_enough; [done|congruence]).
  cbn [mbind option_bind].
  pose proof Hstep_b as (Hf_b & Hfr_b & Helr_b & _).
  pose proof Hsb as (_ & _ & Hel_b & _).
  case_decide as Hroots.
  2:{ intros [= <-]. by exists setr_b. }
  rewrite decide_False by done. cbn [mbind option_bind].
  fold (slot_of e). rewrite edge_of_slot_of. cbn [mbind option_bind].
  destruct (wr mst n e) as [mst'|]; [|done]. cbn [mbind option_bind].
  destruct (unionSet_in_step set_b setr_b (edge_from e) (edge_to e) Hstep_b)
    as (set_c & setr_c & Hu & Hur & Hstep_c); [congruence..|].
  rewrite Hu by (apply fuel0_enough; [done|congruence]).
  rewrite Hur by (apply fuel0_enough; [done|congruence]).
  cbn [mbind option_bind]. intros [= <-]. by exists setr_c.
Qed.

Lemma add_loop_mirror rank cs0 set1 ce mst n setr mstr :
  rank ≠ 0 → in_step set1 setr →
  slots_inv cs0 ce → forest set1 → elements set1 = vertices graph →
  Z.of_nat (length mst) = vertices graph - 1 →
  n + nroots (canonicalElements set1) = vertices graph →
  (∀ e, e ∈ take (Z.to_nat n) mst → e ∈ edgeList graph) →
  (∀ x y, same (canonicalElements set1) x y →
          joined (take (Z.to_nat n) mst) x y) →
  ∃ st' setr',
    for_loop (Z.to_nat (vertices graph)) 0 (add_closest fuel0 ce)
      (set1, mst, n) = Some st' ∧
    for_loop (Z.to_nat (vertices graph)) 0 (add_closest_rank rank fuel0 ce)
      (setr, mstr, n) = Some (setr', mstr, st'.2) ∧
    in_step st'.1.1 setr'.
Proof.
  intros Hrank Hstep Hslots Hf1 Hel1 Hmst Hn Hsub Htree.
  destruct (for_loop_rel
    (λ j (st0 str : SetForest * list Edge * Z),
       add_inv set1 ce j st0 ∧ in_step st0.1.1 str.1.1 ∧
       str.1.2 = mstr ∧ str.2 = st0.2)
    (add_closest fuel0 ce) (add_closest_rank rank fuel0 ce)
    (Z.to_nat (vertices graph)) 0 (set1, mst, n) (setr, mstr, n))
    as (st' & [[setr' mstr'] nr'] & Hl0 & Hlr & Hinv & Hstep' & Hm & Hnr).
  { split; [|done]. split; simpl; try done. intros; lia. }
  { intros j [[set0 mst0] n0] [[setq mstq] nq] Hj (Hinv & Hst & Hm & Hnq).
    simpl in *. subst mstq nq.
    destruct (add_closest_step cs0 set1 ce j (set0, mst0, n0))
      as (st0' & Hadd & Hinv'); [done|lia|done|].
    destruct (add_closest_mirror rank cs0 ce j set0 mst0 n0 setq mstr st0')
      as (setq' & Haddr & Hst'); [done|done|lia| |done|done|].
    { apply Hinv. }
    exists st0', (setq', mstr, st0'.2). by split_and!. }
  simpl in *. subst. by exists st', setr'.
Qed.


(** **** The cohort: one phase *)

Context (parts : list (list (cell Edge) * Z)).
Context (Hparts_len : length parts = Z.to_nat size).
Context (Hparts : ∀ r part n, rd parts r = Some (part, n) →
                              part_of_graph part n).
Context (Hcover : ∀ e, e ∈ edgeList graph →
                       ∃ r part n k, rd parts r = Some (part, n) ∧
                                     0 ≤ k < n ∧ rdc part k = Some e).

(** The cohort between two phases: rank 0 holds the state of the single
    process, and every rank holds a forest in step with the one of rank 0
    and the same count of MST edges. *)
Record cohort_inv (ps : list Process) (set : SetForest) (ce : list EdgeSlot)
  (mst : list Edge) (n : Z) : Prop := {
  ci_length : length ps = Z.to_nat size;
  ci_root : rd ps 0 = Some (mkProcess set ce mst n);
  ci_phase : phase_inv set ce mst n;
  ci_ranks : ∀ r p, rd ps r = Some p →
                    in_step set (pr_set p) ∧ pr_edgesMST p = n ∧
                    Z.of_nat (length (pr_closestEdge p)) = vertices graph
}.

Lemma is_root_in_step cs cs' :
  (∀ y r, root_of cs y r ↔ root_of cs' y r) →
  ∀ y, is_root cs y ↔ is_root cs' y.
Proof.
  intros Hroots y.
  split; intros Hy%root_of_root; by eapply root_of_is_root, Hroots.
Qed.

Lemma rd_fmap {A B : Type} (f : A → B) (l : list A) (i : Z) :
  rd (f <$> l) i = f <$> rd l i.
Proof. unfold rd. case_decide; [|done]. apply list_lookup_fmap. Qed.

(** The first two loops of a phase on one rank. *)
Lemma find_phase_spec set r part nr p n :
  forest set → elements set = vertices graph →
  rd parts r = Some (part, nr) →
  in_step set (pr_set p) → pr_edgesMST p = n →
  Z.of_nat (length (pr_closestEdge p)) = vertices graph →
  ∃ p1, find_phase fuel0 (vertices graph) (part, nr) p = Some p1 ∧
        in_step set (pr_set p1) ∧
        slots_inv (canonicalElements set) (pr_closestEdge p1) ∧
        pr_edgesMST p1 = n ∧ pr_mst p1 = pr_mst p ∧
        ∀ k e c, 0 ≤ k < nr → rdc part k = Some e →
                 crossing (canonicalElements set) e →
                 edge_weight e ≠ INT_MAX →
                 touches (canonicalElements set) e c →
                 ∃ s, rd (pr_closestEdge p1) c = Some s ∧ slot_set s.
Proof.
  intros Hf Hel Hpart (_ & Hfp & Help & Hrkp & Hrootsp) Hn Hlen.
  unfold find_phase.
  destruct (reset_loop (canonicalElements set) (pr_closestEdge p) Hlen)
    as (ce1 & -> & Hslots1 & _).
  cbn [mbind option_bind].
  destruct (find_part_loop set part nr (pr_set p, ce1))
    as ([set1 ce2] & -> & [Hf1 Hel1 Hrk1 Hroots1 Hisr1 Hslots2 Hscan]);
    [done|done|by eapply Hparts| |].
  { split; simpl; try done; [congruence| |intros; lia].
    by apply is_root_in_step. }
  cbn [mbind option_bind]. simpl in *.
  eexists. split; [done|]. simpl. split_and!; try done.
  - split_and!; try done. congruence.
  - intros k e c Hk. apply Hscan. lia.
Qed.

Lemma cohort_one_phase ps set ce mst n :
  cohort_inv ps set ce mst n →
  ∃ ps2 set2 ce2 mst2 n2,
    cohort_phase fuel0 fuel0 (vertices graph) size parts ps = Some ps2 ∧
    cohort_inv ps2 set2 ce2 mst2 n2 ∧
    (connected graph →
     (∀ e, e ∈ edgeList graph → edge_weight e ≠ INT_MAX) →
     2 ≤ nroots (canonicalElements set) →
     2 * nroots (canonicalElements set2) ≤ nroots (canonicalElements set)).
Proof.
  intros [Hlen Hroot Hphase Hranks].
  pose proof Hphase as [Hf Hel Hce Hmst Hcount Hsub Htree].
  unfold cohort_phase.
  (* the edge scans *)
  destruct (mapM_ranks
    (λ rank, part ← rd parts rank; p ← rd ps rank;
             find_phase fuel0 (vertices graph) part p)
    (λ r p1,
       in_step set (pr_set p1) ∧
       slots_inv (canonicalElements set) (pr_closestEdge p1) ∧
       pr_edgesMST p1 = n ∧ (r = 0 → pr_mst p1 = mst) ∧
       ∀ part nr k e c,
         rd parts r = Some (part, nr) → 0 ≤ k < nr → rdc part k = Some e →
         crossing (canonicalElements set) e → edge_weight e ≠ INT_MAX →
         touches (canonicalElements set) e c →
         ∃ s, rd (pr_closestEdge p1) c = Some s ∧ slot_set s) size)
    as (ps1 & -> & Hlen1 & Hall1).
  { intros r Hr.
    destruct (rd_in_range parts r) as [[part nr] Hpart]; [lia|].
    destruct (rd_in_range ps r) as [p Hp]; [lia|].
    rewrite Hpart, Hp. cbn [mbind option_bind].
    destruct (Hranks r p Hp) as (Hstep & Hnp & Hlp).
    destruct (find_phase_spec set r part nr p n)
      as (p1 & -> & ? & ? & ? & Hm & Hscan); [done..|].
    exists p1. split_and!; try done.
    - intros ->. rewrite Hroot in Hp. injection Hp as <-. done.
    - intros part' nr' k e c [= <- <-]. apply Hscan. }
  cbn [mbind option_bind].
  (* the tables are combined and published *)
  destruct (exchange_spec (canonicalElements set) (pr_closestEdge <$> ps1))
    as (tables & t & -> & Hlent & Honly & Hslots & Hcov).
  { by rewrite length_fmap. }
  { intros r t0. rewrite rd_fmap. destruct (rd ps1 r) as [p1|] eqn:Hp1; [|done].
    intros [= <-]. by destruct (Hall1 r p1 Hp1) as (_ & ? & _). }
  cbn [mbind option_bind].
  (* rank 0 *)
  destruct (rd_in_range ps1 0) as [p0 Hp0]; [lia|].
  destruct (Hall1 0 p0 Hp0) as (Hstep0 & _ & Hn0 & Hmst0 & _).
  specialize (Hmst0 eq_refl).
  pose proof Hstep0 as (_ & Hf1 & Hel1 & Hrk1 & Hroots1).
  assert (found set (pr_set p0, t)) as Hfound.
  { split; simpl; try done; [congruence|by apply is_root_in_step|].
    intros e c He Hcr Hw Htouch.
    destruct (Hcover e He) as (r & part & nr & k & Hpart & Hk & Hke).
    pose proof (rd_Some_range _ _ _ Hpart) as Hr.
    destruct (rd_in_range ps1 r) as [p1 Hp1]; [lia|].
    destruct (Hall1 r p1 Hp1) as (_ & _ & _ & _ & Hscan).
    destruct (Hscan part nr k e c Hpart Hk Hke Hcr Hw Htouch)
      as (s & Hs & Hset).
    assert (covers t (pr_closestEdge p1)) as Hc.
    { apply (Hcov r). by rewrite rd_fmap, Hp1. }
    by apply (Hc c s). }
  assert (∀ x y, same (canonicalElements (pr_set p0)) x y →
                 joined (take (Z.to_nat n) mst) x y) as Htree1.
  { intros x y (r & ? & ?). apply Htree. exists r. split; by apply Hroots1. }
  assert (nroots (canonicalElements (pr_set p0))
          = nroots (canonicalElements set)) as Hnr1.
  { symmetry. apply nroots_equiv. by apply is_root_in_step. }
  destruct (add_loop (canonicalElements set) (pr_set p0) t mst n)
    as ([[set2 mst2] n2] & Hadd & Hai); [done|done|congruence|done|lia|done..|].
  pose proof Hai as [Hf2 Hel2 Hmst2 Hcount2 _ _ _ Hsub2 Htree2]. simpl in *.
  (* the last loop on every rank *)
  destruct (mapM_ranks
    (λ rank, closestEdge ← rd tables rank; p ← rd ps1 rank;
             add_phase fuel0 (vertices graph) closestEdge rank p)
    (λ r p2, in_step set2 (pr_set p2) ∧ pr_edgesMST p2 = n2 ∧
             pr_closestEdge p2 = t ∧
             (r = 0 → p2 = mkProcess set2 t mst2 n2)) size)
    as (ps2 & -> & Hlen2 & Hall2).
  { intros r Hr.
    destruct (rd_in_range tables r) as [t' Ht']; [lia|].
    rewrite (Honly r t' Ht') in Ht'. clear t'.
    destruct (rd_in_range ps1 r) as [p1 Hp1]; [lia|].
    rewrite Ht', Hp1. cbn [mbind option_bind]. unfold add_phase.
    destruct (Hall1 r p1 Hp1) as (Hstep1 & _ & Hn1 & _ & _).
    destruct (decide (r = 0)) as [->|Hr0].
    - assert (p1 = p0) as -> by congruence.
      rewrite (for_loop_ext _ (add_closest fuel0 t))
        by (intros; apply add_closest_rank_root).
      rewrite Hmst0, Hn0, Hadd. cbn [mbind option_bind].
      eexists. split; [done|]. simpl. split_and!; try done.
    - destruct (add_loop_mirror r (canonicalElements set) (pr_set p0) t mst n
                  (pr_set p1) (pr_mst p1))
        as (st' & setr' & Hl0 & Hlr & Hstep');
        [done| |done|done|congruence|done|lia|done..|].
      { apply (in_step_trans _ set); [by apply in_step_sym|done]. }
      rewrite Hadd in Hl0. injection Hl0 as <-. simpl in *.
      rewrite Hn1, Hlr. cbn [mbind option_bind].
      eexists. split; [done|]. simpl. by split_and!. }
  destruct (rd_in_range ps2 0) as [q0 Hq0]; [lia|].
  destruct (Hall2 0 q0 Hq0) as (_ & _ & _ & Hq).
  specialize (Hq eq_refl). subst q0.
  exists ps2, set2, t, mst2, n2. split; [done|]. split.
  - split; try done.
    + split; try done. by destruct Hslots.
    + intros r p2 Hp2. destruct (Hall2 r p2 Hp2) as (? & ? & -> & _).
      split_and!; try done. by destruct Hslots.
  - intros Hconn Hweights Hn. by eapply phase_halves.
Qed.


(** **** The cohort: the phase loop *)

(** Every rank takes the same branch of the guard of the phase loop. *)
Lemma cohort_guard ps set ce mst n (i : Z) :
  cohort_inv ps set ce mst n →
  let enters (p : Process) : bool :=
    bool_decide (i < vertices graph ∧ pr_edgesMST p < vertices graph - 1) in
  forallb enters ps
  = bool_decide (i < vertices graph ∧ n < vertices graph - 1) ∧
  forallb (λ p, negb (enters p)) ps
  = negb (bool_decide (i < vertices graph ∧ n < vertices graph - 1)).
Proof.
  intros [Hlen _ _ Hranks] enters.
  assert (ps ≠ []) as Hne by (intros ->; simpl in Hlen; lia).
  assert (∀ p, p ∈ ps → pr_edgesMST p = n) as Hn.
  { intros p [k Hk]%list_elem_of_lookup_1. rewrite <-MergeSort.rd_of_nat in Hk.
    by destruct (Hranks _ _ Hk) as (_ & ? & _). }
  split; apply forallb_const; try done; intros p Hp; unfold enters;
    by rewrite (Hn p Hp).
Qed.

Lemma phase_stop set ce mst n i phases :
  0 ≤ phases → i = 2 ^ phases → phases ≤ Z.log2_up (vertices graph) →
  phase_inv set ce mst n →
  ¬ (i < vertices graph ∧ n < vertices graph - 1) →
  phases ≤ phases ≤ Z.log2_up (vertices graph) ∧
  n ≤ vertices graph - 1 ∧
  (n = vertices graph - 1 ∨ phases = Z.log2_up (vertices graph)) ∧
  (nroots (canonicalElements set) * i ≤ vertices graph →
   n = vertices graph - 1).
Proof.
  intros Hph Hi Hlog Hinv Hguard.
  destruct (phase_facts set ce mst n i phases Hph Hi Hinv)
    as (Hi1 & Hn1 & Hlt & Hge).
  pose proof (pi_count _ _ _ _ Hinv) as Hcount.
  split_and!; try lia.
  intros Hni. destruct (decide (n = vertices graph - 1)); [done|].
  assert (vertices graph ≤ i) by lia. nia.
Qed.

Lemma cohort_phases_spec (k : nat) :
  ∀ (fuel : nat) ps set ce mst n i phases,
    (Z.to_nat (vertices graph - i) ≤ k)%nat → (k < fuel)%nat →
    0 ≤ phases → i = 2 ^ phases → phases ≤ Z.log2_up (vertices graph) →
    cohort_inv ps set ce mst n →
    ∃ ps' set' ce' mst' n' phases',
      cohort_phases fuel0 fuel (vertices graph) size parts ps i phases
      = Some (ps', phases') ∧
      cohort_inv ps' set' ce' mst' n' ∧
      phases ≤ phases' ≤ Z.log2_up (vertices graph) ∧
      n' ≤ vertices graph - 1 ∧
      (n' = vertices graph - 1 ∨ phases' = Z.log2_up (vertices graph)) ∧
      (connected graph →
       (∀ e, e ∈ edgeList graph → edge_weight e ≠ INT_MAX) →
       nroots (canonicalElements set) * i ≤ vertices graph →
       n' = vertices graph - 1).
Proof.
  pose proof (wf_vertices _ Hwf) as HV.
  induction k as [|k IH]; intros fuel ps set ce mst n i phases Hk Hfuel Hph Hi
    Hlog Hinv; (destruct fuel as [|fuel]; [lia|]); cbn [cohort_phases];
    cbv zeta;
    destruct (cohort_guard ps set ce mst n i Hinv) as [-> ->];
    destruct (phase_facts set ce mst n i phases Hph Hi (ci_phase _ _ _ _ _ Hinv))
      as (Hi1 & Hn1 & Hlt & Hge).
  - rewrite bool_decide_eq_false_2 by lia. simpl.
    exists ps, set, ce, mst, n, phases. split; [done|]. split; [done|].
    destruct (phase_stop set ce mst n i phases) as (? & ? & ? & ?);
      [done..|apply Hinv|lia|]. by split_and!.
  - case_bool_decide as Hguard; simpl.
    2:{ exists ps, set, ce, mst, n, phases. split; [done|]. split; [done|].
        destruct (phase_stop set ce mst n i phases) as (? & ? & ? & ?);
          [done..|apply Hinv|done|]. by split_and!. }
    destruct (cohort_one_phase ps set ce mst n Hinv)
      as (ps2 & set2 & ce2 & mst2 & n2 & -> & Hinv2 & Hhalf).
    cbn [mbind option_bind].
    pose proof (pi_count _ _ _ _ (ci_phase _ _ _ _ _ Hinv)) as Hcount.
    destruct (IH fuel ps2 set2 ce2 mst2 n2 (i * 2) (phases + 1))
      as (ps' & set' & ce' & mst' & n' & phases' & -> & Hfin & Hphases & Hn'
          & Hor & Hconn);
      [lia|lia|lia| |lia|done|].
    { subst i. rewrite Z.pow_add_r by lia. done. }
    exists ps', set', ce', mst', n', phases'. split_and!; try done; try lia.
    intros Hc Hw Hni. apply Hconn; [done..|].
    specialize (Hhalf Hc Hw ltac:(lia)). nia.
Qed.

End cohort.

End boruvka.

(** The state before the first phase. *)
Lemma phase_inv_init graph :
  graph_wf graph →
  phase_inv graph (newSet (vertices graph))
    (replicate (Z.to_nat (vertices graph)) (mkSlot None None None))
    (edgeList (newWeightedGraph (vertices graph) (vertices graph - 1))) 0.
Proof.
  intros Hwf. pose proof (wf_vertices _ Hwf) as HV. split.
  - apply newSet_forest. lia.
  - done.
  - rewrite length_replicate. lia.
  - simpl. rewrite length_replicate. lia.
  - rewrite newSet_nroots by lia. lia.
  - intros e []%elem_of_nil.
  - intros x y Hxy. apply newSet_same in Hxy as [-> _]; [|lia].
    apply joined_refl.
Qed.

Lemma mstBoruvka_spec (fuel : nat) (graph : WeightedGraph) :
  graph_wf graph → (Z.to_nat (vertices graph) ≤ fuel)%nat →
  ∃ mst n phases,
    mstBoruvka fuel graph
      (newWeightedGraph (vertices graph) (vertices graph - 1))
    = Some (mst, n, phases) ∧
    0 ≤ phases ≤ Z.log2_up (vertices graph) ∧
    n ≤ vertices graph - 1 ∧
    (n = vertices graph - 1 ∨ phases = Z.log2_up (vertices graph)) ∧
    (connected graph →
     (∀ e, e ∈ edgeList graph → edge_weight e ≠ INT_MAX) →
     n = vertices graph - 1).
Proof.
  intros Hwf Hfuel. unfold mstBoruvka.
  pose proof (wf_vertices _ Hwf) as HV.
  replace ((edges graph + 1 - 1) ÷ 1) with (edges graph)
    by (rewrite Z.quot_1_r; lia).
  destruct (boruvka_phases_spec graph Hwf fuel Hfuel
              (Z.to_nat (vertices graph - 1)) fuel (newSet (vertices graph))
              (replicate (Z.to_nat (vertices graph)) (mkSlot None None None))
              (edgeList (newWeightedGraph (vertices graph) (vertices graph - 1)))
              0 1 0)
    as (mst' & n' & phases' & -> & _ & Hph & Hn & Hor & Hconn);
    [lia|lia|lia|done|apply Z.log2_up_nonneg|by apply phase_inv_init|].
  cbn [mbind option_bind]. eexists _, _, _. split; [done|].
  split_and!; try done; try lia.
  intros Hc Hw. apply Hconn; [done..|]. rewrite newSet_nroots by lia. lia.
Qed.

(** **** The cohort: what the ranks start with *)

(** The cohorts that [scatterEdgeList] serves: one process, or a supported
    combination in which the ranks before the last leave an edge for the
    last rank. *)
Definition served (size E : Z) : Prop :=
  size = 1 ∨
  (2 ≤ size ∧ ¬ Scatter.unsupported E size ∧
   (size - 1) * Scatter.chunk E size < E).

Lemma gather_Returned {A : Type} (os : list (Scatter.outcome A)) :
  (∀ o, o ∈ os → ∃ a, o = Scatter.Returned a) →
  ∃ l, gather os = Scatter.Returned l ∧
       Forall2 (λ o a, o = Scatter.Returned a) os l.
Proof.
  induction os as [|o os IH]; intros Hall.
  { exists []. split; [done|constructor]. }
  destruct (Hall o) as [a ->]; [by apply elem_of_cons; left|].
  destruct IH as (l & Hl & Hfa).
  { intros o' Ho'. apply Hall. by apply elem_of_cons; right. }
  exists (a :: l). simpl. rewrite Hl. split; [done|]. by constructor.
Qed.

Lemma rd_ranks {B : Type} (f : Z → B) (n r : Z) (y : B) :
  rd (f <$> seqZ 0 n) r = Some y → 0 ≤ r < n ∧ y = f r.
Proof.
  intros Hy. pose proof (rd_Some_range _ _ _ Hy) as Hr.
  rewrite length_fmap, length_seqZ in Hr.
  unfold rd in Hy. rewrite decide_True in Hy by lia.
  rewrite list_lookup_fmap, lookup_seqZ_lt in Hy by lia.
  simpl in Hy. injection Hy as <-. split; [lia|]. f_equal. lia.
Qed.

(** In a cohort that is served every rank returns from the scatter, the
    parts hold edges of the graph, and every edge of the graph is in the
    part of some rank. *)
Lemma scattered_parts (size : Z) (graph : WeightedGraph) :
  graph_wf graph → served size (edges graph) →
  ∃ parts,
    (if decide (size ≠ 1) then
       gather ((λ rank, Scatter.scatterEdgeList rank size (edgeList graph)
                          (edges graph) ((edges graph + size - 1) ÷ size))
               <$> seqZ 0 size)
     else Scatter.Returned
            [(Some <$> edgeList graph, (edges graph + size - 1) ÷ size)])
    = Scatter.Returned parts ∧
    length parts = Z.to_nat size ∧
    (∀ r part n, rd parts r = Some (part, n) → part_of_graph graph part n) ∧
    (∀ e, e ∈ edgeList graph →
          ∃ r part n k, rd parts r = Some (part, n) ∧ 0 ≤ k < n ∧
                        rdc part k = Some e).
Proof.
  intros Hwf Hserved. pose proof (wf_edges _ Hwf) as HE.
  assert (∀ k, 0 ≤ k < edges graph →
            ∃ e, rd (edgeList graph) k = Some e ∧ e ∈ edgeList graph) as Hin.
  { intros k Hk. destruct (rd_in_range (edgeList graph) k) as [e He]; [lia|].
    exists e. split; [done|]. unfold rd in He.
    rewrite decide_True in He by lia. by eapply list_elem_of_lookup_2. }
  assert (∀ e, e ∈ edgeList graph →
            ∃ k, 0 ≤ k < edges graph ∧ rd (edgeList graph) k = Some e) as Hat.
  { intros e [k Hk]%list_elem_of_lookup_1.
    pose proof (lookup_lt_Some _ _ _ Hk). exists (Z.of_nat k).
    split; [lia|]. by rewrite MergeSort.rd_of_nat. }
  destruct Hserved as [->|(Hsize & Hsup & Htile)].
  - rewrite decide_False by (intros ?; done).
    replace ((edges graph + 1 - 1) ÷ 1) with (edges graph)
      by (rewrite Z.quot_1_r; lia).
    eexists. split; [done|]. split; [done|]. split.
    + intros r part n Hr. pose proof (rd_Some_range _ _ _ Hr) as Hrange.
      simpl in Hrange. assert (r = 0) as -> by lia.
      injection Hr as <- <-. intros k Hk. rewrite rdc_fmap_Some. by apply Hin.
    + intros e (k & Hk & He)%Hat. exists 0, (Some <$> edgeList graph), (edges graph), k.
      split; [done|]. split; [done|]. by rewrite rdc_fmap_Some.
  - rewrite decide_True by lia. fold (Scatter.chunk (edges graph) size).
    set (c := Scatter.chunk (edges graph) size) in *.
    set (f := λ rank, Scatter.scatterEdgeList rank size (edgeList graph)
                        (edges graph) c).
    assert (∀ r, 0 ≤ r < size →
              ∃ part n, f r = Scatter.Returned (part, n) ∧
                1 ≤ n ≤ c ∧ (r < size - 1 → n = c) ∧
                (r = size - 1 → r * c + n = edges graph) ∧
                (∀ j, 0 ≤ j < n →
                      ∃ e, rdc part j = Some e ∧
                           rd (edgeList graph) (r * c + j) = Some e)) as Hrank.
    { intros r Hr. by apply Scatter.scatterEdgeList_part. }
    destruct (gather_Returned (f <$> seqZ 0 size)) as (parts & Hg & Hfa).
    { intros o (r & -> & [Hr1 Hr2]%elem_of_seqZ)%list_elem_of_fmap.
      destruct (Hrank r) as (part & n & -> & _); [lia|]. by eexists. }
    assert (length parts = Z.to_nat size) as Hlen.
    { apply Forall2_length in Hfa.
      by rewrite length_fmap, length_seqZ in Hfa. }
    assert (∀ r part n, rd parts r = Some (part, n) →
              0 ≤ r < size ∧ f r = Scatter.Returned (part, n)) as Hpart.
    { intros r part n Hr. pose proof (rd_Some_range _ _ _ Hr) as Hrange.
      unfold rd in Hr. rewrite decide_True in Hr by lia.
      destruct (Forall2_lookup_r _ _ _ _ _ Hfa Hr) as (o & Ho & ->).
      rewrite <-MergeSort.rd_of_nat in Ho. apply rd_ranks in Ho as [_ Ho].
      rewrite Z2Nat.id in Ho by lia. split; [lia|done]. }
    exists parts. split; [done|]. split; [done|]. split.
    + intros r part n [Hr Hfr]%Hpart k Hk.
      destruct (Hrank r Hr) as (part' & n' & Hfr' & Hn & Hfull & Hlast & Hcells).
      rewrite Hfr in Hfr'. injection Hfr' as <- <-.
      destruct (Hcells k Hk) as (e & He & Hek). exists e. split; [done|].
      unfold rd in Hek. case_decide; [|done].
      by eapply list_elem_of_lookup_2.
    + intros e (k & Hk & He)%Hat.
      destruct (Scatter.chunk_bounds (edges graph) size) as (Hc1 & Hc2 & Hc3);
        [lia..|]. fold c in Hc1, Hc2, Hc3.
      pose proof (Z.div_mod k c ltac:(lia)) as Hdm.
      pose proof (Z.mod_pos_bound k c ltac:(lia)) as Hm.
      assert (0 ≤ k / c < size) as Hr.
      { split; [apply Z.div_pos; lia|]. apply Z.div_lt_upper_bound; lia. }
      destruct (Hrank (k / c) Hr)
        as (part & n & Hfr & Hn & Hfull & Hlast & Hcells).
      destruct (rd_in_range parts (k / c)) as [[part' n'] Hp']; [lia|].
      destruct (Hpart _ _ _ Hp') as [_ Hfr']. rewrite Hfr in Hfr'.
      injection Hfr' as <- <-.
      assert (0 ≤ k `mod` c < n) as Hj.
      { destruct (decide (k / c = size - 1)) as [Heq|Hneq]; [|lia].
        specialize (Hlast Heq). nia. }
      destruct (Hcells _ Hj) as (e' & He' & Hek).
      replace (k / c * c + k `mod` c) with k in Hek by lia.
      exists (k / c), part, n, (k `mod` c). split; [done|]. split; [done|].
      congruence.
Qed.

(** The cohort before the first phase. *)
Lemma cohort_inv_init (size : Z) (graph : WeightedGraph) :
  graph_wf graph → 1 ≤ size →
  cohort_inv graph size
    ((λ rank, mkProcess (newSet (vertices graph))
                (replicate (Z.to_nat (vertices graph)) (mkSlot None None None))
                (if decide (rank = 0)
                 then edgeList (newWeightedGraph (vertices graph)
                                  (vertices graph - 1))
                 else []) 0) <$> seqZ 0 size)
    (newSet (vertices graph))
    (replicate (Z.to_nat (vertices graph)) (mkSlot None None None))
    (edgeList (newWeightedGraph (vertices graph) (vertices graph - 1))) 0.
Proof.
  intros Hwf Hsize. pose proof (wf_vertices _ Hwf) as HV. split.
  - by rewrite length_fmap, length_seqZ.
  - unfold rd. rewrite decide_True by done.
    rewrite list_lookup_fmap, lookup_seqZ_lt by lia. done.
  - by apply phase_inv_init.
  - intros r p [_ ->]%rd_ranks. simpl. split_and!.
    + apply in_step_refl, newSet_forest. lia.
    + done.
    + rewrite length_replicate. lia.
Qed.

Lemma mstBoruvka_cohort_spec (fuel : nat) (size : Z) (graph : WeightedGraph) :
  graph_wf graph → served size (edges graph) →
  (Z.to_nat (vertices graph) ≤ fuel)%nat → (Z.to_nat size ≤ fuel)%nat →
  ∃ mst n phases,
    mstBoruvka_cohort fuel size graph
      (newWeightedGraph (vertices graph) (vertices graph - 1))
    = Scatter.Returned (mst, n, phases) ∧
    0 ≤ phases ≤ Z.log2_up (vertices graph) ∧
    n ≤ vertices graph - 1 ∧
    (n = vertices graph - 1 ∨ phases = Z.log2_up (vertices graph)) ∧
    (connected graph →
     (∀ e, e ∈ edgeList graph → edge_weight e ≠ INT_MAX) →
     n = vertices graph - 1).
Proof.
  intros Hwf Hserved Hfuel Hfuel_size. pose proof (wf_vertices _ Hwf) as HV.
  assert (1 ≤ size) as Hsize by (destruct Hserved as [->|[? _]]; lia).
  destruct (scattered_parts size graph Hwf Hserved)
    as (parts & Hscatter & Hlen & Hparts & Hcover).
  unfold mstBoruvka_cohort. cbv zeta. rewrite Hscatter.
  destruct (cohort_phases_spec graph Hwf fuel Hfuel size Hsize Hfuel_size
              parts Hlen Hparts Hcover
              (Z.to_nat (vertices graph - 1)) fuel _ _ _ _ _ 1 0
              ltac:(lia) ltac:(lia) ltac:(lia) eq_refl
              (Z.log2_up_nonneg _) (cohort_inv_init size graph Hwf Hsize))
    as (ps' & set' & ce' & mst' & n' & phases' & -> & Hinv & Hph & Hn & Hor
        & Hconn).
  cbn [mbind option_bind]. rewrite (ci_root _ _ _ _ _ _ _ Hinv).
  cbn [mbind option_bind]. simpl.
  eexists _, _, _. split; [done|]. split_and!; try done; try lia.
  intros Hc Hw. apply Hconn; [done..|]. rewrite newSet_nroots by lia. lia.
Qed.

(** In a combination that [scatterEdgeList] refuses every rank exits, and
    rank 0 leaves the diagnostic. *)
Lemma gather_Exited {A : Type} (os : list (Scatter.outcome A)) (s : list string) :
  (∀ o, o ∈ os → o = Scatter.Exited []) →
  gather (Scatter.Exited s :: os) = Scatter.Exited s.
Proof.
  intros Hall. assert (os = [] ∨ gather os = Scatter.Exited []) as Hos.
  { induction os as [|o os IH]; [by left|]. right.
    rewrite (Hall o) by (by apply elem_of_cons; left). simpl.
    destruct IH as [->| ->]; [|done..].
    intros o' Ho'. apply Hall. by apply elem_of_cons; right. }
  simpl. destruct Hos as [->| ->]; [done|]. by rewrite app_nil_r.
Qed.

Lemma mstBoruvka_cohort_unsupported (fuel : nat) (size : Z)
  (graph mst : WeightedGraph) :
  1 ≤ edges graph → Scatter.unsupported (edges graph) size →
  mstBoruvka_cohort fuel size graph mst
  = Scatter.Exited [Scatter.UNSUPPORTED].
Proof.
  intros HE [Hu1 Hu2].
  assert (2 ≤ size) as Hsize.
  { pose proof (Z.div_pos (edges graph) 2 ltac:(lia) ltac:(lia)). lia. }
  unfold mstBoruvka_cohort. cbv zeta. rewrite decide_True by lia.
  fold (Scatter.chunk (edges graph) size).
  destruct (Scatter.chunk_bounds (edges graph) size) as (Hc & _); [lia..|].
  assert (∀ r, Scatter.scatterEdgeList r size (edgeList graph) (edges graph)
                 (Scatter.chunk (edges graph) size)
               = Scatter.Exited (if decide (r = 0) then [Scatter.UNSUPPORTED]
                                 else [])) as Hexit.
  { intros r. unfold Scatter.scatterEdgeList.
    rewrite (Z.quot_div_nonneg (edges graph) 2) by lia.
    rewrite (decide_True (P := _ ∧ _)) by done.
    repeat case_decide; try done; lia. }
  rewrite seqZ_cons by lia. rewrite fmap_cons, Hexit, decide_True by done.
  rewrite gather_Exited; [done|].
  intros o (r & -> & [Hr1 Hr2]%elem_of_seqZ)%list_elem_of_fmap.
  rewrite Hexit, decide_False by lia. done.
Qed.

(** X29. For every well-formed input graph, run by a cohort of one
    process, the phase loop of [mstBoruvka] returns after at most
    [⌈log2 V⌉] phases; a phase is only entered with fewer than [V - 1] MST
    edges, so the loop stops at once when the count has reached [V - 1], and
    if it returns with fewer edges it has used all [⌈log2 V⌉] phases.  On a
    connected graph whose weights are all different from the sentinel
    [INT_MAX] it returns with exactly [V - 1] edges. *)
Theorem mstBoruvka_phase_bound (fuel : nat) (graph : WeightedGraph) :
  graph_wf graph → (Z.to_nat (vertices graph) ≤ fuel)%nat →
  (∃ mst n phases,
     mstBoruvka fuel graph
       (newWeightedGraph (vertices graph) (vertices graph - 1))
     = Some (mst, n, phases) ∧
     0 ≤ phases ≤ Z.log2_up (vertices graph) ∧
     n ≤ vertices graph - 1 ∧
     (n = vertices graph - 1 ∨ phases = Z.log2_up (vertices graph)) ∧
     (connected graph →
      (∀ e, e ∈ edgeList graph → edge_weight e ≠ INT_MAX) →
      n = vertices graph - 1)) ∧
  (∀ fuel0 fuel' set closestEdge mst n i phases,
     vertices graph - 1 ≤ n →
     boruvka_phases fuel0 (S fuel') (vertices graph) (edges graph)
       (edgeList graph) set closestEdge mst n i phases
     = Some (mst, n, phases)).
Proof.
  intros Hwf Hfuel. split; [by apply mstBoruvka_spec|].
  intros fuel0 fuel' set ce mst n i phases Hn. cbn [boruvka_phases].
  rewrite decide_False by lia. done.
Qed.

Lemma triangle_wf : graph_wf triangle.
Proof.
  split; simpl; try done.
  - intros e He. repeat (apply elem_of_cons in He as [->|He]); simpl; try lia.
    by apply elem_of_nil in He.
  - intros e He. repeat (apply elem_of_cons in He as [->|He]); simpl;
      unfold INT_MAX; try lia.
    by apply elem_of_nil in He.
Qed.

Lemma triangle_connected : connected triangle.
Proof.
  assert (joined (edgeList triangle) 0 1) as H01
    by (apply (joined_edge _ (mkEdge 0 1 1)); set_solver).
  assert (joined (edgeList triangle) 1 2) as H12
    by (apply (joined_edge _ (mkEdge 1 2 2)); set_solver).
  assert (joined (edgeList triangle) 0 2) as H02 by (by eapply joined_trans).
  intros u v Hu Hv. simpl in Hu, Hv.
  assert (u = 0 ∨ u = 1 ∨ u = 2) as [-> | [-> | ->]] by lia;
    assert (v = 0 ∨ v = 1 ∨ v = 2) as [-> | [-> | ->]] by lia;
    eauto using joined.
Qed.

(** X29 on the triangle of the specification. *)
Lemma mstBoruvka_phase_bound_witness :
  (∃ mst n phases,
     mstBoruvka 3 triangle (newWeightedGraph 3 (3 - 1)) = Some (mst, n, phases) ∧
     0 ≤ phases ≤ Z.log2_up 3 ∧ n ≤ 3 - 1 ∧
     (n = 3 - 1 ∨ phases = Z.log2_up 3) ∧
     (connected triangle →
      (∀ e, e ∈ edgeList triangle → edge_weight e ≠ INT_MAX) → n = 3 - 1)) ∧
  (∀ fuel0 fuel' set closestEdge mst n i phases,
     3 - 1 ≤ n →
     boruvka_phases fuel0 (S fuel') 3 3 (edgeList triangle) set closestEdge
       mst n i phases
     = Some (mst, n, phases)).
Proof.
  apply (mstBoruvka_phase_bound 3 triangle); [apply triangle_wf|simpl; lia].
Defined.

Definition heavy_edge : WeightedGraph := mkGraph 1 2 [mkEdge 0 1 INT_MAX].

Lemma heavy_edge_wf : graph_wf heavy_edge.
Proof.
  split; simpl; try done.
  - intros e ->%list_elem_of_singleton. simpl. lia.
  - intros e ->%list_elem_of_singleton. simpl. unfold INT_MAX. lia.
Qed.

Lemma heavy_edge_connected : connected heavy_edge.
Proof.
  assert (joined (edgeList heavy_edge) 0 1) as H01
    by (apply (joined_edge _ (mkEdge 0 1 INT_MAX)); set_solver).
  intros u v Hu Hv. simpl in Hu, Hv.
  assert (u = 0 ∨ u = 1) as [-> | ->] by lia;
    assert (v = 0 ∨ v = 1) as [-> | ->] by lia; eauto using joined.
Qed.

(** The cycle 0 - 1 - 2 - 3 - 0. *)
Definition square : WeightedGraph :=
  mkGraph 4 4 [mkEdge 0 1 1; mkEdge 1 2 2; mkEdge 2 3 3; mkEdge 3 0 4].

Lemma square_wf : graph_wf square.
Proof.
  split; simpl; try done.
  - intros e He. repeat (apply elem_of_cons in He as [->|He]); simpl; try lia.
    by apply elem_of_nil in He.
  - intros e He. repeat (apply elem_of_cons in He as [->|He]); simpl;
      unfold INT_MAX; try lia.
    by apply elem_of_nil in He.
Qed.

Lemma square_connected : connected square.
Proof.
  assert (joined (edgeList square) 0 1) as H01
    by (apply (joined_edge _ (mkEdge 0 1 1)); set_solver).
  assert (joined (edgeList square) 1 2) as H12
    by (apply (joined_edge _ (mkEdge 1 2 2)); set_solver).
  assert (joined (edgeList square) 2 3) as H23
    by (apply (joined_edge _ (mkEdge 2 3 3)); set_solver).
  assert (joined (edgeList square) 0 2) as H02 by (by eapply joined_trans).
  assert (joined (edgeList square) 0 3) as H03 by (by eapply joined_trans).
  assert (joined (edgeList square) 1 3) as H13 by (by eapply joined_trans).
  intros u v Hu Hv. simpl in Hu, Hv.
  assert (u = 0 ∨ u = 1 ∨ u = 2 ∨ u = 3) as [-> | [-> | [-> | ->]]] by lia;
    assert (v = 0 ∨ v = 1 ∨ v = 2 ∨ v = 3) as [-> | [-> | [-> | ->]]] by lia;
    eauto using joined.
Qed.

(** C9 (as amended). For every well-formed input graph with [V] vertices,
    run by one process or by a cohort that [scatterEdgeList] serves (the
    combination is supported and the ranks before the last leave the last
    rank an edge), the phase loop of [mstBoruvka] returns on rank 0 after
    at most [⌈log2 V⌉] phases; a phase is only entered with fewer than
    [V - 1] MST edges, so the loop stops at once when the count has reached
    [V - 1], and if it returns with fewer edges it has used all
    [⌈log2 V⌉] phases.  On a connected graph whose weights are all
    different from the sentinel [INT_MAX] it returns with exactly [V - 1]
    edges. *)
Theorem mstBoruvka_cohort_phase_bound (fuel : nat) (size : Z)
  (graph : WeightedGraph) :
  graph_wf graph → served size (edges graph) →
  (Z.to_nat (vertices graph) ≤ fuel)%nat → (Z.to_nat size ≤ fuel)%nat →
  (∃ mst n phases,
     mstBoruvka_cohort fuel size graph
       (newWeightedGraph (vertices graph) (vertices graph - 1))
     = Scatter.Returned (mst, n, phases) ∧
     0 ≤ phases ≤ Z.log2_up (vertices graph) ∧
     n ≤ vertices graph - 1 ∧
     (n = vertices graph - 1 ∨ phases = Z.log2_up (vertices graph)) ∧
     (connected graph →
      (∀ e, e ∈ edgeList graph → edge_weight e ≠ INT_MAX) →
      n = vertices graph - 1)) ∧
  (∀ fuel0 fuel' parts ps i phases,
     ps ≠ [] → (∀ p, p ∈ ps → vertices graph - 1 ≤ pr_edgesMST p) →
     cohort_phases fuel0 (S fuel') (vertices graph) size parts ps i phases
     = Some (ps, phases)).
Proof.
  intros Hwf Hserved Hfuel Hfuel_size.
  split; [by apply mstBoruvka_cohort_spec|].
  intros fuel0 fuel' parts ps i phases Hne Hn. cbn [cohort_phases]. cbv zeta.
  rewrite (forallb_const _ false), (forallb_const _ true); [done|done| |done|].
  - intros p Hp. rewrite bool_decide_eq_false_2; [done|].
    specialize (Hn p Hp). lia.
  - intros p Hp. apply bool_decide_eq_false_2. specialize (Hn p Hp). lia.
Qed.

(** C9 on the triangle of the specification, run by two processes. *)
Lemma mstBoruvka_cohort_phase_bound_witness :
  (∃ mst n phases,
     mstBoruvka_cohort 3 2 triangle (newWeightedGraph 3 (3 - 1))
     = Scatter.Returned (mst, n, phases) ∧
     0 ≤ phases ≤ Z.log2_up 3 ∧ n ≤ 3 - 1 ∧
     (n = 3 - 1 ∨ phases = Z.log2_up 3) ∧
     (connected triangle →
      (∀ e, e ∈ edgeList triangle → edge_weight e ≠ INT_MAX) → n = 3 - 1)) ∧
  (∀ fuel0 fuel' parts ps i phases,
     ps ≠ [] → (∀ p, p ∈ ps → 3 - 1 ≤ pr_edgesMST p) →
     cohort_phases fuel0 (S fuel') 3 2 parts ps i phases = Some (ps, phases)).
Proof.
  apply (mstBoruvka_cohort_phase_bound 3 2 triangle);
    [apply triangle_wf| |simpl; lia|simpl; lia].
  right. split; [lia|]. split; [|by vm_compute].
  unfold Scatter.unsupported. simpl. change (3 / 2) with 1. lia.
Defined.

(** C9 as first stated fails.  Run by one process, the well-formed and
    connected graph with the vertices 0 and 1 and the single edge of weight
    [INT_MAX] returns after one phase with no edge, not with [V - 1 = 1]:
    the sentinel test of the last loop of a phase skips its edge.  Run by
    four processes, the triangle is a combination that [scatterEdgeList]
    refuses: the ranks exit before the phase loop.  Run by three
    processes, the square is a supported combination in which the first
    two ranks use up the edge list, and the last rank scans a part that was
    never initialised. *)
Lemma mstBoruvka_cohort_fails :
  (graph_wf heavy_edge ∧ connected heavy_edge ∧
   mstBoruvka_cohort 2 1 heavy_edge (newWeightedGraph 2 (2 - 1))
   = Scatter.Returned (newWeightedGraph 2 1, 0, 1)) ∧
  (graph_wf triangle ∧ connected triangle ∧
   mstBoruvka_cohort 4 4 triangle (newWeightedGraph 3 (3 - 1))
   = Scatter.Exited [Scatter.UNSUPPORTED]) ∧
  (graph_wf square ∧ connected square ∧ ¬ Scatter.unsupported 4 3 ∧
   Scatter.scatterEdgeList 2 3 (edgeList square) 4 (Scatter.chunk 4 3)
   = Scatter.Returned ([None; None], 2) ∧
   mstBoruvka_cohort 4 3 square (newWeightedGraph 4 (4 - 1))
   = Scatter.Undefined).
Proof.
  split_and!.
  - apply heavy_edge_wf.
  - apply heavy_edge_connected.
  - by vm_compute.
  - apply triangle_wf.
  - apply triangle_connected.
  - by vm_compute.
  - apply square_wf.
  - apply square_connected.
  - unfold Scatter.unsupported. change (4 / 2) with 2. lia.
  - by vm_compute.
  - by vm_compute.
Qed.

(** X30. [mstBoruvka] on a combination that [scatterEdgeList] refuses
    ([⌊E/2⌋ + 1 < size] and [E ≠ size]), for a graph with at least one edge:
    every rank exits in the scatter, before the phase loop, and the error
    channel holds the diagnostic of rank 0 and nothing else. *)
Theorem mstBoruvka_unsupported_exits (fuel : nat) (size : Z)
  (graph mst : WeightedGraph) :
  1 ≤ edges graph → Scatter.unsupported (edges graph) size →
  mstBoruvka_cohort fuel size graph mst
  = Scatter.Exited [Scatter.UNSUPPORTED].
Proof. apply mstBoruvka_cohort_unsupported. Qed.

(** X30 on the triangle and four processes. *)
Lemma mstBoruvka_unsupported_exits_witness :
  mstBoruvka_cohort 4 4 triangle (newWeightedGraph 3 (3 - 1))
  = Scatter.Exited [Scatter.UNSUPPORTED].
Proof.
  apply (mstBoruvka_unsupported_exits 4 4 triangle); [simpl; lia|].
  unfold Scatter.unsupported. simpl. change (3 / 2) with 1. lia.
Defined.

(** *** Prim with the binary heap: the number of edges *)

(** The heap while [mstPrimBinary] runs: every vertex has been pushed, so
    the whole position table is initialised. *)
Definition prim_state (V : Z) (heap : BinaryHeap.BinaryMinHeap) : Prop :=
  BinaryHeap.heap_ok heap ∧
  Z.of_nat (length (BinaryHeap.positions heap)) = V ∧
  ∀ v, 0 ≤ v < V → is_Some (rdc (BinaryHeap.positions heap) v).

Lemma prim_binary_pushes fuel V :
  0 ≤ V → V < Z.of_nat fuel →
  ∃ heap,
    for_loop (Z.to_nat V) 0
      (λ i heap, BinaryHeap.pushBinaryMinHeap fuel heap i INT_MAX INT_MAX)
      (BinaryHeap.heap_for V) = Some heap ∧
    prim_state V heap ∧ BinaryHeap.size heap = V ∧
    (∀ e, BinaryHeap.live (BinaryHeap.size heap) (BinaryHeap.elements heap) e ↔
          ∃ v, 0 ≤ v < V ∧ e = BinaryHeap.mkElement v INT_MAX INT_MAX).
Proof.
  intros HV Hfuel.
  destruct (for_loop_inv
    (λ i heap,
       BinaryHeap.heap_ok heap ∧ BinaryHeap.strict heap ∧
       BinaryHeap.size heap = i ∧
       Z.of_nat (length (BinaryHeap.positions heap)) = V ∧
       (∀ e, BinaryHeap.live (BinaryHeap.size heap)
               (BinaryHeap.elements heap) e ↔
             ∃ v, 0 ≤ v < i ∧ e = BinaryHeap.mkElement v INT_MAX INT_MAX) ∧
       (∀ v, 0 ≤ v < i → is_Some (rdc (BinaryHeap.positions heap) v)))
    (λ i heap, BinaryHeap.pushBinaryMinHeap fuel heap i INT_MAX INT_MAX)
    (Z.to_nat V) 0 (BinaryHeap.heap_for V))
    as (heap & Hrun & Hok & _ & Hsz & Hlen & Hlive & Hinit).
  - destruct (BinaryHeap.heap_for_ok V) as [Hok Hst].
    split_and!; [done|done|done|by apply BinaryHeap.heap_for_length| |lia].
    intros e. split.
    + intros (i & Hi & _). simpl in Hi. lia.
    + intros (v & Hv & _). lia.
  - intros j heap Hj (Hok & Hst & Hsz & Hlen & Hlive & Hinit).
    destruct (BinaryHeap.pushBinaryMinHeap_spec fuel heap j INT_MAX INT_MAX)
      as (heap1 & -> & Hsz1 & Hok1 & Hst1 & Hlen1 & Hi1 & Hlive1);
      [done|done|lia| |lia|].
    { intros e (v & Hv & ->)%Hlive. simpl. lia. }
    eexists. split; [done|]. split_and!; [done|done|lia|by rewrite Hlen1| |].
    + intros e. rewrite Hlive1, Hlive. split.
      * intros [(v & Hv & ->)| ->]; [exists v|exists j]; split; (lia || done).
      * intros (v & Hv & ->). destruct (decide (v = j)) as [->|Hne];
          [by right|left]. exists v. split; [lia|done].
    + intros v Hv. apply Hi1. destruct (decide (v = j)); [by right|].
      left. apply Hinit. lia.
  - exists heap. split; [done|]. split; [|split; [lia|]].
    + split_and!; [done|done|]. intros v Hv. apply Hinit. lia.
    + intros e. rewrite Hlive. by replace (0 + Z.of_nat (Z.to_nat V)) with V by lia.
Qed.

Lemma relax_binary_loop fuel V list_ vertex l heap :
  AdjacencyList.adj_ok V list_ →
  rd (AdjacencyList.lists list_) vertex = Some l →
  prim_state V heap → BinaryHeap.size heap < Z.of_nat fuel →
  ∃ heap',
    for_loop (Z.to_nat (AdjacencyList.size l)) 0
      (relax_binary fuel list_ vertex) heap = Some heap' ∧
    prim_state V heap' ∧ BinaryHeap.size heap' = BinaryHeap.size heap.
Proof.
  intros [Hlen Hadj] Hl Hst Hfuel.
  destruct (Hadj _ _ Hl) as [Hsz _ Hels].
  destruct (for_loop_inv
    (λ _ heap', prim_state V heap' ∧
                BinaryHeap.size heap' = BinaryHeap.size heap)
    (relax_binary fuel list_ vertex)
    (Z.to_nat (AdjacencyList.size l)) 0 heap)
    as (heap' & Hrun & Hst' & Hsz'); [done| |by eauto].
  intros j heap1 Hj [(Hok1 & Hlen1 & Hinit1) Hsz1].
  unfold relax_binary. rewrite Hl. cbn [mbind option_bind].
  destruct (Hels j) as (n & -> & Hn); [lia|]. cbn [mbind option_bind].
  destruct (BinaryHeap.decreaseBinaryMinHeap_spec fuel heap1
              (AdjacencyList.vertex n) vertex (AdjacencyList.weight n))
    as (heap2 & -> & (Hsz2 & _ & _ & Hlen2 & Hinit2) & Hok2 & _);
    [done|by apply Hinit1|lia|].
  eexists. split; [done|]. split; [|congruence].
  split_and!; [done|by rewrite Hlen2|]. intros v Hv. by apply Hinit2, Hinit1.
Qed.

Lemma prim_binary_loop_spec fuel0 V list_ fuel : ∀ heap mst i,
  AdjacencyList.adj_ok V list_ → prim_state V heap →
  0 ≤ i → BinaryHeap.size heap = V - 1 - i →
  Z.of_nat (length mst) = V - 1 →
  V < Z.of_nat fuel0 → BinaryHeap.size heap < Z.of_nat fuel →
  ∃ mst', prim_binary_loop fuel0 fuel list_ heap mst i = Some (mst', V - 1).
Proof.
  induction fuel as [|fuel IH]; intros heap mst i Hadj Hst Hi Hsz Hlen Hf0 Hf.
  { destruct Hst as [Hok _]. pose proof (BinaryHeap.ok_size _ Hok). lia. }
  pose proof Hst as (Hok & Hlenp & Hinit).
  pose proof (BinaryHeap.ok_size _ Hok) as Hsz0.
  simpl. case_decide as Hpos.
  - destruct (BinaryHeap.popBinaryMinHeap_spec fuel0 heap)
      as (heap1 & e0 & -> & He0 & Hsz1 & Hlen1 & Hinit1 & Hok1 & _);
      [done|lia|lia|].
    cbn [mbind option_bind].
    rewrite wr_in_range by lia. cbn [mbind option_bind].
    assert (0 ≤ BinaryHeap.vertex e0 < V) as Hv.
    { destruct (BinaryHeap.ok_entries _ Hok 0) as (e & ? & Hp); [lia|].
      simplify_eq. apply rdc_Some_range in Hp. lia. }
    destruct (rd_in_range (AdjacencyList.lists list_) (BinaryHeap.vertex e0))
      as [l Hl]; [destruct Hadj; lia|].
    rewrite Hl. cbn [mbind option_bind].
    assert (prim_state V heap1) as Hst1.
    { split_and!; [done|by rewrite Hlen1|]. intros v Hv'. by apply Hinit1, Hinit. }
    destruct (relax_binary_loop fuel0 V list_ (BinaryHeap.vertex e0) l heap1)
      as (heap2 & -> & Hst2 & Hsz2); [done|done|done|lia|].
    cbn [mbind option_bind].
    apply IH; [done|done|lia|lia| |done|lia].
    rewrite length_insert. done.
  - exists mst. do 2 f_equal. lia.
Qed.

Lemma mstPrimBinary_spec fuel graph mst :
  graph_wf graph →
  Z.of_nat (length (edgeList mst)) = vertices graph - 1 →
  vertices graph < Z.of_nat fuel →
  ∃ mst', mstPrimBinary fuel graph mst = Some (mst', vertices graph - 1).
Proof.
  intros Hwf Hlen Hfuel. pose proof (wf_vertices _ Hwf) as HV.
  unfold mstPrimBinary.
  destruct (AdjacencyList.build_ok graph) as (list_ & -> & Hadj);
    [lia|apply Hwf|apply Hwf|].
  cbn [mbind option_bind].
  destruct (prim_binary_pushes fuel (vertices graph))
    as (heap & -> & Hst & Hsz & _); [lia|done|].
  cbn [mbind option_bind].
  pose proof Hst as (Hok & Hlenp & Hinit).
  destruct (BinaryHeap.decreaseBinaryMinHeap_spec fuel heap 0 0 0)
    as (heap1 & -> & (Hsz1 & _ & _ & Hlen1 & Hinit1) & Hok1 & _);
    [done|apply Hinit; lia|lia|].
  cbn [mbind option_bind].
  destruct (BinaryHeap.popBinaryMinHeap_spec fuel heap1)
    as (heap2 & e0 & -> & He0 & Hsz2 & Hlen2 & Hinit2 & Hok2 & _);
    [done|lia|lia|].
  cbn [mbind option_bind].
  assert (0 ≤ BinaryHeap.vertex e0 < vertices graph) as Hv.
  { destruct (BinaryHeap.ok_entries _ Hok1 0) as (e & ? & Hp); [lia|].
    simplify_eq. apply rdc_Some_range in Hp. lia. }
  destruct (rd_in_range (AdjacencyList.lists list_) (BinaryHeap.vertex e0))
    as [l Hl]; [destruct Hadj; lia|].
  rewrite Hl. cbn [mbind option_bind].
  assert (prim_state (vertices graph) heap2) as Hst2.
  { split_and!; [done|by rewrite Hlen2, Hlen1|].
    intros v Hv'. by apply Hinit2, Hinit1, Hinit. }
  destruct (relax_binary_loop fuel (vertices graph) list_
              (BinaryHeap.vertex e0) l heap2)
    as (heap3 & -> & Hst3 & Hsz3); [done|done|done|lia|].
  cbn [mbind option_bind].
  destruct (prim_binary_loop_spec fuel (vertices graph) list_ fuel heap3
              (edgeList mst) 0) as (l' & ->); [done|done|lia|lia|done|done|lia|].
  cbn [mbind option_bind]. eauto.
Qed.

(** *** Prim with the Fibonacci heap: the edge count *)

(** The heap while [mstPrimFibonacci] runs: every vertex has been pushed,
    so the whole position table is initialised. *)
Definition prim_fib_state (V : Z) (m : FibonacciHeap.mem)
  (heap : FibonacciHeap.FibonacciMinHeap) : Prop :=
  FibonacciHeap.well_formed m heap ∧
  Z.of_nat (length (FibonacciHeap.positions heap)) = V ∧
  ∀ v, 0 ≤ v < V → is_Some (rdc (FibonacciHeap.positions heap) v).

(** The entries of the Fibonacci heap: the triples of its nodes. *)
Definition fib_entry (m : FibonacciHeap.mem) (v via_ w : Z) : Prop :=
  ∃ q, FibonacciHeap.triple <$> (m !! q) = Some (v, via_, w).

(** The pushes of [mstPrimFibonacci] leave one node [(v, INT_MAX,
    INT_MAX)] for every vertex. *)
Lemma prim_fibonacci_pushes V :
  0 ≤ V →
  ∃ m heap,
    for_loop (Z.to_nat V) 0
      (λ i '(m, heap),
         FibonacciHeap.pushFibonacciMinHeap m heap i INT_MAX INT_MAX)
      (∅, FibonacciHeap.heap_for V) = Some (m, heap) ∧
    prim_fib_state V m heap ∧ FibonacciHeap.size heap = V ∧
    (∀ v via_ w, fib_entry m v via_ w ↔
                 0 ≤ v < V ∧ via_ = INT_MAX ∧ w = INT_MAX).
Proof.
  intros HV.
  destruct (for_loop_inv
    (λ i (st : FibonacciHeap.mem * FibonacciHeap.FibonacciMinHeap),
       FibonacciHeap.well_formed st.1 st.2 ∧
       FibonacciHeap.size st.2 = i ∧
       Z.of_nat (length (FibonacciHeap.positions st.2)) = V ∧
       (∀ v via_ w, fib_entry st.1 v via_ w ↔
                    0 ≤ v < i ∧ via_ = INT_MAX ∧ w = INT_MAX) ∧
       (∀ v, 0 ≤ v < i → is_Some (rdc (FibonacciHeap.positions st.2) v)))
    (λ i '(m, heap),
       FibonacciHeap.pushFibonacciMinHeap m heap i INT_MAX INT_MAX)
    (Z.to_nat V) 0 (∅, FibonacciHeap.heap_for V))
    as ([m heap] & Hrun & Hwf & Hsz & Hlen & Hent & Hinit).
  - simpl. split_and!.
    + eexists _, _, _. apply FibonacciHeap.heap_for_inv.
    + done.
    + rewrite length_replicate. lia.
    + intros v a w. split; [|lia]. intros (q & Hq).
      by rewrite lookup_empty in Hq.
    + intros v ?. lia.
  - intros j [m heap] Hj ((R & K & A & Hinv) & Hsz & Hlen & Hent & Hinit).
    simpl in *.
    destruct (FibonacciHeap.pushFibonacciMinHeap_spec m heap R K A j
                INT_MAX INT_MAX Hinv)
      as (m1 & heap1 & R1 & A1 & x & Hrun & Hinv1 & Hsz1 & Hlen1 & Hinit1 & _);
      [lia| |].
    { intros p Hp. destruct (m !! p) as [n|] eqn:Hn; [|done].
      simpl in Hp. simplify_eq.
      destruct (Hent (FibonacciHeap.vertex n) (FibonacciHeap.via n)
                  (FibonacciHeap.weight n)) as [Hr _].
      destruct Hr as [Hr _]; [exists p; by rewrite Hn|lia]. }
    pose proof (FibonacciHeap.pushFibonacciMinHeap_entries _ _ _ _ _ _ _ Hrun)
      as Hm1.
    rewrite Hrun. exists (m1, heap1). split; [done|]. simpl. split_and!.
    + by exists R1, K, A1.
    + lia.
    + lia.
    + intros v a w. split.
      * intros (q & Hq). rewrite Hm1 in Hq. case_decide.
        -- simplify_eq. lia.
        -- destruct (Hent v a w) as [Hr _]. destruct Hr; [by exists q|]. lia.
      * intros (Hv & -> & ->). destruct (decide (v = j)) as [->|Hne].
        -- exists (FibonacciHeap.malloc m). by rewrite Hm1, decide_True.
        -- destruct (Hent v INT_MAX INT_MAX) as [_ (q & Hq)]; [lia|].
           exists q. rewrite Hm1, decide_False; [done|]. intros ->.
           assert (m !! FibonacciHeap.malloc m = None) as Hfresh.
           { apply not_elem_of_dom. unfold FibonacciHeap.malloc.
             apply is_fresh. }
           by rewrite Hfresh in Hq.
    + intros v Hv. apply Hinit1. destruct (decide (v = j)); [by right|].
      left. apply Hinit. lia.
  - exists m, heap. simpl in *. split; [done|]. split; [|split; [lia|]].
    + split_and!; [done|done|]. intros v Hv. apply Hinit. lia.
    + intros v a w. rewrite Hent.
      by replace (0 + Z.of_nat (Z.to_nat V)) with V by lia.
Qed.

Lemma relax_fibonacci_loop fuel V list_ vertex l m heap :
  AdjacencyList.adj_ok V list_ →
  rd (AdjacencyList.lists list_) vertex = Some l →
  prim_fib_state V m heap → FibonacciHeap.size heap ≤ Z.of_nat fuel →
  ∃ m' heap',
    for_loop (Z.to_nat (AdjacencyList.size l)) 0
      (relax_fibonacci fuel list_ vertex) (m, heap) = Some (m', heap') ∧
    prim_fib_state V m' heap' ∧
    FibonacciHeap.size heap' = FibonacciHeap.size heap.
Proof.
  intros [Hlen Hadj] Hl Hst Hfuel.
  destruct (Hadj _ _ Hl) as [Hsz _ Hels].
  destruct (for_loop_inv
    (λ _ (st : FibonacciHeap.mem * FibonacciHeap.FibonacciMinHeap),
       prim_fib_state V st.1 st.2 ∧
       FibonacciHeap.size st.2 = FibonacciHeap.size heap)
    (relax_fibonacci fuel list_ vertex)
    (Z.to_nat (AdjacencyList.size l)) 0 (m, heap))
    as ([m' heap'] & Hrun & Hst' & Hsz'); [done| |by eauto].
  intros j [m1 heap1] Hj [((R & K & A & Hinv1) & Hlen1 & Hinit1) Hsz1].
  simpl in *.
  rewrite Hl. cbn [mbind option_bind].
  destruct (Hels j) as (n & -> & Hn); [lia|]. cbn [mbind option_bind].
  destruct (FibonacciHeap.decreaseFibonacciMinHeap_spec fuel m1 heap1 R K A
              (AdjacencyList.vertex n) vertex (AdjacencyList.weight n) Hinv1)
    as (m2 & heap2 & R2 & K2 & A2 & -> & Hinv2 & _ & Hpos2 & Hsz2 & _);
    [by apply Hinit1|lia|].
  exists (m2, heap2). split; [done|]. simpl. split; [|congruence].
  split_and!; [by exists R2, K2, A2|by rewrite Hpos2|].
  intros v Hv. rewrite Hpos2. by apply Hinit1.
Qed.

Lemma pop_vertex_range m heap R K A h nh :
  FibonacciHeap.heap_inv m heap R K A → m !! h = Some nh →
  0 ≤ FibonacciHeap.vertex nh
  < Z.of_nat (length (FibonacciHeap.positions heap)).
Proof.
  intros Hinv Hnh.
  pose proof (FibonacciHeap.indexed_node _ _
                (FibonacciHeap.inv_indexed _ _ _ _ _ Hinv) h
                (FibonacciHeap.vertex nh)) as Hp.
  rewrite Hnh in Hp. specialize (Hp eq_refl).
  by apply rdc_Some_range in Hp.
Qed.

Lemma prim_fibonacci_loop_spec fuel0 V list_ fuel : ∀ m heap out mst i,
  AdjacencyList.adj_ok V list_ → prim_fib_state V m heap →
  0 ≤ i → FibonacciHeap.size heap = V - 1 - i →
  Z.of_nat (length mst) = V - 1 →
  V + FibonacciHeap.degreeSize V ≤ Z.of_nat fuel0 →
  FibonacciHeap.size heap < Z.of_nat fuel →
  ∃ mst',
    prim_fibonacci_loop fuel0 fuel list_ m heap out mst i = Some (mst', V - 1).
Proof.
  induction fuel as [|fuel IH];
    intros m heap out mst i Hadj Hst Hi Hsz Hlen Hf0 Hf.
  { destruct Hst as ((R & K & A & [_ _ _ Hs _]) & _).
    unfold FibonacciHeap.sized in Hs. simpl in Hf. lia. }
  pose proof Hst as ((R & K & A & Hinv) & Hlenp & Hinit).
  assert (0 ≤ FibonacciHeap.size heap) as Hnn.
  { pose proof (FibonacciHeap.inv_sized _ _ _ _ _ Hinv) as Hs.
    unfold FibonacciHeap.sized in Hs. lia. }
  simpl. case_decide as Hpos.
  - destruct (FibonacciHeap.popFibonacciMinHeap_spec fuel0 out m heap R K A
                Hinv)
      as (m1 & heap1 & R1 & K1 & A1 & h & nh & Hmin & Hnh & -> & Hinv1 & Hsz1
          & Hlen1 & Hinit1 & _); [lia| |].
    { pose proof (FibonacciHeap.degreeSize_mono
                    (FibonacciHeap.size heap - 1) V ltac:(lia)). lia. }
    cbn [mbind option_bind].
    rewrite wr_in_range by lia. cbn [mbind option_bind].
    pose proof (pop_vertex_range _ _ _ _ _ _ _ Hinv Hnh) as Hv.
    destruct (rd_in_range (AdjacencyList.lists list_)
                (FibonacciHeap.vertex nh)) as [l Hl]; [destruct Hadj; lia|].
    rewrite Hl. cbn [mbind option_bind].
    assert (prim_fib_state V m1 heap1) as Hst1.
    { split_and!; [by exists R1, K1, A1|lia|].
      intros v Hv'. by apply Hinit1, Hinit. }
    destruct (relax_fibonacci_loop fuel0 V list_ (FibonacciHeap.vertex nh) l
                m1 heap1)
      as (m2 & heap2 & -> & Hst2 & Hsz2); [done|done|done| |].
    { pose proof (FibonacciHeap.degreeSize_pos V). lia. }
    cbn [mbind option_bind].
    apply IH; [done|done|lia|lia| |done|lia].
    rewrite length_insert. done.
  - exists mst. do 2 f_equal. lia.
Qed.

Lemma mstPrimFibonacci_spec fuel out0 graph mst :
  graph_wf graph →
  Z.of_nat (length (edgeList mst)) = vertices graph - 1 →
  vertices graph + FibonacciHeap.degreeSize (vertices graph)
  ≤ Z.of_nat fuel →
  ∃ mst',
    mstPrimFibonacci fuel out0 graph mst = Some (mst', vertices graph - 1).
Proof.
  intros Hwf Hlen Hfuel. pose proof (wf_vertices _ Hwf) as HV.
  pose proof (FibonacciHeap.degreeSize_pos (vertices graph)) as HDS.
  unfold mstPrimFibonacci.
  destruct (AdjacencyList.build_ok graph) as (list_ & -> & Hadj);
    [lia|apply Hwf|apply Hwf|].
  cbn [mbind option_bind].
  destruct (prim_fibonacci_pushes (vertices graph))
    as (m & heap & -> & Hst & Hsz & _); [lia|].
  cbn [mbind option_bind].
  pose proof Hst as ((R & K & A & Hinv) & Hlenp & Hinit).
  destruct (FibonacciHeap.decreaseFibonacciMinHeap_spec fuel m heap R K A
              0 0 0 Hinv)
    as (m1 & heap1 & R1 & K1 & A1 & -> & Hinv1 & _ & Hpos1 & Hsz1 & _);
    [apply Hinit; lia|lia|].
  cbn [mbind option_bind].
  destruct (FibonacciHeap.popFibonacciMinHeap_spec fuel out0 m1 heap1
              R1 K1 A1 Hinv1)
    as (m2 & heap2 & R2 & K2 & A2 & h & nh & Hmin & Hnh & -> & Hinv2 & Hsz2
        & Hlen2 & Hinit2 & _); [lia| |].
  { pose proof (FibonacciHeap.degreeSize_mono
                  (FibonacciHeap.size heap1 - 1) (vertices graph)
                  ltac:(lia)). lia. }
  cbn [mbind option_bind].
  pose proof (pop_vertex_range _ _ _ _ _ _ _ Hinv1 Hnh) as Hv.
  rewrite Hpos1 in Hv.
  destruct (rd_in_range (AdjacencyList.lists list_)
              (FibonacciHeap.vertex nh)) as [l Hl]; [destruct Hadj; lia|].
  rewrite Hl. cbn [mbind option_bind].
  assert (prim_fib_state (vertices graph) m2 heap2) as Hst2.
  { split_and!; [by exists R2, K2, A2|rewrite Hlen2, Hpos1; lia|].
    intros v Hv'. apply Hinit2. rewrite Hpos1. by apply Hinit. }
  destruct (relax_fibonacci_loop fuel (vertices graph) list_
              (FibonacciHeap.vertex nh) l m2 heap2)
    as (m3 & heap3 & -> & Hst3 & Hsz3); [done|done|done|lia|].
  cbn [mbind option_bind].
  destruct (prim_fibonacci_loop_spec fuel (vertices graph) list_ fuel
              m3 heap3 (FibonacciHeap.vertex nh, FibonacciHeap.via nh,
                        FibonacciHeap.weight nh) (edgeList mst) 0)
    as (l' & ->); [done|done|lia|lia|done|done|lia|].
  cbn [mbind option_bind]. eauto.
Qed.

(** *** Edge counts of Prim (binary heap) and Kruskal *)

(** X5. [mstPrimBinary] on a well-formed graph with [V] vertices, connected
    or not: the call returns and reports exactly [V - 1] edges. Every
    vertex is pushed once with weight [INT_MAX] and popped once, and every
    pop but the first writes one edge of the output. *)
Theorem mstPrimBinary_edge_count fuel graph :
  graph_wf graph → vertices graph < Z.of_nat fuel →
  ∃ mst,
    mstPrimBinary fuel graph
      (newWeightedGraph (vertices graph) (vertices graph - 1))
    = Some (mst, vertices graph - 1).
Proof.
  intros Hwf Hfuel. apply mstPrimBinary_spec; [done| |done].
  pose proof (wf_vertices _ Hwf). simpl. rewrite length_replicate. lia.
Qed.

(** X5 on the triangle. *)
Lemma mstPrimBinary_edge_count_witness :
  ∃ mst,
    mstPrimBinary 4 triangle
      (newWeightedGraph (vertices triangle) (vertices triangle - 1))
    = Some (mst, vertices triangle - 1).
Proof.
  apply (mstPrimBinary_edge_count 4 triangle); [apply triangle_wf|simpl; lia].
Defined.

(** X7. [mergeSort(edgeList, start, end)] with [0 <= end < start] never
    returns: the test is [start != end], and the first recursive call is
    again on a range whose end lies below its start. *)
Theorem mergeSort_reversed_range_diverges fuel l start end_ :
  0 ≤ end_ < start → MergeSort.mergeSort fuel l start end_ = None.
Proof.
  revert l start end_.
  induction fuel as [|fuel IH]; intros l start end_ Hr; [done|].
  cbn [MergeSort.mergeSort]. rewrite decide_True by lia.
  rewrite IH; [done|].
  rewrite Z.quot_div_nonneg by lia.
  split; [apply Z.div_pos; lia|].
  apply Z.div_lt_upper_bound; lia.
Qed.

(** X7 on the range [2..0]. *)
Lemma mergeSort_reversed_range_diverges_witness :
  MergeSort.mergeSort 10 [mkEdge 0 1 1; mkEdge 1 2 2; mkEdge 0 2 3] 2 0 = None.
Proof.
  apply (mergeSort_reversed_range_diverges 10
           [mkEdge 0 1 1; mkEdge 1 2 2; mkEdge 0 2 3] 2 0).
  lia.
Defined.

(** X8. [mstKruskal] on a graph without edges (for one, the connected graph
    with a single vertex) never returns: [sort] calls
    [mergeSort(edgeList, 0, -1)], which calls [mergeSort(edgeList, 1, -1)]
    and then [mergeSort(edgeList, 1, 0)] without end. *)
Theorem mstKruskal_no_edges_diverges fuel graph mst :
  edges graph = 0 → mstKruskal fuel graph mst = None.
Proof.
  intros HE. unfold mstKruskal, sort. rewrite HE.
  change ((0 + 1 - 1) ÷ 1 - 1) with (-1).
  by rewrite mergeSort_0_m1_diverges.
Qed.

(** X8 on the graph with one vertex. *)
Lemma mstKruskal_no_edges_diverges_witness :
  mstKruskal 100 (mkGraph 0 1 []) (newWeightedGraph 1 0) = None.
Proof.
  by apply (mstKruskal_no_edges_diverges 100 (mkGraph 0 1 [])
              (newWeightedGraph 1 0)).
Defined.

(** X21. [mstPrimFibonacci] on any well-formed graph with [V] vertices,
    connected or not: the call returns and reports exactly [V - 1] edges,
    whatever the initial values of its locals [vertex], [via] and
    [weight]. *)
Theorem mstPrimFibonacci_edge_count fuel out0 graph :
  graph_wf graph →
  vertices graph + FibonacciHeap.degreeSize (vertices graph)
  ≤ Z.of_nat fuel →
  ∃ mst,
    mstPrimFibonacci fuel out0 graph
      (newWeightedGraph (vertices graph) (vertices graph - 1))
    = Some (mst, vertices graph - 1).
Proof.
  intros Hwf Hfuel. apply mstPrimFibonacci_spec; [done| |done].
  pose proof (wf_vertices _ Hwf). simpl. rewrite length_replicate. lia.
Qed.

(** X21 on the triangle. *)
Lemma mstPrimFibonacci_edge_count_witness :
  ∃ mst,
    mstPrimFibonacci 10 (0, 0, 0) triangle
      (newWeightedGraph (vertices triangle) (vertices triangle - 1))
    = Some (mst, vertices triangle - 1).
Proof.
  apply (mstPrimFibonacci_edge_count 10 (0, 0, 0) triangle);
    [apply triangle_wf|vm_compute; by intros ?].
Defined.

(** X22. The dispatch of [main] in a single-process cohort: for each of the
    four selectors (0 Kruskal, 1 Prim with the Fibonacci heap, 2 Prim with
    the binary heap, 3 Boruvka), on a well-formed connected graph with at
    least one edge and no edge of weight [INT_MAX], the selected algorithm
    returns and reports exactly [V - 1] edges. *)
Theorem mst_of_edge_count fuel out0 algorithm graph :
  graph_wf graph → connected graph → 1 ≤ edges graph →
  (∀ e, e ∈ edgeList graph → edge_weight e ≠ INT_MAX) →
  0 ≤ algorithm ≤ 3 →
  vertices graph + FibonacciHeap.degreeSize (vertices graph)
  ≤ Z.of_nat fuel →
  edges graph < Z.of_nat fuel →
  ∃ mst, mst_of fuel out0 algorithm graph = Some (mst, vertices graph - 1).
Proof.
  intros Hwf Hconn HE Hw Halg HfV HfE.
  pose proof (wf_vertices _ Hwf) as HV.
  pose proof (FibonacciHeap.degreeSize_pos (vertices graph)) as HDS.
  unfold mst_of. repeat case_decide; try lia.
  - apply mstKruskal_connected; [done|done|done|lia|lia].
  - apply mstPrimFibonacci_spec; [done| |done].
    simpl. rewrite length_replicate. lia.
  - apply mstPrimBinary_spec; [done| |lia].
    simpl. rewrite length_replicate. lia.
  - destruct (mstBoruvka_spec fuel graph Hwf ltac:(lia))
      as (mst & n & phases & -> & _ & _ & _ & Hn).
    cbn [mbind option_bind]. rewrite (Hn Hconn Hw). eauto.
Qed.

(** X22 on the triangle, with Boruvka selected. *)
Lemma mst_of_edge_count_witness :
  ∃ mst, mst_of 10 (0, 0, 0) 3 triangle = Some (mst, vertices triangle - 1).
Proof.
  apply (mst_of_edge_count 10 (0, 0, 0) 3 triangle);
    [apply triangle_wf|apply triangle_connected|simpl; lia|
    |lia|vm_compute; by intros ?|simpl; lia].
  intros e He. unfold triangle in He. simpl in He.
  repeat (apply elem_of_cons in He as [->|He]; [by vm_compute|]).
  by apply elem_of_nil in He.
Defined.

(** *** Kruskal: what the edge loop builds *)

(** The state of the edge loop of [mstKruskal] before edge [k] is looked
    at: the sets are joined only along the edges written to the output so
    far, and these are edges of the graph. *)
Record kruskal_tree (graph : WeightedGraph) (set : SetForest)
  (mst : list Edge) (edgesMST k : Z) : Prop := {
  kt_forest : forest set;
  kt_elements : elements set = vertices graph;
  kt_mst : Z.of_nat (length mst) = vertices graph - 1;
  kt_count : edgesMST + nroots (canonicalElements set) = vertices graph;
  kt_nonneg : 0 ≤ edgesMST;
  kt_scanned : ∀ e, e ∈ take (Z.to_nat k) (edgeList graph) →
                 same (canonicalElements set) (edge_from e) (edge_to e);
  kt_tree : ∀ x y, same (canonicalElements set) x y →
              joined (take (Z.to_nat edgesMST) mst) x y;
  kt_sub : ∀ e, e ∈ take (Z.to_nat edgesMST) mst →
             e ∈ take (Z.to_nat k) (edgeList graph);
  kt_light : ∀ e, e ∈ take (Z.to_nat k) (edgeList graph) →
               joined (filter (λ t, edge_weight t ≤ edge_weight e)
                         (take (Z.to_nat edgesMST) mst))
                 (edge_from e) (edge_to e)
}.

(** The loop looks at every edge: after [n] rounds it is at
    [currentEdge = edges]. *)
Lemma kruskal_loop_reaches fuel0 graph :
  graph_wf graph → StronglySorted MergeSort.weight_le (edgeList graph) →
  (Z.to_nat (vertices graph) ≤ fuel0)%nat →
  ∀ (n fuel : nat) set mst edgesMST k,
    0 ≤ k → k + Z.of_nat n = edges graph →
    kruskal_tree graph set mst edgesMST k →
    ∃ set' mst' edgesMST',
      kruskal_loop fuel0 (n + fuel) graph set mst edgesMST k
      = kruskal_loop fuel0 fuel graph set' mst' edgesMST' (edges graph) ∧
      kruskal_tree graph set' mst' edgesMST' (edges graph).
Proof.
  intros Hwf Hsorted Hfuel0.
  induction n as [|n IH]; intros fuel set mst edgesMST k Hk Hkn Hinv.
  { assert (k = edges graph) as -> by lia. by exists set, mst, edgesMST. }
  destruct Hinv as [Hf Hel Hmst Hcount Hnn Hscan Htree Hsub Hlight].
  cbn [Nat.add kruskal_loop].
  rewrite decide_True by lia.
  pose proof (wf_edges _ Hwf) as HE.
  destruct (lookup_lt_is_Some_2 (edgeList graph) (Z.to_nat k)) as [e He];
    [lia|].
  assert (rd (edgeList graph) k = Some e) as ->
    by (unfold rd; by rewrite decide_True).
  cbn [mbind option_bind].
  assert (e ∈ edgeList graph) as Hein by (by eapply list_elem_of_lookup_2).
  destruct (wf_range _ Hwf e Hein) as [Hfrom Hto].
  destruct (findSet_ok set (edge_from e) Hf ltac:(by rewrite Hel))
    as (cf & set1 & Hfind1 & Hcf & Hf1 & Hel1 & Hroots1 & Hisr1 & Hn1).
  rewrite Hfind1 by (rewrite <-(Nat2Z.id (length _)), (forest_len_ce _ Hf); lia).
  cbn [mbind option_bind].
  destruct (findSet_ok set1 (edge_to e) Hf1 ltac:(by rewrite Hel1, Hel))
    as (ct & set2 & Hfind2 & Hct & Hf2 & Hel2 & Hroots2 & Hisr2 & Hn2).
  rewrite Hfind2
    by (rewrite <-(Nat2Z.id (length _)), (forest_len_ce _ Hf1); lia).
  cbn [mbind option_bind].
  assert (root_of (canonicalElements set2) (edge_from e) cf) as Hcf2
    by (by apply Hroots2, Hroots1).
  assert (root_of (canonicalElements set2) (edge_to e) ct) as Hct2
    by (by apply Hroots2).
  assert (∀ x y, same (canonicalElements set) x y ↔
                 same (canonicalElements set2) x y) as Hsame2.
  { intros x y. split; intros (r & ? & ?); exists r.
    - split; by apply Hroots2, Hroots1.
    - split; by apply Hroots1, Hroots2. }
  assert (take (Z.to_nat (k + 1)) (edgeList graph)
          = take (Z.to_nat k) (edgeList graph) ++ [e]) as Htake.
  { replace (Z.to_nat (k + 1)) with (S (Z.to_nat k)) by lia.
    by apply take_S_r. }
  assert (∀ t, t ∈ take (Z.to_nat k) (edgeList graph) →
               edge_weight t ≤ edge_weight e) as Hlighter.
  { intros t Ht. rewrite <-(take_drop_middle _ _ _ He) in Hsorted.
    apply (StronglySorted_app_1_elem_of _ _ _ t e Hsorted); [done|].
    set_solver. }
  case_decide as Hne.
  - (* a new MST edge *)
    assert (is_root (canonicalElements set2) cf) as Hrcf
      by (by eapply root_of_is_root).
    assert (is_root (canonicalElements set2) ct) as Hrct
      by (eapply root_of_is_root, Hroots2, Hct).
    pose proof (nroots_ge_2 _ _ _ Hrcf Hrct Hne) as Hge2.
    rewrite wr_in_range by lia. cbn [mbind option_bind].
    destruct (unionSet_partition set2 cf ct Hf2)
      as (set3 & Hun & Hf3 & Hel3 & Hpart & _ & Hn3);
      [exact (root_range _ _ _ Hf2 Hcf2)|exact (root_range _ _ _ Hf2 Hct2)|].
    rewrite Hun
      by (rewrite <-(Nat2Z.id (length _)), (forest_len_ce _ Hf2); lia).
    cbn [mbind option_bind].
    specialize (Hn3 (distinct_roots_not_same _ _ _ Hrcf Hrct Hne)).
    assert (take (Z.to_nat (edgesMST + 1)) (<[Z.to_nat edgesMST := e]> mst)
            = take (Z.to_nat edgesMST) mst ++ [e]) as Htake'.
    { replace (Z.to_nat (edgesMST + 1)) with (S (Z.to_nat edgesMST)) by lia.
      rewrite (take_S_r _ _ e) by (apply list_lookup_insert_eq; lia).
      by rewrite take_insert_ge by lia. }
    assert (∀ x, same (canonicalElements set2) x cf →
                 joined (take (Z.to_nat edgesMST) mst) x (edge_from e)) as Hjf.
    { intros x Hx. apply Htree, Hsame2.
      eapply same_trans; [done|]. apply same_sym. by apply same_root. }
    assert (∀ x, same (canonicalElements set2) x ct →
                 joined (take (Z.to_nat edgesMST) mst) x (edge_to e)) as Hjt.
    { intros x Hx. apply Htree, Hsame2.
      eapply same_trans; [done|]. apply same_sym. by apply same_root. }
    apply (IH fuel set3 (<[Z.to_nat edgesMST := e]> mst) (edgesMST + 1) (k + 1));
      [lia|lia|].
    split; [done|lia|rewrite length_insert; lia|lia|lia| | | |].
    + rewrite Htake. intros e' [He' | ->%list_elem_of_singleton]%elem_of_app.
      * apply Hpart. left. by apply Hsame2, Hscan.
      * apply Hpart. right. left. split; by apply same_root.
    + rewrite Htake'. intros x y [Hxy|[[Hx Hy]|[Hx Hy]]]%Hpart.
      * eapply joined_mono; [|by apply Htree, Hsame2]. set_solver.
      * eapply joined_trans;
          [eapply joined_mono; [|by apply Hjf]; set_solver|].
        eapply joined_trans; [apply joined_edge; set_solver|].
        apply joined_sym. eapply joined_mono; [|by apply Hjt]. set_solver.
      * eapply joined_trans;
          [eapply joined_mono; [|by apply Hjt]; set_solver|].
        eapply joined_trans; [apply joined_sym, joined_edge; set_solver|].
        apply joined_sym. eapply joined_mono; [|by apply Hjf]. set_solver.
    + rewrite Htake', Htake.
      intros e' [He' | ->%list_elem_of_singleton]%elem_of_app;
        [apply elem_of_app; left; by apply Hsub|set_solver].
    + rewrite Htake', Htake.
      intros e' [He' | ->%list_elem_of_singleton]%elem_of_app;
        rewrite filter_app.
      * eapply joined_mono; [|by apply Hlight]. set_solver.
      * apply joined_edge. apply elem_of_app. right.
        apply list_elem_of_filter. split; [lia|set_solver].
  - (* the edge would close a cycle *)
    assert (cf = ct) as <- by (by destruct (decide (cf = ct))).
    apply (IH fuel set2 mst edgesMST (k + 1)); [lia|lia|].
    split; [done|lia|done|lia|done| | | |].
    + rewrite Htake. intros e' [He' | ->%list_elem_of_singleton]%elem_of_app.
      * by apply Hsame2, Hscan.
      * exists cf. split; [done|]. by apply Hroots2.
    + intros x y Hxy. by apply Htree, Hsame2.
    + rewrite Htake. intros e' He'. apply elem_of_app. left. by apply Hsub.
    + rewrite Htake. intros e' [He' | ->%list_elem_of_singleton]%elem_of_app;
        [by apply Hlight|].
      eapply joined_mono; [|apply Htree, Hsame2; by exists cf].
      intros t Ht. apply list_elem_of_filter. split; [|done].
      by apply Hlighter, Hsub.
Qed.

Lemma kruskal_tree_init graph :
  graph_wf graph →
  kruskal_tree graph (newSet (vertices graph))
    (edgeList (newWeightedGraph (vertices graph) (vertices graph - 1))) 0 0.
Proof.
  intros Hwf. pose proof (wf_vertices _ Hwf) as HV. split.
  - apply newSet_forest. lia.
  - done.
  - simpl. rewrite length_replicate. lia.
  - rewrite (newSet_nroots (vertices graph)) by lia. simpl. lia.
  - done.
  - intros e []%elem_of_nil.
  - intros x y Hxy.
    apply newSet_same in Hxy as [-> _]; [|lia]. apply joined_refl.
  - intros e []%elem_of_nil.
  - intros e []%elem_of_nil.
Qed.

(** [mstKruskal] up to the point where every edge has been looked at. *)
Lemma mstKruskal_reaches fuel' fuel graph :
  graph_wf graph → 1 ≤ edges graph →
  (Z.to_nat (vertices graph) ≤ fuel)%nat →
  fuel = (Z.to_nat (edges graph) + fuel')%nat →
  ∃ l set' mst' edgesMST',
    l ≡ₚ edgeList graph ∧
    mstKruskal fuel graph
      (newWeightedGraph (vertices graph) (vertices graph - 1))
    = ('(l, edgesMST) ←
         kruskal_loop fuel fuel' (with_edgeList graph l) set' mst' edgesMST'
           (edges graph);
       Some (with_edgeList
               (newWeightedGraph (vertices graph) (vertices graph - 1)) l,
             edgesMST)) ∧
    kruskal_tree (with_edgeList graph l) set' mst' edgesMST' (edges graph).
Proof.
  intros Hwf HE HfV ->. unfold mstKruskal.
  destruct (sort_permutes (Z.to_nat (edges graph) + fuel') graph Hwf HE)
    as (l & -> & Hperm & Hsorted); [lia|].
  cbn [mbind option_bind].
  destruct (kruskal_loop_reaches (Z.to_nat (edges graph) + fuel')
              (with_edgeList graph l) (graph_wf_perm _ _ Hwf Hperm) Hsorted
              HfV
              (Z.to_nat (edges graph)) fuel' (newSet (vertices graph))
              (edgeList (newWeightedGraph (vertices graph)
                           (vertices graph - 1))) 0 0)
    as (set' & mst' & n' & Hloop & Hinv); [lia|simpl; lia| |].
  { apply (kruskal_tree_init (with_edgeList graph l)).
    by apply graph_wf_perm. }
  simpl in Hloop |- *. rewrite Hloop.
  exists l, set', mst', n'. by split_and!.
Qed.

(** [mstKruskal] on a connected graph: what the output is. *)
Lemma mstKruskal_tree fuel graph :
  graph_wf graph → connected graph → 1 ≤ edges graph →
  (Z.to_nat (vertices graph) ≤ fuel)%nat →
  (Z.to_nat (edges graph) < fuel)%nat →
  ∃ mst,
    mstKruskal fuel graph
      (newWeightedGraph (vertices graph) (vertices graph - 1))
    = Some (mst, vertices graph - 1) ∧
    Z.of_nat (length (edgeList mst)) = vertices graph - 1 ∧
    (∀ e, e ∈ edgeList mst → e ∈ edgeList graph) ∧
    (∀ u v, 0 ≤ u < vertices graph → 0 ≤ v < vertices graph →
            joined (edgeList mst) u v) ∧
    (∀ e, e ∈ edgeList graph →
          joined (filter (λ t, edge_weight t ≤ edge_weight e) (edgeList mst))
            (edge_from e) (edge_to e)).
Proof.
  intros Hwf Hconn HE HfV HfE.
  destruct (mstKruskal_reaches (fuel - Z.to_nat (edges graph)) fuel graph)
    as (l & set' & mst' & n' & Hperm & -> & Hinv); [done|done|done|lia|].
  destruct Hinv as [Hf Hel Hmst Hcount Hnn Hscan Htree Hsub Hlight].
  assert (take (Z.to_nat (edges graph)) l = l) as Hall_l.
  { apply take_ge. rewrite (Permutation_length Hperm).
    pose proof (wf_edges _ Hwf). lia. }
  simpl in *.
  assert (∀ u v, 0 ≤ u < vertices graph → 0 ≤ v < vertices graph →
            u = v ∨ same (canonicalElements set') u v) as Hall.
  { intros u v Hu Hv.
    eapply joined_same; [|eapply joined_perm; [symmetry; exact Hperm|]].
    - intros e He. apply Hscan. rewrite take_ge; [done|].
      rewrite (wf_edges _ Hwf), (Permutation_length Hperm). lia.
    - by apply Hconn. }
  assert (nroots (canonicalElements set') = 1) as Hone.
  { apply one_set_one_root; [done|rewrite Hel; apply Hwf|].
    rewrite Hel. apply Hall. }
  destruct (fuel - Z.to_nat (edges graph))%nat as [|fuel'] eqn:Hfuel; [lia|].
  cbn [kruskal_loop]. simpl. rewrite decide_False by lia.
  cbn [mbind option_bind].
  assert (n' = vertices graph - 1) as -> by lia.
  rewrite Hall_l in Hsub, Hlight.
  rewrite take_ge in Htree, Hsub, Hlight by lia.
  eexists. split; [done|]. simpl. split_and!; [done| | |].
  - intros e He. rewrite <-Hperm. by apply Hsub.
  - intros u v Hu Hv. destruct (Hall u v Hu Hv) as [->|Hs].
    + apply joined_refl.
    + by apply Htree.
  - intros e He. apply Hlight. by rewrite Hperm.
Qed.

(** X6. [mstKruskal] in a single-process cohort, on a well-formed
    connected graph with at least one edge: the [V - 1] edges written to
    the output are edges of the input graph and link every two vertices,
    that is, the output is a spanning tree; and the endpoints of every edge
    of the input are linked by output edges that are not heavier than it
    (no edge left out could replace a heavier edge of the tree). *)
Theorem mstKruskal_spanning_tree fuel graph :
  graph_wf graph → connected graph → 1 ≤ edges graph →
  (Z.to_nat (vertices graph) ≤ fuel)%nat →
  (Z.to_nat (edges graph) < fuel)%nat →
  ∃ mst,
    mstKruskal fuel graph
      (newWeightedGraph (vertices graph) (vertices graph - 1))
    = Some (mst, vertices graph - 1) ∧
    Z.of_nat (length (edgeList mst)) = vertices graph - 1 ∧
    (∀ e, e ∈ edgeList mst → e ∈ edgeList graph) ∧
    (∀ u v, 0 ≤ u < vertices graph → 0 ≤ v < vertices graph →
            joined (edgeList mst) u v) ∧
    (∀ e, e ∈ edgeList graph →
          joined (filter (λ t, edge_weight t ≤ edge_weight e) (edgeList mst))
            (edge_from e) (edge_to e)).
Proof. apply mstKruskal_tree. Qed.

(** X6 on the triangle. *)
Lemma mstKruskal_spanning_tree_witness :
  ∃ mst,
    mstKruskal 4 triangle
      (newWeightedGraph (vertices triangle) (vertices triangle - 1))
    = Some (mst, vertices triangle - 1) ∧
    Z.of_nat (length (edgeList mst)) = vertices triangle - 1 ∧
    (∀ e, e ∈ edgeList mst → e ∈ edgeList triangle) ∧
    (∀ u v, 0 ≤ u < vertices triangle → 0 ≤ v < vertices triangle →
            joined (edgeList mst) u v) ∧
    (∀ e, e ∈ edgeList triangle →
          joined (filter (λ t, edge_weight t ≤ edge_weight e) (edgeList mst))
            (edge_from e) (edge_to e)).
Proof.
  apply (mstKruskal_spanning_tree 4 triangle);
    [apply triangle_wf|apply triangle_connected|simpl; lia
    |simpl; lia|simpl; lia].
Defined.

(** X24. [mstKruskal] in a single-process cohort, on a well-formed graph
    with at least one edge in which two vertices are not linked: after the
    last edge the guard [edgesMST < vertices - 1 || currentEdge < edges]
    still holds, and the next round reads [edgeList[edges]], one slot past
    the end of the edge list; the call does not return. *)
Theorem mstKruskal_disconnected_overruns fuel graph u v :
  graph_wf graph → 1 ≤ edges graph →
  0 ≤ u < vertices graph → 0 ≤ v < vertices graph →
  ¬ joined (edgeList graph) u v →
  (Z.to_nat (vertices graph) ≤ fuel)%nat →
  (Z.to_nat (edges graph) < fuel)%nat →
  ∃ l set' mst' edgesMST',
    l ≡ₚ edgeList graph ∧
    mstKruskal fuel graph
      (newWeightedGraph (vertices graph) (vertices graph - 1))
    = ('(l, edgesMST) ←
         kruskal_loop fuel (fuel - Z.to_nat (edges graph))
           (with_edgeList graph l) set' mst' edgesMST' (edges graph);
       Some (with_edgeList
               (newWeightedGraph (vertices graph) (vertices graph - 1)) l,
             edgesMST)) ∧
    edgesMST' < vertices graph - 1 ∧
    rd l (edges graph) = None ∧
    mstKruskal fuel graph
      (newWeightedGraph (vertices graph) (vertices graph - 1)) = None.
Proof.
  intros Hwf HE Hu Hv Hnot HfV HfE.
  destruct (mstKruskal_reaches (fuel - Z.to_nat (edges graph)) fuel graph)
    as (l & set' & mst' & n' & Hperm & Hrun & Hinv); [done|done|done|lia|].
  destruct Hinv as [Hf Hel Hmst Hcount Hnn Hscan Htree Hsub _].
  simpl in *.
  assert (¬ same (canonicalElements set') u v) as Hns.
  { intros Hs%Htree. apply Hnot.
    eapply joined_perm; [exact Hperm|].
    eapply joined_mono; [|exact Hs]. intros e He%Hsub.
    by eapply (subseteq_take (Z.to_nat (edges graph))). }
  assert (n' < vertices graph - 1) as Hlt.
  { destruct (forest_reach _ Hf u ltac:(by rewrite Hel)) as [ru Hru].
    destruct (forest_reach _ Hf v ltac:(by rewrite Hel)) as [rv Hrv].
    assert (ru ≠ rv) as Hne.
    { intros ->. apply Hns. by exists rv. }
    pose proof (nroots_ge_2 _ _ _ (root_of_is_root _ _ _ Hru)
                  (root_of_is_root _ _ _ Hrv) Hne). lia. }
  assert (rd l (edges graph) = None) as Hrd.
  { unfold rd. case_decide; [|done]. apply lookup_ge_None_2.
    rewrite (Permutation_length Hperm), (wf_edges _ Hwf). lia. }
  exists l, set', mst', n'. split_and!; try done.
  rewrite Hrun.
  destruct (fuel - Z.to_nat (edges graph))%nat as [|fuel']; [done|].
  cbn [kruskal_loop]. simpl. rewrite decide_True by lia.
  by rewrite Hrd.
Qed.

(** X24 on two vertices and the one edge 0-0. *)
Lemma mstKruskal_disconnected_overruns_witness :
  ∃ l set' mst' edgesMST',
    l ≡ₚ edgeList (mkGraph 1 2 [mkEdge 0 0 5]) ∧
    mstKruskal 3 (mkGraph 1 2 [mkEdge 0 0 5]) (newWeightedGraph 2 (2 - 1))
    = ('(l, edgesMST) ←
         kruskal_loop 3 (3 - Z.to_nat 1)
           (with_edgeList (mkGraph 1 2 [mkEdge 0 0 5]) l) set' mst' edgesMST' 1;
       Some (with_edgeList (newWeightedGraph 2 (2 - 1)) l, edgesMST)) ∧
    edgesMST' < 2 - 1 ∧
    rd l 1 = None ∧
    mstKruskal 3 (mkGraph 1 2 [mkEdge 0 0 5]) (newWeightedGraph 2 (2 - 1))
    = None.
Proof.
  apply (mstKruskal_disconnected_overruns 3 (mkGraph 1 2 [mkEdge 0 0 5]) 0 1);
    [|simpl; lia|simpl; lia|simpl; lia| |simpl; lia|simpl; lia].
  - split; simpl; [lia|done|by vm_compute|by vm_compute| |].
    + intros e ->%list_elem_of_singleton. simpl. lia.
    + intros e ->%list_elem_of_singleton. simpl. by vm_compute.
  - simpl. intros Hj.
    assert (∀ a b, joined [mkEdge 0 0 5] a b → a = b) as Heq.
    { induction 1 as [|e He| |]; try congruence.
      by apply list_elem_of_singleton in He as ->. }
    by apply Heq in Hj.
Defined.

(** *** Prim: the tree *)

(** [g] is an edge between [u] and [v], in either direction. *)
Definition links (g : Edge) (u v : Z) : Prop :=
  (edge_from g = u ∧ edge_to g = v) ∨ (edge_from g = v ∧ edge_to g = u).

(** The entries of the adjacency list of [x] are the edges at [x]. *)
Lemma neighbours_links es x n :
  n ∈ AdjacencyList.neighbours es x ↔
  ∃ g, g ∈ es ∧ links g x (AdjacencyList.vertex n) ∧
       edge_weight g = AdjacencyList.weight n.
Proof.
  unfold AdjacencyList.neighbours. rewrite list_elem_of_bind.
  unfold AdjacencyList.edge_entries, links. destruct n as [v w]. simpl. split.
  - intros (g & Hn & Hg). exists g. split; [done|].
    apply elem_of_app in Hn as [Hn|Hn]; case_decide;
      try (by apply elem_of_nil in Hn);
      apply list_elem_of_singleton in Hn; simplify_eq; eauto.
  - intros (g & Hg & [[<- <-]|[<- <-]] & <-); exists g; (split; [|done]);
      apply elem_of_app.
    + left. rewrite decide_True by done. destruct g. set_solver.
    + right. rewrite decide_True by done. destruct g. set_solver.
Qed.

(** A walk from inside a set of vertices to outside of it uses an edge that
    leaves the set. *)
Lemma joined_leaves es (R : list Z) a b :
  joined es a b → a ∈ R → b ∉ R →
  ∃ g u v, g ∈ es ∧ links g u v ∧ u ∈ R ∧ v ∉ R.
Proof.
  intros Hj.
  assert ((a ∈ R ↔ b ∈ R) ∨ ∃ g u v, g ∈ es ∧ links g u v ∧ u ∈ R ∧ v ∉ R)
    as [Hiff|Hc]; [|tauto|done].
  induction Hj as [u|e He|u v _ IH|u v w _ IH1 _ IH2].
  - by left.
  - destruct (decide (edge_from e ∈ R)), (decide (edge_to e ∈ R));
      [by left| | |by left]; right.
    + exists e, (edge_from e), (edge_to e). unfold links. eauto 10.
    + exists e, (edge_to e), (edge_from e). unfold links. eauto 10.
  - destruct IH as [IH|IH]; [left; tauto|by right].
  - destruct IH1 as [IH1|IH1]; [|by right].
    destruct IH2 as [IH2|IH2]; [left; tauto|by right].
Qed.

(** The vertices reached once the edges [outs] have been written: the start
    vertex 0 and the first member of every edge. *)
Definition reached (outs : list Edge) : list Z := 0 :: (edge_from <$> outs).

(** [e] leaves the set [R] at its second member, is an edge of [es] and no
    edge of [es] that leaves [R] is lighter. *)
Definition cut_edge (es : list Edge) (R : list Z) (e : Edge) : Prop :=
  edge_to e ∈ R ∧ (edge_from e ∉ R) ∧
  (∃ g, g ∈ es ∧ links g (edge_to e) (edge_from e) ∧
        edge_weight g = edge_weight e) ∧
  (∀ g u v, g ∈ es → links g u v → u ∈ R → v ∉ R →
            edge_weight e ≤ edge_weight g).

Definition prim_tree (es outs : list Edge) : Prop :=
  ∀ k e, outs !! k = Some e → cut_edge es (reached (take k outs)) e.

Lemma reached_snoc outs e : reached (outs ++ [e]) = reached outs ++ [edge_from e].
Proof. unfold reached. by rewrite fmap_app. Qed.

Lemma prim_tree_snoc es outs e :
  prim_tree es outs → cut_edge es (reached outs) e → prim_tree es (outs ++ [e]).
Proof.
  intros Ht He k e' Hk.
  destruct (decide (k < length outs)%nat) as [Hlt|Hge].
  - rewrite lookup_app_l in Hk by done.
    rewrite take_app_le by lia. by apply Ht.
  - assert (k = length outs) as ->.
    { apply lookup_lt_Some in Hk. rewrite length_app in Hk. simpl in Hk. lia. }
    rewrite list_lookup_middle in Hk by done. simplify_eq.
    by rewrite take_app_length.
Qed.

(** Every reached vertex is linked to vertex 0 by the edges written. *)
Lemma prim_tree_joined es outs v :
  prim_tree es outs → v ∈ reached outs → joined outs 0 v.
Proof.
  revert v. induction outs as [|e outs IH] using rev_ind; intros v Ht Hv.
  { unfold reached in Hv. simpl in Hv. apply list_elem_of_singleton in Hv.
    subst. apply joined_refl. }
  assert (prim_tree es outs) as Ht'.
  { intros k e' Hk. pose proof (lookup_lt_Some _ _ _ Hk) as Hlt.
    specialize (Ht k e'). rewrite lookup_app_l, take_app_le in Ht by lia.
    by apply Ht. }
  assert (∀ u, u ∈ reached outs → joined (outs ++ [e]) 0 u) as Hold.
  { intros u Hu. eapply joined_mono; [|by apply IH].
    intros t. set_solver. }
  rewrite reached_snoc in Hv. apply elem_of_app in Hv as [Hv|Hv]; [by apply Hold|].
  apply list_elem_of_singleton in Hv. subst v.
  destruct (Ht (length outs) e) as (Hto & _).
  { by rewrite list_lookup_middle. }
  rewrite take_app_length in Hto.
  eapply joined_trans; [by apply Hold|].
  apply joined_sym, joined_edge. set_solver.
Qed.

(** An entry [(v, via, w)] of the heap while the neighbours of [x] are
    relaxed: [R] are the vertices reached before [x], [seen] the entries of
    the adjacency list of [x] that have been handled.  The weight is a
    lower bound of the edges from [R] and of the handled edges from [x] to
    [v], and it is either still [INT_MAX] or the weight of an edge from
    [via], a reached vertex. *)
Definition prim_entry (es : list Edge) (R : list Z) (x : Z)
  (seen : list AdjacencyList.ListElement) (v via_ w : Z) : Prop :=
  (v ∉ R) ∧ v ≠ x ∧
  (∀ g u, g ∈ es → u ∈ R → links g u v → w ≤ edge_weight g) ∧
  (∀ n, n ∈ seen → AdjacencyList.vertex n = v → w ≤ AdjacencyList.weight n) ∧
  (w = INT_MAX ∨
   (via_ ∈ R ∨ via_ = x) ∧
   ∃ g, g ∈ es ∧ links g via_ v ∧ edge_weight g = w).

(** An entry at the head of the main loop: it holds a lightest edge from
    the reached vertices to its vertex, or [INT_MAX] when there is none. *)
Definition prim_best (es : list Edge) (R : list Z) (v via_ w : Z) : Prop :=
  (v ∉ R) ∧
  (∀ g u, g ∈ es → u ∈ R → links g u v → w ≤ edge_weight g) ∧
  (w = INT_MAX ∨
   via_ ∈ R ∧ ∃ g, g ∈ es ∧ links g via_ v ∧ edge_weight g = w).

Lemma prim_entry_best es R x v via_ w :
  prim_entry es R x (AdjacencyList.neighbours es x) v via_ w →
  prim_best es (R ++ [x]) v via_ w.
Proof.
  intros (HR & Hx & Hb & Hs & Hvia). split_and!.
  - set_solver.
  - intros g u Hg Hu Hl. apply elem_of_app in Hu as [Hu|Hu]; [by eapply Hb|].
    apply list_elem_of_singleton in Hu. subst u.
    apply (Hs (AdjacencyList.mkListElement v (edge_weight g))); [|done].
    apply neighbours_links. by exists g.
  - destruct Hvia as [?|[Hv ?]]; [by left|right]. split; [set_solver|done].
Qed.

Lemma prim_best_entry es R x v via_ w :
  prim_best es R v via_ w → v ≠ x → prim_entry es R x [] v via_ w.
Proof.
  intros (HR & Hb & Hvia) Hx. split_and!; [done|done|done| |].
  - intros n Hn. by apply elem_of_nil in Hn.
  - destruct Hvia as [?|[? ?]]; [by left|right; eauto].
Qed.

(** The relaxation of one neighbour [n] of [x] that lowers the entry. *)
Lemma prim_entry_lower es R x seen n v via_ w :
  prim_entry es R x seen v via_ w →
  n ∈ AdjacencyList.neighbours es x →
  AdjacencyList.vertex n = v → w > AdjacencyList.weight n →
  prim_entry es R x (seen ++ [n]) v x (AdjacencyList.weight n).
Proof.
  intros (HR & Hx & Hb & Hs & Hvia) Hn Hv Hw. split_and!; [done|done| | |].
  - intros g u Hg Hu Hl. specialize (Hb g u Hg Hu Hl). lia.
  - intros n' [Hn'|Hn']%elem_of_app Hv'.
    + specialize (Hs n' Hn' Hv'). lia.
    + apply list_elem_of_singleton in Hn'. subst n'. lia.
  - right. split; [by right|]. rewrite <-Hv. by apply neighbours_links.
Qed.

(** The relaxation of one neighbour [n] of [x] that leaves the entry. *)
Lemma prim_entry_keep es R x seen n v via_ w :
  prim_entry es R x seen v via_ w →
  ¬ (AdjacencyList.vertex n = v ∧ w > AdjacencyList.weight n) →
  prim_entry es R x (seen ++ [n]) v via_ w.
Proof.
  intros (HR & Hx & Hb & Hs & Hvia) Hc. split_and!; [done|done|done| |done].
  intros n' [Hn'|Hn']%elem_of_app Hv'; [by apply Hs|].
  apply list_elem_of_singleton in Hn'. subst n'.
  destruct (decide (w > AdjacencyList.weight n)); [|lia].
  exfalso. apply Hc. by split.
Qed.

(** The lightest entry of the heap at the head of the main loop is a
    lightest edge that leaves the reached vertices: [E] are the entries. *)
Lemma prim_pop_cut graph R (E : Z → Z → Z → Prop) x via0 w0 :
  graph_wf graph → connected graph →
  (∀ e, e ∈ edgeList graph → edge_weight e ≠ INT_MAX) →
  0 ∈ R → 0 ≤ x < vertices graph →
  (∀ v, 0 ≤ v < vertices graph → v ∉ R → ∃ via_ w, E v via_ w) →
  (∀ v via_ w, E v via_ w → prim_best (edgeList graph) R v via_ w) →
  E x via0 w0 → (∀ v via_ w, E v via_ w → w0 ≤ w) →
  cut_edge (edgeList graph) R (mkEdge x via0 w0).
Proof.
  intros Hwf Hconn Hw H0 Hx Hholds Hent He0 Hmin.
  destruct (Hent _ _ _ He0) as (HxR & Hb0 & Hvia0).
  assert (∀ g u v, g ∈ edgeList graph → links g u v → u ∈ R → v ∉ R →
            w0 ≤ edge_weight g) as Hlight.
  { intros g u v Hg Hlk Hu Hv'.
    assert (0 ≤ v < vertices graph) as Hvr.
    { destruct (wf_range _ Hwf g Hg). destruct Hlk as [[_ <-]|[<- _]]; lia. }
    destruct (Hholds v Hvr Hv') as (a & w & He).
    destruct (Hent _ _ _ He) as (_ & Hb & _).
    specialize (Hmin _ _ _ He). specialize (Hb g u Hg Hu Hlk). lia. }
  assert (w0 ≠ INT_MAX) as Hfin.
  { destruct (joined_leaves (edgeList graph) R 0 x)
      as (g & u & v & Hg & Hlk & Hu & Hv'); [apply Hconn; lia|done|done|].
    specialize (Hlight g u v Hg Hlk Hu Hv').
    pose proof (wf_weight _ Hwf g Hg). specialize (Hw g Hg). lia. }
  destruct Hvia0 as [?|[Hvia Hg]]; [done|]. unfold cut_edge. simpl.
  by split_and!.
Qed.

(** *** Prim with the binary heap: the tree *)

(** The heap while the neighbours of [x] are relaxed. *)
Definition prim_heap (es : list Edge) (V : Z) (R : list Z) (x : Z)
  (seen : list AdjacencyList.ListElement)
  (heap : BinaryHeap.BinaryMinHeap) : Prop :=
  (∀ v, 0 ≤ v < V → v ∉ R → v ≠ x → BinaryHeap.holds heap v) ∧
  (∀ e, BinaryHeap.live (BinaryHeap.size heap) (BinaryHeap.elements heap) e →
        prim_entry es R x seen (BinaryHeap.vertex e) (BinaryHeap.via e)
          (BinaryHeap.weight e)).

(** The heap at the head of the main loop: every vertex that is not reached
    has an entry. *)
Definition prim_settled (es : list Edge) (V : Z) (R : list Z)
  (heap : BinaryHeap.BinaryMinHeap) : Prop :=
  (∀ v, 0 ≤ v < V → v ∉ R → BinaryHeap.holds heap v) ∧
  (∀ e, BinaryHeap.live (BinaryHeap.size heap) (BinaryHeap.elements heap) e →
        prim_best es R (BinaryHeap.vertex e) (BinaryHeap.via e)
          (BinaryHeap.weight e)).

Lemma prim_heap_settled es V R x heap :
  prim_heap es V R x (AdjacencyList.neighbours es x) heap →
  prim_settled es V (R ++ [x]) heap.
Proof.
  intros [Hholds Hent]. split.
  - intros v Hv Hn. apply Hholds; [done|set_solver|set_solver].
  - intros e He. by apply prim_entry_best, Hent.
Qed.

Lemma live_vertex_inj heap e e' :
  BinaryHeap.heap_ok heap →
  BinaryHeap.live (BinaryHeap.size heap) (BinaryHeap.elements heap) e →
  BinaryHeap.live (BinaryHeap.size heap) (BinaryHeap.elements heap) e' →
  BinaryHeap.vertex e = BinaryHeap.vertex e' → e = e'.
Proof.
  intros Hok (i & Hi & Hei) (j & Hj & Hej) Hv.
  assert (i = j) as ->; [|congruence].
  eapply BinaryHeap.entries_vertex_inj; eauto. apply Hok.
Qed.

Lemma prim_settled_pop es V R heap heap' e0 :
  BinaryHeap.heap_ok heap →
  prim_settled es V R heap →
  BinaryHeap.live (BinaryHeap.size heap) (BinaryHeap.elements heap) e0 →
  (∀ e, BinaryHeap.live (BinaryHeap.size heap') (BinaryHeap.elements heap') e ↔
        BinaryHeap.live (BinaryHeap.size heap) (BinaryHeap.elements heap) e ∧
        e ≠ e0) →
  prim_heap es V R (BinaryHeap.vertex e0) [] heap'.
Proof.
  intros Hok [Hholds Hent] He0 Hlive. split.
  - intros v Hv Hn Hx. destruct (Hholds v Hv Hn) as (e & He & Hev).
    exists e. split; [|done]. apply Hlive. split; [done|]. by intros ->.
  - intros e [He Hne]%Hlive. apply prim_best_entry; [by apply Hent|].
    intros Hv. apply Hne. by eapply live_vertex_inj.
Qed.

(** One [decreaseBinaryMinHeap] of the relaxation. *)
Lemma relax_binary_entry fuel es V R x seen n heap :
  prim_state V heap → BinaryHeap.size heap < Z.of_nat fuel →
  prim_heap es V R x seen heap →
  n ∈ AdjacencyList.neighbours es x → 0 ≤ AdjacencyList.vertex n < V →
  ∃ heap',
    BinaryHeap.decreaseBinaryMinHeap fuel heap (AdjacencyList.vertex n) x
      (AdjacencyList.weight n) = Some heap' ∧
    prim_state V heap' ∧ BinaryHeap.size heap' = BinaryHeap.size heap ∧
    prim_heap es V R x (seen ++ [n]) heap'.
Proof.
  intros (Hok & Hlen & Hinit) Hfuel [Hholds Hent] Hn Hrange.
  destruct (BinaryHeap.decreaseBinaryMinHeap_spec fuel heap
              (AdjacencyList.vertex n) x (AdjacencyList.weight n))
    as (heap' & Hrun & (Hsz & _ & _ & Hlen' & Hinit') & Hok' & _ & Hh);
    [done|by apply Hinit|done|].
  pose proof (BinaryHeap.decreaseBinaryMinHeap_entries fuel heap
                (AdjacencyList.vertex n) x (AdjacencyList.weight n) heap'
                Hok Hfuel Hrun) as Hlive.
  exists heap'. split; [done|]. split.
  { split_and!; [done|by rewrite Hlen'|]. intros v Hv. by apply Hinit', Hinit. }
  split; [done|]. split.
  - intros v Hv HR Hx. apply Hh. by apply Hholds.
  - intros e' (e & He & ->)%Hlive. specialize (Hent e He).
    case_decide as Hc.
    + destruct Hc as [Hev Hw]. simpl. rewrite <-Hev at 1.
      by eapply prim_entry_lower.
    + apply prim_entry_keep; [done|]. intros [Hev Hw]. apply Hc. by split.
Qed.

(** The relaxation of all neighbours of [x]. *)
Lemma relax_binary_loop_entries fuel es V list_ R x l heap :
  AdjacencyList.adj_ok V list_ →
  AdjacencyList.holds_entries list_ (AdjacencyList.neighbours es) →
  rd (AdjacencyList.lists list_) x = Some l →
  prim_state V heap → BinaryHeap.size heap < Z.of_nat fuel →
  prim_heap es V R x [] heap →
  ∃ heap',
    for_loop (Z.to_nat (AdjacencyList.size l)) 0
      (relax_binary fuel list_ x) heap = Some heap' ∧
    prim_state V heap' ∧ BinaryHeap.size heap' = BinaryHeap.size heap ∧
    prim_heap es V R x (AdjacencyList.neighbours es x) heap'.
Proof.
  intros [Hlen Hadj] Hf Hl Hst Hfuel Hheap.
  destruct (Hadj _ _ Hl) as [Hsz _ Hels].
  destruct (Hf _ _ Hl) as [Hfs Hfe].
  destruct (for_loop_inv
    (λ j heap', prim_state V heap' ∧
                BinaryHeap.size heap' = BinaryHeap.size heap ∧
                prim_heap es V R x
                  (take (Z.to_nat j) (AdjacencyList.neighbours es x)) heap')
    (relax_binary fuel list_ x)
    (Z.to_nat (AdjacencyList.size l)) 0 heap)
    as (heap' & Hrun & Hst' & Hsz' & Hheap'); [done| |].
  - intros j heap1 Hj (Hst1 & Hsz1 & Hheap1).
    unfold relax_binary. rewrite Hl. cbn [mbind option_bind].
    destruct (Hels j) as (n & Hn & Hnr); [lia|].
    rewrite Hn. cbn [mbind option_bind].
    rewrite Hfe in Hn by lia.
    destruct (relax_binary_entry fuel es V R x
                (take (Z.to_nat j) (AdjacencyList.neighbours es x)) n heap1)
      as (heap2 & -> & Hst2 & Hsz2 & Hheap2); [done|lia|done| |done|].
    { by eapply list_elem_of_lookup_2. }
    eexists. split; [done|]. split_and!; [done|lia|].
    replace (Z.to_nat (j + 1)) with (S (Z.to_nat j)) by lia.
    by rewrite (take_S_r _ _ _ Hn).
  - exists heap'. split_and!; [done|done|done|].
    rewrite take_ge in Hheap'; [done|lia].
Qed.

(** The main loop of [mstPrimBinary] on a connected graph: every edge
    written leaves the set of the vertices reached before it and is a
    lightest such edge. *)
Lemma prim_binary_loop_tree fuel0 graph list_ fuel : ∀ heap mst i,
  graph_wf graph → connected graph →
  (∀ e, e ∈ edgeList graph → edge_weight e ≠ INT_MAX) →
  AdjacencyList.adj_ok (vertices graph) list_ →
  AdjacencyList.holds_entries list_
    (AdjacencyList.neighbours (edgeList graph)) →
  prim_state (vertices graph) heap →
  0 ≤ i → BinaryHeap.size heap = vertices graph - 1 - i →
  Z.of_nat (length mst) = vertices graph - 1 →
  vertices graph < Z.of_nat fuel0 → BinaryHeap.size heap < Z.of_nat fuel →
  prim_tree (edgeList graph) (take (Z.to_nat i) mst) →
  prim_settled (edgeList graph) (vertices graph)
    (reached (take (Z.to_nat i) mst)) heap →
  ∃ mst',
    prim_binary_loop fuel0 fuel list_ heap mst i
    = Some (mst', vertices graph - 1) ∧
    length mst' = length mst ∧
    prim_tree (edgeList graph) mst' ∧
    ∀ v, 0 ≤ v < vertices graph → v ∈ reached mst'.
Proof.
  induction fuel as [|fuel IH];
    intros heap mst i Hwf Hconn Hw Hadj Hf Hst Hi Hsz Hlen Hf0 Hfl Htree Hset.
  { destruct Hst as [Hok _]. pose proof (BinaryHeap.ok_size _ Hok). lia. }
  pose proof Hst as (Hok & Hlenp & Hinit).
  pose proof (BinaryHeap.ok_size _ Hok) as Hsz0.
  set (es := edgeList graph) in *. set (V := vertices graph) in *.
  set (R := reached (take (Z.to_nat i) mst)) in *.
  simpl. case_decide as Hpos.
  - destruct (BinaryHeap.popBinaryMinHeap_spec fuel0 heap)
      as (heap1 & e0 & -> & He0 & Hsz1 & Hlen1 & Hinit1 & Hok1 & Hmin & Hlive1);
      [done|lia|lia|].
    cbn [mbind option_bind].
    rewrite wr_in_range by lia. cbn [mbind option_bind].
    assert (0 ≤ BinaryHeap.vertex e0 < V) as Hv.
    { destruct (BinaryHeap.ok_entries _ Hok 0) as (e & ? & Hp); [lia|].
      simplify_eq. apply rdc_Some_range in Hp. lia. }
    destruct (rd_in_range (AdjacencyList.lists list_) (BinaryHeap.vertex e0))
      as [l Hl]; [destruct Hadj; lia|].
    rewrite Hl. cbn [mbind option_bind].
    assert (prim_state V heap1) as Hst1.
    { split_and!; [done|by rewrite Hlen1|]. intros v Hv'. by apply Hinit1, Hinit. }
    assert (BinaryHeap.live (BinaryHeap.size heap) (BinaryHeap.elements heap) e0)
      as Hl0 by (exists 0; split; [lia|done]).
    set (x := BinaryHeap.vertex e0) in *.
    set (out := mkEdge x (BinaryHeap.via e0) (BinaryHeap.weight e0)).
    assert (cut_edge es R out) as Hcut.
    { destruct Hset as [Hholds Hent].
      apply (prim_pop_cut graph R
               (λ v a w, BinaryHeap.live (BinaryHeap.size heap)
                           (BinaryHeap.elements heap)
                           (BinaryHeap.mkElement v a w)));
        [done|done|done|unfold R, reached; set_solver|done| | |by destruct e0|].
      - intros v Hvr HvR. destruct (Hholds v Hvr HvR) as ([v' a w] & He & Hev).
        simpl in Hev. subst v'. eauto.
      - intros v a w He. by apply Hent in He.
      - intros v a w He. by apply Hmin in He. }
    pose proof (take_insert_snoc mst i out ltac:(lia)) as Htake.
    destruct (relax_binary_loop_entries fuel0 es V list_ R x l heap1)
      as (heap2 & -> & Hst2 & Hsz2 & Hheap2); [done|done|done|done|lia| |].
    { by apply (prim_settled_pop es V R heap heap1 e0). }
    cbn [mbind option_bind].
    destruct (IH heap2 (<[Z.to_nat i := out]> mst) (i + 1))
      as (mst' & -> & Hlen' & Htree' & Hall);
      [done|done|done|done|done|done|lia|lia| |done|lia| | |].
    + by rewrite length_insert.
    + rewrite Htake. by apply prim_tree_snoc.
    + rewrite Htake, reached_snoc. by apply prim_heap_settled.
    + exists mst'. split_and!; [done| |done|done].
      by rewrite Hlen', length_insert.
  - assert (take (Z.to_nat i) mst = mst) as Hall by (apply take_ge; lia).
    rewrite Hall in Htree. unfold R in Hset. rewrite Hall in Hset.
    exists mst. split_and!; [do 2 f_equal; lia|done|done|].
    intros v Hv. destruct (decide (v ∈ reached mst)) as [|Hn]; [done|].
    destruct Hset as [Hholds _].
    destruct (Hholds v Hv Hn) as (e & (j & Hj & _) & _). lia.
Qed.

(** [mstPrimBinary] on a connected graph: the edges written form a tree
    grown from vertex 0 along lightest edges. *)
Lemma mstPrimBinary_tree fuel graph mst :
  graph_wf graph → connected graph →
  (∀ e, e ∈ edgeList graph → edge_weight e ≠ INT_MAX) →
  Z.of_nat (length (edgeList mst)) = vertices graph - 1 →
  vertices graph < Z.of_nat fuel →
  ∃ mst',
    mstPrimBinary fuel graph mst = Some (mst', vertices graph - 1) ∧
    length (edgeList mst') = length (edgeList mst) ∧
    prim_tree (edgeList graph) (edgeList mst') ∧
    ∀ v, 0 ≤ v < vertices graph → v ∈ reached (edgeList mst').
Proof.
  intros Hwf Hconn Hw Hlen Hfuel. pose proof (wf_vertices _ Hwf) as HV.
  unfold mstPrimBinary.
  destruct (AdjacencyList.build_entries graph) as (list_ & -> & Hadj & Hf);
    [lia|apply Hwf|apply Hwf|].
  cbn [mbind option_bind].
  destruct (prim_binary_pushes fuel (vertices graph))
    as (heap & -> & Hst & Hsz & Hlive); [lia|done|].
  cbn [mbind option_bind].
  pose proof Hst as (Hok & Hlenp & Hinit).
  destruct (BinaryHeap.decreaseBinaryMinHeap_spec fuel heap 0 0 0)
    as (heap1 & Hrun1 & (Hsz1 & _ & _ & Hlen1 & Hinit1) & Hok1 & _);
    [done|apply Hinit; lia|lia|].
  pose proof (BinaryHeap.decreaseBinaryMinHeap_entries fuel heap 0 0 0 heap1
                Hok ltac:(lia) Hrun1) as Hlive1.
  rewrite Hrun1. cbn [mbind option_bind].
  destruct (BinaryHeap.popBinaryMinHeap_spec fuel heap1)
    as (heap2 & e0 & -> & He0 & Hsz2 & Hlen2 & Hinit2 & Hok2 & Hmin & Hlive2);
    [done|lia|lia|].
  cbn [mbind option_bind].
  (* the first vertex popped is vertex 0 *)
  assert (∀ e, BinaryHeap.live (BinaryHeap.size heap1)
                 (BinaryHeap.elements heap1) e ↔
               e = BinaryHeap.mkElement 0 0 0 ∨
               ∃ v, 0 < v < vertices graph ∧
                    e = BinaryHeap.mkElement v INT_MAX INT_MAX) as Hlive1'.
  { intros e. rewrite Hlive1. split.
    - intros (e1 & (v & Hv & ->)%Hlive & ->). simpl.
      case_decide as Hc; [by left|right].
      exists v. split; [|done]. unfold INT_MAX in Hc. lia.
    - intros [->|(v & Hv & ->)].
      + exists (BinaryHeap.mkElement 0 INT_MAX INT_MAX). split.
        * apply Hlive. exists 0. split; [lia|done].
        * done.
      + exists (BinaryHeap.mkElement v INT_MAX INT_MAX). split.
        * apply Hlive. exists v. split; [lia|done].
        * simpl. case_decide as Hc; [lia|done]. }
  assert (e0 = BinaryHeap.mkElement 0 0 0) as He0'.
  { assert (BinaryHeap.live (BinaryHeap.size heap1)
              (BinaryHeap.elements heap1) e0) as Hl0
      by (exists 0; split; [lia|done]).
    apply Hlive1' in Hl0 as [?|(v & Hv & ->)]; [done|].
    specialize (Hmin (BinaryHeap.mkElement 0 0 0)). simpl in Hmin.
    unfold INT_MAX in Hmin. assert (2147483647 ≤ 0); [|lia].
    apply Hmin, Hlive1'. by left. }
  subst e0. simpl.
  destruct (rd_in_range (AdjacencyList.lists list_) 0)
    as [l Hl]; [destruct Hadj; lia|].
  rewrite Hl. cbn [mbind option_bind].
  assert (prim_state (vertices graph) heap2) as Hst2.
  { split_and!; [done|by rewrite Hlen2, Hlen1|].
    intros v Hv'. by apply Hinit2, Hinit1, Hinit. }
  destruct (relax_binary_loop_entries fuel (edgeList graph) (vertices graph)
              list_ [] 0 l heap2)
    as (heap3 & -> & Hst3 & Hsz3 & Hheap3); [done|done|done|done|lia| |].
  { split.
    - intros v Hv _ Hv0. exists (BinaryHeap.mkElement v INT_MAX INT_MAX).
      split; [|done]. apply Hlive2. split; [|done].
      apply Hlive1'. right. exists v. split; [lia|done].
    - intros e [[->|(v & Hv & ->)]%Hlive1' Hne]%Hlive2; [done|].
      unfold prim_entry. simpl. split_and!.
      + apply not_elem_of_nil.
      + lia.
      + intros g u _ Hu. by apply elem_of_nil in Hu.
      + intros n Hn. by apply elem_of_nil in Hn.
      + by left. }
  cbn [mbind option_bind].
  destruct (prim_binary_loop_tree fuel graph list_ fuel heap3
              (edgeList mst) 0) as (l' & -> & Hlen' & Htree & Hall);
    [done|done|done|done|done|done|lia|lia|done|done|lia| | |].
  - intros k e Hk. by rewrite take_0 in Hk.
  - rewrite take_0. by apply (prim_heap_settled _ _ [] 0).
  - cbn [mbind option_bind]. eexists. split; [done|]. by split_and!.
Qed.

(** X25. [mstPrimBinary] on a well-formed connected graph without an edge
    of weight [INT_MAX]: the call returns [V - 1] edges [(vertex, via,
    weight)], each of them an edge of the input between [via] and [vertex]
    with that weight; they link every two vertices, so the output is a
    spanning tree; and the tree is grown from vertex 0 along lightest
    edges: [via] is vertex 0 or the first member of an earlier output edge,
    [vertex] is neither, and no edge of the input that leaves this set of
    vertices is lighter than the output edge. *)
Theorem mstPrimBinary_spanning_tree fuel graph :
  graph_wf graph → connected graph →
  (∀ e, e ∈ edgeList graph → edge_weight e ≠ INT_MAX) →
  vertices graph < Z.of_nat fuel →
  ∃ mst,
    mstPrimBinary fuel graph
      (newWeightedGraph (vertices graph) (vertices graph - 1))
    = Some (mst, vertices graph - 1) ∧
    Z.of_nat (length (edgeList mst)) = vertices graph - 1 ∧
    (∀ e, e ∈ edgeList mst →
          ∃ g, g ∈ edgeList graph ∧ links g (edge_to e) (edge_from e) ∧
               edge_weight g = edge_weight e) ∧
    (∀ u v, 0 ≤ u < vertices graph → 0 ≤ v < vertices graph →
            joined (edgeList mst) u v) ∧
    (∀ k e, edgeList mst !! k = Some e →
       let R := 0 :: (edge_from <$> take k (edgeList mst)) in
       edge_to e ∈ R ∧ (edge_from e ∉ R) ∧
       ∀ g u v, g ∈ edgeList graph → links g u v → u ∈ R → v ∉ R →
                edge_weight e ≤ edge_weight g).
Proof.
  intros Hwf Hconn Hw Hfuel. pose proof (wf_vertices _ Hwf) as HV.
  destruct (mstPrimBinary_tree fuel graph
              (newWeightedGraph (vertices graph) (vertices graph - 1)))
    as (mst & Hrun & Hlen & Htree & Hall); [done|done|done| |done|].
  { simpl. rewrite length_replicate. lia. }
  exists mst. split; [done|]. split_and!.
  - rewrite Hlen. simpl. rewrite length_replicate. lia.
  - intros e (k & Hk)%list_elem_of_lookup_1.
    by destruct (Htree k e Hk) as (_ & _ & Hg & _).
  - intros u v Hu Hv. eapply joined_trans.
    + apply joined_sym, (prim_tree_joined (edgeList graph)); [done|by apply Hall].
    + apply (prim_tree_joined (edgeList graph)); [done|by apply Hall].
  - intros k e Hk. destruct (Htree k e Hk) as (Hto & Hfrom & _ & Hlight).
    by split_and!.
Qed.

(** X25 on the triangle. *)
Lemma mstPrimBinary_spanning_tree_witness :
  ∃ mst,
    mstPrimBinary 4 triangle
      (newWeightedGraph (vertices triangle) (vertices triangle - 1))
    = Some (mst, vertices triangle - 1) ∧
    Z.of_nat (length (edgeList mst)) = vertices triangle - 1 ∧
    (∀ e, e ∈ edgeList mst →
          ∃ g, g ∈ edgeList triangle ∧ links g (edge_to e) (edge_from e) ∧
               edge_weight g = edge_weight e) ∧
    (∀ u v, 0 ≤ u < vertices triangle → 0 ≤ v < vertices triangle →
            joined (edgeList mst) u v) ∧
    (∀ k e, edgeList mst !! k = Some e →
       let R := 0 :: (edge_from <$> take k (edgeList mst)) in
       edge_to e ∈ R ∧ (edge_from e ∉ R) ∧
       ∀ g u v, g ∈ edgeList triangle → links g u v → u ∈ R → v ∉ R →
                edge_weight e ≤ edge_weight g).
Proof.
  apply (mstPrimBinary_spanning_tree 4 triangle);
    [apply triangle_wf|apply triangle_connected| |simpl; lia].
  intros e He. unfold triangle in He. simpl in He.
  repeat (apply elem_of_cons in He as [->|He]; [by vm_compute|]).
  by apply elem_of_nil in He.
Defined.

(** *** Prim with the Fibonacci heap: the tree *)

Definition prim_fib_heap (es : list Edge) (V : Z) (R : list Z) (x : Z)
  (seen : list AdjacencyList.ListElement) (m : FibonacciHeap.mem) : Prop :=
  (∀ v, 0 ≤ v < V → v ∉ R → v ≠ x → ∃ via_ w, fib_entry m v via_ w) ∧
  (∀ v via_ w, fib_entry m v via_ w → prim_entry es R x seen v via_ w).

Definition prim_fib_settled (es : list Edge) (V : Z) (R : list Z)
  (m : FibonacciHeap.mem) : Prop :=
  (∀ v, 0 ≤ v < V → v ∉ R → ∃ via_ w, fib_entry m v via_ w) ∧
  (∀ v via_ w, fib_entry m v via_ w → prim_best es R v via_ w).

Lemma prim_fib_heap_settled es V R x m :
  prim_fib_heap es V R x (AdjacencyList.neighbours es x) m →
  prim_fib_settled es V (R ++ [x]) m.
Proof.
  intros [Hholds Hent]. split.
  - intros v Hv Hn. apply Hholds; [done|set_solver|set_solver].
  - intros v a w He. by apply prim_entry_best, Hent.
Qed.

Lemma triple_Some (m : FibonacciHeap.mem) q v a w :
  FibonacciHeap.triple <$> (m !! q) = Some (v, a, w) ↔
  ∃ n, m !! q = Some n ∧ FibonacciHeap.vertex n = v ∧
       FibonacciHeap.via n = a ∧ FibonacciHeap.weight n = w.
Proof.
  destruct (m !! q) as [n|]; simpl; split.
  - intros [= <- <- <-]. eauto.
  - intros (n' & [= <-] & <- & <- & <-). done.
  - done.
  - by intros (? & ? & _).
Qed.

Lemma prim_fib_settled_pop es V R m heap Rt K A h nh m' :
  FibonacciHeap.heap_inv m heap Rt K A →
  prim_fib_settled es V R m →
  m !! h = Some nh →
  (∀ q, FibonacciHeap.triple <$> (m' !! q)
        = if decide (q = h) then None else FibonacciHeap.triple <$> (m !! q)) →
  prim_fib_heap es V R (FibonacciHeap.vertex nh) [] m'.
Proof.
  intros Hinv [Hholds Hent] Hnh Hm'.
  assert (∀ q v a w, FibonacciHeap.triple <$> (m !! q) = Some (v, a, w) →
            v ≠ FibonacciHeap.vertex nh → q ≠ h) as Hne.
  { intros q v a w (n & Hn & Hv & _)%triple_Some Hvn ->. congruence. }
  split.
  - intros v Hv Hn Hx. destruct (Hholds v Hv Hn) as (a & w & q & Hq).
    exists a, w, q. rewrite Hm', decide_False; [done|]. by eapply Hne.
  - intros v a w (q & Hq). rewrite Hm' in Hq. case_decide as Hqh; [done|].
    apply prim_best_entry; [apply Hent; by exists q|].
    intros ->. apply Hqh.
    apply triple_Some in Hq as (n & Hn & Hv & _).
    apply (FibonacciHeap.heap_inv_label m heap Rt K A q h
             (FibonacciHeap.vertex nh) Hinv).
    + by rewrite Hn; simpl; rewrite Hv.
    + by rewrite Hnh.
Qed.

(** One [decreaseFibonacciMinHeap] of the relaxation. *)
Lemma relax_fibonacci_entry fuel es V R x seen n m heap :
  prim_fib_state V m heap → FibonacciHeap.size heap ≤ Z.of_nat fuel →
  prim_fib_heap es V R x seen m →
  n ∈ AdjacencyList.neighbours es x → 0 ≤ AdjacencyList.vertex n < V →
  ∃ m' heap',
    FibonacciHeap.decreaseFibonacciMinHeap fuel m heap
      (AdjacencyList.vertex n) x (AdjacencyList.weight n)
    = Some (m', heap') ∧
    prim_fib_state V m' heap' ∧
    FibonacciHeap.size heap' = FibonacciHeap.size heap ∧
    prim_fib_heap es V R x (seen ++ [n]) m'.
Proof.
  intros ((Rt & K & A & Hinv) & Hlen & Hinit) Hfuel [Hholds Hent] Hn Hrange.
  destruct (FibonacciHeap.decreaseFibonacciMinHeap_spec fuel m heap Rt K A
              (AdjacencyList.vertex n) x (AdjacencyList.weight n) Hinv)
    as (m2 & heap2 & R2 & K2 & A2 & Hrun & Hinv2 & _ & Hpos2 & Hsz2 & _);
    [by apply Hinit|lia|].
  pose proof (FibonacciHeap.decreaseFibonacciMinHeap_entries _ _ _ _ _ _ _ _
                (FibonacciHeap.inv_indexed _ _ _ _ _ Hinv) Hrun) as Hm'.
  exists m2, heap2. split; [done|]. split.
  { split_and!; [by exists R2, K2, A2|by rewrite Hpos2|].
    intros v Hv. rewrite Hpos2. by apply Hinit. }
  split; [done|]. split.
  - intros v Hv HR Hx. destruct (Hholds v Hv HR Hx) as (a & w & q & Hq).
    apply triple_Some in Hq as (n0 & Hn0 & Hv0 & _).
    specialize (Hm' q). rewrite Hn0 in Hm'. simpl in Hm'.
    case_decide as Hc.
    + exists x, (AdjacencyList.weight n), q. rewrite Hm'.
      destruct Hc as [<- _]. by rewrite Hv0.
    + exists (FibonacciHeap.via n0), (FibonacciHeap.weight n0), q.
      rewrite Hm'. unfold FibonacciHeap.triple. by rewrite Hv0.
  - intros v a w (q & Hq). rewrite Hm' in Hq.
    destruct (m !! q) as [n0|] eqn:Hn0; [|done]. simpl in Hq.
    assert (prim_entry es R x seen (FibonacciHeap.vertex n0)
              (FibonacciHeap.via n0) (FibonacciHeap.weight n0)) as He0.
    { apply Hent. exists q. by rewrite Hn0. }
    case_decide as Hc.
    + destruct Hc as [Hev Hw]. simplify_eq. rewrite <-Hev at 1.
      by eapply prim_entry_lower.
    + unfold FibonacciHeap.triple in Hq. simplify_eq.
      apply prim_entry_keep; [done|]. intros [Hev Hw]. apply Hc. by split.
Qed.

(** The relaxation of all neighbours of [x]. *)
Lemma relax_fibonacci_loop_entries fuel es V list_ R x l m heap :
  AdjacencyList.adj_ok V list_ →
  AdjacencyList.holds_entries list_ (AdjacencyList.neighbours es) →
  rd (AdjacencyList.lists list_) x = Some l →
  prim_fib_state V m heap → FibonacciHeap.size heap ≤ Z.of_nat fuel →
  prim_fib_heap es V R x [] m →
  ∃ m' heap',
    for_loop (Z.to_nat (AdjacencyList.size l)) 0
      (relax_fibonacci fuel list_ x) (m, heap) = Some (m', heap') ∧
    prim_fib_state V m' heap' ∧
    FibonacciHeap.size heap' = FibonacciHeap.size heap ∧
    prim_fib_heap es V R x (AdjacencyList.neighbours es x) m'.
Proof.
  intros [Hlen Hadj] Hf Hl Hst Hfuel Hheap.
  destruct (Hadj _ _ Hl) as [Hsz _ Hels].
  destruct (Hf _ _ Hl) as [Hfs Hfe].
  destruct (for_loop_inv
    (λ j (st : FibonacciHeap.mem * FibonacciHeap.FibonacciMinHeap),
       prim_fib_state V st.1 st.2 ∧
       FibonacciHeap.size st.2 = FibonacciHeap.size heap ∧
       prim_fib_heap es V R x
         (take (Z.to_nat j) (AdjacencyList.neighbours es x)) st.1)
    (relax_fibonacci fuel list_ x)
    (Z.to_nat (AdjacencyList.size l)) 0 (m, heap))
    as ([m' heap'] & Hrun & Hst' & Hsz' & Hheap'); [done| |].
  - intros j [m1 heap1] Hj (Hst1 & Hsz1 & Hheap1). simpl in *.
    rewrite Hl. cbn [mbind option_bind].
    destruct (Hels j) as (n & Hn & Hnr); [lia|].
    rewrite Hn. cbn [mbind option_bind].
    rewrite Hfe in Hn by lia.
    destruct (relax_fibonacci_entry fuel es V R x
                (take (Z.to_nat j) (AdjacencyList.neighbours es x)) n
                m1 heap1)
      as (m2 & heap2 & -> & Hst2 & Hsz2 & Hheap2); [done|lia|done| |done|].
    { by eapply list_elem_of_lookup_2. }
    exists (m2, heap2). split; [done|]. simpl. split_and!; [done|lia|].
    replace (Z.to_nat (j + 1)) with (S (Z.to_nat j)) by lia.
    by rewrite (take_S_r _ _ _ Hn).
  - exists m', heap'. simpl in *. split_and!; [done|done|done|].
    rewrite take_ge in Hheap'; [done|lia].
Qed.

(** The main loop of [mstPrimFibonacci] on a connected graph. *)
Lemma prim_fibonacci_loop_tree fuel0 graph list_ fuel :
  ∀ m heap out mst i,
  graph_wf graph → connected graph →
  (∀ e, e ∈ edgeList graph → edge_weight e ≠ INT_MAX) →
  AdjacencyList.adj_ok (vertices graph) list_ →
  AdjacencyList.holds_entries list_
    (AdjacencyList.neighbours (edgeList graph)) →
  prim_fib_state (vertices graph) m heap →
  0 ≤ i → FibonacciHeap.size heap = vertices graph - 1 - i →
  Z.of_nat (length mst) = vertices graph - 1 →
  vertices graph + FibonacciHeap.degreeSize (vertices graph)
  ≤ Z.of_nat fuel0 →
  FibonacciHeap.size heap < Z.of_nat fuel →
  prim_tree (edgeList graph) (take (Z.to_nat i) mst) →
  prim_fib_settled (edgeList graph) (vertices graph)
    (reached (take (Z.to_nat i) mst)) m →
  ∃ mst',
    prim_fibonacci_loop fuel0 fuel list_ m heap out mst i
    = Some (mst', vertices graph - 1) ∧
    length mst' = length mst ∧
    prim_tree (edgeList graph) mst' ∧
    ∀ v, 0 ≤ v < vertices graph → v ∈ reached mst'.
Proof.
  induction fuel as [|fuel IH];
    intros m heap out mst i Hwf Hconn Hw Hadj Hf Hst Hi Hsz Hlen Hf0 Hfl
      Htree Hset.
  { destruct Hst as ((Rt & K & A & [_ _ _ Hs _]) & _).
    unfold FibonacciHeap.sized in Hs. simpl in Hfl. lia. }
  pose proof Hst as ((Rt & K & A & Hinv) & Hlenp & Hinit).
  assert (0 ≤ FibonacciHeap.size heap) as Hnn.
  { pose proof (FibonacciHeap.inv_sized _ _ _ _ _ Hinv) as Hs.
    unfold FibonacciHeap.sized in Hs. lia. }
  pose proof (FibonacciHeap.degreeSize_pos (vertices graph)) as HDS.
  set (es := edgeList graph) in *. set (V := vertices graph) in *.
  set (R := reached (take (Z.to_nat i) mst)) in *.
  simpl. case_decide as Hpos.
  - destruct (FibonacciHeap.popFibonacciMinHeap_spec fuel0 out m heap Rt K A
                Hinv)
      as (m1 & heap1 & R1 & K1 & A1 & h & nh & Hmin & Hnh & Hrun & Hinv1 & Hsz1
          & Hlen1 & Hinit1 & _ & _ & Hleast); [lia| |].
    { pose proof (FibonacciHeap.degreeSize_mono
                    (FibonacciHeap.size heap - 1) V ltac:(lia)). lia. }
    pose proof (FibonacciHeap.popFibonacciMinHeap_entries _ _ _ _ _ _ _ _
                  Hrun Hmin) as Hm1.
    rewrite Hrun. cbn [mbind option_bind].
    rewrite wr_in_range by lia. cbn [mbind option_bind].
    pose proof (pop_vertex_range _ _ _ _ _ _ _ Hinv Hnh) as Hv.
    destruct (rd_in_range (AdjacencyList.lists list_)
                (FibonacciHeap.vertex nh)) as [l Hl]; [destruct Hadj; lia|].
    rewrite Hl. cbn [mbind option_bind].
    assert (prim_fib_state V m1 heap1) as Hst1.
    { split_and!; [by exists R1, K1, A1|lia|].
      intros v Hv'. by apply Hinit1, Hinit. }
    set (x := FibonacciHeap.vertex nh) in *.
    set (o := mkEdge x (FibonacciHeap.via nh) (FibonacciHeap.weight nh)).
    assert (cut_edge es R o) as Hcut.
    { destruct Hset as [Hholds Hent].
      apply (prim_pop_cut graph R (fib_entry m));
        [done|done|done|unfold R, reached; set_solver|lia|done|done| |].
      - exists h. by rewrite Hnh.
      - intros v a w (q & (n & Hn & _ & _ & <-)%triple_Some).
        rewrite <-(FibonacciHeap.wt_Some _ _ _ Hn). apply Hleast.
        by eexists. }
    pose proof (take_insert_snoc mst i o ltac:(lia)) as Htake.
    destruct (relax_fibonacci_loop_entries fuel0 es V list_ R x l m1 heap1)
      as (m2 & heap2 & -> & Hst2 & Hsz2 & Hheap2); [done|done|done|done|lia| |].
    { by apply (prim_fib_settled_pop es V R m heap Rt K A h nh m1). }
    cbn [mbind option_bind].
    destruct (IH m2 heap2
                (x, FibonacciHeap.via nh, FibonacciHeap.weight nh)
                (<[Z.to_nat i := o]> mst) (i + 1))
      as (mst' & -> & Hlen' & Htree' & Hall);
      [done|done|done|done|done|done|lia|lia| |done|lia| | |].
    + by rewrite length_insert.
    + rewrite Htake. by apply prim_tree_snoc.
    + rewrite Htake, reached_snoc. by apply prim_fib_heap_settled.
    + exists mst'. split_and!; [done| |done|done].
      by rewrite Hlen', length_insert.
  - assert (take (Z.to_nat i) mst = mst) as Hall by (apply take_ge; lia).
    rewrite Hall in Htree. unfold R in Hset. rewrite Hall in Hset.
    exists mst. split_and!; [do 2 f_equal; lia|done|done|].
    intros v Hv. destruct (decide (v ∈ reached mst)) as [|Hn]; [done|].
    destruct Hset as [Hholds _].
    destruct (Hholds v Hv Hn) as (a & w & q & (n & Hn' & _)%triple_Some).
    exfalso. apply (FibonacciHeap.sized_empty m heap) with (q := q);
      [apply Hinv|lia|by eexists].
Qed.

(** [mstPrimFibonacci] on a connected graph: the edges written form a tree
    grown from vertex 0 along lightest edges. *)
Lemma mstPrimFibonacci_tree fuel out0 graph mst :
  graph_wf graph → connected graph →
  (∀ e, e ∈ edgeList graph → edge_weight e ≠ INT_MAX) →
  Z.of_nat (length (edgeList mst)) = vertices graph - 1 →
  vertices graph + FibonacciHeap.degreeSize (vertices graph)
  ≤ Z.of_nat fuel →
  ∃ mst',
    mstPrimFibonacci fuel out0 graph mst = Some (mst', vertices graph - 1) ∧
    length (edgeList mst') = length (edgeList mst) ∧
    prim_tree (edgeList graph) (edgeList mst') ∧
    ∀ v, 0 ≤ v < vertices graph → v ∈ reached (edgeList mst').
Proof.
  intros Hwf Hconn Hw Hlen Hfuel. pose proof (wf_vertices _ Hwf) as HV.
  pose proof (FibonacciHeap.degreeSize_pos (vertices graph)) as HDS.
  unfold mstPrimFibonacci.
  destruct (AdjacencyList.build_entries graph) as (list_ & -> & Hadj & Hf);
    [lia|apply Hwf|apply Hwf|].
  cbn [mbind option_bind].
  destruct (prim_fibonacci_pushes (vertices graph))
    as (m & heap & -> & Hst & Hsz & Hent); [lia|].
  cbn [mbind option_bind].
  pose proof Hst as ((R & K & A & Hinv) & Hlenp & Hinit).
  destruct (FibonacciHeap.decreaseFibonacciMinHeap_spec fuel m heap R K A
              0 0 0 Hinv)
    as (m1 & heap1 & R1 & K1 & A1 & Hrun1 & Hinv1 & _ & Hpos1 & Hsz1 & _);
    [apply Hinit; lia|lia|].
  pose proof (FibonacciHeap.decreaseFibonacciMinHeap_entries _ _ _ _ _ _ _ _
                (FibonacciHeap.inv_indexed _ _ _ _ _ Hinv) Hrun1) as Hm1.
  rewrite Hrun1. cbn [mbind option_bind].
  destruct (FibonacciHeap.popFibonacciMinHeap_spec fuel out0 m1 heap1
              R1 K1 A1 Hinv1)
    as (m2 & heap2 & R2 & K2 & A2 & h & nh & Hmin & Hnh & Hrun2 & Hinv2 & Hsz2
        & Hlen2 & Hinit2 & _ & _ & Hleast); [lia| |].
  { pose proof (FibonacciHeap.degreeSize_mono
                  (FibonacciHeap.size heap1 - 1) (vertices graph)
                  ltac:(lia)). lia. }
  pose proof (FibonacciHeap.popFibonacciMinHeap_entries _ _ _ _ _ _ _ _
                Hrun2 Hmin) as Hm2.
  rewrite Hrun2. cbn [mbind option_bind].
  (* the entries after the first decrease *)
  assert (∀ v a w, fib_entry m1 v a w ↔
            (v = 0 ∧ a = 0 ∧ w = 0) ∨
            (0 < v < vertices graph ∧ a = INT_MAX ∧ w = INT_MAX)) as Hent1.
  { intros v a w. split.
    - intros (q & Hq). rewrite Hm1 in Hq.
      destruct (m !! q) as [n|] eqn:Hn; [|done]. simpl in Hq.
      destruct (Hent (FibonacciHeap.vertex n) (FibonacciHeap.via n)
                  (FibonacciHeap.weight n)) as [Hr _].
      destruct Hr as (Hr & Ha & Hw'); [exists q; by rewrite Hn|].
      case_decide as Hc; [left; by simplify_eq|right].
      unfold FibonacciHeap.triple in Hq. simplify_eq.
      split; [|done]. rewrite Hw' in Hc. unfold INT_MAX in Hc. lia.
    - intros [(-> & -> & ->)|(Hv & -> & ->)].
      + destruct (Hent 0 INT_MAX INT_MAX) as [_ (q & Hq)]; [lia|].
        exists q. rewrite Hm1.
        apply triple_Some in Hq as (n & -> & Hv & Ha & Hw'). simpl.
        rewrite decide_True; [done|]. rewrite Hw'. by split.
      + destruct (Hent v INT_MAX INT_MAX) as [_ (q & Hq)]; [lia|].
        exists q. rewrite Hm1.
        apply triple_Some in Hq as (n & -> & Hv' & Ha & Hw'). simpl.
        rewrite decide_False by lia.
        unfold FibonacciHeap.triple. by rewrite Hv', Ha, Hw'. }
  (* the first vertex popped is vertex 0 *)
  assert (FibonacciHeap.triple nh = (0, 0, 0)) as Hfirst.
  { destruct (Hent1 (FibonacciHeap.vertex nh) (FibonacciHeap.via nh)
                (FibonacciHeap.weight nh)) as [Hr _].
    destruct Hr as [(Hv & Ha & Hw')|(Hv & Ha & Hw')];
      [exists h; by rewrite Hnh|unfold FibonacciHeap.triple; congruence|].
    destruct (Hent1 0 0 0) as [_ (q & (n & Hn & _ & _ & Hwn)%triple_Some)];
      [by left|].
    specialize (Hleast q ltac:(by eexists)).
    rewrite (FibonacciHeap.wt_Some _ _ _ Hn), Hwn, Hw' in Hleast.
    unfold INT_MAX in Hleast. lia. }
  unfold FibonacciHeap.triple in Hfirst.
  injection Hfirst as Hv0 Ha0 Hw0. rewrite Hv0, Ha0, Hw0.
  destruct (rd_in_range (AdjacencyList.lists list_) 0)
    as [l Hl]; [destruct Hadj; lia|].
  rewrite Hl. cbn [mbind option_bind].
  assert (prim_fib_state (vertices graph) m2 heap2) as Hst2.
  { split_and!; [by exists R2, K2, A2|rewrite Hlen2, Hpos1; lia|].
    intros v Hv'. apply Hinit2. rewrite Hpos1. by apply Hinit. }
  destruct (relax_fibonacci_loop_entries fuel (edgeList graph)
              (vertices graph) list_ [] 0 l m2 heap2)
    as (m3 & heap3 & -> & Hst3 & Hsz3 & Hheap3); [done|done|done|done|lia| |].
  { assert (∀ q v a w,
              FibonacciHeap.triple <$> (m1 !! q) = Some (v, a, w) →
              v ≠ 0 → q ≠ h) as Hne.
    { intros q v a w (n & Hn & Hv & _)%triple_Some Hvn ->. congruence. }
    split.
    - intros v Hv _ Hv0'.
      destruct (Hent1 v INT_MAX INT_MAX) as [_ (q & Hq)]; [right; lia|].
      exists INT_MAX, INT_MAX, q.
      rewrite Hm2, decide_False; [done|]. by eapply Hne.
    - intros v a w (q & Hq). rewrite Hm2 in Hq. case_decide as Hqh; [done|].
      destruct (Hent1 v a w) as [Hr _].
      destruct Hr as [(-> & -> & ->)|(Hv & -> & ->)]; [by exists q| |].
      + exfalso. apply Hqh.
        apply triple_Some in Hq as (n & Hn & Hvn & _).
        apply (FibonacciHeap.heap_inv_label m1 heap1 R1 K1 A1 q h 0 Hinv1).
        * by rewrite Hn; simpl; rewrite Hvn.
        * by rewrite Hnh; simpl; rewrite Hv0.
      + split_and!.
        * apply not_elem_of_nil.
        * lia.
        * intros g u _ Hu. by apply elem_of_nil in Hu.
        * intros n Hn. by apply elem_of_nil in Hn.
        * by left. }
  cbn [mbind option_bind].
  destruct (prim_fibonacci_loop_tree fuel graph list_ fuel m3 heap3
              (0, 0, 0) (edgeList mst) 0)
    as (l' & -> & Hlen' & Htree & Hall);
    [done|done|done|done|done|done|lia|lia|done|done|lia| | |].
  - intros k e Hk. by rewrite take_0 in Hk.
  - rewrite take_0. by apply (prim_fib_heap_settled _ _ [] 0).
  - cbn [mbind option_bind]. eexists. split; [done|]. by split_and!.
Qed.

(** X26. [mstPrimFibonacci] on a well-formed connected graph without an
    edge of weight [INT_MAX], whatever the initial values of its locals:
    the call returns [V - 1] edges [(vertex, via, weight)], each of them an
    edge of the input between [via] and [vertex] with that weight; they
    link every two vertices, so the output is a spanning tree; and the tree
    is grown from vertex 0 along lightest edges: [via] is vertex 0 or the
    first member of an earlier output edge, [vertex] is neither, and no
    edge of the input that leaves this set of vertices is lighter than the
    output edge. *)
Theorem mstPrimFibonacci_spanning_tree fuel out0 graph :
  graph_wf graph → connected graph →
  (∀ e, e ∈ edgeList graph → edge_weight e ≠ INT_MAX) →
  vertices graph + FibonacciHeap.degreeSize (vertices graph)
  ≤ Z.of_nat fuel →
  ∃ mst,
    mstPrimFibonacci fuel out0 graph
      (newWeightedGraph (vertices graph) (vertices graph - 1))
    = Some (mst, vertices graph - 1) ∧
    Z.of_nat (length (edgeList mst)) = vertices graph - 1 ∧
    (∀ e, e ∈ edgeList mst →
          ∃ g, g ∈ edgeList graph ∧ links g (edge_to e) (edge_from e) ∧
               edge_weight g = edge_weight e) ∧
    (∀ u v, 0 ≤ u < vertices graph → 0 ≤ v < vertices graph →
            joined (edgeList mst) u v) ∧
    (∀ k e, edgeList mst !! k = Some e →
       let R := 0 :: (edge_from <$> take k (edgeList mst)) in
       edge_to e ∈ R ∧ (edge_from e ∉ R) ∧
       ∀ g u v, g ∈ edgeList graph → links g u v → u ∈ R → v ∉ R →
                edge_weight e ≤ edge_weight g).
Proof.
  intros Hwf Hconn Hw Hfuel. pose proof (wf_vertices _ Hwf) as HV.
  destruct (mstPrimFibonacci_tree fuel out0 graph
              (newWeightedGraph (vertices graph) (vertices graph - 1)))
    as (mst & Hrun & Hlen & Htree & Hall); [done|done|done| |done|].
  { simpl. rewrite length_replicate. lia. }
  exists mst. split; [done|]. split_and!.
  - rewrite Hlen. simpl. rewrite length_replicate. lia.
  - intros e (k & Hk)%list_elem_of_lookup_1.
    by destruct (Htree k e Hk) as (_ & _ & Hg & _).
  - intros u v Hu Hv. eapply joined_trans.
    + apply joined_sym, (prim_tree_joined (edgeList graph)); [done|by apply Hall].
    + apply (prim_tree_joined (edgeList graph)); [done|by apply Hall].
  - intros k e Hk. destruct (Htree k e Hk) as (Hto & Hfrom & _ & Hlight).
    by split_and!.
Qed.

(** X26 on the triangle. *)
Lemma mstPrimFibonacci_spanning_tree_witness :
  ∃ mst,
    mstPrimFibonacci 10 (0, 0, 0) triangle
      (newWeightedGraph (vertices triangle) (vertices triangle - 1))
    = Some (mst, vertices triangle - 1) ∧
    Z.of_nat (length (edgeList mst)) = vertices triangle - 1 ∧
    (∀ e, e ∈ edgeList mst →
          ∃ g, g ∈ edgeList triangle ∧ links g (edge_to e) (edge_from e) ∧
               edge_weight g = edge_weight e) ∧
    (∀ u v, 0 ≤ u < vertices triangle → 0 ≤ v < vertices triangle →
            joined (edgeList mst) u v) ∧
    (∀ k e, edgeList mst !! k = Some e →
       let R := 0 :: (edge_from <$> take k (edgeList mst)) in
       edge_to e ∈ R ∧ (edge_from e ∉ R) ∧
       ∀ g u v, g ∈ edgeList triangle → links g u v → u ∈ R → v ∉ R →
                edge_weight e ≤ edge_weight g).
Proof.
  apply (mstPrimFibonacci_spanning_tree 10 (0, 0, 0) triangle);
    [apply triangle_wf|apply triangle_connected| |vm_compute; by intros ?].
  intros e He. unfold triangle in He. simpl in He.
  repeat (apply elem_of_cons in He as [->|He]; [by vm_compute|]).
  by apply elem_of_nil in He.
Defined.


(** *** Boruvka: the tree *)

(** X27. [mstBoruvka] in a single-process cohort, on a well-formed
    connected graph without an edge of weight [INT_MAX]: the call returns
    after at most [⌈log2 V⌉] phases with [V - 1] edges, each of them an edge
    of the input, and they link every two vertices: the output is a
    spanning tree. *)
Theorem mstBoruvka_spanning_tree fuel graph :
  graph_wf graph → connected graph →
  (∀ e, e ∈ edgeList graph → edge_weight e ≠ INT_MAX) →
  (Z.to_nat (vertices graph) ≤ fuel)%nat →
  ∃ mst phases,
    mstBoruvka fuel graph
      (newWeightedGraph (vertices graph) (vertices graph - 1))
    = Some (mst, vertices graph - 1, phases) ∧
    0 ≤ phases ≤ Z.log2_up (vertices graph) ∧
    Z.of_nat (length (edgeList mst)) = vertices graph - 1 ∧
    (∀ e, e ∈ edgeList mst → e ∈ edgeList graph) ∧
    (∀ u v, 0 ≤ u < vertices graph → 0 ≤ v < vertices graph →
            joined (edgeList mst) u v).
Proof.
  intros Hwf Hconn Hw Hfuel. unfold mstBoruvka.
  pose proof (wf_vertices _ Hwf) as HV.
  replace ((edges graph + 1 - 1) ÷ 1) with (edges graph)
    by (rewrite Z.quot_1_r; lia).
  destruct (boruvka_phases_spec graph Hwf fuel Hfuel
              (Z.to_nat (vertices graph - 1)) fuel (newSet (vertices graph))
              (replicate (Z.to_nat (vertices graph)) (mkSlot None None None))
              (edgeList (newWeightedGraph (vertices graph) (vertices graph - 1)))
              0 1 0)
    as (mst' & n' & phases' & -> & (set' & ce' & Hfin) & Hph & Hn & Hor & Hn');
    [lia|lia|lia|done|apply Z.log2_up_nonneg|by apply phase_inv_init|].
  specialize (Hn' Hconn Hw). rewrite newSet_nroots in Hn' by lia.
  specialize (Hn' ltac:(lia)). subst n'.
  destruct Hfin as [Hf Hel _ Hlen Hcount Hsub Htree].
  assert (take (Z.to_nat (vertices graph - 1)) mst' = mst') as Hall
    by (apply take_ge; lia).
  rewrite Hall in Hsub, Htree.
  cbn [mbind option_bind]. eexists _, _. split; [done|]. simpl.
  split_and!; [lia|lia|done|done|].
  intros u v Hu Hv. apply Htree.
  destruct (forest_reach _ Hf u) as [ru Hru]; [lia|].
  destruct (forest_reach _ Hf v) as [rv Hrv]; [lia|].
  destruct (decide (ru = rv)) as [->|Hne]; [by exists rv|].
  pose proof (nroots_ge_2 _ _ _ (root_of_is_root _ _ _ Hru)
                (root_of_is_root _ _ _ Hrv) Hne). lia.
Qed.

(** X27 on the triangle. *)
Lemma mstBoruvka_spanning_tree_witness :
  ∃ mst phases,
    mstBoruvka 3 triangle
      (newWeightedGraph (vertices triangle) (vertices triangle - 1))
    = Some (mst, vertices triangle - 1, phases) ∧
    0 ≤ phases ≤ Z.log2_up (vertices triangle) ∧
    Z.of_nat (length (edgeList mst)) = vertices triangle - 1 ∧
    (∀ e, e ∈ edgeList mst → e ∈ edgeList triangle) ∧
    (∀ u v, 0 ≤ u < vertices triangle → 0 ≤ v < vertices triangle →
            joined (edgeList mst) u v).
Proof.
  apply (mstBoruvka_spanning_tree 3 triangle);
    [apply triangle_wf|apply triangle_connected| |simpl; lia].
  intros e He. unfold triangle in He. simpl in He.
  repeat (apply elem_of_cons in He as [->|He]; [by vm_compute|]).
  by apply elem_of_nil in He.
Defined.
(** *** Minimum spanning trees *)

(** The sum of the weights, as [main] adds them up. *)
Definition total_weight (es : list Edge) : Z :=
  foldr (λ e s, edge_weight e + s) 0 es.

Definition in_range (V : Z) (es : list Edge) : Prop :=
  ∀ e, e ∈ es → 0 ≤ edge_from e < V ∧ 0 ≤ edge_to e < V.

(** [parts V es c]: the edges [es] split the vertices [0..V-1] into [c]
    sets.  The sets are counted by a disjoint-set forest that joins exactly
    what [es] links. *)
Definition parts (V : Z) (es : list Edge) (c : Z) : Prop :=
  in_range V es ∧
  ∃ set, forest set ∧ elements set = V ∧
    (∀ x y, same (canonicalElements set) x y ↔
            0 ≤ x < V ∧ 0 ≤ y < V ∧ joined es x y) ∧
    nroots (canonicalElements set) = c.

(** A walk stays inside a relation that holds along every edge. *)
Lemma joined_closed es (Rel : Z → Z → Prop) x y :
  (∀ a b, Rel a b → Rel b a) →
  (∀ a b c, Rel a b → Rel b c → Rel a c) →
  (∀ e, e ∈ es → Rel (edge_from e) (edge_to e)) →
  joined es x y → x = y ∨ Rel x y.
Proof.
  intros Hsym Htrans Hedge. induction 1 as [u|e He|u v _ IH|u v w _ IH1 _ IH2].
  - by left.
  - right. by apply Hedge.
  - destruct IH as [->|IH]; [by left|right; by apply Hsym].
  - destruct IH1 as [->|IH1]; [done|].
    destruct IH2 as [<-|IH2]; [by right|right; by eapply Htrans].
Qed.

Lemma parts_nil V : 0 ≤ V → parts V [] V.
Proof.
  intros HV. split; [by intros e ?%elem_of_nil|].
  exists (newSet V). split_and!.
  - by apply newSet_forest.
  - done.
  - intros x y. split.
    + intros Hxy. pose proof (newSet_same V x y HV Hxy) as [-> Hx].
      (split; [done|split; [done|apply joined_refl]]).
    + intros (Hx & Hy & Hj).
      destruct (joined_closed [] (λ _ _, False) x y) as [->|[]];
        [done|done|by intros e ?%elem_of_nil|done|].
      apply same_refl; [by apply newSet_forest|done].
  - by apply newSet_nroots.
Qed.

(** One more edge joins two of the sets or none. *)
Lemma parts_snoc V es e c :
  parts V es c → 0 ≤ edge_from e < V → 0 ≤ edge_to e < V →
  ∃ c', parts V (es ++ [e]) c' ∧ c - 1 ≤ c' ≤ c.
Proof.
  intros (Hr & set & Hf & Hel & Hsame & Hc) Ha Hb.
  destruct (unionSet_partition set (edge_from e) (edge_to e) Hf)
    as (set' & _ & Hf' & Hel' & Hpart & Hn0 & Hn1); [lia|lia|].
  assert (in_range V (es ++ [e])) as Hr'.
  { intros e' [He'| ->%list_elem_of_singleton]%elem_of_app; [by apply Hr|done]. }
  exists (nroots (canonicalElements set')). split.
  - split; [done|]. exists set'. split_and!; [done|congruence| |done].
    intros x y. split.
    + intros Hxy. apply Hpart in Hxy. rewrite !Hsame in Hxy.
      destruct Hxy as [(Hx & Hy & Hj)|[[(Hx & _ & Hj1) (Hy & _ & Hj2)]
                                      |[(Hx & _ & Hj1) (Hy & _ & Hj2)]]];
        (split; [done|]); (split; [done|]).
      * eapply joined_mono; [|done]. set_solver.
      * eapply joined_trans; [eapply joined_mono; [|exact Hj1]; set_solver|].
        eapply joined_trans; [apply joined_edge; set_solver|].
        apply joined_sym. eapply joined_mono; [|exact Hj2]. set_solver.
      * eapply joined_trans; [eapply joined_mono; [|exact Hj1]; set_solver|].
        eapply joined_trans; [apply joined_sym, joined_edge; set_solver|].
        apply joined_sym. eapply joined_mono; [|exact Hj2]. set_solver.
    + intros (Hx & Hy & Hj).
      assert (∀ u, 0 ≤ u < V → same (canonicalElements set') u u) as Hrefl.
      { intros u Hu. apply same_refl; [done|lia]. }
      destruct (joined_closed (es ++ [e]) (same (canonicalElements set')) x y)
        as [->|Hxy]; [apply same_sym|apply same_trans| |done|by apply Hrefl|done].
      intros e' [He'| ->%list_elem_of_singleton]%elem_of_app.
      * apply Hpart. left. apply Hsame. destruct (Hr e' He').
        (split; [done|split; [done|by apply joined_edge]]).
      * apply Hpart. right. left.
        split; apply Hsame; ((split; [done|split; [done|apply joined_refl]])).
  - destruct (forest_reach _ Hf (edge_from e)) as [ra Hra]; [lia|].
    destruct (forest_reach _ Hf (edge_to e)) as [rb Hrb]; [lia|].
    destruct (decide (ra = rb)) as [->|Hne].
    + rewrite Hn0 by (by exists rb). lia.
    + rewrite Hn1; [lia|]. intros (r & Hr1 & Hr2). apply Hne.
      by rewrite (root_of_det _ _ _ _ Hra Hr1), (root_of_det _ _ _ _ Hrb Hr2).
Qed.

(** Further edges: each of them lowers the number of sets by one at
    most. *)
Lemma parts_app V es : ∀ es' c,
  parts V es c → in_range V es' →
  ∃ c', parts V (es ++ es') c' ∧ c - Z.of_nat (length es') ≤ c' ≤ c.
Proof.
  induction es' as [|e es' IH] using rev_ind; intros c Hp Hr.
  { exists c. rewrite app_nil_r. split; [done|simpl; lia]. }
  destruct (IH c Hp) as (c1 & Hp1 & Hc1).
  { intros e' He'. apply Hr. set_solver. }
  destruct (parts_snoc V (es ++ es') e c1 Hp1) as (c2 & Hp2 & Hc2);
    [apply Hr; set_solver..|].
  exists c2. rewrite app_assoc. split; [done|]. rewrite length_app. simpl. lia.
Qed.

Lemma parts_exists V es :
  0 ≤ V → in_range V es →
  ∃ c, parts V es c ∧ V - Z.of_nat (length es) ≤ c ≤ V.
Proof.
  intros HV Hr.
  destruct (parts_app V [] es V (parts_nil V HV) Hr) as (c & Hp & Hc).
  by exists c.
Qed.

(** Edges that link more leave fewer sets. *)
Lemma parts_mono V es es' c c' :
  parts V es c → parts V es' c' →
  (∀ x y, 0 ≤ x < V → 0 ≤ y < V → joined es x y → joined es' x y) →
  c' ≤ c.
Proof.
  intros (_ & set & Hf & Hel & Hsame & <-) (_ & set' & Hf' & Hel' & Hsame' & <-)
    Hsub.
  destruct (pairing_partners
    (λ r' r, is_root (canonicalElements set') r' ∧
             root_of (canonicalElements set) r' r)
    (roots (canonicalElements set)) [])
    with (l1 := roots (canonicalElements set'))
    as (l & Hlen & Hnd & Hl).
  - intros x x' y [Hx Hxy] [Hx' Hxy'].
    assert (same (canonicalElements set) x x') as Hs by (by exists y).
    apply Hsame in Hs as (Hxr & Hxr' & Hj).
    assert (same (canonicalElements set') x x') as Hs'
      by (apply Hsame'; split; [done|split; [done|by apply Hsub]]).
    destruct (decide (x = x')) as [|Hne]; [done|].
    by destruct (distinct_roots_not_same _ _ _ Hx Hx' Hne).
  - apply NoDup_roots.
  - intros r' Hr'%elem_of_roots.
    assert (0 ≤ r' < elements set) as Hrange.
    { apply rd_Some_range in Hr'. rewrite (forest_len_ce _ Hf') in Hr'. lia. }
    destruct (forest_reach _ Hf r' Hrange) as [r Hr].
    exists r. split; [apply elem_of_roots; by eapply root_of_is_root|].
    split; [apply not_elem_of_nil|done].
  - assert (l ⊆+ roots (canonicalElements set)) as Hle%submseteq_length.
    { apply NoDup_submseteq; [done|]. intros y Hy. by apply Hl. }
    unfold nroots. lia.
Qed.

Lemma parts_unique V es c c' : parts V es c → parts V es c' → c = c'.
Proof.
  intros H H'.
  pose proof (parts_mono V es es c c' H H' ltac:(done)).
  pose proof (parts_mono V es es c' c H' H ltac:(done)). lia.
Qed.

(** Edges that link all vertices leave one set. *)
Lemma parts_connected V es c :
  1 ≤ V → parts V es c →
  (∀ u v, 0 ≤ u < V → 0 ≤ v < V → joined es u v) → c = 1.
Proof.
  intros HV (_ & set & Hf & Hel & Hsame & <-) Hconn.
  destruct (forest_reach _ Hf 0) as [r Hr]; [lia|].
  apply (nroots_one _ r); [by eapply root_of_is_root|].
  intros b Hb.
  assert (0 ≤ b < V) as Hbr.
  { apply rd_Some_range in Hb. rewrite (forest_len_ce _ Hf) in Hb. lia. }
  assert (same (canonicalElements set) 0 b) as (q & H0 & Hq).
  { apply Hsame. split; [lia|split; [done|]]. apply Hconn; [lia|done]. }
  pose proof (root_of_det _ _ _ _ (root_of_root _ _ Hb) Hq).
  pose proof (root_of_det _ _ _ _ Hr H0). congruence.
Qed.

(** To link all vertices, the sets left by [es] need one more edge each,
    but for one. *)
Lemma parts_bridge V es es' c :
  1 ≤ V → parts V es c → in_range V es' →
  (∀ u v, 0 ≤ u < V → 0 ≤ v < V → joined (es ++ es') u v) →
  c - 1 ≤ Z.of_nat (length es').
Proof.
  intros HV Hp Hr Hconn.
  destruct (parts_app V es es' c Hp Hr) as (c' & Hp' & Hc').
  rewrite (parts_connected V _ c' HV Hp' Hconn) in Hc'. lia.
Qed.

(** In a spanning tree every part of the edges leaves as many sets as it
    can. *)
Lemma parts_tree V T A B c :
  1 ≤ V → T ≡ₚ A ++ B → in_range V T →
  Z.of_nat (length T) = V - 1 →
  (∀ u v, 0 ≤ u < V → 0 ≤ v < V → joined T u v) →
  parts V A c → c = V - Z.of_nat (length A).
Proof.
  intros HV Hperm Hr Hlen Hconn Hp.
  assert (in_range V A) as HrA by apply Hp.
  assert (in_range V B) as HrB.
  { intros e He. apply Hr. rewrite Hperm. set_solver. }
  destruct (parts_exists V A ltac:(lia) HrA) as (c0 & Hp0 & Hc0).
  rewrite (parts_unique V A c c0 Hp Hp0).
  pose proof (parts_bridge V A B c0 HV Hp0 HrB) as Hb.
  rewrite (Permutation_length Hperm), length_app in Hlen.
  specialize (Hb ltac:(intros u v Hu Hv; eapply joined_perm; [exact Hperm|];
                       by apply Hconn)). lia.
Qed.

(** The edges heavier than [t]. *)
Definition heavier (t : Z) (es : list Edge) : Z :=
  Z.of_nat (length (filter (λ e, ¬ edge_weight e ≤ t) es)).

Definition lighter (t : Z) (es : list Edge) : list Edge :=
  filter (λ e, edge_weight e ≤ t) es.

Lemma heavier_lighter t es :
  heavier t es = Z.of_nat (length es) - Z.of_nat (length (lighter t es)).
Proof.
  unfold heavier, lighter.
  pose proof (filter_app_complement (λ e, edge_weight e ≤ t) es) as Hp.
  apply Permutation_length in Hp. rewrite length_app in Hp. lia.
Qed.

(** The cycle condition bounds the heavy edges of a spanning tree [T] by
    those of any set of edges [T'] that links all vertices. *)
Lemma heavier_le V T T' t :
  1 ≤ V → in_range V T → in_range V T' →
  Z.of_nat (length T) = V - 1 →
  (∀ u v, 0 ≤ u < V → 0 ≤ v < V → joined T u v) →
  (∀ u v, 0 ≤ u < V → 0 ≤ v < V → joined T' u v) →
  (∀ e, e ∈ T' → joined (lighter (edge_weight e) T) (edge_from e) (edge_to e)) →
  heavier t T ≤ heavier t T'.
Proof.
  intros HV Hr Hr' Hlen Hconn Hconn' Hcycle.
  assert (∀ es, in_range V es → in_range V (lighter t es)) as Hrl.
  { intros es H e [_ He]%list_elem_of_filter. by apply H. }
  destruct (parts_exists V (lighter t T) ltac:(lia) (Hrl T Hr))
    as (c & Hp & _).
  destruct (parts_exists V (lighter t T') ltac:(lia) (Hrl T' Hr'))
    as (c' & Hp' & _).
  pose proof (filter_app_complement (λ e, edge_weight e ≤ t) T) as HpT.
  pose proof (filter_app_complement (λ e, edge_weight e ≤ t) T') as HpT'.
  pose proof (parts_tree V T _ _ c HV (symmetry HpT) Hr Hlen Hconn Hp) as Hc.
  assert (c ≤ c') as Hcc.
  { apply (parts_mono V (lighter t T') (lighter t T)); [done|done|].
    intros x y _ _ Hj.
    destruct (joined_closed (lighter t T') (joined (lighter t T)) x y)
      as [->|H]; [apply joined_sym|apply joined_trans| |done|apply joined_refl
                 |done].
    intros e [Hw He]%list_elem_of_filter.
    eapply joined_mono; [|by apply Hcycle]. intros g [Hg Hin]%list_elem_of_filter.
    apply list_elem_of_filter. split; [lia|done]. }
  assert (c' - 1 ≤ heavier t T') as Hb.
  { apply (parts_bridge V (lighter t T')); [done|done| |].
    - intros e [_ He]%list_elem_of_filter. by apply Hr'.
    - intros u v Hu Hv. eapply joined_perm; [symmetry; exact HpT'|].
      by apply Hconn'. }
  rewrite (heavier_lighter t T). lia.
Qed.

(** The weights cut off at [M]. *)
Definition capped (M : Z) (es : list Edge) : Z :=
  foldr (λ e s, Z.min (edge_weight e) M + s) 0 es.

Lemma capped_succ M es : capped (M + 1) es = capped M es + heavier M es.
Proof.
  unfold capped, heavier. induction es as [|e es IH]; [done|].
  cbn [foldr]. rewrite IH, filter_cons. case_decide; simpl; lia.
Qed.

Lemma capped_zero es : (∀ e, e ∈ es → 0 ≤ edge_weight e) → capped 0 es = 0.
Proof.
  unfold capped. induction es as [|e es IH]; intros H; [done|].
  cbn [foldr]. rewrite IH by (intros; apply H; set_solver).
  specialize (H e ltac:(set_solver)). lia.
Qed.

Lemma capped_total M es :
  (∀ e, e ∈ es → edge_weight e ≤ M) → capped M es = total_weight es.
Proof.
  unfold capped, total_weight. induction es as [|e es IH]; intros H; [done|].
  cbn [foldr]. rewrite IH by (intros; apply H; set_solver).
  specialize (H e ltac:(set_solver)). lia.
Qed.

(** A spanning tree that satisfies the cycle condition towards the edges of
    [T'] is not heavier than [T'], whenever [T'] links all vertices. *)
Lemma cycle_condition_minimal V T T' :
  1 ≤ V → in_range V T → in_range V T' →
  (∀ e, e ∈ T → 0 ≤ edge_weight e ≤ INT_MAX) →
  (∀ e, e ∈ T' → 0 ≤ edge_weight e ≤ INT_MAX) →
  Z.of_nat (length T) = V - 1 →
  (∀ u v, 0 ≤ u < V → 0 ≤ v < V → joined T u v) →
  (∀ u v, 0 ≤ u < V → 0 ≤ v < V → joined T' u v) →
  (∀ e, e ∈ T' → joined (lighter (edge_weight e) T) (edge_from e) (edge_to e)) →
  total_weight T ≤ total_weight T'.
Proof.
  intros HV Hr Hr' Hw Hw' Hlen Hconn Hconn' Hcycle.
  assert (∀ M : nat, capped (Z.of_nat M) T ≤ capped (Z.of_nat M) T') as Hcap.
  { induction M as [|M IH].
    - rewrite !capped_zero; [done|intros e He; by apply Hw'
                             |intros e He; by apply Hw].
    - replace (Z.of_nat (S M)) with (Z.of_nat M + 1) by lia.
      rewrite !capped_succ.
      pose proof (heavier_le V T T' (Z.of_nat M) HV Hr Hr' Hlen Hconn Hconn'
                    Hcycle). lia. }
  specialize (Hcap (Z.to_nat INT_MAX)).
  replace (Z.of_nat (Z.to_nat INT_MAX)) with INT_MAX in Hcap
    by (unfold INT_MAX; lia).
  rewrite !capped_total in Hcap; [done|intros e He; by apply Hw'
                                  |intros e He; by apply Hw].
Qed.

(** A tree grown along lightest edges satisfies the cycle condition: the
    ends of every edge [e] of the graph are linked by tree edges that are
    not heavier than [e]. *)
Lemma prim_tree_cycle G V T e :
  in_range V G → prim_tree G T →
  (∀ v, 0 ≤ v < V → v ∈ reached T) →
  e ∈ G →
  joined (lighter (edge_weight e) T) (edge_from e) (edge_to e).
Proof.
  intros Hr Htree Hall He. set (t := edge_weight e).
  assert (∀ k, reached (take k T) = take (S k) (reached T)) as Htake.
  { intros k. unfold reached. by rewrite fmap_take. }
  assert (∀ q m x y, (m < q)%nat →
            reached T !! m = Some x → reached T !! q = Some y →
            joined (lighter t G) x y → joined (lighter t T) x y) as Hclaim.
  { induction q as [q IH] using lt_wf_ind. intros m x y Hm Hx Hy Hj.
    destruct q as [|k]; [lia|].
    assert (∃ f, T !! k = Some f ∧ edge_from f = y) as (f & Hf & Hfy).
    { unfold reached in Hy. simpl in Hy.
      apply list_lookup_fmap_Some in Hy as (f & Hf & ->). by exists f. }
    destruct (Htree k f Hf) as (Hto & Hfrom & (g & Hg & Hlk & Hwg) & Hmin).
    rewrite Htake in Hto, Hfrom, Hmin. rewrite Hfy in *.
    assert (x ∈ take (S k) (reached T)) as HxR.
    { apply (list_elem_of_lookup_2 _ m). rewrite lookup_take_lt by lia. done. }
    destruct (joined_leaves (lighter t G) (take (S k) (reached T)) x y)
      as (g0 & u & v & [Hw0 Hg0]%list_elem_of_filter & Hlk0 & Hu & Hv);
      [done|done|done|].
    specialize (Hmin g0 u v Hg0 Hlk0 Hu Hv).
    assert (f ∈ lighter t T) as HfT.
    { apply list_elem_of_filter. split; [lia|by eapply list_elem_of_lookup_2]. }
    assert (joined (lighter t T) y (edge_to f)) as Hyv.
    { rewrite <-Hfy. by apply joined_edge. }
    assert (joined (lighter t G) (edge_to f) y) as Hvy.
    { assert (g ∈ lighter t G) as HgG
        by (apply list_elem_of_filter; split; [lia|done]).
      destruct Hlk as [[<- <-]|[<- <-]];
        [by apply joined_edge|by apply joined_sym, joined_edge]. }
    apply list_elem_of_lookup_1 in Hto as (j & Hj').
    assert (j < S k)%nat as Hjk.
    { apply lookup_lt_Some in Hj'. rewrite length_take in Hj'. lia. }
    rewrite lookup_take_lt in Hj' by lia.
    destruct (lt_eq_lt_dec j m) as [[Hlt| ->]|Hgt].
    - eapply joined_trans; [|apply joined_sym, Hyv].
      apply joined_sym. apply (IH m ltac:(lia) j (edge_to f) x); [done..|].
      eapply joined_trans; [exact Hvy|by apply joined_sym].
    - assert (edge_to f = x) as <- by congruence. by apply joined_sym.
    - eapply joined_trans; [|apply joined_sym, Hyv].
      apply (IH j ltac:(lia) m x (edge_to f)); [done..|].
      eapply joined_trans; [exact Hj|by apply joined_sym]. }
  destruct (Hr e He) as [Ha Hb].
  apply Hall in Ha as Hia. apply Hall in Hb as Hib.
  apply list_elem_of_lookup_1 in Hia as (ia & Hia).
  apply list_elem_of_lookup_1 in Hib as (ib & Hib).
  assert (joined (lighter t G) (edge_from e) (edge_to e)) as Hj.
  { apply joined_edge. apply list_elem_of_filter. split; [unfold t; lia|done]. }
  destruct (lt_eq_lt_dec ia ib) as [[Hlt| ->]|Hgt].
  - by apply (Hclaim ib ia).
  - assert (edge_from e = edge_to e) as -> by congruence. apply joined_refl.
  - apply joined_sym. apply (Hclaim ia ib); [done..|by apply joined_sym].
Qed.

(** The edges of a tree grown along edges of the graph are in range and
    carry weights of the graph. *)
Lemma prim_tree_edges graph T e :
  graph_wf graph → prim_tree (edgeList graph) T → e ∈ T →
  (0 ≤ edge_from e < vertices graph ∧ 0 ≤ edge_to e < vertices graph) ∧
  0 ≤ edge_weight e ≤ INT_MAX.
Proof.
  intros Hwf Htree (k & Hk)%list_elem_of_lookup_1.
  destruct (Htree k e Hk) as (_ & _ & (g & Hg & Hlk & Hw) & _).
  destruct (wf_range _ Hwf g Hg) as [? ?].
  pose proof (wf_weight _ Hwf g Hg).
  split; [|lia]. destruct Hlk as [[<- <-]|[<- <-]]; lia.
Qed.

(** A tree grown along lightest edges is not heavier than any set of
    edges of the graph that links all vertices. *)
Lemma prim_tree_minimal graph T T' :
  graph_wf graph → prim_tree (edgeList graph) T →
  Z.of_nat (length T) = vertices graph - 1 →
  (∀ v, 0 ≤ v < vertices graph → v ∈ reached T) →
  (∀ e, e ∈ T' → e ∈ edgeList graph) →
  (∀ u v, 0 ≤ u < vertices graph → 0 ≤ v < vertices graph → joined T' u v) →
  total_weight T ≤ total_weight T'.
Proof.
  intros Hwf Htree Hlen Hall Hsub Hconn'.
  apply (cycle_condition_minimal (vertices graph)).
  - apply (wf_vertices _ Hwf).
  - intros e He. by apply (prim_tree_edges graph T e).
  - intros e He. by apply (wf_range _ Hwf), Hsub.
  - intros e He. by apply (prim_tree_edges graph T e).
  - intros e He. by apply (wf_weight _ Hwf), Hsub.
  - done.
  - intros u v Hu Hv. eapply joined_trans.
    + apply joined_sym, (prim_tree_joined (edgeList graph)); [done|by apply Hall].
    + apply (prim_tree_joined (edgeList graph)); [done|by apply Hall].
  - done.
  - intros e He. apply (prim_tree_cycle (edgeList graph) (vertices graph));
      [exact (wf_range _ Hwf)|done|done|by apply Hsub].
Qed.

(** X28. The tree that [main] obtains with the selectors 0 (Kruskal), 1
    (Prim with the Fibonacci heap) and 2 (Prim with the binary heap) in a
    single-process cohort is a minimum spanning tree: on a well-formed
    connected graph with at least one edge and no edge of weight [INT_MAX]
    the selected algorithm returns [V - 1] edges that link every two
    vertices, and their total weight is at most the total weight of any
    collection of edges of the input that links every two vertices. *)
Theorem mst_of_minimum fuel out0 algorithm graph :
  graph_wf graph → connected graph → 1 ≤ edges graph →
  (∀ e, e ∈ edgeList graph → edge_weight e ≠ INT_MAX) →
  0 ≤ algorithm ≤ 2 →
  vertices graph + FibonacciHeap.degreeSize (vertices graph)
  ≤ Z.of_nat fuel →
  edges graph < Z.of_nat fuel →
  ∃ mst,
    mst_of fuel out0 algorithm graph = Some (mst, vertices graph - 1) ∧
    Z.of_nat (length (edgeList mst)) = vertices graph - 1 ∧
    (∀ u v, 0 ≤ u < vertices graph → 0 ≤ v < vertices graph →
            joined (edgeList mst) u v) ∧
    (∀ T', (∀ e, e ∈ T' → e ∈ edgeList graph) →
           (∀ u v, 0 ≤ u < vertices graph → 0 ≤ v < vertices graph →
                   joined T' u v) →
           total_weight (edgeList mst) ≤ total_weight T').
Proof.
  intros Hwf Hconn HE Hw Halg HfV HfE.
  pose proof (wf_vertices _ Hwf) as HV.
  pose proof (FibonacciHeap.degreeSize_pos (vertices graph)) as HDS.
  assert (Z.of_nat (length (edgeList
            (newWeightedGraph (vertices graph) (vertices graph - 1))))
          = vertices graph - 1) as Hlen0.
  { simpl. rewrite length_replicate. lia. }
  unfold mst_of. repeat case_decide; try lia.
  - destruct (mstKruskal_tree fuel graph)
      as (mst & -> & Hlen & Hsub & Hjoin & Hcycle); [done|done|done|lia|lia|].
    exists mst. split_and!; [done|done|done|].
    intros T' Hsub' Hconn'.
    apply (cycle_condition_minimal (vertices graph)); try done.
    + intros e He. by apply (wf_range _ Hwf), Hsub.
    + intros e He. by apply (wf_range _ Hwf), Hsub'.
    + intros e He. by apply (wf_weight _ Hwf), Hsub.
    + intros e He. by apply (wf_weight _ Hwf), Hsub'.
    + intros e He. by apply Hcycle, Hsub'.
  - destruct (mstPrimFibonacci_tree fuel out0 graph
                (newWeightedGraph (vertices graph) (vertices graph - 1)))
      as (mst & -> & Hlen & Htree & Hall); [done|done|done|done|done|].
    assert (Z.of_nat (length (edgeList mst)) = vertices graph - 1) as Hlen'
      by (by rewrite Hlen).
    exists mst. split_and!; [done|done| |].
    + intros u v Hu Hv. eapply joined_trans.
      * apply joined_sym, (prim_tree_joined (edgeList graph));
          [done|by apply Hall].
      * apply (prim_tree_joined (edgeList graph)); [done|by apply Hall].
    + intros T' Hsub' Hconn'. by apply (prim_tree_minimal graph).
  - destruct (mstPrimBinary_tree fuel graph
                (newWeightedGraph (vertices graph) (vertices graph - 1)))
      as (mst & -> & Hlen & Htree & Hall); [done|done|done|done|lia|].
    assert (Z.of_nat (length (edgeList mst)) = vertices graph - 1) as Hlen'
      by (by rewrite Hlen).
    exists mst. split_and!; [done|done| |].
    + intros u v Hu Hv. eapply joined_trans.
      * apply joined_sym, (prim_tree_joined (edgeList graph));
          [done|by apply Hall].
      * apply (prim_tree_joined (edgeList graph)); [done|by apply Hall].
    + intros T' Hsub' Hconn'. by apply (prim_tree_minimal graph).
Qed.

(** X28 on the triangle, with Prim on the binary heap. *)
Lemma mst_of_minimum_witness :
  ∃ mst,
    mst_of 10 (0, 0, 0) 2 triangle = Some (mst, vertices triangle - 1) ∧
    Z.of_nat (length (edgeList mst)) = vertices triangle - 1 ∧
    (∀ u v, 0 ≤ u < vertices triangle → 0 ≤ v < vertices triangle →
            joined (edgeList mst) u v) ∧
    (∀ T', (∀ e, e ∈ T' → e ∈ edgeList triangle) →
           (∀ u v, 0 ≤ u < vertices triangle → 0 ≤ v < vertices triangle →
                   joined T' u v) →
           total_weight (edgeList mst) ≤ total_weight T').
Proof.
  apply (mst_of_minimum 10 (0, 0, 0) 2 triangle);
    [apply triangle_wf|apply triangle_connected|simpl; lia|
    |lia|vm_compute; by intros ?|simpl; lia].
  intros e He. unfold triangle in He. simpl in He.
  repeat (apply elem_of_cons in He as [->|He]; [by vm_compute|]).
  by apply elem_of_nil in He.
Defined.

End MST.
